(** * embed-sync: directive scanning, declaration extraction and rewriting

    A shallow embedding of [src/index.ts].  JavaScript strings are sequences
    of UTF-16 code units; offsets are JavaScript numbers, modelled as [Z]
    (the code uses [-1] as a sentinel).  Regular expressions are embedded as
    syntax trees interpreted by a backtracking matcher that follows the
    ECMAScript matching order. *)

From Stdlib Require Import ZArith NArith List Bool Lia Ascii String Permutation Sorted.
Import ListNotations.


(* ------------------------------------------------------------------ *)
(** ** JavaScript strings *)

Module Js.

(** A UTF-16 code unit. *)
Definition char := N.
Definition jsstring := list char.

Definition chr (a : ascii) : char := N_of_ascii a.

(** A string literal of the source whose characters are all ASCII. *)
Fixpoint str (s : string) : jsstring :=
  match s with
  | EmptyString => []
  | String a t => chr a :: str t
  end.

Definition LF : char := 10%N.
Definition QUOTE : char := 34%N.
Definition BACKSLASH : char := 92%N.

Fixpoint eqs (a b : jsstring) : bool :=
  match a, b with
  | [], [] => true
  | x :: a', y :: b' => N.eqb x y && eqs a' b'
  | _, _ => false
  end.

Definition length (s : jsstring) : Z := Z.of_nat (List.length s).

(** Clamping of an index argument to [0 .. s.length]. *)
Definition clamp (s : jsstring) (i : Z) : nat :=
  Nat.min (Z.to_nat i) (List.length s).

(** [s.substring(a, b)]: both ends are clamped and swapped when [a > b]. *)
Definition substring (s : jsstring) (a b : Z) : jsstring :=
  let a' := clamp s a in
  let b' := clamp s b in
  let lo := Nat.min a' b' in
  let hi := Nat.max a' b' in
  firstn (hi - lo) (skipn lo s).

(** [s.substring(a)]. *)
Definition substring_from (s : jsstring) (a : Z) : jsstring :=
  skipn (clamp s a) s.

(** [s.slice(a)]: a negative start counts from the end. *)
Definition slice_from (s : jsstring) (a : Z) : jsstring :=
  if (a <? 0)%Z then skipn (Z.to_nat (Z.max (length s + a) 0)) s
  else skipn (clamp s a) s.

(** [s.startsWith(p)]. *)
Fixpoint startsWith (s p : jsstring) : bool :=
  match p, s with
  | [], _ => true
  | x :: p', y :: s' => N.eqb x y && startsWith s' p'
  | _ :: _, [] => false
  end.

Fixpoint find_from (p s : jsstring) (i : nat) : option nat :=
  if startsWith s p then Some i
  else match s with
       | [] => None
       | _ :: t => find_from p t (S i)
       end.

(** [s.indexOf(p, from)]. *)
Definition indexOf (s p : jsstring) (from : Z) : Z :=
  let k := clamp s from in
  match find_from p (skipn k s) k with
  | Some i => Z.of_nat i
  | None => (-1)%Z
  end.

(** WhiteSpace and LineTerminator code units: what [\s] matches and what
    [trim] removes. *)
Definition is_space (c : char) : bool :=
  ((9 <=? c) && (c <=? 13) || (c =? 32) || (c =? 160) || (c =? 5760)
   || (8192 <=? c) && (c <=? 8202) || (c =? 8232) || (c =? 8233)
   || (c =? 8239) || (c =? 8287) || (c =? 12288) || (c =? 65279))%N.

Fixpoint trimStart (s : jsstring) : jsstring :=
  match s with
  | c :: t => if is_space c then trimStart t else s
  | [] => []
  end.

Definition trimEnd (s : jsstring) : jsstring := rev (trimStart (rev s)).

Definition trim (s : jsstring) : jsstring := trimEnd (trimStart s).

(** [s.split("\n")]: never empty, [""] splits into [[""]]. *)
Fixpoint split_lines (s : jsstring) : list jsstring :=
  match s with
  | [] => [[]]
  | c :: t =>
      if N.eqb c LF then [] :: split_lines t
      else match split_lines t with
           | l :: ls => (c :: l) :: ls
           | [] => [[c]]
           end
  end.

(** [parts.join("\n")]. *)
Fixpoint join_lines (parts : list jsstring) : jsstring :=
  match parts with
  | [] => []
  | [p] => p
  | p :: ps => p ++ LF :: join_lines ps
  end.

(** [s[i]], [None] standing for [undefined]. *)
Definition charAt (s : jsstring) (i : nat) : option char := nth_error s i.

End Js.

Import Js.

(* ------------------------------------------------------------------ *)
(** ** Regular expressions *)

Module Regex.

(** The fragment of the pattern language that the source uses. *)
Inductive regex : Type :=
| Eps
| Chr (p : char -> bool)
| Seq (r1 r2 : regex)
| Alt (r1 r2 : regex)
| Star (greedy : bool) (r : regex)
| Opt (r : regex)
| Group (n : nat) (r : regex).

Definition Plus (greedy : bool) (r : regex) : regex := Seq r (Star greedy r).

Fixpoint Lit (s : jsstring) : regex :=
  match s with
  | [] => Eps
  | c :: t => Seq (Chr (N.eqb c)) (Lit t)
  end.

Fixpoint Seqs (rs : list regex) : regex :=
  match rs with
  | [] => Eps
  | [r] => r
  | r :: rs' => Seq r (Seqs rs')
  end.

Fixpoint Alts (rs : list regex) : regex :=
  match rs with
  | [] => Eps
  | [r] => r
  | r :: rs' => Alt r (Alts rs')
  end.

(** Character classes. *)
Definition mem (c : char) (l : jsstring) : bool := existsb (N.eqb c) l.
Definition cls_s : char -> bool := is_space.
Definition cls_S (c : char) : bool := negb (is_space c).
Definition cls_w (c : char) : bool :=
  ((48 <=? c) && (c <=? 57) || (65 <=? c) && (c <=? 90)
   || (97 <=? c) && (c <=? 122) || (c =? 95))%N.
Definition none_of (l : jsstring) (c : char) : bool := negb (mem c l).

(** Matcher state: the unread input and the captures made so far. *)
Record mstate : Type := { rest : jsstring; caps : list (nat * jsstring) }.

(** Ordered choice: the second alternative is tried only when the first
    fails. *)
Notation "a <|> b" :=
  (match a with Some x => Some x | None => b end)
  (at level 60, right associativity, only parsing).

Fixpoint groups_of (r : regex) : list nat :=
  match r with
  | Eps | Chr _ => []
  | Seq a b | Alt a b => groups_of a ++ groups_of b
  | Star _ a | Opt a => groups_of a
  | Group n a => n :: groups_of a
  end.

(** Captures of a quantified atom are reset at the start of each iteration. *)
Definition clear (r : regex) (st : mstate) : mstate :=
  {| rest := rest st;
     caps := filter (fun c => negb (existsb (Nat.eqb (fst c)) (groups_of r))) (caps st) |}.

Definition same_pos (a b : mstate) : bool :=
  Nat.eqb (List.length (rest a)) (List.length (rest b)).

Definition cont : Type := mstate -> option mstate.

(** The iterations of a starred atom whose matcher is [body].  An iteration
    that consumes nothing is rejected, so every iteration shortens the input
    and [S (length rest)] rounds of fuel are never used up. *)
Fixpoint star_loop (greedy : bool) (body : cont -> cont) (clr : mstate -> mstate)
    (k : cont) (fuel : nat) (st : mstate) : option mstate :=
  match fuel with
  | O => None
  | S fuel' =>
      let again (_ : unit) :=
        body (fun st' => if same_pos st' st then None
                         else star_loop greedy body clr k fuel' st')
             (clr st) in
      if greedy then again tt <|> k st else k st <|> again tt
  end.

(** Backtracking matcher in continuation-passing style. *)
Fixpoint rmatch (r : regex) (k : cont) (st : mstate) : option mstate :=
  match r with
  | Eps => k st
  | Chr p =>
      match rest st with
      | c :: t => if p c then k {| rest := t; caps := caps st |} else None
      | [] => None
      end
  | Seq r1 r2 => rmatch r1 (rmatch r2 k) st
  | Alt r1 r2 => rmatch r1 k st <|> rmatch r2 k st
  | Star greedy r1 =>
      star_loop greedy (rmatch r1) (clear r1) k (S (List.length (rest st))) st
  | Opt r1 =>
      rmatch r1 (fun st' => if same_pos st' st then None else k st') (clear r1 st)
      <|> k st
  | Group n r1 =>
      rmatch r1
        (fun st' =>
           k {| rest := rest st';
                caps := (n, firstn (List.length (rest st) - List.length (rest st'))
                              (rest st)) :: caps st' |})
        st
  end.

(** The result array of [RegExp.prototype.exec]. *)
Record RegExpMatch : Type :=
  { index : nat; matched : jsstring; groups : list (nat * jsstring) }.

Fixpoint lookup (n : nat) (l : list (nat * jsstring)) : option jsstring :=
  match l with
  | [] => None
  | (m, v) :: t => if Nat.eqb n m then Some v else lookup n t
  end.

(** [match[n]] for a group that took part in the match, [""] otherwise
    (the source reads groups as [match[n] || ""] or only when they must have
    matched). *)
Definition group (m : RegExpMatch) (n : nat) : jsstring :=
  match lookup n (groups m) with
  | Some v => v
  | None => []
  end.

Definition match_here (r : regex) (s : jsstring) : option mstate :=
  rmatch r (fun st => Some st) {| rest := s; caps := [] |}.

(** The result for a match found at offset [i], where the input from [i]
    on is [s] and the matcher stopped in state [st]. *)
Definition found (i : nat) (s : jsstring) (st : mstate) : RegExpMatch :=
  {| index := i;
     matched := firstn (List.length s - List.length (rest st)) s;
     groups := caps st |}.

(** Leftmost match in [s], which is the input from offset [i] on. *)
Fixpoint search (r : regex) (i : nat) (s : jsstring) : option RegExpMatch :=
  match match_here r s with
  | Some st => Some (found i s st)
  | None =>
      match s with
      | [] => None
      | _ :: t => search r (S i) t
      end
  end.

(** [re.exec(s)] for a pattern without the [g] flag. *)
Definition exec (r : regex) (s : jsstring) : option RegExpMatch := search r 0 s.

(** [re.exec(s)] for a [g] pattern whose [lastIndex] is [from]. *)
Definition exec_from (r : regex) (s : jsstring) (from : nat) : option RegExpMatch :=
  if Nat.leb from (List.length s) then search r from (skipn from s) else None.

End Regex.

Import Regex.

(* ------------------------------------------------------------------ *)
(** ** Types of the source *)

Inductive Kind : Type := ts | cs.

Definition kind_tag (k : Kind) : jsstring :=
  match k with ts => str "ts" | cs => str "cs" end.

Record EmbedDirective : Type :=
  { kind : Kind;
    sourcePath : jsstring;
    symbolName : jsstring;
    lineNumber : Z;
    startIndex : Z;
    endIndex : Z }.

Record EmbedResult : Type :=
  { directive : EmbedDirective;
    code : option jsstring;
    error : option jsstring }.

Record ErrorReport : Type :=
  { mdFile : jsstring;
    er_lineNumber : Z;
    reason : jsstring;
    er_sourcePath : jsstring;
    er_symbolName : jsstring }.

(** An entry of the local array [openMarkers] of [findDirectives]. *)
Record OpenMarker : Type :=
  { om_index : Z;
    om_length : Z;
    om_kind : Kind;
    om_sourcePath : jsstring;
    om_symbolName : jsstring }.

(* ------------------------------------------------------------------ *)
(** ** Markdown scanning *)

Definition ws_star : regex := Star true (Chr cls_s).

(** [/<!--\s*(ts-embed|cs-embed)\s*:\s*([^#]+)#(\S+?)\s*-->/g] *)
Definition markerRe : regex :=
  Seqs [ Lit (str "<!--"); ws_star;
         Group 1 (Alt (Lit (str "ts-embed")) (Lit (str "cs-embed")));
         ws_star; Lit (str ":"); ws_star;
         Group 2 (Plus true (Chr (none_of (str "#"))));
         Lit (str "#");
         Group 3 (Plus false (Chr cls_S));
         ws_star; Lit (str "-->") ].

Definition marker_of (m : RegExpMatch) : OpenMarker :=
  {| om_index := Z.of_nat (index m);
     om_length := Js.length (matched m);
     om_kind := if startsWith (group m 1) (str "ts") then ts else cs;
     om_sourcePath := trim (group m 2);
     om_symbolName := trim (group m 3) |}.

(** First pass: the [while ((match = markerRe.exec(content)) !== null)] loop.
    [lastIndex] is the pattern's [lastIndex]; [None] means that the fuel ran
    out before [exec] returned [null]. *)
Fixpoint scan_markers (fuel : nat) (content : jsstring) (lastIndex : nat)
  : option (list OpenMarker) :=
  match fuel with
  | O => None
  | S fuel' =>
      match exec_from markerRe content lastIndex with
      | None => Some []
      | Some m =>
          match scan_markers fuel' content (index m + List.length (matched m)) with
          | Some ms => Some (marker_of m :: ms)
          | None => None
          end
      end
  end.

Definition openMarkers (content : jsstring) : list OpenMarker :=
  match scan_markers (S (List.length content)) content 0 with
  | Some ms => ms
  | None => []
  end.

(** [`<!-- /${kind}-embed -->`] *)
Definition closeTag (k : Kind) : jsstring :=
  str "<!-- /" ++ kind_tag k ++ str "-embed -->".

Definition searchStart (m : OpenMarker) : Z := (om_index m + om_length m)%Z.

(** The body of the second loop for [openMarkers[i]], [next] being
    [openMarkers[i + 1]] when [i + 1 < openMarkers.length]. *)
Definition directive_of (content : jsstring) (m : OpenMarker)
    (next : option OpenMarker) : EmbedDirective :=
  let searchEnd :=
    match next with
    | Some m' => om_index m'
    | None => Js.length content
    end in
  let searchRegion := substring content (searchStart m) searchEnd in
  let closeRelIdx := indexOf searchRegion (closeTag (om_kind m)) 0 in
  let endIndex :=
    if negb (closeRelIdx =? -1)%Z
    then (searchStart m + closeRelIdx + Js.length (closeTag (om_kind m)))%Z
    else (-1)%Z in
  let lineNumber :=
    Z.of_nat (List.length (split_lines (substring content 0 (om_index m)))) in
  {| kind := om_kind m;
     sourcePath := om_sourcePath m;
     symbolName := om_symbolName m;
     lineNumber := lineNumber;
     startIndex := om_index m;
     endIndex := endIndex |}.

Fixpoint second_pass (content : jsstring) (ms : list OpenMarker)
  : list EmbedDirective :=
  match ms with
  | [] => []
  | m :: rest => directive_of content m (hd_error rest) :: second_pass content rest
  end.

Definition findDirectives (content : jsstring) : list EmbedDirective :=
  second_pass content (openMarkers content).

(* ------------------------------------------------------------------ *)
(** ** TypeScript symbol extraction *)

(** The part of the compiler API's syntax tree that the extractor reads.
    The tree is produced by [ts.createSourceFile], which is not part of this
    program; it is data here. *)
Inductive SyntaxKind : Type :=
| FunctionDeclaration | ClassDeclaration | InterfaceDeclaration
| TypeAliasDeclaration | EnumDeclaration | ModuleDeclaration
| VariableStatement | OtherStatement.

(** A [name] node: module names are identifiers or string literals,
    declarators may also bind a pattern, which has no [text]. *)
Inductive NameNode : Type :=
| Identifier (text : jsstring)
| StringLiteral (text : jsstring)
| BindingPattern.

Inductive Node : Type :=
| mkNode (node_kind : SyntaxKind) (fullStart start end_ : Z)
         (name : option NameNode) (body : option ModuleBody)
         (declarations : list NameNode)
with ModuleBody : Type :=
| ModuleBlock (stmts : list Node)
| NamespaceBody (inner : Node).

Definition node_kind (n : Node) : SyntaxKind :=
  match n with mkNode k _ _ _ _ _ _ => k end.
Definition getFullStart (n : Node) : Z :=
  match n with mkNode _ p _ _ _ _ _ => p end.
Definition getStart (n : Node) : Z :=
  match n with mkNode _ _ p _ _ _ _ => p end.
Definition getEnd (n : Node) : Z :=
  match n with mkNode _ _ _ p _ _ _ => p end.
Definition node_name (n : Node) : option NameNode :=
  match n with mkNode _ _ _ _ x _ _ => x end.
Definition node_body (n : Node) : option ModuleBody :=
  match n with mkNode _ _ _ _ _ b _ => b end.
Definition node_declarations (n : Node) : list NameNode :=
  match n with mkNode _ _ _ _ _ _ d => d end.

Record SourceFile : Type :=
  { getFullText : jsstring; statements : list Node }.

Definition name_text (n : NameNode) : option jsstring :=
  match n with
  | Identifier t | StringLiteral t => Some t
  | BindingPattern => None
  end.

Definition isIdentifier (n : NameNode) : bool :=
  match n with Identifier _ => true | _ => false end.

Definition is_named_declaration (k : SyntaxKind) : bool :=
  match k with
  | FunctionDeclaration | ClassDeclaration | InterfaceDeclaration
  | TypeAliasDeclaration | EnumDeclaration | ModuleDeclaration => true
  | _ => false
  end.

Definition getNodeDeclaredName (node : Node) : option jsstring :=
  if is_named_declaration (node_kind node) then
    match node_name node with
    | Some n => name_text n
    | None => None
    end
  else
    match node_kind node with
    | VariableStatement =>
        match node_declarations node with
        | decl :: _ => if isIdentifier decl then name_text decl else None
        | [] => None
        end
    | _ => None
    end.

(** [l.trim().startsWith("*") || l.trim().startsWith("/") || l.trim().startsWith("/**")] *)
Definition is_comment_line (l : jsstring) : bool :=
  startsWith (trim l) (str "*") || startsWith (trim l) (str "/")
  || startsWith (trim l) (str "/**").

Definition extractNodeText (source : jsstring) (node : Node) : jsstring :=
  let fullStart := getFullStart node in
  let start := getStart node in
  let leading := substring source fullStart start in
  let commentLines := filter is_comment_line (split_lines leading) in
  let commentBlock :=
    if (0 <? List.length commentLines)%nat then trimStart leading else [] in
  let body := substring source start (getEnd node) in
  (match commentBlock with
   | [] => []
   | _ => commentBlock ++ [LF]
   end) ++ trimEnd body.

(** [name === symbolName] for a possibly [null] name. *)
Definition name_is (name : option jsstring) (s : jsstring) : bool :=
  match name with
  | Some n => eqs n s
  | None => false
  end.

Fixpoint find_declared (source innerName : jsstring) (stmts : list Node)
  : option jsstring :=
  match stmts with
  | [] => None
  | inner :: more =>
      if name_is (getNodeDeclaredName inner) innerName
      then Some (extractNodeText source inner)
      else find_declared source innerName more
  end.

(** The namespace of a statement that passes the test
    [ts.isModuleDeclaration(stmt) && ts.isIdentifier(stmt.name) && stmt.body
     && ts.isModuleBlock(stmt.body)]: its name and inner statements. *)
Definition namespace_block (stmt : Node) : option (jsstring * list Node) :=
  match node_kind stmt, node_name stmt, node_body stmt with
  | ModuleDeclaration, Some (Identifier t), Some (ModuleBlock inner) => Some (t, inner)
  | _, _, _ => None
  end.

(** The loop over [sf.statements] of [extractTsSymbol]. *)
Fixpoint walk_statements (source symbolName : jsstring) (stmts : list Node)
  : option jsstring :=
  match stmts with
  | [] => None
  | stmt :: more =>
      if name_is (getNodeDeclaredName stmt) symbolName
      then Some (extractNodeText source stmt)
      else
        match namespace_block stmt with
        | Some (nsName, inner) =>
            if startsWith symbolName (nsName ++ str ".") then
              let innerName := slice_from symbolName (Js.length nsName + 1) in
              match find_declared source innerName inner with
              | Some text => Some text
              | None => walk_statements source symbolName more
              end
            else walk_statements source symbolName more
        | None => walk_statements source symbolName more
        end
  end.

(** [extractTsSymbol] once the source file has been obtained. *)
Definition extractTsSymbol_in (sf : SourceFile) (symbolName : jsstring)
  : option jsstring :=
  walk_statements (getFullText sf) symbolName (statements sf).

(* ------------------------------------------------------------------ *)
(** ** The environment: file system, paths and the TypeScript parser *)

(** How a call ends: it returns a value, or [fs.readFileSync] throws for
    the path it was given and the exception passes through the callers. *)
Inductive Completion (A : Type) : Type :=
| Normal (a : A)
| Throw (path : jsstring).

Arguments Normal {A} a.
Arguments Throw {A} path.

(** What the program reads from its surroundings.  [files p] is the content
    of the file at path [p] when there is a file there that can be read;
    [unreadable p] holds for a path that exists but that [fs.readFileSync]
    cannot read, a directory for one.  The two caches of the source memoise
    reads of this fixed file system and are not represented here. *)
Record Env : Type :=
  { path_dirname : jsstring -> jsstring;
    path_resolve : jsstring -> jsstring -> jsstring;
    path_resolve1 : jsstring -> jsstring;
    files : jsstring -> option jsstring;
    unreadable : jsstring -> bool;
    createSourceFile : jsstring -> jsstring -> SourceFile }.

Definition existsSync (env : Env) (p : jsstring) : bool :=
  match files env p with Some _ => true | None => unreadable env p end.

(** [fs.readFileSync(p, "utf-8")] *)
Definition readFileSync (env : Env) (p : jsstring) : Completion jsstring :=
  match files env p with Some source => Normal source | None => Throw p end.

Definition getTsSourceFile (env : Env) (filePath : jsstring)
  : Completion (option SourceFile) :=
  if negb (existsSync env filePath) then Normal None
  else
    match readFileSync env filePath with
    | Throw p => Throw p
    | Normal source => Normal (Some (createSourceFile env filePath source))
    end.

Definition extractTsSymbol (env : Env) (filePath symbolName : jsstring)
  : Completion (option jsstring) :=
  match getTsSourceFile env filePath with
  | Throw p => Throw p
  | Normal None => Normal None
  | Normal (Some sf) => Normal (extractTsSymbol_in sf symbolName)
  end.

Definition getCsSource (env : Env) (filePath : jsstring)
  : Completion (option jsstring) :=
  if negb (existsSync env filePath) then Normal None
  else
    match readFileSync env filePath with
    | Throw p => Throw p
    | Normal source => Normal (Some source)
    end.

(* ------------------------------------------------------------------ *)
(** ** C# symbol extraction *)

(** The local variables of [findMatchingBrace]. *)
Record BraceScan : Type :=
  { depth : Z;
    inString : bool;
    stringChar : jsstring;
    inLineComment : bool;
    inBlockComment : bool;
    inVerbatim : bool }.

Definition scan_start : BraceScan :=
  {| depth := 0; inString := false; stringChar := [];
     inLineComment := false; inBlockComment := false; inVerbatim := false |}.

(** What one round of the [for] loop does: [return i], or go on to the next
    round from index [i] (the value before the loop's own [i++]). *)
Inductive Round : Type :=
| Return (i : Z)
| Continue (i : nat) (st : BraceScan).

(** [next === c] where [next] may be [undefined]. *)
Definition is_char (o : option char) (c : char) : bool :=
  match o with
  | Some x => N.eqb x c
  | None => false
  end.

Definition SLASH : char := chr "/".
Definition STAR : char := chr "*".
Definition AT : char := chr "@".
Definition APOSTROPHE : char := chr "'".
Definition BACKTICK : char := chr "`".
Definition LBRACE : char := chr "{".
Definition RBRACE : char := chr "}".

Definition brace_round (source : jsstring) (i : nat) (ch : char) (st : BraceScan)
  : Round :=
  let next := charAt source (i + 1) in
  if inLineComment st then
    if N.eqb ch LF
    then Continue i {| depth := depth st; inString := inString st;
                       stringChar := stringChar st; inLineComment := false;
                       inBlockComment := inBlockComment st;
                       inVerbatim := inVerbatim st |}
    else Continue i st
  else if inBlockComment st then
    if N.eqb ch STAR && is_char next SLASH
    then Continue (i + 1) {| depth := depth st; inString := inString st;
                             stringChar := stringChar st;
                             inLineComment := inLineComment st;
                             inBlockComment := false;
                             inVerbatim := inVerbatim st |}
    else Continue i st
  else if inVerbatim st then
    if N.eqb ch QUOTE && is_char next QUOTE then Continue (i + 1) st
    else if N.eqb ch QUOTE
    then Continue i {| depth := depth st; inString := inString st;
                       stringChar := stringChar st;
                       inLineComment := inLineComment st;
                       inBlockComment := inBlockComment st;
                       inVerbatim := false |}
    else Continue i st
  else if inString st then
    if N.eqb ch BACKSLASH && negb (eqs (stringChar st) [BACKTICK])
    then Continue (i + 1) st
    else if eqs [ch] (stringChar st)
    then Continue i {| depth := depth st; inString := false;
                       stringChar := stringChar st;
                       inLineComment := inLineComment st;
                       inBlockComment := inBlockComment st;
                       inVerbatim := inVerbatim st |}
    else Continue i st
  else if N.eqb ch SLASH && is_char next SLASH
  then Continue (i + 1) {| depth := depth st; inString := inString st;
                           stringChar := stringChar st; inLineComment := true;
                           inBlockComment := inBlockComment st;
                           inVerbatim := inVerbatim st |}
  else if N.eqb ch SLASH && is_char next STAR
  then Continue (i + 1) {| depth := depth st; inString := inString st;
                           stringChar := stringChar st;
                           inLineComment := inLineComment st;
                           inBlockComment := true;
                           inVerbatim := inVerbatim st |}
  else if N.eqb ch AT && is_char next QUOTE
  then Continue (i + 1) {| depth := depth st; inString := inString st;
                           stringChar := stringChar st;
                           inLineComment := inLineComment st;
                           inBlockComment := inBlockComment st;
                           inVerbatim := true |}
  else if N.eqb ch QUOTE || N.eqb ch APOSTROPHE
  then Continue i {| depth := depth st; inString := true; stringChar := [ch];
                     inLineComment := inLineComment st;
                     inBlockComment := inBlockComment st;
                     inVerbatim := inVerbatim st |}
  else
    let d1 := if N.eqb ch LBRACE then (depth st + 1)%Z else depth st in
    if N.eqb ch RBRACE then
      if ((d1 - 1) =? 0)%Z then Return (Z.of_nat i)
      else Continue i {| depth := (d1 - 1)%Z; inString := inString st;
                         stringChar := stringChar st;
                         inLineComment := inLineComment st;
                         inBlockComment := inBlockComment st;
                         inVerbatim := inVerbatim st |}
    else Continue i {| depth := d1; inString := inString st;
                       stringChar := stringChar st;
                       inLineComment := inLineComment st;
                       inBlockComment := inBlockComment st;
                       inVerbatim := inVerbatim st |}.

(** The loop [for (let i = openPos; i < source.length; i++)].  Every round
    advances [i], so [source.length] rounds of fuel are enough. *)
Fixpoint brace_loop (fuel : nat) (source : jsstring) (i : nat) (st : BraceScan) : Z :=
  match fuel with
  | O => (-1)%Z
  | S fuel' =>
      match charAt source i with
      | None => (-1)%Z
      | Some ch =>
          match brace_round source i ch st with
          | Return r => r
          | Continue i' st' => brace_loop fuel' source (S i') st'
          end
      end
  end.

Definition findMatchingBrace (source : jsstring) (openPos : Z) : Z :=
  brace_loop (List.length source) source (Z.to_nat openPos) scan_start.

(** [s.replace(/[.*+?^${}()|[\]\\]/g, "\\$&")] *)
Definition is_syntax_char (c : char) : bool := mem c (str ".*+?^${}()|[]\").

Fixpoint escapeRegex (s : jsstring) : jsstring :=
  match s with
  | [] => []
  | c :: t => if is_syntax_char c then BACKSLASH :: c :: escapeRegex t
              else c :: escapeRegex t
  end.

(** The characters that the pattern grammar of the language reserves (its
    SyntaxCharacter): [^ $ \ . * + ? ( ) [ ] { } |]. *)
Definition SyntaxCharacter (c : char) : bool := mem c (str "^$\.*+?()[]{}|").

(** [new RegExp(text)] on the pattern texts that are made of pattern
    characters and identity escapes: a character that the grammar does not
    reserve is a pattern character and matches itself, a backslash before a
    reserved character is an identity escape and matches that character.
    Every other text (a reserved character that is not escaped, another
    escape, a backslash at the end) is not of this kind and has no reading
    here. *)
Fixpoint literal_pattern (p : jsstring) : option regex :=
  match p with
  | [] => Some Eps
  | b :: t =>
      if N.eqb b BACKSLASH then
        match t with
        | c :: t' =>
            if SyntaxCharacter c
            then option_map (Seq (Chr (N.eqb c))) (literal_pattern t')
            else None
        | [] => None
        end
      else if SyntaxCharacter b then None
      else option_map (Seq (Chr (N.eqb b))) (literal_pattern t)
  end.

Definition csModifiers : list regex :=
  map (fun w => Lit (str w))
    [ "public"; "private"; "protected"; "internal"; "static"; "abstract";
      "sealed"; "partial"; "async"; "virtual"; "override"; "readonly"; "new" ]%string.

Definition csMethodModifiers : list regex :=
  map (fun w => Lit (str w))
    [ "public"; "private"; "protected"; "internal"; "static"; "abstract";
      "sealed"; "partial"; "async"; "virtual"; "override"; "new" ]%string.

Definition csKeywords : list regex :=
  map (fun w => Lit (str w))
    [ "class"; "interface"; "struct"; "enum"; "record"; "delegate" ]%string.

(** [(?:\s*///[^\n]*\n)*] *)
Definition docLines : regex :=
  Star true (Seqs [ ws_star; Lit (str "///"); Star true (Chr (none_of [LF]));
                    Lit [LF] ]).

(** [(?:\s*\[[^\]]*\]\s*\n)*] *)
Definition attributeLines : regex :=
  Star true (Seqs [ ws_star; Lit (str "["); Star true (Chr (none_of (str "]")));
                    Lit (str "]"); ws_star; Lit [LF] ]).

Definition indentation : regex := Star true (Chr (fun c => mem c [32; 9]%N)).

(** The pattern [declPattern] of [extractCsSymbol]; the escaped symbol name
    stands for itself. *)
Definition declPattern (symbolName : jsstring) : regex :=
  Seq (Group 1 (Seq docLines attributeLines))
      (Group 2 (Seqs [ indentation;
                       Star true (Seq (Alts csModifiers) (Plus true (Chr cls_s)));
                       Alts csKeywords;
                       Plus true (Chr cls_s);
                       Lit symbolName;
                       Star true (Chr (none_of (str "{;"))) ])).

(** [[\w<>\[\],\s\.\?]] *)
Definition returnTypeChar (c : char) : bool :=
  cls_w c || mem c (str "<>[],.?") || cls_s c.

(** The pattern [methodPattern] of [extractCsMethod]. *)
Definition methodPattern (symbolName : jsstring) : regex :=
  Seq (Group 1 docLines)
      (Group 2 (Seqs [ indentation;
                       Star true (Seq (Alts csMethodModifiers) (Plus true (Chr cls_s)));
                       Plus true (Chr returnTypeChar);
                       Plus true (Chr cls_s);
                       Lit symbolName;
                       ws_star;
                       Opt (Seqs [ Lit (str "<"); Star true (Chr (none_of (str ">")));
                                   Lit (str ">") ]);
                       ws_star;
                       Lit (str "(");
                       Star true (Chr (none_of (str ")")));
                       Lit (str ")");
                       Star true (Chr (none_of (str "{;"))) ])).

(** [match.index + preamble.length - preamble.trimStart().length] *)
Definition declStart_of (m : RegExpMatch) : Z :=
  let preamble := group m 1 in
  (Z.of_nat (index m) + Js.length preamble - Js.length (trimStart preamble))%Z.

Definition afterMatch_of (m : RegExpMatch) : Z :=
  (Z.of_nat (index m) + Js.length (matched m))%Z.

Definition extractCsMethod (source symbolName : jsstring) : option jsstring :=
  match exec (methodPattern symbolName) source with
  | None => None
  | Some m =>
      let declStart := declStart_of m in
      let braceStart := indexOf source (str "{") (afterMatch_of m) in
      if (braceStart =? -1)%Z then
        let semi := indexOf source (str ";") (afterMatch_of m) in
        if (semi =? -1)%Z then None
        else Some (trimEnd (substring source declStart (semi + 1)))
      else
        let endIdx := findMatchingBrace source braceStart in
        if (endIdx =? -1)%Z then None
        else Some (trimEnd (substring source declStart (endIdx + 1)))
  end.

(** [extractCsSymbol] once the source text has been obtained. *)
Definition extractCsSymbol_in (source symbolName : jsstring) : option jsstring :=
  match exec (declPattern symbolName) source with
  | None => extractCsMethod source symbolName
  | Some m =>
      let declStart := declStart_of m in
      let afterMatch := afterMatch_of m in
      let braceStart := indexOf source (str "{") afterMatch in
      let semiStart := indexOf source (str ";") afterMatch in
      if negb (semiStart =? -1)%Z
         && ((braceStart =? -1)%Z || (semiStart <? braceStart)%Z)
      then Some (trimEnd (substring source declStart (semiStart + 1)))
      else if (braceStart =? -1)%Z then None
      else
        let endIdx := findMatchingBrace source braceStart in
        if (endIdx =? -1)%Z then None
        else Some (trimEnd (substring source declStart (endIdx + 1)))
  end.

Definition extractCsSymbol (env : Env) (filePath symbolName : jsstring)
  : Completion (option jsstring) :=
  match getCsSource env filePath with
  | Throw p => Throw p
  | Normal None => Normal None
  | Normal (Some source) => Normal (extractCsSymbol_in source symbolName)
  end.

(* ------------------------------------------------------------------ *)
(** ** Resolve and replace *)

Definition resolveEmbed (env : Env) (directive : EmbedDirective)
    (mdFilePath : jsstring) : Completion EmbedResult :=
  let mdDir := path_dirname env mdFilePath in
  let absSource := path_resolve env mdDir (sourcePath directive) in
  if negb (existsSync env absSource) then
    Normal {| directive := directive;
              code := None;
              error := Some (str "File not found: " ++ absSource) |}
  else
    let code :=
      match kind directive with
      | ts => extractTsSymbol env absSource (symbolName directive)
      | cs => extractCsSymbol env absSource (symbolName directive)
      end in
    match code with
    | Throw p => Throw p
    | Normal None =>
        Normal {| directive := directive;
                  code := None;
                  error := Some (str "Symbol '" ++ symbolName directive
                                    ++ str "' not found in " ++ absSource) |}
    | Normal (Some c) =>
        Normal {| directive := directive; code := Some c; error := None |}
    end.

(** Truthiness of [resolved.error]: neither [null] nor the empty string. *)
Definition has_error (r : EmbedResult) : bool :=
  match error r with
  | Some (_ :: _) => true
  | _ => false
  end.

Definition error_text (r : EmbedResult) : jsstring :=
  match error r with Some e => e | None => [] end.

(** [resolved.code!]; [join] prints [null] as the empty string. *)
Definition code_text (r : EmbedResult) : jsstring :=
  match code r with Some c => c | None => [] end.

Definition lang_of (k : Kind) : jsstring :=
  match k with ts => str "ts" | cs => str "csharp" end.

Definition tag_of (k : Kind) : jsstring := kind_tag k ++ str "-embed".

Definition FENCE : jsstring := str "```".

(** ["// @generated by embed-sync — do not edit"], with its em dash. *)
Definition generatedLine : jsstring :=
  str "// @generated by embed-sync " ++ [8212%N] ++ str " do not edit".

Definition codeBlock (k : Kind) (code : jsstring) : jsstring :=
  join_lines [ FENCE ++ lang_of k; generatedLine; code; FENCE;
               str "<!-- /" ++ tag_of k ++ str " -->" ].

(** The pattern [openMarkerRe] built for a directive; the three escaped
    pieces stand for themselves. *)
Definition openMarkerRe (dir : EmbedDirective) : regex :=
  Seqs [ Lit (str "<!--"); ws_star; Lit (tag_of (kind dir)); ws_star;
         Lit (str ":"); ws_star; Lit (sourcePath dir); Lit (str "#");
         Lit (symbolName dir); ws_star; Lit (str "-->") ].

Definition report_of (env : Env) (mdFilePath : jsstring) (dir : EmbedDirective)
    (resolved : EmbedResult) : ErrorReport :=
  {| mdFile := path_resolve1 env mdFilePath;
     er_lineNumber := lineNumber dir;
     reason := error_text resolved;
     er_sourcePath := sourcePath dir;
     er_symbolName := symbolName dir |}.

(** The text replacement at the end of the loop body of [applyEmbeds]. *)
Definition splice (result : jsstring) (dir : EmbedDirective) (code : jsstring)
    (openMatch : RegExpMatch) : jsstring :=
  let absOpenEnd :=
    (startIndex dir + Z.of_nat (index openMatch) + Js.length (matched openMatch))%Z in
  let replaceEnd :=
    if negb (endIndex dir =? -1)%Z then endIndex dir else absOpenEnd in
  let before := substring result 0 absOpenEnd in
  let after := substring_from result replaceEnd in
  let insertion := LF :: codeBlock (kind dir) code in
  before ++ insertion ++ after.

(** One round of the loop [for (const dir of sorted)] on the variables
    [result] and [errors]; an exception of [resolveEmbed] ends the round. *)
Definition embed_round (env : Env) (mdFilePath : jsstring)
    (acc : jsstring * list ErrorReport) (dir : EmbedDirective)
  : Completion (jsstring * list ErrorReport) :=
  let (result, errors) := acc in
  match resolveEmbed env dir mdFilePath with
  | Throw p => Throw p
  | Normal resolved =>
      if has_error resolved then
        Normal (result, errors ++ [report_of env mdFilePath dir resolved])
      else
        match exec (openMarkerRe dir) (substring_from result (startIndex dir)) with
        | None => Normal (result, errors)
        | Some openMatch =>
            Normal (splice result dir (code_text resolved) openMatch, errors)
        end
  end.

(** The loop [for (const dir of sorted)]: the rounds one after the other,
    up to the first exception. *)
Fixpoint embed_rounds (env : Env) (mdFilePath : jsstring)
    (dirs : list EmbedDirective) (acc : jsstring * list ErrorReport)
  : Completion (jsstring * list ErrorReport) :=
  match dirs with
  | [] => Normal acc
  | dir :: more =>
      match embed_round env mdFilePath acc dir with
      | Throw p => Throw p
      | Normal acc' => embed_rounds env mdFilePath more acc'
      end
  end.

(** [Array.prototype.sort]: a stable sort, [x] is placed before [y] when
    [cmp x y <= 0]. *)
Fixpoint insert_by {A : Type} (cmp : A -> A -> Z) (x : A) (l : list A) : list A :=
  match l with
  | [] => [x]
  | y :: t => if (cmp x y <=? 0)%Z then x :: y :: t else y :: insert_by cmp x t
  end.

Definition sort_by {A : Type} (cmp : A -> A -> Z) (l : list A) : list A :=
  fold_right (insert_by cmp) [] l.

(** [[...directives].sort((a, b) => b.startIndex - a.startIndex)] *)
Definition sorted_directives (directives : list EmbedDirective) : list EmbedDirective :=
  sort_by (fun a b => (startIndex b - startIndex a)%Z) directives.

Definition applyEmbeds (env : Env) (content mdFilePath : jsstring)
  : Completion (jsstring * list ErrorReport) :=
  let directives := findDirectives content in
  if Nat.eqb (List.length directives) 0 then Normal (content, [])
  else
    embed_rounds env mdFilePath (sorted_directives directives) (content, []).

Definition output (r : jsstring * list ErrorReport) : jsstring := fst r.
Definition errors (r : jsstring * list ErrorReport) : list ErrorReport := snd r.

(* ------------------------------------------------------------------ *)
(** ** Vocabulary of the statements *)

(** The record that [resolveEmbed] returns; for a call that throws, the
    record with neither code nor error. *)
Definition resolved (env : Env) (d : EmbedDirective) (mdFilePath : jsstring)
  : EmbedResult :=
  match resolveEmbed env d mdFilePath with
  | Normal r => r
  | Throw _ => {| directive := d; code := None; error := None |}
  end.

(** [resolveEmbed] returns for the directive [d]. *)
Definition returns (env : Env) (mdFilePath : jsstring) (d : EmbedDirective)
  : bool :=
  match resolveEmbed env d mdFilePath with
  | Normal _ => true
  | Throw _ => false
  end.

(** The state that a round of the loop of [applyEmbeds] leaves when
    [resolveEmbed] has returned: the loop body with the record [resolved]
    in the place of the call. *)
Definition plain_round (env : Env) (mdFilePath : jsstring)
    (acc : jsstring * list ErrorReport) (dir : EmbedDirective)
  : jsstring * list ErrorReport :=
  let (result, errors) := acc in
  let r := resolved env dir mdFilePath in
  if has_error r then
    (result, errors ++ [report_of env mdFilePath dir r])
  else
    match exec (openMarkerRe dir) (substring_from result (startIndex dir)) with
    | None => (result, errors)
    | Some openMatch => (splice result dir (code_text r) openMatch, errors)
    end.

(** What [applyEmbeds] returns when no call of [resolveEmbed] throws. *)
Definition plain_run (env : Env) (content mdFilePath : jsstring)
  : jsstring * list ErrorReport :=
  let directives := findDirectives content in
  if Nat.eqb (List.length directives) 0 then (content, [])
  else
    fold_left (plain_round env mdFilePath) (sorted_directives directives)
              (content, []).

Definition suffix_of (a b : jsstring) : Prop := exists pre, b = pre ++ a.

(** A matcher is advancing when a successful run hands the continuation a
    state whose input is a suffix of the input it started from. *)
Definition advancing (body : cont -> cont) : Prop :=
  forall k st f, body k st = Some f ->
    exists st', k st' = Some f /\ suffix_of (rest st') (rest st).

(** A matcher is local when its result depends on the continuation only at
    states whose input is no longer than the input it starts from. *)
Definition local_matcher (body : cont -> cont) : Prop :=
  forall k k' st,
    (forall st', List.length (rest st') <= List.length (rest st) -> k st' = k' st') ->
    body k st = body k' st.

(** The shape of the marker list of a text of length [len], scanned from
    offset [from]: the markers are not empty, lie inside the text and follow
    one another without overlap. *)
Inductive marker_chain (len : Z) : Z -> list OpenMarker -> Prop :=
| chain_nil : forall from, marker_chain len from []
| chain_cons : forall from m ms,
    (from <= om_index m)%Z ->
    (0 < om_length m)%Z ->
    (om_index m + om_length m <= len)%Z ->
    marker_chain len (om_index m + om_length m) ms ->
    marker_chain len from (m :: ms).

(** The scan window of a marker: from its end to the start of the next
    marker, or to the end of the text. *)
Definition windowEnd (content : jsstring) (next : list OpenMarker) : Z :=
  match next with
  | m' :: _ => om_index m'
  | [] => Js.length content
  end.

(** The text [t] occurs in [s] at offset [p]. *)
Definition occurs_at (s t : jsstring) (p : Z) : Prop :=
  (0 <= p)%Z /\ firstn (List.length t) (skipn (Z.to_nat p) s) = t.

(** The start of the directive that follows in the document, or the length
    of the text. *)
Definition next_or_len (len : Z) (ds : list EmbedDirective) : Z :=
  match ds with
  | d' :: _ => startIndex d'
  | [] => len
  end.

(** The shape of the directive list of a text of length [len]: start
    offsets increase, and each directive's span ends before the next one
    starts. *)
Inductive directive_chain (len : Z) : Z -> list EmbedDirective -> Prop :=
| dchain_nil : forall from, directive_chain len from []
| dchain_cons : forall from d ds,
    (from <= startIndex d)%Z ->
    (startIndex d < next_or_len len ds)%Z ->
    (-1 <= endIndex d <= next_or_len len ds)%Z ->
    (next_or_len len ds <= len)%Z ->
    directive_chain len (startIndex d + 1) ds ->
    directive_chain len from (d :: ds).

(** The text after the rounds for the directives [done], starting from
    [content]. *)
Definition text_after (env : Env) (mdFilePath content : jsstring)
    (done : list EmbedDirective) : jsstring :=
  fst (fold_left (plain_round env mdFilePath) done (content, [])).

(** When [done] have been processed in descending order, the start of the
    last of them is where the window of the next directive ends. *)
Definition window_limit (content : jsstring) (done : list EmbedDirective) : Z :=
  next_or_len (Js.length content) (rev done).

(** The round for [d] on the text [cur] either does not rewrite, or
    re-matches the marker of [d] so that it ends no later than [limit]. *)
Definition rematch_within (env : Env) (mdFilePath cur : jsstring) (limit : Z)
    (d : EmbedDirective) : bool :=
  if has_error (resolved env d mdFilePath) then true
  else
    match exec (openMarkerRe d) (substring_from cur (startIndex d)) with
    | None => true
    | Some m =>
        (startIndex d + Z.of_nat (index m) + Js.length (matched m) <=? limit)%Z
    end.

(** Every round for the directives [ds], run from the state [acc], re-matches
    its marker before the start of the directive processed just before it
    ([limit] for the first of them). *)
Fixpoint rounds_within (env : Env) (mdFilePath : jsstring)
    (acc : jsstring * list ErrorReport) (limit : Z) (ds : list EmbedDirective)
  : bool :=
  match ds with
  | [] => true
  | d :: rest =>
      rematch_within env mdFilePath (fst acc) limit d
      && rounds_within env mdFilePath (plain_round env mdFilePath acc d)
           (startIndex d) rest
  end.

(** The directives still to be processed after one that starts at [limit],
    in processing order: each starts before, and its span ends no later
    than, the start of the one processed just before it. *)
Inductive descending_chain : Z -> list EmbedDirective -> Prop :=
| desc_nil : forall limit, descending_chain limit []
| desc_cons : forall limit d ds,
    (0 <= startIndex d < limit)%Z ->
    (-1 <= endIndex d <= limit)%Z ->
    descending_chain (startIndex d) ds ->
    descending_chain limit (d :: ds).

Definition failed (env : Env) (mdFilePath : jsstring) (d : EmbedDirective) : bool :=
  has_error (resolved env d mdFilePath).

Definition report_for (env : Env) (mdFilePath : jsstring) (d : EmbedDirective)
  : ErrorReport :=
  report_of env mdFilePath d (resolved env d mdFilePath).

(* ------------------------------------------------------------------ *)
(** ** Sample inputs *)

Module Samples.

(** A documentation directory with two C# files; paths are resolved by
    joining with a slash.  No TypeScript file is read in these samples, and
    the parser is not called. *)
Definition markerSource : jsstring :=
  str "class Marker { /* ends with <!-- /cs-embed --> */ }".

Definition fooSource : jsstring := str "class Foo { int a; }".

Definition env : Env :=
  {| path_dirname := fun _ => str "/docs";
     path_resolve := fun dir p => dir ++ str "/" ++ p;
     path_resolve1 := fun p => p;
     files := fun p =>
       if eqs p (str "/docs/marker.cs") then Some markerSource
       else if eqs p (str "/docs/foo.cs") then Some fooSource
       else None;
     unreadable := fun _ => false;
     createSourceFile := fun _ source =>
       {| getFullText := source; statements := [] |} |}.

Definition md : jsstring := str "/docs/guide.md".

(** Two directives, the second without a close tag. *)
Definition twoDirectives : jsstring :=
  str "# Guide
<!-- cs-embed: foo.cs#Foo -->
stale
<!-- /cs-embed -->
<!-- cs-embed: foo.cs#Missing -->
".

(** A marker with a blank before [#]: the path is trimmed when it is
    scanned, and the pattern built from it does not match the marker. *)
Definition blankBeforeHash : jsstring :=
  str "<!-- cs-embed: foo.cs #Foo -->
".

(** The marker of the second directive contains text that the pattern of
    the first directive matches. *)
Definition nestedMarker : jsstring :=
  str "<!-- cs-embed: foo.cs #Foo -->
<!-- cs-embed: <!-- cs-embed: foo.cs#Foo -->
body
<!-- /cs-embed -->".

(** The same declaration embedded twice, the first marker with a blank
    before [#]. *)
Definition blankThenPlain : jsstring :=
  str "<!-- cs-embed: foo.cs #Foo -->
<!-- cs-embed: foo.cs#Foo -->
".

(** A directive whose declaration contains the text of a close tag. *)
Definition closeTagInCode : jsstring :=
  str "<!-- cs-embed: marker.cs#Marker -->
".

(** Two directives that both resolve. *)
Definition twoResolved : jsstring :=
  str "<!-- cs-embed: foo.cs#Foo -->
old
<!-- /cs-embed -->
<!-- cs-embed: marker.cs#Marker -->
".

(** The directives of [twoDirectives]. *)
Definition fooDirective : EmbedDirective :=
  {| kind := cs; sourcePath := str "foo.cs"; symbolName := str "Foo";
     lineNumber := 2; startIndex := 8; endIndex := 62 |}.

Definition missingDirective : EmbedDirective :=
  {| kind := cs; sourcePath := str "foo.cs"; symbolName := str "Missing";
     lineNumber := 5; startIndex := 63; endIndex := -1 |}.

(** The directives of [twoResolved]. *)
Definition firstResolved : EmbedDirective :=
  {| kind := cs; sourcePath := str "foo.cs"; symbolName := str "Foo";
     lineNumber := 1; startIndex := 0; endIndex := 52 |}.

Definition secondResolved : EmbedDirective :=
  {| kind := cs; sourcePath := str "marker.cs"; symbolName := str "Marker";
     lineNumber := 4; startIndex := 53; endIndex := -1 |}.

(** The directive of [blankBeforeHash]. *)
Definition blankDirective : EmbedDirective :=
  {| kind := cs; sourcePath := str "foo.cs"; symbolName := str "Foo";
     lineNumber := 1; startIndex := 0; endIndex := -1 |}.

(** The block generated for [foo.cs#Foo], with the line feed before it. *)
Definition fooBlock : jsstring :=
  str "
```csharp
// @generated by embed-sync " ++ [8212%N] ++ str " do not edit
class Foo { int a; }
```
<!-- /cs-embed -->".

(** The directives of [blankThenPlain]. *)
Definition blankFirst : EmbedDirective :=
  {| kind := cs; sourcePath := str "foo.cs"; symbolName := str "Foo";
     lineNumber := 1; startIndex := 0; endIndex := -1 |}.

Definition plainSecond : EmbedDirective :=
  {| kind := cs; sourcePath := str "foo.cs"; symbolName := str "Foo";
     lineNumber := 2; startIndex := 31; endIndex := -1 |}.

End Samples.

(* ------------------------------------------------------------------ *)
(** ** Vocabulary for the structured extractor *)

Definition DOT : char := chr ".".

Definition dot_free (s : jsstring) : Prop := mem DOT s = false.

Definition count_dots (s : jsstring) : nat :=
  List.length (filter (N.eqb DOT) s).

Definition declared_names_dot_free (stmts : list Node) : Prop :=
  Forall (fun n => forall t, getNodeDeclaredName n = Some t -> dot_free t) stmts.

(** No declared name of the unit, at top level or one level down in a
    namespace block, contains a dot.  Identifiers never do; the name of an
    ambient module declaration is a string literal and may. *)
Definition unit_names_dot_free (sf : SourceFile) : Prop :=
  declared_names_dot_free (statements sf) /\
  Forall (fun stmt => forall ns inner,
            namespace_block stmt = Some (ns, inner) ->
            declared_names_dot_free inner)
         (statements sf).

(** The lookup of [Outer.Inner] in the words of the specification: find a
    top-level namespace block named [outer] and search its statements, one
    level down, for [inner]. *)
Fixpoint resolve_nested (source outer inner : jsstring) (stmts : list Node)
  : option jsstring :=
  match stmts with
  | [] => None
  | stmt :: more =>
      match namespace_block stmt with
      | Some (ns, body) =>
          if eqs ns outer then
            match find_declared source inner body with
            | Some text => Some text
            | None => resolve_nested source outer inner more
            end
          else resolve_nested source outer inner more
      | None => resolve_nested source outer inner more
      end
  end.

(** The text that the specification describes for a declaration: the
    comment lines of the gap, one newline, the body. *)
Definition described_node_text (source : jsstring) (node : Node) : jsstring :=
  let leading := substring source (getFullStart node) (getStart node) in
  let commentLines := filter is_comment_line (split_lines leading) in
  let body := substring source (getStart node) (getEnd node) in
  (match commentLines with
   | [] => []
   | _ => join_lines commentLines ++ [LF]
   end) ++ trimEnd body.

Module TsSamples.

(** [declare module "A.B.C" { }]: an ambient module, named by a string
    literal. *)
Definition ambientSource : jsstring :=
  str "declare module " ++ [QUOTE] ++ str "A.B.C" ++ [QUOTE] ++ str " { }".

Definition ambientFile : SourceFile :=
  {| getFullText := ambientSource;
     statements :=
       [ mkNode ModuleDeclaration 0 0 26 (Some (StringLiteral (str "A.B.C")))
                (Some (ModuleBlock [])) [] ] |}.

(** A doc comment on the line above a function. *)
Definition documentedSource : jsstring :=
  str "/** doc */
function bar() {}".

Definition barNode : Node :=
  mkNode FunctionDeclaration 0 11 28 (Some (Identifier (str "bar"))) None [].

Definition documentedFile : SourceFile :=
  {| getFullText := documentedSource; statements := [barNode] |}.

(** [namespace Shapes { interface Circle { } }] *)
Definition namespaceSource : jsstring :=
  str "namespace Shapes { interface Circle { } }".

Definition namespaceFile : SourceFile :=
  {| getFullText := namespaceSource;
     statements :=
       [ mkNode ModuleDeclaration 0 0 41 (Some (Identifier (str "Shapes")))
           (Some (ModuleBlock
              [ mkNode InterfaceDeclaration 18 19 39
                       (Some (Identifier (str "Circle"))) None [] ]))
           [] ] |}.

End TsSamples.

(* ------------------------------------------------------------------ *)
(** ** Vocabulary for the balanced-delimiter scan *)

Inductive Quote : Type := Double | Single.

Definition quote_char (q : Quote) : char :=
  match q with Double => QUOTE | Single => APOSTROPHE end.

(** The lexical modes of the specification. *)
Inductive Mode : Type :=
| Plain
| LineComment
| BlockComment
| Quoted (q : Quote)
| Verbatim.

(** For each character of [s], read from the mode [mode] on, whether it
    belongs to a comment or a string ([true]) or is plain code ([false]).
    The two characters that open a line comment, open or close a block
    comment, open a verbatim string, double a quote inside a verbatim string
    or form a backslash escape are taken together. *)
Fixpoint lex (mode : Mode) (s : jsstring) : list bool :=
  match s with
  | [] => []
  | c :: t =>
      match mode with
      | LineComment =>
          true :: lex (if N.eqb c LF then Plain else LineComment) t
      | BlockComment =>
          match t with
          | n :: t' =>
              if N.eqb c STAR && N.eqb n SLASH then true :: true :: lex Plain t'
              else true :: lex BlockComment t
          | [] => [true]
          end
      | Verbatim =>
          match t with
          | n :: t' =>
              if N.eqb c QUOTE && N.eqb n QUOTE then true :: true :: lex Verbatim t'
              else if N.eqb c QUOTE then true :: lex Plain t
              else true :: lex Verbatim t
          | [] => [true]
          end
      | Quoted q =>
          if N.eqb c BACKSLASH then
            match t with
            | n :: t' => true :: true :: lex (Quoted q) t'
            | [] => [true]
            end
          else if N.eqb c (quote_char q) then true :: lex Plain t
          else true :: lex (Quoted q) t
      | Plain =>
          let two (n : char) (t' : jsstring) (otherwise : list bool) :=
            if N.eqb c SLASH && N.eqb n SLASH then true :: true :: lex LineComment t'
            else if N.eqb c SLASH && N.eqb n STAR then true :: true :: lex BlockComment t'
            else if N.eqb c AT && N.eqb n QUOTE then true :: true :: lex Verbatim t'
            else otherwise in
          let one :=
            if N.eqb c QUOTE then true :: lex (Quoted Double) t
            else if N.eqb c APOSTROPHE then true :: lex (Quoted Single) t
            else false :: lex Plain t in
          match t with
          | n :: t' => two n t' one
          | [] => one
          end
      end
  end.

Definition brace_delta (c : char) : Z :=
  if N.eqb c LBRACE then 1%Z else if N.eqb c RBRACE then (-1)%Z else 0%Z.

(** The brace depth after the first [n] characters of [cs], whose guard
    flags are [gs], counting only unguarded braces. *)
Fixpoint depth_after (cs : jsstring) (gs : list bool) (n : nat) {struct n} : Z :=
  match n, cs, gs with
  | S n', c :: cs', g :: gs' =>
      ((if g then 0 else brace_delta c) + depth_after cs' gs' n')%Z
  | _, _, _ => 0%Z
  end.

(** Offset [k] of [cs] holds an unguarded closing brace at which the depth,
    started at [d], returns to zero. *)
Definition closes (d : Z) (cs : jsstring) (gs : list bool) (k : nat) : Prop :=
  nth_error cs k = Some RBRACE /\ nth_error gs k = Some false /\
  (d + depth_after cs gs (S k) = 0)%Z.

(** The scan from [openPos] closes at offset [j] of [source]. *)
Definition closes_at (source : jsstring) (openPos j : nat) : Prop :=
  openPos <= j /\
  closes 0 (skipn openPos source) (lex Plain (skipn openPos source)) (j - openPos).

(** The flags of [findMatchingBrace] in a given mode and at a given
    depth. *)
Definition in_mode (st : BraceScan) (mode : Mode) (d : Z) : Prop :=
  depth st = d /\
  inString st = match mode with Quoted _ => true | _ => false end /\
  inLineComment st = match mode with LineComment => true | _ => false end /\
  inBlockComment st = match mode with BlockComment => true | _ => false end /\
  inVerbatim st = match mode with Verbatim => true | _ => false end /\
  match mode with
  | Quoted q => stringChar st = [quote_char q]
  | _ => True
  end.

(** What the scan that reads [cs] from offset [i] on returns: the offset of
    the first closing position, or [-1] when there is none. *)
Definition scan_result (r : Z) (i : nat) (d : Z) (cs : jsstring) (gs : list bool)
  : Prop :=
  (r = (-1)%Z /\ forall k, ~ closes d cs gs k) \/
  (exists k, r = Z.of_nat (i + k) /\ closes d cs gs k /\
             forall k', k' < k -> ~ closes d cs gs k').

(** A matcher is preserving when it moreover leaves the captures as they
    were; matchers of patterns without groups are. *)
Definition preserving (body : cont -> cont) : Prop :=
  forall k st f, body k st = Some f ->
    exists st', k st' = Some f /\ suffix_of (rest st') (rest st)
                /\ caps st' = caps st.

(* ------------------------------------------------------------------ *)
(** ** Vocabulary for the lexical extractor *)

Definition SEMICOLON : char := chr ";".

(** [r] is the offset of the first [c] of [source] at or after [from],
    [-1] when there is none. *)
Definition first_at (source : jsstring) (c : char) (from r : Z) : Prop :=
  (r = (-1)%Z /\
   forall j, (from <= Z.of_nat j)%Z -> nth_error source j <> Some c)
  \/
  ((0 <= r)%Z /\ (from <= r)%Z /\ nth_error source (Z.to_nat r) = Some c /\
   forall j, (from <= Z.of_nat j < r)%Z -> nth_error source j <> Some c).

Fixpoint find_unguarded (c : char) (cs : jsstring) (gs : list bool)
    (i from : nat) : Z :=
  match cs, gs with
  | x :: cs', g :: gs' =>
      if Nat.leb from i && N.eqb x c && negb g then Z.of_nat i
      else find_unguarded c cs' gs' (S i) from
  | _, _ => (-1)%Z
  end.

(** The offset of the next [c] at or after [from] that lies outside every
    comment and string of [source], in the words of the specification. *)
Definition unguarded_index (source : jsstring) (c : char) (from : Z) : Z :=
  find_unguarded c source (lex Plain source) 0 (Z.to_nat from).

(** The type-level extraction as the specification describes it: the
    terminator is chosen among the unguarded braces and semicolons. *)
Definition described_extractCsSymbol_in (source symbolName : jsstring)
  : option jsstring :=
  match exec (declPattern symbolName) source with
  | None => extractCsMethod source symbolName
  | Some m =>
      let declStart := declStart_of m in
      let afterMatch := afterMatch_of m in
      let braceStart := unguarded_index source LBRACE afterMatch in
      let semiStart := unguarded_index source SEMICOLON afterMatch in
      if negb (semiStart =? -1)%Z
         && ((braceStart =? -1)%Z || (semiStart <? braceStart)%Z)
      then Some (trimEnd (substring source declStart (semiStart + 1)))
      else if (braceStart =? -1)%Z then None
      else
        let endIdx := findMatchingBrace source braceStart in
        if (endIdx =? -1)%Z then None
        else Some (trimEnd (substring source declStart (endIdx + 1)))
  end.

Module CsSamples.

(** A class whose header is followed by a comment that holds braces. *)
Definition commentedHeader : jsstring :=
  str "class Foo // {x}
{ int a; }".

Definition prefixNamed : jsstring := str "class FooBar { }".

(** An indented declaration with no doc comment above it. *)
Definition indentedRecord : jsstring := str "  record P(int X);".

Definition recordDecl : jsstring :=
  str "  /// A point.
  public record Point(int X, int Y);
class Next { }".

(** The match of the header pattern for [Point] in [recordDecl]. *)
Definition recordMatch : RegExpMatch :=
  {| index := 0;
     matched := str "  /// A point.
  public record Point(int X, int Y)";
     groups := [ (2, str "  public record Point(int X, int Y)");
                 (1, str "  /// A point.
") ] |}.

Definition classDecl : jsstring :=
  str "public class Box { char c = '}'; }
".

End CsSamples.

(* ------------------------------------------------------------------ *)
(** ** Proof automation *)

Ltac flags :=
  match goal with
  | H : in_mode ?st _ _ |- _ =>
      destruct st as [dep inS sC inL inB inV];
      destruct H as (Hd & HS & HL & HB & HV & HC);
      cbn [depth inString stringChar inLineComment inBlockComment inVerbatim]
        in Hd, HS, HL, HB, HV, HC;
      subst dep inS inL inB inV
  end.

Ltac mode_ok :=
  unfold in_mode;
  cbn [depth inString stringChar inLineComment inBlockComment inVerbatim];
  repeat split; auto; try lia.

(* ------------------------------------------------------------------ *)
(** ** Vocabulary for the marker pattern *)

(** The pieces of the pattern [openMarkerRe]: literal text and runs of
    blanks. *)
Inductive Item : Type :=
| Text (l : jsstring)
| Blanks.

Definition item_regex (i : Item) : regex :=
  match i with
  | Text l => Lit l
  | Blanks => ws_star
  end.

Definition openMarkerItems (dir : EmbedDirective) : list Item :=
  [ Text (str "<!--"); Blanks; Text (tag_of (kind dir)); Blanks;
    Text (str ":"); Blanks; Text (sourcePath dir); Text (str "#");
    Text (symbolName dir); Blanks; Text (str "-->") ].

(** Reading the pieces one after the other, every run of blanks taken as
    long as it is; the result is the text left over. *)
Fixpoint run_items (items : list Item) (s : jsstring) : option jsstring :=
  match items with
  | [] => Some s
  | Text l :: more =>
      if startsWith s l then run_items more (skipn (List.length l) s) else None
  | Blanks :: more => run_items more (trimStart s)
  end.

(** The first character that the pieces ask for is not a blank. *)
Fixpoint needs_nonspace (items : list Item) : bool :=
  match items with
  | Text (c :: _) :: _ => negb (is_space c)
  | Text [] :: more => needs_nonspace more
  | _ => false
  end.

(** Every run of blanks is followed by a character that is not one. *)
Fixpoint blanks_delimited (items : list Item) : bool :=
  match items with
  | [] => true
  | Blanks :: more => needs_nonspace more && blanks_delimited more
  | Text _ :: more => blanks_delimited more
  end.

(** In the text [content], the pattern of [d] matches at the recorded start
    of [d], and the match ends no later than [limit]. *)
Definition own_marker_matched (content : jsstring) (limit : Z)
    (d : EmbedDirective) : bool :=
  match exec (openMarkerRe d) (substring_from content (startIndex d)) with
  | Some m =>
      Nat.eqb (index m) 0
      && (startIndex d + Js.length (matched m) <=? limit)%Z
  | None => false
  end.

(** Each of the directives [ds], given in processing order, either fails to
    resolve or has a marker that its pattern matches in [content], the limit
    being the start of the directive processed just before ([limit] for the
    first of them). *)
Fixpoint siblings_located (env : Env) (mdFilePath content : jsstring)
    (limit : Z) (ds : list EmbedDirective) : bool :=
  match ds with
  | [] => true
  | d :: more =>
      (failed env mdFilePath d || own_marker_matched content limit d)
      && siblings_located env mdFilePath content (startIndex d) more
  end.
From Stdlib Require Import DecimalString.

(* ------------------------------------------------------------------ *)
(** ** Vocabulary for the further properties *)

(** How many times the character [c] occurs in [s]. *)
Definition count_char (c : char) (s : jsstring) : nat :=
  List.length (filter (N.eqb c) s).

(** The text [t] occurs somewhere in [s]. *)
Definition occurs_in (t s : jsstring) : Prop := exists P Q, s = P ++ t ++ Q.

Module MoreSamples.

(** An abstract method followed by a method with a body. *)
Definition shape : jsstring :=
  str "abstract class Shape
{
    public abstract double Area();
    public double Twice() { return 2 * Area(); }
}".

(** The match of the method pattern for [Area] in [shape]: it starts right
    after the brace of the class, with the line feed. *)
Definition areaMatch : RegExpMatch :=
  {| index := 22;
     matched := str "
    public abstract double Area()";
     groups := [ (2, str "
    public abstract double Area()"); (1, []) ] |}.

(** A document whose only directive is followed by its current block. *)
Definition synced : jsstring :=
  str "# Guide
<!-- cs-embed: foo.cs#Foo -->" ++ Samples.fooBlock ++ str "
tail
".

Definition syncedDirective : EmbedDirective :=
  {| kind := cs; sourcePath := str "foo.cs"; symbolName := str "Foo";
     lineNumber := 2; startIndex := 8; endIndex := 133 |}.

End MoreSamples.

(* ------------------------------------------------------------------ *)
(** ** What a pattern accepts *)

(** The captures of the groups of [r] are dropped, as [clear] does. *)
Definition clear_caps (r : regex) (c : list (nat * jsstring))
  : list (nat * jsstring) :=
  caps (clear r {| rest := []; caps := c |}).

(** [parses r w c c']: the pattern [r] accepts the text [w], turning the
    captures [c] into [c'].  The relation says what a match is, not which
    one the backtracking matcher prefers. *)
Inductive parses : regex -> jsstring -> list (nat * jsstring)
                   -> list (nat * jsstring) -> Prop :=
| parses_eps : forall c, parses Eps [] c c
| parses_chr : forall p x c, p x = true -> parses (Chr p) [x] c c
| parses_seq : forall r1 r2 w1 w2 c0 c1 c2,
    parses r1 w1 c0 c1 -> parses r2 w2 c1 c2 ->
    parses (Seq r1 r2) (w1 ++ w2) c0 c2
| parses_alt_l : forall r1 r2 w c0 c1,
    parses r1 w c0 c1 -> parses (Alt r1 r2) w c0 c1
| parses_alt_r : forall r1 r2 w c0 c1,
    parses r2 w c0 c1 -> parses (Alt r1 r2) w c0 c1
| parses_star_nil : forall g r c, parses (Star g r) [] c c
| parses_star_cons : forall g r w1 w2 c0 c1 c2,
    w1 <> [] ->
    parses r w1 (clear_caps r c0) c1 -> parses (Star g r) w2 c1 c2 ->
    parses (Star g r) (w1 ++ w2) c0 c2
| parses_opt_none : forall r c, parses (Opt r) [] c c
| parses_opt_some : forall r w c0 c1,
    w <> [] -> parses r w (clear_caps r c0) c1 -> parses (Opt r) w c0 c1
| parses_group : forall n r w c0 c1,
    parses r w c0 c1 -> parses (Group n r) w c0 ((n, w) :: c1).

Definition blank (w : jsstring) : Prop := forallb is_space w = true.

(** The text of a marker: the comment opener, the tag, the colon, the path
    as written, the hash sign, the symbol and the comment closer, with
    blanks in between. *)
Definition marker_text (ws1 : jsstring) (k : Kind) (ws2 ws3 path symbol ws4 : jsstring)
  : jsstring :=
  str "<!--" ++ ws1 ++ tag_of k ++ ws2 ++ str ":" ++ ws3 ++ path ++ str "#"
    ++ symbol ++ ws4 ++ str "-->".

(** A matcher for [r] is sound when what it hands to its continuation is
    what [r] accepts. *)
Definition sound (r : regex) (body : cont -> cont) : Prop :=
  forall k st f, body k st = Some f ->
    exists w st', rest st = w ++ rest st' /\
                  parses r w (caps st) (caps st') /\ k st' = Some f.

(** The marker [m] stands in [content] as it was scanned. *)
Definition from_marker (content : jsstring) (m : OpenMarker) : Prop :=
  exists before ws1 ws2 ws3 p ws4 after,
    content
    = before ++ marker_text ws1 (om_kind m) ws2 ws3 p (om_symbolName m) ws4
        ++ after /\
    Z.of_nat (List.length before) = om_index m /\
    om_length m
    = Js.length (marker_text ws1 (om_kind m) ws2 ws3 p (om_symbolName m) ws4) /\
    om_sourcePath m = trim p /\
    blank ws1 /\ blank ws2 /\ blank ws3 /\ blank ws4 /\
    p <> [] /\ mem (chr "#") p = false /\
    om_symbolName m <> [] /\ forallb cls_S (om_symbolName m) = true.


(* ------------------------------------------------------------------ *)
(** ** The caches and the command line program *)

(** [String(n)] for a count. *)
Definition decimal (n : nat) : jsstring :=
  str (NilZero.string_of_uint (Nat.to_uint n)).

(** [String(n)] for an integer. *)
Definition decimalZ (n : Z) : jsstring :=
  str (NilZero.string_of_int (Z.to_int n)).

(** [s.split(",")]: never empty. *)
Fixpoint split_on (sep : char) (s : jsstring) : list jsstring :=
  match s with
  | [] => [[]]
  | c :: t =>
      if N.eqb c sep then [] :: split_on sep t
      else match split_on sep t with
           | l :: ls => (c :: l) :: ls
           | [] => [[c]]
           end
  end.

(** [Map.prototype.get] on a map whose entries are listed latest first. *)
Fixpoint map_get {V : Type} (k : jsstring) (m : list (jsstring * V)) : option V :=
  match m with
  | [] => None
  | (k', v) :: more => if eqs k k' then Some v else map_get k more
  end.

(** What changes while the program runs: the files, and the two caches
    [tsFileCache] and [csFileCache]. *)
Record World : Type :=
  { fs : jsstring -> option jsstring;
    tsFileCache : list (jsstring * SourceFile);
    csFileCache : list (jsstring * jsstring) }.

(** The environment that a world shows to the functions that read files:
    the paths and the parser of [base], the files of [w]. *)
Definition env_at (base : Env) (w : World) : Env :=
  {| path_dirname := path_dirname base;
     path_resolve := path_resolve base;
     path_resolve1 := path_resolve1 base;
     files := fs w;
     unreadable := unreadable base;
     createSourceFile := createSourceFile base |}.

(** [fs.writeFileSync(p, text)] *)
Definition writeFileSync (w : World) (p text : jsstring) : World :=
  {| fs := fun q => if eqs q p then Some text else fs w q;
     tsFileCache := tsFileCache w;
     csFileCache := csFileCache w |}.

(** The functions of the source that read files, with the caches and the
    world passed along: each gives how the call ends and the world it
    leaves.  [base] gives the paths, the parser and the paths that cannot be
    read; its files are not looked at. *)
Module Cached.

Definition existsSync (base : Env) (w : World) (p : jsstring) : bool :=
  match fs w p with Some _ => true | None => unreadable base p end.

Definition readFileSync (w : World) (p : jsstring) : Completion jsstring :=
  match fs w p with Some source => Normal source | None => Throw p end.

Definition getTsSourceFile (base : Env) (w : World) (filePath : jsstring)
  : Completion (option SourceFile) * World :=
  match map_get filePath (tsFileCache w) with
  | Some sf => (Normal (Some sf), w)
  | None =>
      if negb (existsSync base w filePath) then (Normal None, w)
      else
        match readFileSync w filePath with
        | Throw p => (Throw p, w)
        | Normal source =>
            let sf := createSourceFile base filePath source in
            (Normal (Some sf),
             {| fs := fs w;
                tsFileCache := (filePath, sf) :: tsFileCache w;
                csFileCache := csFileCache w |})
        end
  end.

Definition extractTsSymbol (base : Env) (w : World) (filePath symbolName : jsstring)
  : Completion (option jsstring) * World :=
  match getTsSourceFile base w filePath with
  | (Throw p, w') => (Throw p, w')
  | (Normal None, w') => (Normal None, w')
  | (Normal (Some sf), w') => (Normal (extractTsSymbol_in sf symbolName), w')
  end.

Definition getCsSource (base : Env) (w : World) (filePath : jsstring)
  : Completion (option jsstring) * World :=
  match map_get filePath (csFileCache w) with
  | Some source => (Normal (Some source), w)
  | None =>
      if negb (existsSync base w filePath) then (Normal None, w)
      else
        match readFileSync w filePath with
        | Throw p => (Throw p, w)
        | Normal source =>
            (Normal (Some source),
             {| fs := fs w;
                tsFileCache := tsFileCache w;
                csFileCache := (filePath, source) :: csFileCache w |})
        end
  end.

Definition extractCsSymbol (base : Env) (w : World) (filePath symbolName : jsstring)
  : Completion (option jsstring) * World :=
  match getCsSource base w filePath with
  | (Throw p, w') => (Throw p, w')
  | (Normal None, w') => (Normal None, w')
  | (Normal (Some source), w') =>
      (Normal (extractCsSymbol_in source symbolName), w')
  end.

Definition resolveEmbed (base : Env) (w : World) (directive : EmbedDirective)
    (mdFilePath : jsstring) : Completion EmbedResult * World :=
  let mdDir := path_dirname base mdFilePath in
  let absSource := path_resolve base mdDir (sourcePath directive) in
  if negb (existsSync base w absSource) then
    (Normal {| directive := directive;
               code := None;
               error := Some (str "File not found: " ++ absSource) |}, w)
  else
    let (code, w') :=
      match kind directive with
      | ts => extractTsSymbol base w absSource (symbolName directive)
      | cs => extractCsSymbol base w absSource (symbolName directive)
      end in
    match code with
    | Throw p => (Throw p, w')
    | Normal None =>
        (Normal {| directive := directive;
                   code := None;
                   error := Some (str "Symbol '" ++ symbolName directive
                                     ++ str "' not found in " ++ absSource) |},
         w')
    | Normal (Some c) =>
        (Normal {| directive := directive; code := Some c; error := None |}, w')
    end.

(** One round of the loop of [applyEmbeds]; the state is the text, the
    errors and the world. *)
Definition embed_round (base : Env) (mdFilePath : jsstring)
    (acc : jsstring * list ErrorReport) (w : World) (dir : EmbedDirective)
  : Completion (jsstring * list ErrorReport) * World :=
  let (result, errors) := acc in
  match resolveEmbed base w dir mdFilePath with
  | (Throw p, w') => (Throw p, w')
  | (Normal resolved, w') =>
      if has_error resolved then
        (Normal (result, errors ++ [report_of base mdFilePath dir resolved]), w')
      else
        match exec (openMarkerRe dir) (substring_from result (startIndex dir)) with
        | None => (Normal (result, errors), w')
        | Some openMatch =>
            (Normal (splice result dir (code_text resolved) openMatch, errors),
             w')
        end
  end.

Fixpoint embed_rounds (base : Env) (mdFilePath : jsstring)
    (dirs : list EmbedDirective) (acc : jsstring * list ErrorReport) (w : World)
  : Completion (jsstring * list ErrorReport) * World :=
  match dirs with
  | [] => (Normal acc, w)
  | dir :: more =>
      match embed_round base mdFilePath acc w dir with
      | (Throw p, w') => (Throw p, w')
      | (Normal acc', w') => embed_rounds base mdFilePath more acc' w'
      end
  end.

Definition applyEmbeds (base : Env) (w : World) (content mdFilePath : jsstring)
  : Completion (jsstring * list ErrorReport) * World :=
  let directives := findDirectives content in
  if Nat.eqb (List.length directives) 0 then (Normal (content, []), w)
  else
    embed_rounds base mdFilePath (sorted_directives directives) (content, []) w.

End Cached.

(** Every cached entry is what reading the file now would give. *)
Definition coherent (base : Env) (w : World) : Prop :=
  (forall p sf, map_get p (tsFileCache w) = Some sf ->
     exists source, fs w p = Some source /\ sf = createSourceFile base p source) /\
  (forall p s, map_get p (csFileCache w) = Some s -> fs w p = Some s).

(** What the command line program reads besides the files: its first
    argument ([None] when there is none), the files that [glob] finds for a
    pattern, and [path.relative(process.cwd(), p)]. *)
Record Host : Type :=
  { argv2 : option jsstring;
    glob : jsstring -> list jsstring;
    path_relative : jsstring -> jsstring }.

(** What the program does that can be seen from outside, in order. *)
Inductive Event : Type :=
| Log (line : jsstring)
| Warn (line : jsstring)
| Error (line : jsstring)
| WriteFile (path text : jsstring)
| Fatal (path : jsstring).

(** The variables of [main]. *)
Record Run : Type :=
  { world : World;
    allErrors : list ErrorReport;
    totalDirectives : nat;
    totalUpdated : nat;
    trace : list Event }.

(** How the loop over the files ends: normally, or with the exception of a
    document or of a source that cannot be read. *)
Inductive LoopEnd : Type :=
| Completed (st : Run)
| Thrown (st : Run) (path : jsstring).

(** What [main] leaves behind: the exit code, the events and the world. *)
Record Outcome : Type :=
  { exitCode : Z;
    events : list Event;
    final : World }.

Module Cli.

Definition usage : jsstring :=
  str "Usage: npx emdedd <comma-separated-globs>
  e.g. npx emdedd " ++ [QUOTE] ++ str "docs/**/*.md,specs/*.md" ++ [QUOTE].

Definition noFiles : jsstring :=
  [9888%N] ++ str "  No files matched the given patterns.".

Definition fileLine (host : Host) (mdFile : jsstring) (n : nat) : jsstring :=
  [55357%N; 56516%N] ++ str " " ++ path_relative host mdFile ++ str " "
    ++ [8212%N] ++ str " " ++ decimal n ++ str " embed(s)".

Definition updatedLine : jsstring := str "   " ++ [9989%N] ++ str " Updated".

Definition noChangesLine : jsstring :=
  str "   " ++ [8212%N] ++ str " No changes".

Definition boxTop : jsstring :=
  [LF; 9556%N] ++ repeat 9552%N 54 ++ [9559%N].

Definition boxTitle : jsstring :=
  [9553%N] ++ str "  EMBED ERRORS" ++ repeat 32%N 40 ++ [9553%N].

Definition boxBottom : jsstring :=
  [9562%N] ++ repeat 9552%N 54 ++ [9565%N; LF].

Definition errorLines (err : ErrorReport) : list Event :=
  [ Error (str "  " ++ [10060%N] ++ str " " ++ reason err);
    Error (str "     Source: " ++ er_sourcePath err ++ str "#"
             ++ er_symbolName err);
    Error (str "     Location: " ++ mdFile err ++ str ":"
             ++ decimalZ (er_lineNumber err));
    Error [] ].

Definition rule : jsstring := repeat 9472%N 56.

Definition summary (directives files updated errors : nat) : jsstring :=
  [55357%N; 56522%N] ++ str " " ++ decimal directives
    ++ str " directive(s) across " ++ decimal files ++ str " file(s) | "
    ++ decimal updated ++ str " updated | " ++ decimal errors
    ++ str " error(s)".

(** [allFiles.add(f)]: a set keeps the order of first insertion. *)
Definition set_add (f : jsstring) (s : list jsstring) : list jsstring :=
  if existsb (eqs f) s then s else s ++ [f].

(** The loop over the patterns that fills [allFiles]. *)
Definition collect (host : Host) (globs : list jsstring) : list jsstring :=
  fold_left (fun s g => fold_left (fun s' f => set_add f s') (glob host g) s)
            globs [].

(** The body of the loop [for (const mdFile of allFiles)]. *)
Definition file_round (base : Env) (host : Host) (st : Run) (mdFile : jsstring)
  : LoopEnd :=
  match Cached.readFileSync (world st) mdFile with
  | Throw p => Thrown st p
  | Normal content =>
      let directives := findDirectives content in
      if Nat.eqb (List.length directives) 0 then Completed st
      else
        let logged :=
          trace st ++ [Log (fileLine host mdFile (List.length directives))] in
        match Cached.applyEmbeds base (world st) content mdFile with
        | (Throw p, w) =>
            Thrown
              {| world := w;
                 allErrors := allErrors st;
                 totalDirectives := totalDirectives st + List.length directives;
                 totalUpdated := totalUpdated st;
                 trace := logged |} p
        | (Normal (output, errors), w) =>
            if negb (eqs output content) then
              Completed
                {| world := writeFileSync w mdFile output;
                   allErrors := allErrors st ++ errors;
                   totalDirectives := totalDirectives st + List.length directives;
                   totalUpdated := totalUpdated st + 1;
                   trace := logged ++ [WriteFile mdFile output; Log updatedLine] |}
            else
              Completed
                {| world := w;
                   allErrors := allErrors st ++ errors;
                   totalDirectives := totalDirectives st + List.length directives;
                   totalUpdated := totalUpdated st;
                   trace := if Nat.eqb (List.length errors) 0
                            then logged ++ [Log noChangesLine] else logged |}
        end
  end.

Fixpoint file_loop (base : Env) (host : Host) (files : list jsstring) (st : Run)
  : LoopEnd :=
  match files with
  | [] => Completed st
  | mdFile :: more =>
      match file_round base host st mdFile with
      | Completed st' => file_loop base host more st'
      | Thrown st' p => Thrown st' p
      end
  end.

(** [main], with the handler of [main().catch]. *)
Definition main (base : Env) (host : Host) (w : World) : Outcome :=
  match argv2 host with
  | None | Some [] =>
      {| exitCode := 1; events := [Error usage]; final := w |}
  | Some patterns =>
      let globs := map trim (split_on (chr ",") patterns) in
      let allFiles := collect host globs in
      if Nat.eqb (List.length allFiles) 0 then
        {| exitCode := 0; events := [Warn noFiles]; final := w |}
      else
        match file_loop base host allFiles
                {| world := w; allErrors := []; totalDirectives := 0;
                   totalUpdated := 0; trace := [] |} with
        | Thrown st p =>
            {| exitCode := 2; events := trace st ++ [Fatal p];
               final := world st |}
        | Completed st =>
            let report :=
              if Nat.ltb 0 (List.length (allErrors st)) then
                [Log boxTop; Log boxTitle; Log boxBottom]
                ++ List.concat (map errorLines (allErrors st))
              else [] in
            {| exitCode := if Nat.ltb 0 (List.length (allErrors st)) then 1 else 0;
               events := trace st ++ report
                         ++ [Log rule;
                             Log (summary (totalDirectives st)
                                    (List.length allFiles) (totalUpdated st)
                                    (List.length (allErrors st)))];
               final := world st |}
        end
  end.

End Cli.

(** The files that the patterns of the first argument match, in the order
    in which the program goes through them; none without an argument. *)
Definition matched_files (host : Host) : list jsstring :=
  match argv2 host with
  | None | Some [] => []
  | Some patterns => Cli.collect host (map trim (split_on (chr ",") patterns))
  end.

(** An event of the loop over the files: a line on the standard output, or
    the writing of one of the files [ps]. *)
Definition loop_event (ps : list jsstring) (e : Event) : Prop :=
  match e with
  | Log _ => True
  | WriteFile p _ => In p ps
  | _ => False
  end.

Module CliSamples.

(** One document, [Samples.twoDirectives], next to the files of
    [Samples.env]; nothing is cached. *)
Definition w0 : World :=
  {| fs := fun p => if eqs p Samples.md then Some Samples.twoDirectives
                    else files Samples.env p;
     tsFileCache := [];
     csFileCache := [] |}.

Definition host : Host :=
  {| argv2 := Some (str "docs/*.md, docs/guide.md");
     glob := fun g => if eqs g (str "docs/*.md") || eqs g (str "docs/guide.md")
                      then [Samples.md] else [];
     path_relative := fun p => p |}.

End CliSamples.

Module CacheSamples.

(** The file [/docs/foo.cs] has been changed after its text was cached. *)
Definition changed : World :=
  {| fs := fun p => if eqs p (str "/docs/foo.cs")
                    then Some (str "class Foo { int b; }") else None;
     tsFileCache := [];
     csFileCache := [(str "/docs/foo.cs", Samples.fooSource)] |}.

End CacheSamples.

(** The variables of the loop over the files when the loop has ended. *)
Definition loop_state (r : LoopEnd) : Run :=
  match r with Completed st | Thrown st _ => st end.

(** The variables of [main] before the loop over the files. *)
Definition run0 (w : World) : Run :=
  {| world := w; allErrors := []; totalDirectives := 0; totalUpdated := 0;
     trace := [] |}.

(** A marker stands at offset [i] of [content]. *)
Definition marker_at (content : jsstring) (i : nat) : Prop :=
  exists before ws1 k ws2 ws3 p sy ws4 after,
    content = before ++ marker_text ws1 k ws2 ws3 p sy ws4 ++ after /\
    List.length before = i /\
    blank ws1 /\ blank ws2 /\ blank ws3 /\ blank ws4 /\
    p <> [] /\ mem (chr "#") p = false /\
    sy <> [] /\ forallb cls_S sy = true.

(** The directive [d] of [content] is up to date: [resolveEmbed] returns a
    code for it, its marker
    is matched by its own pattern where it stands, and the text from the end
    of the marker to the end of its close tag is the block that would be
    generated now. *)
Definition up_to_date (env : Env) (mdFilePath content : jsstring)
    (d : EmbedDirective) : Prop :=
  exists c m,
    resolveEmbed env d mdFilePath
    = Normal {| directive := d; code := Some c; error := None |} /\
    exec (openMarkerRe d) (substring_from content (startIndex d)) = Some m /\
    index m = 0 /\
    (startIndex d + Js.length (matched m) <= endIndex d)%Z /\
    substring content (startIndex d + Js.length (matched m)) (endIndex d)
    = LF :: codeBlock (kind d) c.

(** The text of a marker up to the hash sign. *)
Definition marker_head (ws1 : jsstring) (k : Kind) (ws2 ws3 p : jsstring)
  : jsstring :=
  str "<!--" ++ ws1 ++ tag_of k ++ ws2 ++ str ":" ++ ws3 ++ p.


(** The comment closer stands in [M] only at its end. *)
Definition closer_at_end (M : jsstring) : Prop :=
  forall P Q, M = P ++ str "-->" ++ Q -> Q = [].

(** What a generated block holds before its close tag. *)
Definition block_head (k : Kind) (c : jsstring) : jsstring :=
  LF :: FENCE ++ lang_of k ++ [LF] ++ generatedLine ++ [LF] ++ c ++ [LF]
    ++ FENCE ++ [LF].

(* ------------------------------------------------------------------ *)
(** ** Documents laid out as markers with their blocks *)

(** A marker with the text before it and the code of its block. *)
Record Piece : Type :=
  { gap : jsstring;
    mark : jsstring;
    p_kind : Kind;
    p_path : jsstring;
    p_symbol : jsstring;
    p_code : jsstring }.

Definition piece_text (p : Piece) : jsstring :=
  gap p ++ mark p ++ LF :: codeBlock (p_kind p) (p_code p).

Fixpoint pieces_text (ps : list Piece) (tail : jsstring) : jsstring :=
  match ps with
  | [] => tail
  | p :: more => piece_text p ++ pieces_text more tail
  end.

(** The entry of [openMarkers] for a piece whose text begins at [off]. *)
Definition piece_marker (off : nat) (p : Piece) : OpenMarker :=
  {| om_index := Z.of_nat (off + List.length (gap p));
     om_length := Js.length (mark p);
     om_kind := p_kind p;
     om_sourcePath := p_path p;
     om_symbolName := p_symbol p |}.

Fixpoint piece_markers (off : nat) (ps : list Piece) : list OpenMarker :=
  match ps with
  | [] => []
  | p :: more =>
      piece_marker off p :: piece_markers (off + List.length (piece_text p)) more
  end.

Definition piece_directive (p : Piece) : EmbedDirective :=
  {| kind := p_kind p;
     sourcePath := p_path p;
     symbolName := p_symbol p;
     lineNumber := 0;
     startIndex := 0;
     endIndex := 0 |}.

(** The marker of the piece is a marker as [markerRe] reads it, with the
    comment closer only at its end; the pattern of its directive matches it
    whatever follows; the directive resolves to the code of the piece, which
    holds no comment opener. *)
Definition good_piece (env : Env) (mdFilePath : jsstring) (p : Piece) : Prop :=
  (exists ws1 ws2 ws3 x ws4,
     mark p = marker_text ws1 (p_kind p) ws2 ws3 x (p_symbol p) ws4 /\
     blank ws1 /\ blank ws2 /\ blank ws3 /\ blank ws4 /\
     x <> [] /\ mem (chr "#") x = false /\ p_path p = trim x /\
     p_symbol p <> [] /\ forallb cls_S (p_symbol p) = true) /\
  closer_at_end (mark p) /\
  (exists m, index m = 0 /\ matched m = mark p /\
     forall r, exec (openMarkerRe (piece_directive p)) (mark p ++ r) = Some m) /\
  code (resolved env (piece_directive p) mdFilePath) = Some (p_code p) /\
  ~ occurs_in (str "<!--") (p_code p).

(** [markerRe] matches at none of the first [n] offsets of [s]. *)
Definition quiet (s : jsstring) (n : nat) : Prop :=
  forall q, q < n -> match_here markerRe (skipn q s) = None.

(** Every piece is good, and [markerRe] matches neither within a gap nor
    within the text after the last block. *)
Fixpoint laid_out (env : Env) (mdFilePath : jsstring) (ps : list Piece)
    (tail : jsstring) : Prop :=
  match ps with
  | [] => forall q, match_here markerRe (skipn q tail) = None
  | p :: more =>
      quiet (piece_text p ++ pieces_text more tail) (List.length (gap p)) /\
      good_piece env mdFilePath p /\
      laid_out env mdFilePath more tail
  end.

(** The directive [d] of [content] can be rewritten in place: it resolves
    to a code that holds no comment opener, and its own pattern matches its
    marker where it stands, the comment closer standing in the matched text
    only at its end. *)
Definition rewritable (env : Env) (mdFilePath content : jsstring)
    (d : EmbedDirective) : Prop :=
  exists c m,
    resolveEmbed env d mdFilePath
    = Normal {| directive := d; code := Some c; error := None |} /\
    exec (openMarkerRe d) (substring_from content (startIndex d)) = Some m /\
    index m = 0 /\
    closer_at_end (matched m) /\
    ~ occurs_in (str "<!--") c.

(** Where the text kept after the block of [d] begins: [replaceEnd] of
    [applyEmbeds] when the marker [m] of [d] is matched where it stands. *)
Definition replace_end (d : EmbedDirective) (m : OpenMarker) : Z :=
  if negb (endIndex d =? -1)%Z then endIndex d else searchStart m.

(** The pieces that the markers [ms] of [content] give, the text before the
    first of them being taken from offset [pos] on. *)
Fixpoint pieces_of (env : Env) (mdFilePath content : jsstring) (pos : Z)
    (ms : list OpenMarker) : list Piece :=
  match ms with
  | [] => []
  | m :: more =>
      let d := directive_of content m (hd_error more) in
      {| gap := substring content pos (om_index m);
         mark := substring content (om_index m) (searchStart m);
         p_kind := om_kind m;
         p_path := om_sourcePath m;
         p_symbol := om_symbolName m;
         p_code := code_text (resolved env d mdFilePath) |}
      :: pieces_of env mdFilePath content (replace_end d m) more
  end.

(** Where the text kept after the last block begins. *)
Fixpoint tail_pos (content : jsstring) (pos : Z) (ms : list OpenMarker) : Z :=
  match ms with
  | [] => pos
  | m :: more =>
      tail_pos content (replace_end (directive_of content m (hd_error more)) m)
        more
  end.

Module RerunSamples.

(** Two directives for the same class, the first with a stale block, the
    second with no block yet. *)
Definition stale : jsstring :=
  str "# Guide
<!-- cs-embed: foo.cs#Foo -->
old
<!-- /cs-embed -->
between
<!-- cs-embed:  foo.cs#Foo   -->
end".

End RerunSamples.

Module DirSamples.

(** The files of [Samples.env], with a directory [/docs/src] next to
    them: the path exists and cannot be read. *)
Definition env : Env :=
  {| path_dirname := path_dirname Samples.env;
     path_resolve := path_resolve Samples.env;
     path_resolve1 := path_resolve1 Samples.env;
     files := files Samples.env;
     unreadable := fun p => eqs p (str "/docs/src");
     createSourceFile := createSourceFile Samples.env |}.

(** A directive that resolves, followed by one whose path is a directory. *)
Definition fooThenDir : jsstring :=
  str "<!-- cs-embed: foo.cs#Foo -->
<!-- cs-embed: src#Foo -->
".

Definition fooFirst : EmbedDirective :=
  {| kind := cs; sourcePath := str "foo.cs"; symbolName := str "Foo";
     lineNumber := 1; startIndex := 0; endIndex := -1 |}.

Definition dirSecond : EmbedDirective :=
  {| kind := cs; sourcePath := str "src"; symbolName := str "Foo";
     lineNumber := 2; startIndex := 30; endIndex := -1 |}.

End DirSamples.

Module DirCliSamples.

(** The document [DirSamples.fooThenDir] next to the files of
    [Samples.env]; nothing is cached. *)
Definition w1 : World :=
  {| fs := fun p => if eqs p Samples.md then Some DirSamples.fooThenDir
                    else files Samples.env p;
     tsFileCache := [];
     csFileCache := [] |}.

End DirCliSamples.

Module WindowSamples.

(** Two directives of the same kind; only the second is followed by a
    closing tag. *)
Definition lateClose : jsstring :=
  str "<!-- cs-embed: foo.cs#Foo -->
<!-- cs-embed: marker.cs#Marker -->
old
<!-- /cs-embed -->
".

Definition first : OpenMarker :=
  {| om_index := 0; om_length := 29; om_kind := cs;
     om_sourcePath := str "foo.cs"; om_symbolName := str "Foo" |}.

Definition second : OpenMarker :=
  {| om_index := 30; om_length := 35; om_kind := cs;
     om_sourcePath := str "marker.cs"; om_symbolName := str "Marker" |}.

Definition firstDirective : EmbedDirective :=
  {| kind := cs; sourcePath := str "foo.cs"; symbolName := str "Foo";
     lineNumber := 1; startIndex := 0; endIndex := -1 |}.

Definition secondDirective : EmbedDirective :=
  {| kind := cs; sourcePath := str "marker.cs"; symbolName := str "Marker";
     lineNumber := 2; startIndex := 30; endIndex := 88 |}.

End WindowSamples.

(* ------------------------------------------------------------------ *)
(** * Properties *)

(** ** Strings *)

Module JsFacts.

Lemma eqs_eq (a b : jsstring) : eqs a b = true <-> a = b.
Proof.
  revert b; induction a as [|x a IH]; intros [|y b]; simpl; split; intro H;
    try congruence; try discriminate.
  - apply andb_true_iff in H as [H1 H2]. apply N.eqb_eq in H1.
    apply IH in H2. congruence.
  - injection H as -> ->. rewrite N.eqb_refl. simpl. now apply IH.
Qed.

Lemma startsWith_app (s p : jsstring) :
  startsWith s p = true <-> exists t, s = p ++ t.
Proof.
  revert s; induction p as [|x p IH]; intros s.
  - split; [intros _; now exists s | now destruct s].
  - destruct s as [|y s]; simpl.
    + split; [discriminate | intros [t H]; discriminate].
    + rewrite andb_true_iff, N.eqb_eq, IH. split.
      * intros [-> [t ->]]. now exists t.
      * intros [t H]. injection H as -> ->. split; [reflexivity | now exists t].
Qed.

Lemma startsWith_firstn (s p : jsstring) :
  startsWith s p = true <-> firstn (List.length p) s = p.
Proof.
  rewrite startsWith_app. split.
  - intros [t ->]. rewrite firstn_app, Nat.sub_diag, firstn_all. simpl.
    now rewrite app_nil_r.
  - intros H. exists (skipn (List.length p) s).
    rewrite <- H at 1. symmetry. apply firstn_skipn.
Qed.

(** [find_from] returns the first offset at which the pattern occurs. *)
Lemma find_from_some (p s : jsstring) (i j : nat) :
  find_from p s i = Some j ->
  exists k, j = i + k /\ k <= List.length s /\
            startsWith (skipn k s) p = true /\
            forall k', k' < k -> startsWith (skipn k' s) p = false.
Proof.
  revert i; induction s as [|c s IH]; intros i; cbn [find_from].
  - destruct (startsWith [] p) eqn:E; [|discriminate].
    intros [= <-]. exists 0. split; [lia|]. split; [simpl; lia|].
    split; [exact E|]. intros; lia.
  - destruct (startsWith (c :: s) p) eqn:E.
    + intros [= <-]. exists 0. split; [lia|]. split; [simpl; lia|].
      split; [exact E|]. intros; lia.
    + intros H. apply IH in H as (k & -> & Hk & Hs & Hm).
      exists (S k). split; [lia|]. split; [simpl; lia|].
      split; [exact Hs|].
      intros [|k'] Hlt; [exact E|]. apply Hm. lia.
Qed.

Lemma find_from_none (p s : jsstring) (i : nat) :
  find_from p s i = None -> forall k, startsWith (skipn k s) p = false.
Proof.
  revert i; induction s as [|c s IH]; intros i; cbn [find_from].
  - destruct (startsWith [] p) eqn:E; [discriminate|].
    intros _ k. now rewrite skipn_nil.
  - destruct (startsWith (c :: s) p) eqn:E; [discriminate|].
    intros H [|k]; [exact E|]. cbn [skipn]. eauto.
Qed.

Lemma length_nonneg (s : jsstring) : (0 <= Js.length s)%Z.
Proof. unfold Js.length. lia. Qed.

Lemma clamp_le (s : jsstring) (i : Z) : clamp s i <= List.length s.
Proof. unfold clamp. lia. Qed.

Lemma clamp_in_range (s : jsstring) (i : Z) :
  (0 <= i <= Js.length s)%Z -> clamp s i = Z.to_nat i.
Proof. unfold clamp, Js.length. lia. Qed.

Lemma substring_in_range (s : jsstring) (a b : Z) :
  (0 <= a <= b)%Z -> (b <= Js.length s)%Z ->
  substring s a b = firstn (Z.to_nat b - Z.to_nat a) (skipn (Z.to_nat a) s).
Proof.
  intros Ha Hb. unfold substring.
  rewrite !clamp_in_range by lia.
  replace (Nat.min (Z.to_nat a) (Z.to_nat b)) with (Z.to_nat a) by lia.
  replace (Nat.max (Z.to_nat a) (Z.to_nat b)) with (Z.to_nat b) by lia.
  reflexivity.
Qed.

Lemma substring_prefix (s : jsstring) (b : Z) :
  (0 <= b <= Js.length s)%Z -> substring s 0 b = firstn (Z.to_nat b) s.
Proof.
  intros H. rewrite substring_in_range by lia. simpl. f_equal. lia.
Qed.

Lemma substring_from_in_range (s : jsstring) (a : Z) :
  (0 <= a <= Js.length s)%Z -> substring_from s a = skipn (Z.to_nat a) s.
Proof. intros H. unfold substring_from. now rewrite clamp_in_range. Qed.

End JsFacts.

(** ** The matcher *)

Module RegexFacts.

Lemma suffix_refl (a : jsstring) : suffix_of a a.
Proof. now exists []. Qed.

Lemma suffix_trans (a b c : jsstring) :
  suffix_of a b -> suffix_of b c -> suffix_of a c.
Proof.
  intros [p ->] [q ->]. exists (q ++ p). now rewrite app_assoc.
Qed.

Lemma suffix_cons (a : jsstring) (c : char) : suffix_of a (c :: a).
Proof. now exists [c]. Qed.

Lemma suffix_length (a b : jsstring) :
  suffix_of a b -> List.length a <= List.length b.
Proof. intros [p ->]. rewrite length_app. lia. Qed.

Lemma star_loop_advancing greedy body clr :
  advancing body -> (forall st, rest (clr st) = rest st) ->
  forall fuel k st f,
    star_loop greedy body clr k fuel st = Some f ->
    exists st', k st' = Some f /\ suffix_of (rest st') (rest st).
Proof.
  intros Hb Hc. induction fuel as [|fuel IH]; intros k st f; simpl; [discriminate|].
  assert (Hagain :
    body (fun st' => if same_pos st' st then None
                     else star_loop greedy body clr k fuel st') (clr st) = Some f ->
    exists st', k st' = Some f /\ suffix_of (rest st') (rest st)).
  { intros H. apply Hb in H as (st1 & H1 & S1). rewrite Hc in S1.
    destruct (same_pos st1 st); [discriminate|].
    apply IH in H1 as (st2 & H2 & S2). exists st2. split; auto.
    eapply suffix_trans; eauto. }
  destruct greedy.
  - destruct (body _ (clr st)) eqn:E.
    + intros [= <-]. auto.
    + intros H. exists st. split; auto using suffix_refl.
  - destruct (k st) eqn:E.
    + intros [= <-]. exists st. split; auto using suffix_refl.
    + auto.
Qed.

Lemma rmatch_advancing (r : regex) : advancing (rmatch r).
Proof.
  induction r as [|p|r1 IH1 r2 IH2|r1 IH1 r2 IH2|g r IH|r IH|n r IH];
    intros k st f; cbn [rmatch].
  - intros H. exists st. split; auto using suffix_refl.
  - destruct (rest st) as [|c t] eqn:E; [discriminate|].
    destruct (p c); [|discriminate]. intros H.
    eexists. split; [exact H|]. simpl. apply suffix_cons.
  - intros H. apply IH1 in H as (st1 & H1 & S1).
    apply IH2 in H1 as (st2 & H2 & S2). exists st2. split; auto.
    eapply suffix_trans; eauto.
  - destruct (rmatch r1 k st) eqn:E.
    + intros [= <-]. now apply IH1.
    + apply IH2.
  - apply star_loop_advancing; auto.
  - destruct (rmatch r _ (clear r st)) eqn:E.
    + intros [= <-]. apply IH in E as (st1 & H1 & S1).
      destruct (same_pos st1 st); [discriminate|]. exists st1. split; auto.
    + intros H. exists st. split; auto using suffix_refl.
  - intros H. apply IH in H as (st1 & H1 & S1).
    eexists. split; [exact H1|]. exact S1.
Qed.

Lemma firstn_consumed (p t : jsstring) :
  firstn (List.length (p ++ t) - List.length t) (p ++ t) = p.
Proof.
  rewrite length_app, Nat.add_sub, firstn_app, Nat.sub_diag, firstn_all.
  simpl. apply app_nil_r.
Qed.

Lemma filter_all (A : Type) (l : list A) : filter (fun _ => true) l = l.
Proof. induction l; simpl; congruence. Qed.

Lemma clear_groupfree (r : regex) (st : mstate) :
  groups_of r = [] -> clear r st = st.
Proof.
  intros H. unfold clear. rewrite H. cbn [existsb negb].
  rewrite filter_all. now destruct st.
Qed.

Lemma star_loop_preserving greedy body clr :
  preserving body -> (forall st, clr st = st) ->
  forall fuel, preserving (fun k => star_loop greedy body clr k fuel).
Proof.
  intros Hb Hc. induction fuel as [|fuel IH]; intros k st f; cbn [star_loop];
    [discriminate|].
  assert (Hagain :
    body (fun st' => if same_pos st' st then None
                     else star_loop greedy body clr k fuel st') (clr st) = Some f ->
    exists st', k st' = Some f /\ suffix_of (rest st') (rest st)
                /\ caps st' = caps st).
  { intros H. apply Hb in H as (st1 & H1 & S1 & C1). rewrite Hc in S1, C1.
    destruct (same_pos st1 st); [discriminate|].
    apply IH in H1 as (st2 & H2 & S2 & C2). exists st2. split; auto.
    split; [eapply suffix_trans; eauto | congruence]. }
  destruct greedy.
  - destruct (body _ (clr st)) eqn:E.
    + intros [= <-]. auto.
    + intros H. exists st. auto using suffix_refl.
  - destruct (k st) eqn:E.
    + intros [= <-]. exists st. auto using suffix_refl.
    + auto.
Qed.

Lemma rmatch_preserving (r : regex) : groups_of r = [] -> preserving (rmatch r).
Proof.
  induction r as [|p|r1 IH1 r2 IH2|r1 IH1 r2 IH2|g r IH|r IH|n r IH];
    cbn [groups_of]; intros Hg k st f; cbn [rmatch].
  - intros H. exists st. auto using suffix_refl.
  - destruct (rest st) as [|c t] eqn:E; [discriminate|].
    destruct (p c); [|discriminate]. intros H.
    eexists. split; [exact H|]. split; [apply suffix_cons | reflexivity].
  - apply app_eq_nil in Hg as [G1 G2]. intros H.
    apply (IH1 G1) in H as (st1 & H1 & S1 & C1).
    apply (IH2 G2) in H1 as (st2 & H2 & S2 & C2). exists st2. split; auto.
    split; [eapply suffix_trans; eauto | congruence].
  - apply app_eq_nil in Hg as [G1 G2]. destruct (rmatch r1 k st) eqn:E.
    + intros [= <-]. now apply IH1.
    + now apply IH2.
  - apply (star_loop_preserving g (rmatch r) (clear r)); auto.
    intros st0. now apply clear_groupfree.
  - rewrite clear_groupfree by exact Hg. destruct (rmatch r _ st) eqn:E.
    + intros [= <-]. apply (IH Hg) in E as (st1 & H1 & S1 & C1).
      destruct (same_pos st1 st); [discriminate|]. exists st1. auto.
    + intros H. exists st. auto using suffix_refl.
  - discriminate.
Qed.

Lemma groups_of_Lit (s : jsstring) : groups_of (Lit s) = [].
Proof. induction s; simpl; auto. Qed.

(** A pattern made of two groups in a row captures two adjacent pieces of
    the input. *)
Lemma two_groups_captured (A B : regex) (s : jsstring) (f : mstate) :
  groups_of A = [] -> groups_of B = [] ->
  match_here (Seq (Group 1 A) (Group 2 B)) s = Some f ->
  exists p1 p2, s = p1 ++ p2 ++ rest f /\ caps f = [(2, p2); (1, p1)].
Proof.
  intros GA GB. unfold match_here. cbn [rmatch rest caps]. intros H.
  apply (rmatch_preserving A GA) in H as (st1 & H & [p1 S1] & C1).
  cbn [rest caps] in *.
  apply (rmatch_preserving B GB) in H as (st2 & H & [p2 S2] & C2).
  cbn [rest caps] in *. injection H as <-. cbn [rest caps].
  exists p1, p2. subst s. rewrite S2, C2, C1.
  split; [reflexivity|]. now rewrite !firstn_consumed.
Qed.

(** The fuel of [star_loop] is never used up: any amount above the length
    of the input gives the same result. *)
Lemma star_loop_local greedy body clr :
  local_matcher body -> (forall st, rest (clr st) = rest st) ->
  forall fuel, local_matcher (fun k => star_loop greedy body clr k fuel).
Proof.
  intros Hb Hc. induction fuel as [|fuel IH]; intros k k' st Hk; cbn [star_loop];
    [reflexivity|].
  rewrite (Hk st) by lia.
  rewrite (Hb _ (fun st' => if same_pos st' st then None
                            else star_loop greedy body clr k' fuel st')).
  - reflexivity.
  - intros st' Hle. rewrite Hc in Hle. destruct (same_pos st' st); [reflexivity|].
    apply IH. intros st'' Hle'. apply Hk. lia.
Qed.

Lemma rmatch_local (r : regex) : local_matcher (rmatch r).
Proof.
  induction r as [|p|r1 IH1 r2 IH2|r1 IH1 r2 IH2|g r IH|r IH|n r IH];
    intros k k' st Hk; cbn [rmatch].
  - apply Hk. lia.
  - destruct (rest st) as [|c t] eqn:E; [reflexivity|].
    destruct (p c); [|reflexivity]. apply Hk. cbn [rest]. simpl. lia.
  - apply IH1. intros st' Hle. apply IH2. intros st'' Hle'. apply Hk. lia.
  - rewrite (IH1 k k' st Hk), (IH2 k k' st Hk). reflexivity.
  - apply (star_loop_local g (rmatch r) (clear r)); auto.
  - rewrite (Hk st) by lia.
    rewrite (IH _ (fun st' => if same_pos st' st then None else k' st')).
    + reflexivity.
    + intros st' Hle. cbn [clear rest] in Hle.
      destruct (same_pos st' st); [reflexivity|]. apply Hk. lia.
  - apply IH. intros st' Hle. apply Hk. cbn [rest]. lia.
Qed.

Lemma star_loop_fuel greedy body clr k :
  local_matcher body -> (forall st, rest (clr st) = rest st) ->
  forall n st fuel1 fuel2,
    List.length (rest st) <= n ->
    List.length (rest st) < fuel1 -> List.length (rest st) < fuel2 ->
    star_loop greedy body clr k fuel1 st = star_loop greedy body clr k fuel2 st.
Proof.
  intros Hb Hc. induction n as [|n IH]; intros st fuel1 fuel2 Hn H1 H2;
    (destruct fuel1 as [|f1]; [lia|]); (destruct fuel2 as [|f2]; [lia|]);
    cbn [star_loop];
    rewrite (Hb _ (fun st' => if same_pos st' st then None
                              else star_loop greedy body clr k f2 st'));
    try reflexivity;
    intros st' Hle; rewrite Hc in Hle; unfold same_pos;
    destruct (Nat.eqb (List.length (rest st')) (List.length (rest st))) eqn:E;
    try reflexivity; apply Nat.eqb_neq in E.
  - lia.
  - apply IH; lia.
Qed.

Lemma star_fuel_irrelevant (greedy : bool) (r : regex) (k : cont) (st : mstate)
    (fuel : nat) :
  List.length (rest st) < fuel ->
  rmatch (Star greedy r) k st
  = star_loop greedy (rmatch r) (clear r) k fuel st.
Proof.
  intros H. cbn [rmatch].
  apply (star_loop_fuel greedy (rmatch r) (clear r) k (rmatch_local r)
           (fun _ => eq_refl) (List.length (rest st))); lia.
Qed.

(** The characters that [escapeRegex] escapes are the ones that the
    pattern grammar reserves. *)
Lemma is_syntax_char_reserved (c : char) :
  is_syntax_char c = SyntaxCharacter c.
Proof.
  unfold is_syntax_char, SyntaxCharacter, mem. cbn [str existsb].
  cbv [N_of_ascii N_of_digits N.add N.mul Pos.add Pos.mul Pos.succ].
  repeat match goal with
         | |- context [N.eqb c ?k] =>
             destruct (N.eqb_spec c k); [subst c; reflexivity|]
         end.
  reflexivity.
Qed.

(** The pattern text that [escapeRegex] produces is read as the literal
    text it was made from. *)
Lemma literal_pattern_escapeRegex (s : jsstring) :
  literal_pattern (escapeRegex s) = Some (Lit s).
Proof.
  induction s as [|c s IH]; [reflexivity|]. cbn [escapeRegex].
  destruct (is_syntax_char c) eqn:E; cbn [literal_pattern Lit].
  - rewrite N.eqb_refl, <- is_syntax_char_reserved, E, IH. reflexivity.
  - destruct (N.eqb c BACKSLASH) eqn:B.
    + apply N.eqb_eq in B. subst c. discriminate.
    + rewrite <- is_syntax_char_reserved, E, IH. reflexivity.
Qed.

Lemma match_here_suffix (r : regex) (s : jsstring) (st : mstate) :
  match_here r s = Some st -> suffix_of (rest st) s.
Proof.
  unfold match_here. intros H.
  apply rmatch_advancing in H as (st' & [= <-] & S). exact S.
Qed.

Lemma found_inside (i : nat) (s : jsstring) (st : mstate) :
  suffix_of (rest st) s ->
  s = matched (found i s st) ++ rest st /\ index (found i s st) = i.
Proof.
  intros [p ->]. unfold found. cbn [matched index].
  now rewrite firstn_consumed.
Qed.

(** What [search] returns: the match lies inside the input. *)
Lemma search_inside (r : regex) (s : jsstring) (i : nat) (m : RegExpMatch) :
  search r i s = Some m ->
  exists pre post, s = pre ++ matched m ++ post /\ index m = i + List.length pre.
Proof.
  revert i m; induction s as [|c s IH]; intros i m; cbn [search].
  - destruct (match_here r []) as [st|] eqn:E; [|discriminate].
    intros [= <-]. apply match_here_suffix in E.
    destruct (found_inside i _ _ E) as [H1 H2].
    exists [], (rest st). split; [exact H1 | simpl; lia].
  - destruct (match_here r (c :: s)) as [st|] eqn:E.
    + intros [= <-]. apply match_here_suffix in E.
      destruct (found_inside i _ _ E) as [H1 H2].
      exists [], (rest st). split; [exact H1 | simpl; lia].
    + intros H. apply IH in H as (pre & post & -> & Hi).
      exists (c :: pre), post. split; [reflexivity | simpl; lia].
Qed.

Lemma exec_from_inside (r : regex) (s : jsstring) (from : nat) (m : RegExpMatch) :
  exec_from r s from = Some m ->
  exists pre post, s = pre ++ matched m ++ post /\ index m = List.length pre
                   /\ from <= index m.
Proof.
  unfold exec_from. destruct (Nat.leb from (List.length s)) eqn:E; [|discriminate].
  apply Nat.leb_le in E. intros H.
  apply search_inside in H as (pre & post & Hs & Hi).
  exists (firstn from s ++ pre), post. repeat split.
  - rewrite <- app_assoc, <- Hs. symmetry. apply firstn_skipn.
  - rewrite length_app, length_firstn. lia.
  - lia.
Qed.

Lemma exec_inside (r : regex) (s : jsstring) (m : RegExpMatch) :
  exec r s = Some m ->
  exists pre post, s = pre ++ matched m ++ post /\ index m = List.length pre.
Proof.
  unfold exec. intros H. apply search_inside in H as (pre & post & Hs & Hi).
  exists pre, post. split; auto.
Qed.

End RegexFacts.

(** ** The directive scanner *)

Module ScanFacts.
Import JsFacts RegexFacts.

Lemma seq_lit_consumes (c : char) (t : jsstring) (r : regex) (k : cont)
    (st f : mstate) :
  rmatch (Seq (Lit (c :: t)) r) k st = Some f ->
  exists st', k st' = Some f /\ List.length (rest st') < List.length (rest st).
Proof.
  cbn [rmatch Lit]. destruct (rest st) as [|x xs] eqn:E; [discriminate|].
  destruct (N.eqb c x); [|discriminate]. intros H.
  change (rmatch (Seq (Lit t) r) k {| rest := xs; caps := caps st |} = Some f) in H.
  apply rmatch_advancing in H as (st' & Hk & S). exists st'. split; auto.
  apply suffix_length in S. simpl in *. lia.
Qed.

(** A pattern that begins with a literal character has no empty match. *)
Lemma search_lit_nonempty (c : char) (t : jsstring) (r : regex) (s : jsstring)
    (i : nat) (m : RegExpMatch) :
  search (Seq (Lit (c :: t)) r) i s = Some m -> 0 < List.length (matched m).
Proof.
  revert i; induction s as [|x s IH]; intros i; cbn [search].
  - destruct (match_here _ []) as [st|] eqn:E; [|discriminate].
    unfold match_here in E. apply seq_lit_consumes in E as (st' & [= <-] & L).
    simpl in L. lia.
  - destruct (match_here _ (x :: s)) as [st|] eqn:E.
    + intros [= <-]. unfold match_here in E.
      apply seq_lit_consumes in E as (st' & [= <-] & L). cbn [rest] in L.
      unfold found; cbn [matched]. rewrite length_firstn. lia.
    + apply IH.
Qed.

Lemma exec_markerRe_nonempty (s : jsstring) (from : nat) (m : RegExpMatch) :
  exec_from markerRe s from = Some m -> 0 < List.length (matched m).
Proof.
  unfold exec_from. destruct (Nat.leb from (List.length s)); [|discriminate].
  apply (search_lit_nonempty (chr "<") (str "!--")).
Qed.

Lemma exec_openMarkerRe_nonempty (d : EmbedDirective) (s : jsstring)
    (m : RegExpMatch) :
  exec (openMarkerRe d) s = Some m -> 0 < List.length (matched m).
Proof.
  unfold exec. apply (search_lit_nonempty (chr "<") (str "!--")).
Qed.

(** The first loop of [findDirectives] ends: with more fuel than there is
    unread text, [exec] returns [null] before the fuel is used up. *)
Lemma scan_markers_total (content : jsstring) (fuel from : nat) :
  List.length content - from < fuel ->
  exists ms, scan_markers fuel content from = Some ms.
Proof.
  revert from; induction fuel as [|fuel IH]; intros from Hlt; [lia|].
  cbn [scan_markers].
  destruct (exec_from markerRe content from) as [m|] eqn:E; [|now exists []].
  pose proof (exec_markerRe_nonempty _ _ _ E) as Hne.
  apply exec_from_inside in E as (pre & post & Hs & Hi & Hfrom).
  destruct (IH (index m + List.length (matched m))) as [ms Hms].
  { apply (f_equal (@List.length _)) in Hs. rewrite !length_app in Hs. lia. }
  rewrite Hms. now eexists.
Qed.

Lemma scan_markers_chain (content : jsstring) (fuel from : nat)
    (ms : list OpenMarker) :
  scan_markers fuel content from = Some ms ->
  marker_chain (Js.length content) (Z.of_nat from) ms.
Proof.
  revert from ms; induction fuel as [|fuel IH]; intros from ms; [discriminate|].
  cbn [scan_markers].
  destruct (exec_from markerRe content from) as [m|] eqn:E.
  2:{ intros [= <-]. constructor. }
  destruct (scan_markers fuel content _) as [ms'|] eqn:E'; [|discriminate].
  intros [= <-].
  pose proof (exec_markerRe_nonempty _ _ _ E) as Hne.
  apply exec_from_inside in E as (pre & post & Hs & Hi & Hfrom).
  apply IH in E'.
  constructor; unfold marker_of; cbn [om_index om_length]; unfold Js.length.
  - lia.
  - lia.
  - apply (f_equal (@List.length _)) in Hs. rewrite !length_app in Hs. lia.
  - replace (Z.of_nat (index m) + Z.of_nat (List.length (matched m)))%Z
      with (Z.of_nat (index m + List.length (matched m))) by lia.
    exact E'.
Qed.

Lemma openMarkers_chain (content : jsstring) :
  marker_chain (Js.length content) 0 (openMarkers content).
Proof.
  unfold openMarkers.
  destruct (scan_markers_total content (S (List.length content)) 0) as [ms H];
    [lia|].
  rewrite H. now apply scan_markers_chain in H.
Qed.

(** The loop does not depend on the fuel once there is enough of it. *)
Lemma openMarkers_scan (content : jsstring) :
  scan_markers (S (List.length content)) content 0 = Some (openMarkers content).
Proof.
  unfold openMarkers.
  destruct (scan_markers_total content (S (List.length content)) 0) as [ms H];
    [lia|].
  now rewrite H.
Qed.

Lemma second_pass_nth (content : jsstring) (pre : list OpenMarker)
    (m : OpenMarker) (post : list OpenMarker) :
  nth_error (second_pass content (pre ++ m :: post)) (List.length pre)
  = Some (directive_of content m (hd_error post)).
Proof.
  induction pre as [|x pre IH]; [reflexivity|]. exact IH.
Qed.

Lemma chain_window_end (content : jsstring) (from : Z) (ms : list OpenMarker) :
  (from <= Js.length content)%Z ->
  marker_chain (Js.length content) from ms ->
  (from <= windowEnd content ms <= Js.length content)%Z.
Proof.
  intros Hle H. destruct H; simpl; lia.
Qed.

(** The window of a marker of the list is well formed. *)
Lemma chain_window (content : jsstring) (from : Z) (pre : list OpenMarker)
    (m : OpenMarker) (post : list OpenMarker) :
  (0 <= from)%Z ->
  marker_chain (Js.length content) from (pre ++ m :: post) ->
  (0 <= om_index m)%Z /\ (0 < om_length m)%Z /\
  (searchStart m <= windowEnd content post <= Js.length content)%Z /\
  marker_chain (Js.length content) (searchStart m) post.
Proof.
  revert from; induction pre as [|x pre IH]; intros from Hfrom H; simpl in H.
  - inversion H; subst. unfold searchStart.
    split; [lia|]. split; [lia|]. split; [|assumption].
    apply chain_window_end; auto.
  - inversion H; subst. eapply IH; [|eassumption]. lia.
Qed.

Lemma startsWith_length (s p : jsstring) :
  startsWith s p = true -> List.length p <= List.length s.
Proof.
  rewrite startsWith_app. intros [t ->]. rewrite length_app. lia.
Qed.

(** Occurrences of [tag] in the region [content.substring(lo, hi)] are the
    occurrences in [content] that lie wholly between [lo] and [hi]. *)
Lemma region_occurrence (content tag : jsstring) (lo hi k : nat) :
  lo <= hi -> hi <= List.length content -> k <= hi - lo ->
  startsWith (skipn k (firstn (hi - lo) (skipn lo content))) tag = true <->
  k + List.length tag <= hi - lo /\
  firstn (List.length tag) (skipn (lo + k) content) = tag.
Proof.
  intros H1 H2 H3.
  rewrite skipn_firstn_comm, skipn_skipn, (Nat.add_comm k lo).
  split.
  - intros H. pose proof (startsWith_length _ _ H) as L.
    rewrite length_firstn, length_skipn in L.
    apply startsWith_firstn in H. rewrite firstn_firstn in H.
    split; [lia|]. replace (Nat.min (List.length tag) (hi - lo - k))
      with (List.length tag) in H by lia. exact H.
  - intros [L H]. apply startsWith_firstn. rewrite firstn_firstn.
    replace (Nat.min (List.length tag) (hi - lo - k))
      with (List.length tag) by lia. exact H.
Qed.


(** The close tag of a marker whose scan window is well formed. *)
Lemma directive_window (content : jsstring) (m : OpenMarker)
    (post : list OpenMarker) :
  (0 <= searchStart m <= windowEnd content post)%Z ->
  (windowEnd content post <= Js.length content)%Z ->
  let tag := closeTag (om_kind m) in
  let d := directive_of content m (hd_error post) in
  (endIndex d = (-1)%Z /\
    forall p, (searchStart m <= p)%Z ->
              (p + Js.length tag <= windowEnd content post)%Z ->
              ~ occurs_at content tag p)
   \/
   (exists p, (searchStart m <= p)%Z /\
              endIndex d = (p + Js.length tag)%Z /\
              (endIndex d <= windowEnd content post)%Z /\
              occurs_at content tag p /\
              forall p', (searchStart m <= p' < p)%Z -> ~ occurs_at content tag p').
Proof.
  intros Hw Hw' tag d.
  assert (Hhd : match hd_error post with
                | Some m' => om_index m'
                | None => Js.length content
                end = windowEnd content post) by now destruct post.
  set (lo := Z.to_nat (searchStart m)).
  set (hi := Z.to_nat (windowEnd content post)).
  assert (Hlohi : lo <= hi) by lia.
  assert (Hhi : hi <= List.length content) by (unfold Js.length in Hw'; lia).
  assert (Hregion : substring content (searchStart m)
                      (match hd_error post with
                       | Some m' => om_index m'
                       | None => Js.length content
                       end)
                    = firstn (hi - lo) (skipn lo content)).
  { rewrite Hhd. apply substring_in_range; lia. }
  unfold d, directive_of. cbn [endIndex]. rewrite Hregion.
  set (region := firstn (hi - lo) (skipn lo content)).
  assert (Hrl : List.length region = hi - lo).
  { unfold region. rewrite length_firstn, length_skipn. lia. }
  unfold indexOf, clamp. cbn [Z.to_nat Nat.min skipn].
  fold tag.
  destruct (find_from tag region 0) as [k|] eqn:E.
  - right. apply find_from_some in E as (k' & -> & Hk & Hat & Hfirst).
    cbn [Nat.add] in *. rewrite Hrl in Hk.
    apply region_occurrence in Hat as [Hfit Hocc]; auto.
    replace (Z.of_nat k' =? -1)%Z with false by (symmetry; apply Z.eqb_neq; lia).
    cbn [negb]. exists (searchStart m + Z.of_nat k')%Z.
    split; [lia|]. split; [reflexivity|].
    split; [unfold Js.length; lia|].
    split.
    + split; [lia|]. replace (Z.to_nat (searchStart m + Z.of_nat k')) with (lo + k') by lia.
      exact Hocc.
    + intros p' Hp' [_ Hocc'].
      assert (Hlt : Z.to_nat p' - lo < k') by lia.
      specialize (Hfirst _ Hlt).
      assert (Hyes : startsWith (skipn (Z.to_nat p' - lo) region) tag = true).
      { apply region_occurrence; auto; [lia|]. split.
        - unfold Js.length in *. lia.
        - replace (lo + (Z.to_nat p' - lo)) with (Z.to_nat p') by lia. exact Hocc'. }
      congruence.
  - left. cbn [Z.eqb negb]. split; [reflexivity|].
    intros p Hp1 Hp2 [_ Hocc].
    pose proof (find_from_none _ _ _ E (Z.to_nat p - lo)) as Hno.
    assert (Hyes : startsWith (skipn (Z.to_nat p - lo) region) tag = true).
    { apply region_occurrence; auto.
      - pose proof (length_nonneg tag). lia.
      - split.
        + unfold Js.length in *. lia.
        + replace (lo + (Z.to_nat p - lo)) with (Z.to_nat p) by lia. exact Hocc. }
    congruence.
Qed.

End ScanFacts.

(** ** Calls that return and calls that throw *)

Module PlainFacts.

(** The three ways in which [resolveEmbed] ends: the path does not exist;
    the file is read; the path exists but cannot be read. *)
Lemma resolveEmbed_cases (env : Env) (d : EmbedDirective) (md : jsstring) :
  let abs := path_resolve env (path_dirname env md) (sourcePath d) in
  (existsSync env abs = false /\
   resolveEmbed env d md
   = Normal {| directive := d; code := None;
               error := Some (str "File not found: " ++ abs) |})
  \/
  (exists source,
     files env abs = Some source /\
     resolveEmbed env d md
     = Normal
         match
           match kind d with
           | ts => extractTsSymbol_in (createSourceFile env abs source)
                     (symbolName d)
           | cs => extractCsSymbol_in source (symbolName d)
           end
         with
         | None => {| directive := d; code := None;
                      error := Some (str "Symbol '" ++ symbolName d
                                       ++ str "' not found in " ++ abs) |}
         | Some c => {| directive := d; code := Some c; error := None |}
         end)
  \/
  (files env abs = None /\ unreadable env abs = true /\
   resolveEmbed env d md = Throw abs).
Proof.
  cbv zeta. unfold resolveEmbed.
  set (abs := path_resolve env (path_dirname env md) (sourcePath d)).
  destruct (existsSync env abs) eqn:E; cbn [negb]; [|left; now split].
  right. unfold existsSync in E.
  destruct (files env abs) as [source|] eqn:F.
  - left. exists source. split; [reflexivity|].
    unfold extractTsSymbol, extractCsSymbol, getTsSourceFile, getCsSource,
      existsSync, readFileSync.
    rewrite F. cbn [negb].
    destruct (kind d).
    + destruct (extractTsSymbol_in _ _); reflexivity.
    + destruct (extractCsSymbol_in _ _); reflexivity.
  - right. split; [reflexivity|]. split; [exact E|].
    unfold extractTsSymbol, extractCsSymbol, getTsSourceFile, getCsSource,
      existsSync, readFileSync.
    rewrite F, E. cbn [negb]. destruct (kind d); reflexivity.
Qed.

Lemma returns_normal (env : Env) (md : jsstring) (d : EmbedDirective) :
  returns env md d = true <-> resolveEmbed env d md = Normal (resolved env d md).
Proof.
  unfold returns, resolved. destruct (resolveEmbed env d md); split;
    intros H; try reflexivity; discriminate.
Qed.

Lemma returns_throw (env : Env) (md : jsstring) (d : EmbedDirective) :
  returns env md d = false <-> exists p, resolveEmbed env d md = Throw p.
Proof.
  unfold returns. destruct (resolveEmbed env d md) as [r|p]; split.
  - discriminate.
  - intros [q H]. discriminate.
  - intros _. now exists p.
  - reflexivity.
Qed.

(** A call that has returned without error gave a code. *)
Lemma returned_has_code (env : Env) (d : EmbedDirective) (md : jsstring) :
  returns env md d = true -> has_error (resolved env d md) = false ->
  exists c, code (resolved env d md) = Some c.
Proof.
  unfold returns, resolved.
  destruct (resolveEmbed_cases env d md) as [[_ E]|[(s & _ & E)|(_ & _ & E)]];
    rewrite E; [intros _ H; discriminate H | | discriminate].
  destruct (match kind d with
            | ts => extractTsSymbol_in _ _
            | cs => extractCsSymbol_in _ _
            end) as [c|]; intros _ H; [now exists c | discriminate H].
Qed.

Lemma resolved_code_no_error (env : Env) (d : EmbedDirective) (md c : jsstring) :
  code (resolved env d md) = Some c -> has_error (resolved env d md) = false.
Proof.
  unfold resolved.
  destruct (resolveEmbed_cases env d md) as [[_ E]|[(s & _ & E)|(_ & _ & E)]];
    rewrite E.
  - discriminate.
  - destruct (match kind d with
              | ts => extractTsSymbol_in _ _
              | cs => extractCsSymbol_in _ _
              end); [reflexivity | discriminate].
  - discriminate.
Qed.

Lemma code_normal (env : Env) (d : EmbedDirective) (md c : jsstring) :
  code (resolved env d md) = Some c
  <-> resolveEmbed env d md
      = Normal {| directive := d; code := Some c; error := None |}.
Proof.
  unfold resolved.
  destruct (resolveEmbed_cases env d md) as [[_ E]|[(s & _ & E)|(_ & _ & E)]];
    rewrite E; try (split; discriminate).
  destruct (match kind d with
            | ts => extractTsSymbol_in _ _
            | cs => extractCsSymbol_in _ _
            end); split; try discriminate; now intros [= ->].
Qed.

(** What [resolveEmbed] gives depends on the directive through its kind,
    its path and its symbol only. *)
Lemma resolved_same_fields (env : Env) (d d' : EmbedDirective) (md : jsstring) :
  kind d = kind d' -> sourcePath d = sourcePath d' ->
  symbolName d = symbolName d' ->
  code (resolved env d md) = code (resolved env d' md).
Proof.
  intros Hk Hp Hs. unfold resolved.
  destruct (resolveEmbed_cases env d md) as [[X E]|[(s & X & E)|(X & Y & E)]];
    destruct (resolveEmbed_cases env d' md)
      as [[X' E']|[(s' & X' & E')|(X' & Y' & E')]];
    rewrite E, E'; rewrite <- ?Hk, <- ?Hp, <- ?Hs in *; try reflexivity;
    unfold existsSync in *;
    try (rewrite X' in X; discriminate); try (rewrite X in X'; discriminate);
    try (rewrite X in X'; rewrite Y in X'; discriminate);
    try (rewrite X' in X; rewrite Y' in X; discriminate).
  rewrite X in X'. injection X' as <-.
  destruct (match kind d with
            | ts => extractTsSymbol_in _ _
            | cs => extractCsSymbol_in _ _
            end); reflexivity.
Qed.

(** A round of the loop returns the plain round when [resolveEmbed]
    returns, and throws when it throws. *)
Lemma embed_round_returns (env : Env) (md : jsstring)
    (acc : jsstring * list ErrorReport) (d : EmbedDirective) :
  returns env md d = true ->
  embed_round env md acc d = Normal (plain_round env md acc d).
Proof.
  unfold returns, embed_round, plain_round, resolved. destruct acc as [t e].
  destruct (resolveEmbed env d md) as [r|p]; [intros _ | discriminate].
  destruct (has_error r); [reflexivity|]. destruct (exec _ _); reflexivity.
Qed.

Lemma embed_round_throws (env : Env) (md : jsstring)
    (acc : jsstring * list ErrorReport) (d : EmbedDirective) (p : jsstring) :
  resolveEmbed env d md = Throw p -> embed_round env md acc d = Throw p.
Proof. intros H. unfold embed_round. destruct acc. now rewrite H. Qed.

Lemma embed_round_normal (env : Env) (md : jsstring)
    (acc acc' : jsstring * list ErrorReport) (d : EmbedDirective) :
  embed_round env md acc d = Normal acc' ->
  returns env md d = true /\ acc' = plain_round env md acc d.
Proof.
  destruct (returns env md d) eqn:R.
  - rewrite (embed_round_returns env md acc d R). intros [= <-]. now split.
  - apply returns_throw in R as [p Hp].
    rewrite (embed_round_throws env md acc d p Hp). discriminate.
Qed.

Lemma embed_rounds_returns (env : Env) (md : jsstring) (ds : list EmbedDirective) :
  forall acc,
    forallb (returns env md) ds = true ->
    embed_rounds env md ds acc = Normal (fold_left (plain_round env md) ds acc).
Proof.
  induction ds as [|d ds IH]; intros acc H; [reflexivity|].
  cbn [forallb] in H. apply andb_true_iff in H as [Hd Hds].
  cbn [embed_rounds fold_left]. rewrite (embed_round_returns env md acc d Hd).
  now apply IH.
Qed.

Lemma embed_rounds_normal (env : Env) (md : jsstring) (ds : list EmbedDirective) :
  forall acc r,
    embed_rounds env md ds acc = Normal r ->
    forallb (returns env md) ds = true /\
    r = fold_left (plain_round env md) ds acc.
Proof.
  induction ds as [|d ds IH]; intros acc r H; cbn [embed_rounds] in H.
  - injection H as <-. now split.
  - destruct (embed_round env md acc d) as [acc'|p] eqn:E; [|discriminate].
    apply embed_round_normal in E as [Hd ->].
    destruct (IH _ _ H) as [Hds ->]. cbn [forallb fold_left].
    now rewrite Hd, Hds.
Qed.

Lemma embed_rounds_app (env : Env) (md : jsstring) (ds ds' : list EmbedDirective) :
  forall acc,
    embed_rounds env md (ds ++ ds') acc
    = match embed_rounds env md ds acc with
      | Throw p => Throw p
      | Normal acc' => embed_rounds env md ds' acc'
      end.
Proof.
  induction ds as [|d ds IH]; intros acc; [reflexivity|].
  cbn [app embed_rounds]. destruct (embed_round env md acc d); [apply IH | reflexivity].
Qed.

Lemma applyEmbeds_rounds (env : Env) (content md : jsstring) :
  applyEmbeds env content md
  = embed_rounds env md (sorted_directives (findDirectives content)) (content, []).
Proof.
  unfold applyEmbeds. destruct (findDirectives content); reflexivity.
Qed.

Lemma plain_run_rounds (env : Env) (content md : jsstring) :
  plain_run env content md
  = fold_left (plain_round env md) (sorted_directives (findDirectives content))
      (content, []).
Proof.
  unfold plain_run. destruct (findDirectives content); reflexivity.
Qed.

(** [applyEmbeds] returns the plain run when [resolveEmbed] returns for
    every directive, and only then. *)
Lemma applyEmbeds_returns (env : Env) (content md : jsstring) :
  forallb (returns env md) (sorted_directives (findDirectives content)) = true ->
  applyEmbeds env content md = Normal (plain_run env content md).
Proof.
  intros H. rewrite applyEmbeds_rounds, plain_run_rounds.
  now apply embed_rounds_returns.
Qed.

Lemma applyEmbeds_normal (env : Env) (content md : jsstring)
    (r : jsstring * list ErrorReport) :
  applyEmbeds env content md = Normal r ->
  forallb (returns env md) (sorted_directives (findDirectives content)) = true /\
  r = plain_run env content md.
Proof.
  rewrite applyEmbeds_rounds, plain_run_rounds. apply embed_rounds_normal.
Qed.

End PlainFacts.
Import JsFacts RegexFacts ScanFacts.

(** ** The rewrite engine *)

Module RewriteFacts.
Import JsFacts RegexFacts ScanFacts.

Lemma dchain_weaken (len from from' : Z) (ds : list EmbedDirective) :
  (from' <= from)%Z -> directive_chain len from ds -> directive_chain len from' ds.
Proof.
  intros Hle H. destruct H; constructor; auto. lia.
Qed.

Lemma chain_directives (content : jsstring) (from : Z) (ms : list OpenMarker) :
  (0 <= from)%Z ->
  marker_chain (Js.length content) from ms ->
  directive_chain (Js.length content) from (second_pass content ms).
Proof.
  intros Hfrom H. revert Hfrom.
  induction H as [from|from m ms H1 H2 H3 H4 IH]; intros Hfrom; cbn [second_pass].
  - constructor.
  - assert (Hw : (searchStart m <= windowEnd content ms <= Js.length content)%Z).
    { apply chain_window_end; [unfold searchStart; lia | exact H4]. }
    assert (Hn : next_or_len (Js.length content) (second_pass content ms)
                 = windowEnd content ms) by now destruct ms.
    constructor; rewrite ?Hn; cbn [startIndex directive_of].
    + exact H1.
    + unfold searchStart in Hw. lia.
    + destruct (directive_window content m ms) as [[E _]|(p & Hp & E & Hle & _)];
        [unfold searchStart in *; lia | lia | |].
      * rewrite E. unfold searchStart in Hw. lia.
      * rewrite E in *. pose proof (length_nonneg (closeTag (om_kind m))).
        unfold searchStart in *. lia.
    + lia.
    + eapply dchain_weaken; [|apply IH]; unfold searchStart in *; lia.
Qed.

Lemma findDirectives_chain (content : jsstring) :
  directive_chain (Js.length content) 0 (findDirectives content).
Proof.
  apply chain_directives; [lia | apply openMarkers_chain].
Qed.

Lemma dchain_all_ge (len from : Z) (ds : list EmbedDirective) :
  directive_chain len from ds -> Forall (fun d => (from <= startIndex d)%Z) ds.
Proof.
  induction 1 as [|from d ds H1 H2 H3 H4 H5 IH]; constructor; auto.
  eapply Forall_impl; [|exact IH]. simpl. intros; lia.
Qed.

Lemma dchain_split (len from : Z) (pre : list EmbedDirective) (d : EmbedDirective)
    (post : list EmbedDirective) :
  directive_chain len from (pre ++ d :: post) ->
  (from <= startIndex d < next_or_len len post)%Z /\
  (-1 <= endIndex d <= next_or_len len post)%Z /\
  (next_or_len len post <= len)%Z /\
  Forall (fun d' => (next_or_len len post <= startIndex d')%Z) post.
Proof.
  revert from; induction pre as [|x pre IH]; intros from H; simpl in H.
  - inversion H as [|? ? ? H1 H2 H3 H4 H5]; subst.
    repeat split; try lia.
    destruct post as [|y post]; [constructor|].
    apply dchain_all_ge in H5. simpl. inversion H5; subst.
    inversion H as [|? ? ? _ _ _ _ H6]; subst.
    inversion H6 as [|? ? ? G1 G2 G3 G4 G5]; subst.
    constructor; [lia|]. apply dchain_all_ge in G5.
    eapply Forall_impl; [|exact G5]. simpl. intros; lia.
  - inversion H as [|? ? ? H1 H2 H3 H4 H5]; subst.
    apply IH in H5. intuition lia.
Qed.

(** Sorting an ascending list in descending order reverses it. *)
Lemma insert_by_last (x : EmbedDirective) (l : list EmbedDirective) :
  Forall (fun y => (startIndex x < startIndex y)%Z) l ->
  insert_by (fun a b => (startIndex b - startIndex a)%Z) x l = l ++ [x].
Proof.
  induction 1 as [|y l Hy Hl IH]; [reflexivity|]. cbn [insert_by].
  replace (startIndex y - startIndex x <=? 0)%Z with false
    by (symmetry; apply Z.leb_gt; lia).
  now rewrite IH.
Qed.

Lemma sorted_directives_rev (len from : Z) (ds : list EmbedDirective) :
  directive_chain len from ds -> sorted_directives ds = rev ds.
Proof.
  induction 1 as [|from d ds H1 H2 H3 H4 H5 IH]; [reflexivity|].
  unfold sorted_directives in *. cbn [sort_by fold_right rev].
  fold (sort_by (fun a b => (startIndex b - startIndex a)%Z) ds). rewrite IH.
  apply insert_by_last. apply Forall_rev. apply dchain_all_ge in H5.
  eapply Forall_impl; [|exact H5]. simpl. intros; lia.
Qed.

Lemma dchain_sorted (len from : Z) (ds : list EmbedDirective) :
  directive_chain len from ds ->
  StronglySorted (fun a b => (startIndex a < startIndex b)%Z) ds.
Proof.
  induction 1 as [|from d ds H1 H2 H3 H4 H5 IH]; constructor; auto.
  apply dchain_all_ge in H5. eapply Forall_impl; [|exact H5]. simpl. intros; lia.
Qed.

(** Where a successful re-match puts the replacement: the text up to the end
    of the re-matched marker, which lies inside the current text and after
    the directive's start, is kept. *)
Lemma splice_shape (result : jsstring) (dir : EmbedDirective) (code : jsstring)
    (m : RegExpMatch) :
  (0 <= startIndex dir)%Z ->
  exec (openMarkerRe dir) (substring_from result (startIndex dir)) = Some m ->
  exists a,
    Z.to_nat (startIndex dir) < a /\ a <= List.length result /\
    (startIndex dir + Z.of_nat (index m) + Js.length (matched m))%Z = Z.of_nat a /\
    splice result dir code m
    = firstn a result ++ (LF :: codeBlock (kind dir) code)
      ++ substring_from result
           (if negb (endIndex dir =? -1)%Z then endIndex dir else Z.of_nat a).
Proof.
  intros H0 E. pose proof (exec_openMarkerRe_nonempty _ _ _ E) as Hne.
  apply exec_inside in E as (pre & post & Hs & Hi).
  apply (f_equal (@List.length _)) in Hs.
  unfold substring_from in Hs. rewrite length_skipn, !length_app in Hs.
  assert (Hc : clamp result (startIndex dir) = Z.to_nat (startIndex dir))
    by (unfold clamp in *; lia).
  rewrite Hc in Hs.
  exists (Z.to_nat (startIndex dir) + index m + List.length (matched m)).
  split; [lia|]. split; [lia|]. split; [unfold Js.length; lia|].
  unfold splice.
  replace (startIndex dir + Z.of_nat (index m) + Js.length (matched m))%Z
    with (Z.of_nat (Z.to_nat (startIndex dir) + index m + List.length (matched m)))
    by (unfold Js.length; lia).
  rewrite substring_prefix by (unfold Js.length; lia).
  now rewrite Nat2Z.id.
Qed.

(** A round keeps the text before the start of its directive. *)
Lemma embed_round_prefix (env : Env) (md : jsstring)
    (acc : jsstring * list ErrorReport) (dir : EmbedDirective) (n : nat) :
  (0 <= startIndex dir)%Z -> n <= Z.to_nat (startIndex dir) ->
  firstn n (fst (plain_round env md acc dir)) = firstn n (fst acc).
Proof.
  intros H0 Hn. destruct acc as [result errs]. unfold plain_round.
  destruct (has_error _); [reflexivity|].
  destruct (exec _ _) as [m|] eqn:E; [|reflexivity].
  destruct (splice_shape result dir (code_text (resolved env dir md)) m H0 E)
    as (a & Ha1 & Ha2 & _ & ->).
  cbn [fst]. rewrite firstn_app, length_firstn.
  replace (n - Nat.min a (List.length result)) with 0 by lia.
  rewrite firstn_firstn. cbn [firstn]. rewrite app_nil_r. f_equal. lia.
Qed.

Lemma fold_rounds_prefix (env : Env) (md : jsstring) (done : list EmbedDirective)
    (acc : jsstring * list ErrorReport) (w : Z) :
  (0 <= w)%Z -> Forall (fun d => (w <= startIndex d)%Z) done ->
  firstn (Z.to_nat w) (fst (fold_left (plain_round env md) done acc))
  = firstn (Z.to_nat w) (fst acc).
Proof.
  intros Hw. revert acc. induction done as [|d done IH]; intros acc Hall;
    [reflexivity|].
  inversion Hall; subst. cbn [fold_left]. rewrite IH by assumption.
  apply embed_round_prefix; lia.
Qed.

(** Two texts that agree up to offset [w] have the same substrings there. *)
Lemma substring_agree (s t : jsstring) (w a b : Z) :
  (w <= Js.length s)%Z ->
  firstn (Z.to_nat w) t = firstn (Z.to_nat w) s ->
  (0 <= a <= b)%Z -> (b <= w)%Z ->
  substring t a b = substring s a b.
Proof.
  intros Hs Heq Hab Hb.
  assert (Ht : (w <= Js.length t)%Z).
  { apply (f_equal (@List.length _)) in Heq. rewrite !length_firstn in Heq.
    unfold Js.length in *. lia. }
  rewrite !substring_in_range by lia.
  rewrite <- (firstn_skipn (Z.to_nat w) t), <- (firstn_skipn (Z.to_nat w) s), Heq.
  assert (L : List.length (firstn (Z.to_nat w) s) = Z.to_nat w).
  { rewrite length_firstn. unfold Js.length in *. lia. }
  rewrite !skipn_app, !firstn_app, !length_skipn, !L.
  replace (Z.to_nat b - Z.to_nat a - (Z.to_nat w - Z.to_nat a)) with 0 by lia.
  replace (Z.to_nat a - Z.to_nat w) with 0 by lia.
  reflexivity.
Qed.

(** The text of the loop does not depend on the error list, and the error
    list collects the reports of the failed directives in processing
    order. *)
Lemma fold_rounds_text (env : Env) (md : jsstring) (ds : list EmbedDirective)
    (t : jsstring) (e1 e2 : list ErrorReport) :
  fst (fold_left (plain_round env md) ds (t, e1))
  = fst (fold_left (plain_round env md) ds (t, e2)).
Proof.
  revert t e1 e2; induction ds as [|d ds IH]; intros t e1 e2; [reflexivity|].
  cbn [fold_left]. unfold plain_round at 2 4.
  destruct (has_error _); [apply IH|].
  destruct (exec _ _); apply IH.
Qed.

Lemma fold_rounds_errors (env : Env) (md : jsstring) (ds : list EmbedDirective)
    (t : jsstring) (e : list ErrorReport) :
  snd (fold_left (plain_round env md) ds (t, e))
  = e ++ map (report_for env md) (filter (failed env md) ds).
Proof.
  revert t e; induction ds as [|d ds IH]; intros t e.
  - simpl. now rewrite app_nil_r.
  - cbn [fold_left filter]. unfold plain_round at 2. unfold failed at 1.
    destruct (has_error _) eqn:E.
    + rewrite IH. cbn [map]. now rewrite <- app_assoc.
    + destruct (exec _ _); apply IH.
Qed.

Lemma failed_round (env : Env) (md : jsstring) (acc : jsstring * list ErrorReport)
    (d : EmbedDirective) :
  failed env md d = true ->
  plain_round env md acc d = (fst acc, snd acc ++ [report_for env md d]).
Proof.
  intros H. destruct acc as [t e]. unfold plain_round.
  unfold failed in H. now rewrite H.
Qed.

Lemma chain_descending (len from : Z) (todo : list EmbedDirective)
    (d : EmbedDirective) (post : list EmbedDirective) :
  (0 <= from)%Z ->
  directive_chain len from (rev todo ++ d :: post) ->
  descending_chain (startIndex d) todo.
Proof.
  intros Hfrom. revert d post.
  induction todo as [|d1 todo IH]; intros d post H; [constructor|].
  cbn [rev] in H. rewrite <- app_assoc in H. cbn [app] in H.
  pose proof (dchain_split _ _ _ _ _ H) as (H1 & H2 & _).
  cbn [next_or_len] in H1, H2.
  constructor; [lia | lia | eapply IH; exact H].
Qed.

(** Rounds that re-match inside their windows leave the text that follows
    the first limit in place. *)
Lemma rounds_keep_tail (env : Env) (md : jsstring) (todo : list EmbedDirective) :
  forall (acc : jsstring * list ErrorReport) (limit : Z) (P T : jsstring),
    fst acc = P ++ T -> (limit <= Js.length P)%Z ->
    descending_chain limit todo ->
    rounds_within env md acc limit todo = true ->
    exists P', fst (fold_left (plain_round env md) todo acc) = P' ++ T.
Proof.
  induction todo as [|d todo IH]; intros acc limit P T Hacc HL Hch Hin.
  - exists P. exact Hacc.
  - inversion Hch as [|? ? ? Hs He Hrest]; subst.
    cbn [rounds_within] in Hin. apply andb_true_iff in Hin as [Hone Hmore].
    cbn [fold_left].
    destruct acc as [cur errs]. cbn [fst] in *.
    unfold rematch_within in Hone. unfold plain_round in *.
    destruct (has_error _).
    { apply (IH _ (startIndex d) P T); auto. lia. }
    destruct (exec _ _) as [m|] eqn:E.
    2:{ apply (IH _ (startIndex d) P T); auto. lia. }
    apply Z.leb_le in Hone.
    destruct (splice_shape cur d (code_text (resolved env d md)) m
                (proj1 Hs) E) as (a & Ha1 & Ha2 & Ha3 & Hsp).
    rewrite Ha3 in Hone. rewrite Hsp in *.
    set (r := if negb (endIndex d =? -1)%Z then endIndex d else Z.of_nat a) in *.
    assert (Hr : (0 <= r <= limit)%Z).
    { unfold r. destruct (endIndex d =? -1)%Z eqn:Er; cbn [negb]; [lia|].
      apply Z.eqb_neq in Er. lia. }
    assert (HP : forall n, n <= List.length P -> firstn n (P ++ T) = firstn n P).
    { intros n Hn. rewrite firstn_app. replace (n - List.length P) with 0 by lia.
      cbn [firstn]. apply app_nil_r. }
    assert (Htail : substring_from cur r = skipn (Z.to_nat r) P ++ T).
    { unfold substring_from, clamp. rewrite Hacc, length_app.
      unfold Js.length in HL.
      replace (Nat.min (Z.to_nat r) (List.length P + List.length T))
        with (Z.to_nat r) by lia.
      rewrite skipn_app. replace (Z.to_nat r - List.length P) with 0 by lia.
      reflexivity. }
    rewrite Htail in *. rewrite Hacc in *.
    unfold Js.length in HL.
    rewrite HP in * by lia.
    apply (IH _ (startIndex d)
              (firstn a P ++ (LF :: codeBlock (kind d)
                                (code_text (resolved env d md)))
               ++ skipn (Z.to_nat r) P) T); auto.
    + cbn [fst app]. now rewrite <- app_assoc, <- app_comm_cons, <- app_assoc.
    + unfold Js.length. rewrite !length_app, length_firstn. lia.
Qed.

(** The state of the text when the round for a directive begins. *)
Lemma offsets_at_round_start (env : Env) (md content : jsstring)
    (done : list EmbedDirective) (d : EmbedDirective) (todo : list EmbedDirective) :
  sorted_directives (findDirectives content) = done ++ d :: todo ->
  let w := window_limit content done in
  (0 <= startIndex d < w)%Z /\ (-1 <= endIndex d <= w)%Z /\
  (w <= Js.length content)%Z /\
  Forall (fun d' => (w <= startIndex d')%Z) done /\
  firstn (Z.to_nat w) (text_after env md content done)
  = firstn (Z.to_nat w) content.
Proof.
  intros Hsplit w.
  pose proof (findDirectives_chain content) as Hc.
  assert (Hrev : sorted_directives (findDirectives content)
                 = rev (findDirectives content))
    by (eapply sorted_directives_rev; exact Hc).
  assert (Hds : findDirectives content = rev todo ++ d :: rev done).
  { rewrite <- (rev_involutive (findDirectives content)).
    rewrite <- Hrev, Hsplit, rev_app_distr. cbn [rev]. now rewrite <- app_assoc. }
  rewrite Hds in Hc. apply dchain_split in Hc as (H1 & H2 & H3 & H4).
  fold (window_limit content done) in H1, H2, H3, H4. fold w in H1, H2, H3, H4.
  assert (Hall : Forall (fun d' => (w <= startIndex d')%Z) done).
  { rewrite <- (rev_involutive done). now apply Forall_rev. }
  repeat (split; [assumption || lia|]).
  unfold text_after. rewrite fold_rounds_prefix; [reflexivity | lia | exact Hall].
Qed.

End RewriteFacts.

(** ** The marker pattern read piece by piece *)

Module ItemFacts.
Import JsFacts RegexFacts RewriteFacts.

Lemma rmatch_ext (r : regex) (k k' : cont) (st : mstate) :
  (forall st', k st' = k' st') -> rmatch r k st = rmatch r k' st.
Proof. intros H. apply rmatch_local. intros st' _. apply H. Qed.

Lemma rmatch_Seqs_cons (r : regex) (rs : list regex) (k : cont) (st : mstate) :
  rmatch (Seqs (r :: rs)) k st = rmatch r (rmatch (Seqs rs) k) st.
Proof.
  destruct rs as [|r' rs]; [|reflexivity].
  cbn [Seqs]. apply rmatch_ext. reflexivity.
Qed.

Lemma startsWith_nil (s : jsstring) : startsWith s [] = true.
Proof. now destruct s. Qed.

Lemma rmatch_Lit (l : jsstring) (k : cont) (st : mstate) :
  rmatch (Lit l) k st
  = if startsWith (rest st) l
    then k {| rest := skipn (List.length l) (rest st); caps := caps st |}
    else None.
Proof.
  revert st; induction l as [|c l IH]; intros st.
  - rewrite startsWith_nil. now destruct st.
  - cbn [Lit rmatch]. destruct (rest st) as [|x xs] eqn:E; [reflexivity|].
    cbn [startsWith List.length skipn]. destruct (N.eqb c x); [|reflexivity].
    rewrite IH. reflexivity.
Qed.

(** A run of blanks before something that does not start with a blank is
    taken whole. *)
Lemma star_loop_blanks (k : cont) :
  (forall st c t, rest st = c :: t -> is_space c = true -> k st = None) ->
  forall (s : jsstring) (fuel : nat) (cp : list (nat * jsstring)),
    List.length s < fuel ->
    star_loop true (rmatch (Chr cls_s)) (clear (Chr cls_s)) k fuel
      {| rest := s; caps := cp |}
    = k {| rest := trimStart s; caps := cp |}.
Proof.
  intros Hk. induction s as [|c s IH]; intros fuel cp Hlt;
    (destruct fuel as [|fuel]; [simpl in Hlt; lia|]); cbn [star_loop].
  - reflexivity.
  - rewrite clear_groupfree by reflexivity. cbn [rmatch rest caps trimStart].
    unfold cls_s. destruct (is_space c) eqn:E; [|reflexivity].
    unfold same_pos. cbn [rest List.length].
    replace (Nat.eqb (List.length s) (S (List.length s))) with false
      by (symmetry; apply Nat.eqb_neq; lia).
    rewrite IH by (simpl in Hlt; lia).
    destruct (k {| rest := trimStart s; caps := cp |}); [reflexivity|].
    eapply Hk; [reflexivity | exact E].
Qed.

Lemma rmatch_blanks (k : cont) (st : mstate) :
  (forall st' c t, rest st' = c :: t -> is_space c = true -> k st' = None) ->
  rmatch ws_star k st = k {| rest := trimStart (rest st); caps := caps st |}.
Proof.
  intros Hk. unfold ws_star. cbn [rmatch]. destruct st as [s cp]. cbn [rest caps].
  apply star_loop_blanks; [exact Hk | lia].
Qed.

Lemma run_items_blank (items : list Item) (c : char) (t : jsstring) :
  needs_nonspace items = true -> is_space c = true ->
  run_items items (c :: t) = None.
Proof.
  induction items as [|[[|x l]|] items IH]; cbn [needs_nonspace]; try discriminate.
  - intros H Hc. cbn [run_items List.length skipn]. rewrite startsWith_nil.
    now apply IH.
  - intros H Hc. cbn [run_items startsWith].
    destruct (N.eqb x c) eqn:E; [|reflexivity].
    apply N.eqb_eq in E. subst x. rewrite Hc in H. discriminate.
Qed.

(** On pieces whose runs of blanks are delimited, the backtracking matcher
    does what the piece-by-piece reading does. *)
Lemma rmatch_items (items : list Item) :
  blanks_delimited items = true ->
  forall (k : cont) (st : mstate),
    rmatch (Seqs (map item_regex items)) k st
    = match run_items items (rest st) with
      | Some r => k {| rest := r; caps := caps st |}
      | None => None
      end.
Proof.
  induction items as [|[l|] items IH]; intros Hd k st.
  - cbn. now destruct st.
  - cbn [map item_regex]. rewrite rmatch_Seqs_cons, rmatch_Lit.
    cbn [run_items]. destruct (startsWith (rest st) l); [|reflexivity].
    rewrite IH by exact Hd. reflexivity.
  - cbn [blanks_delimited] in Hd. apply andb_true_iff in Hd as [Hn Hd].
    cbn [map item_regex]. rewrite rmatch_Seqs_cons, rmatch_blanks.
    + rewrite IH by exact Hd. reflexivity.
    + intros st' c t Hr Hc. rewrite IH by exact Hd. rewrite Hr.
      now rewrite run_items_blank.
Qed.

(** The piece-by-piece reading looks at the text it consumes and no
    further: what it leaves over can be replaced by any other text. *)
Lemma run_items_prefix (items : list Item) :
  blanks_delimited items = true ->
  forall s r, run_items items s = Some r ->
    exists M, s = M ++ r /\
              (forall r', run_items items (M ++ r') = Some r') /\
              (needs_nonspace items = true ->
               exists c M', M = c :: M' /\ is_space c = false).
Proof.
  induction items as [|[l|] items IH]; intros Hd s r Hrun.
  - injection Hrun as <-. exists []. repeat split; auto. discriminate.
  - cbn [run_items blanks_delimited] in *.
    destruct (startsWith s l) eqn:E; [|discriminate].
    apply startsWith_app in E as [s' ->].
    rewrite skipn_app, skipn_all, Nat.sub_diag in Hrun. cbn [skipn app] in Hrun.
    destruct (IH Hd _ _ Hrun) as (M & -> & Hall & Hne).
    exists (l ++ M). split; [now rewrite app_assoc|]. split.
    + intros r'. rewrite <- app_assoc.
      assert (Hsw : startsWith (l ++ M ++ r') l = true)
        by (apply startsWith_app; now eexists).
      rewrite Hsw, skipn_app, skipn_all, Nat.sub_diag. cbn [skipn app]. apply Hall.
    + destruct l as [|c l]; cbn [needs_nonspace]; intros Hn.
      * exact (Hne Hn).
      * exists c, (l ++ M). split; [reflexivity|].
        now apply negb_true_iff in Hn.
  - cbn [run_items blanks_delimited] in *.
    apply andb_true_iff in Hd as [Hn Hd].
    destruct (IH Hd _ _ Hrun) as (M & HM & Hall & Hne).
    destruct (Hne Hn) as (c & M' & -> & Hc).
    (* the blanks in front *)
    assert (Hsplit : exists ws, s = ws ++ trimStart s /\ forallb is_space ws = true).
    { clear. induction s as [|x s IHs].
      - exists []. auto.
      - cbn [trimStart]. destruct (is_space x) eqn:E.
        + destruct IHs as (ws & Hs & Hws). exists (x :: ws). split.
          * cbn [app]. now rewrite <- Hs.
          * cbn [forallb]. now rewrite E.
        + exists []. auto. }
    destruct Hsplit as (ws & Hs & Hws).
    assert (Htrim : forall u, trimStart (ws ++ (c :: M') ++ u) = (c :: M') ++ u).
    { intros u. clear - Hws Hc. induction ws as [|x ws IHw].
      - cbn [app trimStart]. now rewrite Hc.
      - cbn [forallb] in Hws. apply andb_true_iff in Hws as [Hx Hws].
        cbn [app trimStart]. rewrite Hx. now apply IHw. }
    exists (ws ++ c :: M'). split.
    + rewrite Hs at 1. rewrite HM. now rewrite <- app_assoc.
    + split; [|discriminate].
      intros r'. rewrite <- app_assoc. rewrite Htrim. apply Hall.
Qed.

Lemma trimStart_suffix (s : jsstring) : exists ws, s = ws ++ trimStart s.
Proof.
  induction s as [|x s [ws IH]]; [now exists []|]. cbn [trimStart].
  destruct (is_space x); [|now exists []].
  exists (x :: ws). cbn [app]. now rewrite <- IH.
Qed.

Lemma trimStart_head (s : jsstring) (c : char) (t : jsstring) :
  trimStart s = c :: t -> is_space c = false.
Proof.
  induction s as [|x s IH]; cbn [trimStart]; [discriminate|].
  destruct (is_space x) eqn:E; [exact IH|]. intros [= <- _]. exact E.
Qed.

Lemma trimEnd_prefix (s : jsstring) : exists ws, s = trimEnd s ++ ws.
Proof.
  unfold trimEnd. destruct (trimStart_suffix (rev s)) as [ws H].
  exists (rev ws). rewrite <- rev_app_distr, <- H. now rewrite rev_involutive.
Qed.

(** A trimmed text does not start with a blank. *)
Lemma trim_head (x : jsstring) (c : char) (t : jsstring) :
  trim x = c :: t -> is_space c = false.
Proof.
  unfold trim. intros H. destruct (trimEnd_prefix (trimStart x)) as [ws Hw].
  rewrite H in Hw. cbn [app] in Hw. exact (trimStart_head _ _ _ Hw).
Qed.

Lemma openMarkerRe_items (d : EmbedDirective) :
  openMarkerRe d = Seqs (map item_regex (openMarkerItems d)).
Proof. reflexivity. Qed.

Lemma openMarkerItems_delimited (d : EmbedDirective) (x : jsstring) :
  sourcePath d = trim x -> blanks_delimited (openMarkerItems d) = true.
Proof.
  intros H. unfold openMarkerItems. cbn [blanks_delimited].
  assert (Hp : needs_nonspace
                 [Text (sourcePath d); Text (str "#"); Text (symbolName d);
                  Blanks; Text (str "-->")] = true).
  { cbn [needs_nonspace]. destruct (sourcePath d) as [|c t]; [reflexivity|].
    symmetry in H. apply trim_head in H. now rewrite H. }
  rewrite Hp. destruct (kind d); reflexivity.
Qed.

(** The scanner stores trimmed source paths. *)
Lemma scan_markers_trimmed (content : jsstring) (fuel from : nat)
    (ms : list OpenMarker) :
  scan_markers fuel content from = Some ms ->
  Forall (fun m => exists x, om_sourcePath m = trim x) ms.
Proof.
  revert from ms; induction fuel as [|fuel IH]; intros from ms; cbn [scan_markers];
    [discriminate|].
  destruct (exec_from markerRe content from) as [m|]; [|intros [= <-]; constructor].
  destruct (scan_markers fuel content (index m + List.length (matched m)))
    as [ms'|] eqn:E; [|discriminate].
  intros [= <-]. constructor; [now eexists | eapply IH; exact E].
Qed.

Lemma findDirectives_trimmed (content : jsstring) :
  Forall (fun d => exists x, sourcePath d = trim x) (findDirectives content).
Proof.
  unfold findDirectives.
  pose proof (scan_markers_trimmed content _ _ _ (ScanFacts.openMarkers_scan content))
    as H.
  induction H as [|m ms Hm _ IH]; cbn [second_pass]; constructor; auto.
Qed.

(** A match at the start of the input depends on the matched text only. *)
Lemma exec_items_stable (items : list Item) (s : jsstring) (m : RegExpMatch) :
  blanks_delimited items = true ->
  exec (Seqs (map item_regex items)) s = Some m -> index m = 0 ->
  (exists r, s = matched m ++ r) /\
  forall r', exec (Seqs (map item_regex items)) (matched m ++ r') = Some m.
Proof.
  intros Hd He Hi.
  assert (Hh : exists st, match_here (Seqs (map item_regex items)) s = Some st
                          /\ m = found 0 s st).
  { unfold exec in He. destruct s as [|c s]; cbn [search] in He.
    - destruct (match_here _ []) as [st|]; [|discriminate].
      injection He as <-. now exists st.
    - destruct (match_here _ (c :: s)) as [st|]; [injection He as <-; now exists st|].
      apply search_inside in He as (pre & post & _ & Hidx). lia. }
  destruct Hh as (st & Hst & ->).
  unfold match_here in Hst. rewrite rmatch_items in Hst by exact Hd.
  cbn [rest caps] in Hst.
  destruct (run_items items s) as [r|] eqn:Hrun; [|discriminate].
  injection Hst as <-.
  destruct (run_items_prefix items Hd s r Hrun) as (M & -> & Hall & _).
  assert (HM : matched (found 0 (M ++ r) {| rest := r; caps := [] |}) = M).
  { unfold found. cbn [matched rest]. rewrite length_app, Nat.add_sub.
    now rewrite firstn_app, firstn_all, Nat.sub_diag, firstn_O, app_nil_r. }
  rewrite HM. split; [now exists r|].
  intros r'. unfold exec. destruct (M ++ r') as [|c t] eqn:E.
  - cbn [search]. unfold match_here. rewrite rmatch_items by exact Hd.
    cbn [rest caps]. rewrite <- E, Hall. f_equal. unfold found. cbn [rest caps].
    f_equal. rewrite !length_app, !Nat.add_sub.
    now rewrite !firstn_app, !firstn_all, !Nat.sub_diag, !firstn_O, !app_nil_r.
  - cbn [search]. unfold match_here. rewrite rmatch_items by exact Hd.
    cbn [rest caps]. rewrite <- E, Hall. f_equal. unfold found. cbn [rest caps].
    f_equal. rewrite !length_app, !Nat.add_sub.
    now rewrite !firstn_app, !firstn_all, !Nat.sub_diag, !firstn_O, !app_nil_r.
Qed.

(** The re-match of a marker that its own pattern matches: as long as the
    current text agrees with the original up to [w], where the match ends
    no later than [w], the re-match is the one on the original text. *)
Lemma rematch_stable (d : EmbedDirective) (content cur : jsstring) (w : Z)
    (x : jsstring) :
  sourcePath d = trim x ->
  (0 <= startIndex d)%Z -> (w <= Js.length content)%Z ->
  firstn (Z.to_nat w) cur = firstn (Z.to_nat w) content ->
  own_marker_matched content w d = true ->
  exec (openMarkerRe d) (substring_from cur (startIndex d))
  = exec (openMarkerRe d) (substring_from content (startIndex d)).
Proof.
  intros Hx H0 Hw Hpre Hown. unfold own_marker_matched in Hown.
  destruct (exec (openMarkerRe d) (substring_from content (startIndex d)))
    as [m|] eqn:E; [|discriminate].
  apply andb_true_iff in Hown as [Hi Hl].
  apply Nat.eqb_eq in Hi. apply Z.leb_le in Hl.
  pose proof (openMarkerItems_delimited d x Hx) as Hd.
  rewrite openMarkerRe_items in *.
  destruct (exec_items_stable _ _ _ Hd E Hi) as ([r Hr] & Hall).
  assert (Hcur : (w <= Js.length cur)%Z).
  { apply (f_equal (@List.length _)) in Hpre. rewrite !length_firstn in Hpre.
    unfold Js.length in *. lia. }
  unfold Js.length in *.
  rewrite substring_from_in_range in Hr by (unfold Js.length; lia).
  rewrite substring_from_in_range by (unfold Js.length; lia).
  assert (Hs : skipn (Z.to_nat (startIndex d)) cur
               = matched m ++ skipn (List.length (matched m))
                                (skipn (Z.to_nat (startIndex d)) cur)).
  { rewrite <- (firstn_skipn (List.length (matched m))
                  (skipn (Z.to_nat (startIndex d)) cur)) at 1.
    f_equal.
    assert (Hf : forall t, firstn (Z.to_nat w) t = firstn (Z.to_nat w) content ->
                 firstn (List.length (matched m)) (skipn (Z.to_nat (startIndex d)) t)
                 = firstn (List.length (matched m))
                     (skipn (Z.to_nat (startIndex d)) (firstn (Z.to_nat w) content))).
    { intros t Ht. rewrite <- Ht. rewrite skipn_firstn_comm, firstn_firstn.
      f_equal. lia. }
    rewrite (Hf cur Hpre), <- (Hf content eq_refl), Hr.
    now rewrite firstn_app, firstn_all, Nat.sub_diag, firstn_O, app_nil_r. }
  rewrite Hs. apply Hall.
Qed.

(** Directives that fail, or whose markers their patterns match in the
    original text, are re-matched inside their windows in every round. *)
Lemma located_rounds_within (env : Env) (md content : jsstring)
    (todo : list EmbedDirective) :
  forall (acc : jsstring * list ErrorReport) (limit : Z),
    (limit <= Js.length content)%Z ->
    firstn (Z.to_nat limit) (fst acc) = firstn (Z.to_nat limit) content ->
    descending_chain limit todo ->
    Forall (fun d => exists x, sourcePath d = trim x) todo ->
    siblings_located env md content limit todo = true ->
    rounds_within env md acc limit todo = true.
Proof.
  induction todo as [|d todo IH]; intros acc limit Hl Hpre Hch Ht Hs;
    [reflexivity|].
  inversion Hch as [|? ? ? Hstart Hend Hrest]; subst.
  inversion Ht as [|? ? [x Hx] Ht']; subst.
  cbn [siblings_located] in Hs. apply andb_true_iff in Hs as [Hone Hmore].
  cbn [rounds_within]. apply andb_true_iff. split.
  - unfold rematch_within. unfold failed in Hone.
    destruct (has_error (resolved env d md)); [reflexivity|].
    cbn [orb] in Hone.
    rewrite (rematch_stable d content (fst acc) limit x Hx ltac:(lia) Hl Hpre Hone).
    unfold own_marker_matched in Hone.
    destruct (exec (openMarkerRe d) (substring_from content (startIndex d)))
      as [m|]; [|discriminate].
    apply andb_true_iff in Hone as [Hi Hle].
    apply Nat.eqb_eq in Hi. apply Z.leb_le in Hle. apply Z.leb_le.
    rewrite Hi. lia.
  - apply IH; auto; [lia|].
    rewrite embed_round_prefix by lia.
    apply (f_equal (firstn (Z.to_nat (startIndex d)))) in Hpre.
    rewrite !firstn_firstn in Hpre.
    replace (Nat.min (Z.to_nat (startIndex d)) (Z.to_nat limit))
      with (Z.to_nat (startIndex d)) in Hpre by lia.
    exact Hpre.
Qed.

End ItemFacts.
Import RewriteFacts ItemFacts.

(** C2.  In [Samples.blankThenPlain] the marker of the first directive has
    a blank before [#].  The scanner accepts the marker and trims the path,
    but the pattern that [applyEmbeds] builds for the directive from the
    trimmed path does not allow the blank: searched for from the start of the
    directive on, it is found 31 code units further, at the marker of the
    second directive.  The block of the first directive is put after the
    marker of the second, nothing is put after its own marker, no error is
    reported, and a second run adds the block once more. *)
Lemma marker_with_blank_is_mislocated :
  findDirectives Samples.blankThenPlain
  = [Samples.blankFirst; Samples.plainSecond] /\
  exists afterSecond once twice,
    embed_round Samples.env Samples.md (Samples.blankThenPlain, [])
      Samples.plainSecond = Normal afterSecond /\
    option_map index
      (exec (openMarkerRe Samples.blankFirst)
         (substring_from (fst afterSecond) (startIndex Samples.blankFirst)))
    = Some 31 /\
    applyEmbeds Samples.env Samples.blankThenPlain Samples.md = Normal once /\
    errors once = [] /\
    output once
    = str "<!-- cs-embed: foo.cs #Foo -->
<!-- cs-embed: foo.cs#Foo -->"
      ++ Samples.fooBlock ++ Samples.fooBlock ++ [LF] /\
    applyEmbeds Samples.env (output once) Samples.md = Normal twice /\
    errors twice = [] /\
    output twice
    = str "<!-- cs-embed: foo.cs #Foo -->
<!-- cs-embed: foo.cs#Foo -->"
      ++ Samples.fooBlock ++ Samples.fooBlock ++ Samples.fooBlock ++ [LF] /\
    output twice <> output once.
Proof.
  split; [vm_compute; reflexivity|].
  exists (plain_round Samples.env Samples.md (Samples.blankThenPlain, [])
            Samples.plainSecond),
    (plain_run Samples.env Samples.blankThenPlain Samples.md),
    (plain_run Samples.env
       (output (plain_run Samples.env Samples.blankThenPlain Samples.md))
       Samples.md).
  repeat (split; [vm_compute; reflexivity|]).
  intros E. apply (f_equal (@List.length _)) in E. vm_compute in E. discriminate E.
Qed.
(** C9.  When the rounds before that of the directive [dir] have returned
    the state [before], [resolveEmbed] returns for [dir] a record without
    error, and the marker pattern of [dir] finds no match in the current text
    from [startIndex] on, the round of [dir] returns the text and the error
    list as they were, and [applyEmbeds] ends as the run without the
    directive ends. *)
Theorem unmatched_marker_is_skipped_silently (env : Env) (content md : jsstring)
    (done : list EmbedDirective) (dir : EmbedDirective) (todo : list EmbedDirective)
    (before : jsstring * list ErrorReport) (r : EmbedResult) :
  sorted_directives (findDirectives content) = done ++ dir :: todo ->
  embed_rounds env md done (content, []) = Normal before ->
  resolveEmbed env dir md = Normal r ->
  has_error r = false ->
  exec (openMarkerRe dir) (substring_from (fst before) (startIndex dir)) = None ->
  embed_round env md before dir = Normal before /\
  applyEmbeds env content md = embed_rounds env md (done ++ todo) (content, []).
Proof.
  intros Hs Hb Hr He Hx.
  assert (Hround : embed_round env md before dir = Normal before).
  { unfold embed_round. destruct before as [result errs]. rewrite Hr, He.
    cbn [fst] in Hx. now rewrite Hx. }
  split; [exact Hround|].
  rewrite PlainFacts.applyEmbeds_rounds, Hs, !PlainFacts.embed_rounds_app, Hb.
  cbn [embed_rounds]. now rewrite Hround.
Qed.

(** The marker of [Samples.blankBeforeHash] has a blank before [#]; the
    directive resolves, its pattern does not match, and the document comes
    back unchanged with no error. *)
Lemma unmatched_marker_is_skipped_silently_witness :
  sorted_directives (findDirectives Samples.blankBeforeHash)
  = [] ++ Samples.blankDirective :: [] /\
  (exists r, resolveEmbed Samples.env Samples.blankDirective Samples.md = Normal r /\
             code r = Some Samples.fooSource /\ has_error r = false) /\
  exec (openMarkerRe Samples.blankDirective)
       (substring_from Samples.blankBeforeHash
          (startIndex Samples.blankDirective)) = None /\
  applyEmbeds Samples.env Samples.blankBeforeHash Samples.md
  = Normal (Samples.blankBeforeHash, []).
Proof.
  assert (H1 : sorted_directives (findDirectives Samples.blankBeforeHash)
               = [] ++ Samples.blankDirective :: [])
    by (vm_compute; reflexivity).
  assert (H2 : resolveEmbed Samples.env Samples.blankDirective Samples.md
               = Normal {| directive := Samples.blankDirective;
                           code := Some Samples.fooSource; error := None |})
    by (vm_compute; reflexivity).
  assert (H3 : exec (openMarkerRe Samples.blankDirective)
                 (substring_from Samples.blankBeforeHash
                    (startIndex Samples.blankDirective)) = None)
    by (vm_compute; reflexivity).
  split; [exact H1|]. split; [eexists; split; [exact H2 | now split]|].
  split; [exact H3|].
  exact (proj2 (unmatched_marker_is_skipped_silently Samples.env
                  Samples.blankBeforeHash Samples.md [] Samples.blankDirective []
                  (Samples.blankBeforeHash, []) _ H1 eq_refl H2 eq_refl H3)).
Defined.
Lemma no_occurrence (s t : jsstring) :
  indexOf s t 0 = (-1)%Z -> ~ exists P Q, s = P ++ t ++ Q.
Proof.
  unfold indexOf, clamp. cbn [Z.to_nat Nat.min skipn].
  destruct (find_from t s 0) as [k|] eqn:E; [lia|]. intros _ (P & Q & ->).
  pose proof (find_from_none _ _ _ E (List.length P)) as H.
  rewrite skipn_app, skipn_all, Nat.sub_diag in H. cbn [skipn app] in H.
  assert (startsWith (t ++ Q) t = true) by (apply startsWith_app; now exists Q).
  congruence.
Qed.

(** C7.  A directive that fails does not stay isolated.  In
    [Samples.nestedMarker] the second directive does not resolve and is
    reported, yet the block generated for the first directive, whose marker
    has a blank before [#] that its own pattern does not allow, is inserted
    right after the marker of the second: the text of the failed directive,
    from its marker to its close tag, no longer occurs in the output.  And in
    [DirSamples.fooThenDir] the second directive names a directory:
    [resolveEmbed] throws for it, and [applyEmbeds] throws too, so that
    there is neither a report nor a rewritten sibling. *)
Lemma failed_span_not_preserved :
  (exists F r once,
     nth_error (findDirectives Samples.nestedMarker) 1 = Some F /\
     resolveEmbed Samples.env F Samples.md = Normal r /\
     has_error r = true /\
     applyEmbeds Samples.env Samples.nestedMarker Samples.md = Normal once /\
     errors once = [report_of Samples.env Samples.md F r] /\
     ~ exists P Q,
         output once
         = P ++ substring Samples.nestedMarker (startIndex F) (endIndex F) ++ Q) /\
  findDirectives DirSamples.fooThenDir
  = [DirSamples.fooFirst; DirSamples.dirSecond] /\
  (exists r, resolveEmbed DirSamples.env DirSamples.fooFirst Samples.md = Normal r /\
             code r = Some Samples.fooSource) /\
  resolveEmbed DirSamples.env DirSamples.dirSecond Samples.md
  = Throw (str "/docs/src") /\
  applyEmbeds DirSamples.env DirSamples.fooThenDir Samples.md
  = Throw (str "/docs/src").
Proof.
  split.
  - eexists. exists (resolved Samples.env
                       {| kind := cs;
                          sourcePath := str "<!-- cs-embed: foo.cs";
                          symbolName := str "Foo"; lineNumber := 2;
                          startIndex := 31; endIndex := 99 |} Samples.md),
      (plain_run Samples.env Samples.nestedMarker Samples.md).
    split; [vm_compute; reflexivity|].
    repeat (split; [vm_compute; reflexivity|]).
    apply no_occurrence. vm_compute. reflexivity.
  - split; [vm_compute; reflexivity|].
    split; [eexists; split; vm_compute; reflexivity|].
    split; vm_compute; reflexivity.
Qed.

(** ** The structured extractor *)

Module TsFacts.
Import JsFacts.

Lemma mem_app (c : char) (a b : jsstring) :
  mem c (a ++ b) = mem c a || mem c b.
Proof. unfold mem. apply existsb_app. Qed.

Lemma dot_free_not_dotted (t a b : jsstring) :
  dot_free t -> eqs t (a ++ DOT :: b) = false.
Proof.
  intros Hd. destruct (eqs t (a ++ DOT :: b)) eqn:E; [|reflexivity].
  apply eqs_eq in E. subst. unfold dot_free in Hd.
  rewrite mem_app in Hd. cbn [mem existsb] in Hd. rewrite N.eqb_refl in Hd.
  rewrite orb_true_r in Hd. discriminate.
Qed.

Lemma name_is_dotted (n : Node) (a b : jsstring) :
  (forall t, getNodeDeclaredName n = Some t -> dot_free t) ->
  name_is (getNodeDeclaredName n) (a ++ DOT :: b) = false.
Proof.
  intros H. destruct (getNodeDeclaredName n) as [t|]; [|reflexivity].
  apply dot_free_not_dotted. now apply H.
Qed.

Lemma find_declared_dotted (source a b : jsstring) (stmts : list Node) :
  declared_names_dot_free stmts ->
  find_declared source (a ++ DOT :: b) stmts = None.
Proof.
  induction 1 as [|n stmts Hn Hs IH]; [reflexivity|]. cbn [find_declared].
  now rewrite name_is_dotted.
Qed.

(** Among dot-free names, [symbol.startsWith(ns + ".")] singles out the
    namespace named like the part before the first dot. *)
Lemma startsWith_dotted (a b ns : jsstring) :
  dot_free a -> dot_free ns ->
  startsWith (a ++ DOT :: b) (ns ++ [DOT]) = eqs ns a.
Proof.
  unfold dot_free, mem. revert ns.
  induction a as [|x a IH]; intros [|y ns] Ha Hn; cbn [app startsWith eqs].
  - rewrite N.eqb_refl. now destruct b.
  - cbn [existsb] in Hn. apply orb_false_iff in Hn as [Hy _].
    rewrite N.eqb_sym in Hy. now rewrite Hy.
  - cbn [existsb] in Ha. apply orb_false_iff in Ha as [Hx _]. now rewrite Hx.
  - cbn [existsb] in Ha, Hn. apply orb_false_iff in Ha as [_ Ha].
    apply orb_false_iff in Hn as [_ Hn]. now rewrite IH.
Qed.

Lemma slice_after_dot (a b : jsstring) :
  slice_from (a ++ DOT :: b) (Js.length a + 1) = b.
Proof.
  unfold slice_from, Js.length, clamp.
  replace (Z.of_nat (List.length a) + 1 <? 0)%Z with false
    by (symmetry; apply Z.ltb_ge; lia).
  rewrite length_app. cbn [List.length].
  replace (Nat.min (Z.to_nat (Z.of_nat (List.length a) + 1))
             (List.length a + S (List.length b)))
    with (List.length a + 1) by lia.
  rewrite skipn_app, skipn_all2 by lia.
  replace (List.length a + 1 - List.length a) with 1 by lia. reflexivity.
Qed.

(** A text with a dot splits at its first dot. *)
Lemma split_first_dot (s : jsstring) :
  1 <= count_dots s ->
  exists a b, s = a ++ DOT :: b /\ dot_free a /\ count_dots s = S (count_dots b).
Proof.
  unfold count_dots, dot_free, mem.
  induction s as [|c s IH]; cbn [filter List.length]; [lia|].
  destruct (N.eqb DOT c) eqn:E.
  - intros _. apply N.eqb_eq in E. subst c.
    exists [], s. repeat split.
  - intros H. destruct (IH H) as (a & b & -> & Ha & Hc).
    exists (c :: a), b. repeat split; [|exact Hc].
    cbn [existsb]. now rewrite E, Ha.
Qed.

Lemma namespace_block_name (stmt : Node) (ns : jsstring) (body : list Node) :
  namespace_block stmt = Some (ns, body) -> getNodeDeclaredName stmt = Some ns.
Proof.
  unfold namespace_block, getNodeDeclaredName.
  destruct (node_kind stmt); try discriminate.
  destruct (node_name stmt) as [[t|t|]|]; try discriminate.
  destruct (node_body stmt) as [[b|b]|]; try discriminate.
  now intros [= <- _].
Qed.

Lemma trimStart_all_space (s : jsstring) :
  forallb is_space s = true -> trimStart s = [].
Proof.
  induction s as [|c s IH]; [reflexivity|]. cbn [forallb trimStart].
  intros H. apply andb_true_iff in H as [Hc Hs]. rewrite Hc. now apply IH.
Qed.

Lemma trimStart_nil (s : jsstring) :
  trimStart s = [] -> forallb is_space s = true.
Proof.
  induction s as [|c s IH]; [reflexivity|]. cbn [forallb trimStart].
  destruct (is_space c); [exact IH | discriminate].
Qed.

Lemma split_lines_all_space (s : jsstring) :
  forallb is_space s = true ->
  Forall (fun l => forallb is_space l = true) (split_lines s).
Proof.
  induction s as [|c s IH]; cbn [forallb split_lines].
  - repeat constructor.
  - intros H. apply andb_true_iff in H as [Hc Hs]. specialize (IH Hs).
    destruct (N.eqb c LF).
    + constructor; [reflexivity | exact IH].
    + destruct (split_lines s) as [|l ls]; [repeat constructor; simpl; now rewrite Hc|].
      inversion IH; subst. constructor; [|assumption].
      cbn [forallb]. now rewrite Hc.
Qed.

Lemma blank_line_is_no_comment (l : jsstring) :
  forallb is_space l = true -> is_comment_line l = false.
Proof.
  intros H. unfold is_comment_line, trim. now rewrite (trimStart_all_space l H).
Qed.

Lemma comment_line_in_gap (s : jsstring) :
  existsb is_comment_line (split_lines s) = true -> trimStart s <> [].
Proof.
  intros H E. apply trimStart_nil, split_lines_all_space in E.
  apply existsb_exists in H as (l & Hin & Hl).
  rewrite Forall_forall in E. apply E, blank_line_is_no_comment in Hin.
  congruence.
Qed.

Lemma filter_nonempty (A : Type) (f : A -> bool) (l : list A) :
  Nat.ltb 0 (List.length (filter f l)) = existsb f l.
Proof.
  induction l as [|x l IH]; [reflexivity|]. cbn [filter existsb].
  destruct (f x); [reflexivity | exact IH].
Qed.

(** What [extractNodeText] returns: when the gap before the declaration
    holds a comment line, the whole gap without its leading whitespace and a
    newline, and in any case the body without its trailing whitespace. *)
Lemma extractNodeText_shape (source : jsstring) (node : Node) :
  extractNodeText source node
  = (if existsb is_comment_line
          (split_lines (substring source (getFullStart node) (getStart node)))
     then trimStart (substring source (getFullStart node) (getStart node)) ++ [LF]
     else [])
    ++ trimEnd (substring source (getStart node) (getEnd node)).
Proof.
  unfold extractNodeText. cbv zeta. rewrite filter_nonempty.
  destruct (existsb _ _) eqn:E; [|reflexivity].
  apply comment_line_in_gap in E.
  destruct (trimStart _); [contradiction | reflexivity].
Qed.

End TsFacts.

Import TsFacts.

(** C8, as stated, fails: the ambient module [declare module "A.B.C" { }]
    declares the name [A.B.C], and the symbol [A.B.C], which has two dots,
    is found at top level. *)
Lemma dotted_ambient_module_is_found :
  count_dots (str "A.B.C") = 2 /\
  extractTsSymbol_in TsSamples.ambientFile (str "A.B.C")
  = Some TsSamples.ambientSource.
Proof. split; vm_compute; reflexivity. Qed.

(** C8, amended.  In a parsed unit whose declared names contain no dot
    (which leaves out ambient modules named by a dotted string literal), a
    symbol [Outer.Inner] is resolved by finding a top-level namespace block
    named [Outer] and searching its statements, one level down, for [Inner];
    a symbol with more than one dot is not found. *)
Theorem nested_lookup_one_level (sf : SourceFile) :
  unit_names_dot_free sf ->
  (forall outer inner, dot_free outer -> dot_free inner ->
     extractTsSymbol_in sf (outer ++ [DOT] ++ inner)
     = resolve_nested (getFullText sf) outer inner (statements sf)) /\
  (forall symbolName, 2 <= count_dots symbolName ->
     extractTsSymbol_in sf symbolName = None).
Proof.
  unfold unit_names_dot_free, extractTsSymbol_in.
  generalize (getFullText sf) as source. generalize (statements sf) as stmts.
  clear sf. intros stmts source [Htop Hnested]. split.
  - intros outer inner Ho Hi. cbn [app].
    induction stmts as [|stmt more IH]; [reflexivity|].
    inversion Htop as [|? ? Hn Htop']; subst.
    inversion Hnested as [|? ? Hb Hnested']; subst.
    cbn [walk_statements resolve_nested]. rewrite name_is_dotted by exact Hn.
    destruct (namespace_block stmt) as [[ns body]|] eqn:Ens; [|now apply IH].
    assert (Hns : dot_free ns) by (eapply Hn, namespace_block_name, Ens).
    rewrite startsWith_dotted by assumption.
    destruct (eqs ns outer) eqn:E; [|now apply IH].
    apply eqs_eq in E. subst ns. rewrite slice_after_dot.
    destruct (find_declared source inner body); [reflexivity | now apply IH].
  - intros symbolName Hdots.
    destruct (split_first_dot symbolName) as (a & b & -> & Ha & Hc); [lia|].
    assert (Hb : 1 <= count_dots b) by lia.
    destruct (split_first_dot b Hb) as (b1 & b2 & -> & _ & _).
    induction stmts as [|stmt more IH]; [reflexivity|].
    inversion Htop as [|? ? Hn Htop']; subst.
    inversion Hnested as [|? ? Hbody Hnested']; subst.
    cbn [walk_statements]. rewrite name_is_dotted by exact Hn.
    destruct (namespace_block stmt) as [[ns body]|] eqn:Ens; [|now apply IH].
    assert (Hns : dot_free ns) by (eapply Hn, namespace_block_name, Ens).
    rewrite startsWith_dotted by assumption.
    destruct (eqs ns a) eqn:E; [|now apply IH].
    apply eqs_eq in E. subst ns. rewrite slice_after_dot.
    rewrite find_declared_dotted by (apply (Hbody _ _ eq_refl)). now apply IH.
Qed.

(** [Shapes.Circle] is found one level down in [namespace Shapes], and
    [Shapes.Circle.Radius] is not found. *)
Lemma nested_lookup_one_level_witness :
  unit_names_dot_free TsSamples.namespaceFile /\
  extractTsSymbol_in TsSamples.namespaceFile (str "Shapes.Circle")
  = Some (str "interface Circle { }") /\
  extractTsSymbol_in TsSamples.namespaceFile (str "Shapes.Circle.Radius") = None.
Proof.
  assert (H : unit_names_dot_free TsSamples.namespaceFile).
  { split.
    - constructor; [|constructor]. intros t E. vm_compute in E.
      injection E as <-. reflexivity.
    - constructor; [|constructor]. intros ns inner E. vm_compute in E.
      injection E as _ <-. constructor; [|constructor].
      intros t E. vm_compute in E. injection E as <-. reflexivity. }
  split; [exact H|].
  destruct (nested_lookup_one_level TsSamples.namespaceFile H) as [Hone Hdeep].
  split.
  - change (str "Shapes.Circle") with (str "Shapes" ++ [DOT] ++ str "Circle").
    rewrite Hone by reflexivity. vm_compute. reflexivity.
  - apply Hdeep. vm_compute. lia.
Defined.

(** ** The balanced-delimiter scan *)

Module BraceFacts.

Lemma closes_here (d : Z) (c : char) (cs : jsstring) (g : bool) (gs : list bool) :
  closes d (c :: cs) (g :: gs) 0 <->
  c = RBRACE /\ g = false /\ (d + (if g then 0 else brace_delta c) = 0)%Z.
Proof.
  unfold closes. cbn [nth_error depth_after]. rewrite Z.add_0_r.
  split; intros (H1 & H2 & H3); repeat split; congruence.
Qed.

Lemma closes_later (d : Z) (c : char) (cs : jsstring) (g : bool) (gs : list bool)
    (k : nat) :
  closes d (c :: cs) (g :: gs) (S k) <->
  closes (d + (if g then 0 else brace_delta c)) cs gs k.
Proof.
  unfold closes. cbn [nth_error]. 
  change (depth_after (c :: cs) (g :: gs) (S (S k)))
    with ((if g then 0 else brace_delta c) + depth_after cs gs (S k))%Z.
  rewrite Z.add_assoc. reflexivity.
Qed.

Lemma scan_result_nil (i : nat) (d : Z) : scan_result (-1) i d [] [].
Proof.
  left. split; [reflexivity|]. intros k (H & _). destruct k; discriminate.
Qed.

Lemma scan_result_nil_any (r : Z) (i j : nat) (d : Z) :
  scan_result r i d [] [] -> scan_result r j d [] [].
Proof.
  intros [[-> H]|(k & _ & (Hk & _) & _)]; [apply scan_result_nil|].
  destruct k; discriminate.
Qed.

Lemma scan_result_guarded (r : Z) (i : nat) (d : Z) (c : char) (cs : jsstring)
    (gs : list bool) :
  scan_result r (S i) d cs gs -> scan_result r i d (c :: cs) (true :: gs).
Proof.
  intros [[-> H]|(k & -> & Hk & Hmin)].
  - left. split; [reflexivity|]. intros [|k] Hc.
    + apply closes_here in Hc as (_ & Hc & _). discriminate.
    + apply closes_later in Hc. rewrite Z.add_0_r in Hc. exact (H k Hc).
  - right. exists (S k). split; [f_equal; lia|]. split.
    + apply closes_later. now rewrite Z.add_0_r.
    + intros [|k'] Hlt Hc.
      * apply closes_here in Hc as (_ & Hc & _). discriminate.
      * apply closes_later in Hc. rewrite Z.add_0_r in Hc.
        apply (Hmin k'); [lia | exact Hc].
Qed.

Lemma scan_result_plain (r : Z) (i : nat) (d : Z) (c : char) (cs : jsstring)
    (gs : list bool) :
  ~ (c = RBRACE /\ (d + brace_delta c = 0)%Z) ->
  scan_result r (S i) (d + brace_delta c) cs gs ->
  scan_result r i d (c :: cs) (false :: gs).
Proof.
  intros Hno [[-> H]|(k & -> & Hk & Hmin)].
  - left. split; [reflexivity|]. intros [|k] Hc.
    + apply closes_here in Hc as (H1 & _ & H3). now apply Hno.
    + apply closes_later in Hc. exact (H k Hc).
  - right. exists (S k). split; [f_equal; lia|]. split.
    + now apply closes_later.
    + intros [|k'] Hlt Hc.
      * apply closes_here in Hc as (H1 & _ & H3). now apply Hno.
      * apply closes_later in Hc. apply (Hmin k'); [lia | exact Hc].
Qed.

Lemma scan_result_here (i : nat) (d : Z) (cs : jsstring) (gs : list bool) :
  (d + brace_delta RBRACE = 0)%Z ->
  scan_result (Z.of_nat i) i d (RBRACE :: cs) (false :: gs).
Proof.
  intros H. right. exists 0. split; [f_equal; lia|]. split.
  - apply closes_here. auto.
  - intros k' Hlt. lia.
Qed.

Lemma skipn_cons_nth (source : jsstring) (i : nat) (c : char) (t : jsstring) :
  skipn i source = c :: t ->
  nth_error source i = Some c /\ skipn (S i) source = t.
Proof.
  revert i; induction source as [|x source IH]; intros [|i] H; try discriminate.
  - injection H as -> ->. auto.
  - cbn [skipn] in H. apply IH in H. exact H.
Qed.

Lemma skipn_nil_nth (source : jsstring) (i : nat) :
  skipn i source = [] -> nth_error source i = None.
Proof.
  intros H. apply nth_error_None.
  apply (f_equal (@List.length _)) in H. rewrite length_skipn in H. simpl in H. lia.
Qed.

Lemma skipn_nil_more (source : jsstring) (i j : nat) :
  skipn i source = [] -> i <= j -> skipn j source = [].
Proof.
  intros H Hle. apply skipn_all2.
  apply (f_equal (@List.length _)) in H. rewrite length_skipn in H. simpl in H. lia.
Qed.

Lemma eqs_single (c x : char) : eqs [c] [x] = N.eqb c x.
Proof. cbn [eqs]. apply andb_true_r. Qed.

Lemma quote_not_backtick (q : Quote) : eqs [quote_char q] [BACKTICK] = false.
Proof. now destruct q. Qed.

(** The loop of [findMatchingBrace], started in a state that stands for a
    mode and a depth, returns the first closing position of the text that is
    left to read. *)
Lemma brace_loop_spec (source : jsstring) (fuel : nat) :
  forall (i : nat) (s : jsstring) (st : BraceScan) (mode : Mode) (d : Z),
    skipn i source = s -> List.length s <= fuel -> in_mode st mode d ->
    scan_result (brace_loop fuel source i st) i d s (lex mode s).
Proof.
  induction fuel as [|fuel IH]; intros i s st mode d Hs Hlen Hm.
  { destruct s; [apply scan_result_nil | simpl in Hlen; lia]. }
  cbn [brace_loop]. unfold charAt.
  destruct s as [|c t].
  { rewrite (skipn_nil_nth _ _ Hs). apply scan_result_nil. }
  destruct (skipn_cons_nth _ _ _ _ Hs) as [Hc Ht]. rewrite Hc.
  cbn [List.length] in Hlen.
  assert (Hnext : nth_error source (i + 1) = hd_error t).
  { rewrite Nat.add_1_r. destruct t as [|n t'].
    - now apply skipn_nil_nth.
    - now apply skipn_cons_nth in Ht. }
  assert (Ht2 : skipn (S (i + 1)) source = tl t).
  { rewrite Nat.add_1_r. destruct t as [|n t'].
    - eapply skipn_nil_more; [exact Ht | lia].
    - now apply skipn_cons_nth in Ht. }
  assert (Hlen2 : List.length (tl t) <= fuel) by (destruct t; simpl in *; lia).
  unfold brace_round, charAt. rewrite Hnext. flags.
  cbn [depth inString stringChar inLineComment inBlockComment inVerbatim].
  rewrite !Nat.add_1_r in *.
  destruct mode; cbn [lex]; cbn match.
  - (* plain code *)
    match goal with
    | |- scan_result (match (if _ then _ else if _ then _ else if _ then _ else ?one)
                      with _ => _ end) _ _ _ _ =>
        assert (Hone :
          scan_result
            (match one with
             | Return r => r
             | Continue i' st' => brace_loop fuel source (S i') st'
             end) i d (c :: t)
            (if N.eqb c QUOTE then true :: lex (Quoted Double) t
             else if N.eqb c APOSTROPHE then true :: lex (Quoted Single) t
             else false :: lex Plain t))
    end.
    { destruct (N.eqb c QUOTE) eqn:EQ.
      { apply N.eqb_eq in EQ. subst c. cbn [orb]. apply scan_result_guarded.
        apply (IH _ _ _ (Quoted Double)); [exact Ht | lia | mode_ok]. }
      destruct (N.eqb c APOSTROPHE) eqn:EA.
      { apply N.eqb_eq in EA. subst c. cbn [orb]. apply scan_result_guarded.
        apply (IH _ _ _ (Quoted Single)); [exact Ht | lia | mode_ok]. }
      cbn [orb].
      destruct (N.eqb c LBRACE) eqn:EL; destruct (N.eqb c RBRACE) eqn:ER.
      - apply N.eqb_eq in EL, ER. subst c. discriminate.
      - apply scan_result_plain.
        + intros [-> _]. discriminate.
        + apply IH; [exact Ht | lia | mode_ok].
          unfold brace_delta. now rewrite EL.
      - apply N.eqb_eq in ER. subst c.
        destruct (d - 1 =? 0)%Z eqn:E0.
        + apply Z.eqb_eq in E0. apply scan_result_here. cbn. lia.
        + apply Z.eqb_neq in E0. apply scan_result_plain.
          * intros [_ H]. cbn in H. lia.
          * apply IH; [exact Ht | lia | mode_ok].
      - apply scan_result_plain.
        + intros [-> _]. discriminate.
        + apply IH; [exact Ht | lia | mode_ok].
          unfold brace_delta. rewrite EL, ER. lia. }
    destruct t as [|n t']; cbn [hd_error is_char tl] in *.
    + rewrite !andb_false_r. exact Hone.
    + destruct (N.eqb c SLASH && N.eqb n SLASH).
      { do 2 apply scan_result_guarded.
        apply IH; [exact Ht2 | exact Hlen2 | mode_ok]. }
      destruct (N.eqb c SLASH && N.eqb n STAR).
      { do 2 apply scan_result_guarded.
        apply IH; [exact Ht2 | exact Hlen2 | mode_ok]. }
      destruct (N.eqb c AT && N.eqb n QUOTE).
      { do 2 apply scan_result_guarded.
        apply IH; [exact Ht2 | exact Hlen2 | mode_ok]. }
      exact Hone.
  - (* line comment *)
    apply scan_result_guarded.
    destruct (N.eqb c LF); (apply IH; [exact Ht | lia | mode_ok]).
  - (* block comment *)
    destruct t as [|n t']; cbn [hd_error is_char tl] in *.
    + rewrite andb_false_r. apply scan_result_guarded.
      apply (IH _ [] _ BlockComment); [exact Ht | simpl; lia | mode_ok].
    + destruct (N.eqb c STAR && N.eqb n SLASH).
      * do 2 apply scan_result_guarded.
        apply IH; [exact Ht2 | exact Hlen2 | mode_ok].
      * apply scan_result_guarded.
        apply (IH _ _ _ BlockComment); [exact Ht | lia | mode_ok].
  - (* quoted string *)
    subst sC. rewrite quote_not_backtick, andb_true_r, eqs_single.
    destruct (N.eqb c BACKSLASH).
    + destruct t as [|n t']; cbn [tl] in *.
      * apply scan_result_guarded. apply scan_result_nil_any with (i := S (S i)).
        apply (IH _ [] _ (Quoted q)); [exact Ht2 | simpl; lia | mode_ok].
      * do 2 apply scan_result_guarded.
        apply IH; [exact Ht2 | exact Hlen2 | mode_ok].
    + destruct (N.eqb c (quote_char q)); apply scan_result_guarded;
        (apply IH; [exact Ht | lia | mode_ok]).
  - (* verbatim string *)
    destruct t as [|n t']; cbn [hd_error is_char tl] in *.
    + rewrite andb_false_r. apply scan_result_guarded.
      destruct (N.eqb c QUOTE);
        [apply (IH _ [] _ Plain) | apply (IH _ [] _ Verbatim)];
        (exact Ht || (simpl; lia) || mode_ok).
    + destruct (N.eqb c QUOTE && N.eqb n QUOTE).
      * do 2 apply scan_result_guarded.
        apply IH; [exact Ht2 | exact Hlen2 | mode_ok].
      * destruct (N.eqb c QUOTE); apply scan_result_guarded;
          (apply IH; [exact Ht | lia | mode_ok]).
Qed.

(** What [findMatchingBrace] returns, in terms of closing positions. *)
Lemma findMatchingBrace_closes (source : jsstring) (openPos : nat) :
  let r := findMatchingBrace source (Z.of_nat openPos) in
  (r = (-1)%Z /\ forall j, ~ closes_at source openPos j)
  \/
  (exists j, r = Z.of_nat j /\ closes_at source openPos j /\
             nth_error source j = Some RBRACE /\
             nth_error (lex Plain (skipn openPos source)) (j - openPos) = Some false /\
             forall j', j' < j -> ~ closes_at source openPos j').
Proof.
  intros r.
  pose proof (brace_loop_spec source (List.length source) openPos
                (skipn openPos source) scan_start Plain 0 eq_refl) as H.
  subst r. unfold findMatchingBrace. rewrite Nat2Z.id.
  destruct H as [[Hr Hno]|(k & Hr & Hk & Hmin)].
  - rewrite length_skipn. lia.
  - now repeat split.
  - left. split; [exact Hr|]. intros j [_ Hj]. exact (Hno _ Hj).
  - right. exists (openPos + k). split; [exact Hr|].
    assert (Hsub : openPos + k - openPos = k) by lia.
    split; [split; [lia | now rewrite Hsub]|].
    destruct Hk as (Hc & Hg & Hd).
    split. { rewrite nth_error_skipn in Hc. exact Hc. }
    split. { rewrite Hsub. exact Hg. }
    intros j' Hlt [Hle Hj']. apply (Hmin (j' - openPos)); [lia | exact Hj'].
Qed.

End BraceFacts.

(** ** The lexical extractor *)

Module CsFacts.
Import JsFacts RegexFacts.

Lemma search_found (r : regex) (s : jsstring) (i : nat) (m : RegExpMatch) :
  search r i s = Some m ->
  exists pre s' f, s = pre ++ s' /\ match_here r s' = Some f
                   /\ m = found (i + List.length pre) s' f.
Proof.
  revert i m; induction s as [|c s IH]; intros i m; cbn [search].
  - destruct (match_here r []) as [st|] eqn:E; [|discriminate].
    intros [= <-]. exists [], [], st. now rewrite Nat.add_0_r.
  - destruct (match_here r (c :: s)) as [st|] eqn:E.
    + intros [= <-]. exists [], (c :: s), st. now rewrite Nat.add_0_r.
    + intros H. apply IH in H as (pre & s' & f & -> & Hm & ->).
      exists (c :: pre), s', f. repeat split; auto. f_equal. simpl. lia.
Qed.

Lemma declPattern_groups (symbolName : jsstring) :
  exists A B, declPattern symbolName = Seq (Group 1 A) (Group 2 B)
              /\ groups_of A = [] /\ groups_of B = [].
Proof.
  eexists _, _. split; [reflexivity|]. split; [reflexivity|].
  cbn [Seqs groups_of Plus app]. rewrite groups_of_Lit. reflexivity.
Qed.

(** The shape of a match of [declPattern]: the preamble, then the
    declaration header. *)
Lemma exec_declPattern_shape (source symbolName : jsstring) (m : RegExpMatch) :
  exec (declPattern symbolName) source = Some m ->
  exists pre p1 p2 post,
    source = pre ++ p1 ++ p2 ++ post /\ index m = List.length pre /\
    matched m = p1 ++ p2 /\ group m 1 = p1.
Proof.
  unfold exec. intros H.
  apply search_found in H as (pre & s' & f & -> & Hm & ->).
  destruct (declPattern_groups symbolName) as (A & B & HAB & GA & GB).
  rewrite HAB in Hm.
  apply two_groups_captured in Hm as (p1 & p2 & Hs & Hc); auto.
  exists pre, p1, p2, (rest f). unfold found, group. cbn [index matched groups].
  rewrite Hc. cbn [lookup Nat.eqb]. rewrite Hs.
  repeat split.
  rewrite app_assoc. apply firstn_consumed.
Qed.

Lemma trimStart_length (s : jsstring) :
  List.length (trimStart s) <= List.length s.
Proof.
  induction s as [|c s IH]; cbn [trimStart]; [lia|].
  destruct (is_space c); simpl in *; lia.
Qed.

Lemma leading_space (s : jsstring) :
  forallb is_space (firstn (List.length s - List.length (trimStart s)) s) = true.
Proof.
  induction s as [|c s IH]; [reflexivity|]. cbn [trimStart].
  destruct (is_space c) eqn:E.
  - pose proof (trimStart_length s).
    replace (List.length (c :: s) - List.length (trimStart s))
      with (S (List.length s - List.length (trimStart s)))
      by (cbn [List.length]; lia).
    cbn [firstn forallb]. now rewrite E, IH.
  - now rewrite Nat.sub_diag.
Qed.

Lemma trimEnd_last (l : jsstring) (c : char) :
  is_space c = false -> trimEnd (l ++ [c]) = l ++ [c].
Proof.
  intros H. unfold trimEnd. rewrite rev_app_distr. cbn [rev app trimStart].
  rewrite H. cbn [rev]. now rewrite rev_involutive.
Qed.

Lemma firstn_snoc (l : jsstring) (n : nat) (c : char) :
  nth_error l n = Some c -> firstn (S n) l = firstn n l ++ [c].
Proof.
  revert n; induction l as [|x l IH]; intros [|n] Hn; try discriminate.
  - injection Hn as ->. reflexivity.
  - cbn [firstn app]. f_equal. now apply IH.
Qed.

Lemma substring_last (s : jsstring) (a : Z) (e : nat) (c : char) :
  (0 <= a <= Z.of_nat e)%Z -> nth_error s e = Some c ->
  substring s a (Z.of_nat e + 1)
  = substring s a (Z.of_nat e) ++ [c].
Proof.
  intros Ha Hc.
  assert (He : e < List.length s) by (apply nth_error_Some; congruence).
  rewrite !substring_in_range by (unfold Js.length; lia).
  replace (Z.to_nat (Z.of_nat e + 1) - Z.to_nat a)
    with (S (Z.to_nat (Z.of_nat e) - Z.to_nat a)) by lia.
  apply firstn_snoc. rewrite nth_error_skipn, <- Hc. f_equal. lia.
Qed.

(** [indexOf] with a one-character pattern finds the first occurrence. *)
Lemma indexOf_char (source : jsstring) (c : char) (from : Z) :
  first_at source c from (indexOf source [c] from).
Proof.
  unfold indexOf, first_at.
  assert (Hsw : forall k, startsWith (skipn k source) [c] = true
                          <-> nth_error source k = Some c).
  { intros k. rewrite <- (Nat.add_0_r k) at 2. rewrite <- nth_error_skipn.
    destruct (skipn k source) as [|x t]; cbn [startsWith nth_error].
    - split; discriminate.
    - rewrite andb_true_iff, N.eqb_eq. split.
      + intros [-> _]. reflexivity.
      + intros [= ->]. split; [reflexivity | now destruct t]. }
  set (k0 := clamp source from).
  assert (Hk0 : k0 <= List.length source) by apply clamp_le.
  assert (Hk0' : forall j, (from <= Z.of_nat j)%Z -> j < List.length source ->
                           k0 <= j).
  { intros j Hj Hl. unfold k0, clamp. lia. }
  destruct (find_from [c] (skipn k0 source) k0) as [r|] eqn:E.
  - right. apply find_from_some in E as (k & -> & Hk & Hat & Hmin).
    rewrite skipn_skipn, (Nat.add_comm k k0) in Hat. apply Hsw in Hat.
    assert (Hlt : k0 + k < List.length source)
      by (apply nth_error_Some; congruence).
    split; [lia|]. split; [unfold k0, clamp in *; lia|].
    rewrite Nat2Z.id. split; [exact Hat|].
    intros j Hj Hcj.
    assert (Hjl : j < List.length source) by (apply nth_error_Some; congruence).
    specialize (Hk0' j (proj1 Hj) Hjl).
    specialize (Hmin (j - k0)). rewrite skipn_skipn in Hmin.
    replace (j - k0 + k0) with j in Hmin by lia.
    apply Hsw in Hcj. rewrite Hmin in Hcj by lia. discriminate.
  - left. split; [reflexivity|]. intros j Hj Hcj.
    assert (Hjl : j < List.length source) by (apply nth_error_Some; congruence).
    specialize (Hk0' j Hj Hjl).
    pose proof (find_from_none _ _ _ E (j - k0)) as Hno.
    rewrite skipn_skipn in Hno. replace (j - k0 + k0) with j in Hno by lia.
    apply Hsw in Hcj. congruence.
Qed.

End CsFacts.

Import BraceFacts.

(** C6.  [findMatchingBrace], started at [openPos] with no lexical mode
    active, returns the first offset that holds a closing brace outside every
    comment and string at which the depth, counted over the unguarded braces
    from [openPos] on, is back at zero; it returns [-1] when the text has no
    such offset.  The offset returned is never one that is guarded, and an
    opening brace read in plain mode brings the depth to 1. *)
Theorem matching_brace_is_first_unguarded_balance (source : jsstring)
    (openPos : nat) :
  let r := findMatchingBrace source (Z.of_nat openPos) in
  let guards := lex Plain (skipn openPos source) in
  ((r = (-1)%Z /\ forall j, ~ closes_at source openPos j)
   \/
   (exists j, r = Z.of_nat j /\ closes_at source openPos j /\
              nth_error source j = Some RBRACE /\
              nth_error guards (j - openPos) = Some false /\
              forall j', j' < j -> ~ closes_at source openPos j')) /\
  (forall t, depth_after (LBRACE :: t) (lex Plain (LBRACE :: t)) 1 = 1%Z).
Proof.
  intros r guards. split.
  - apply findMatchingBrace_closes.
  - intros [|n t]; reflexivity.
Qed.

(** A closing brace in a character literal or in a comment does not end the
    scan: in [CsSamples.classDecl] the brace at offset 29 is skipped and the
    scan from the brace at 17 ends at offset 33. *)
Example brace_in_literal_is_skipped :
  nth_error CsSamples.classDecl 17 = Some LBRACE /\
  nth_error CsSamples.classDecl 29 = Some RBRACE /\
  findMatchingBrace CsSamples.classDecl 17 = 33%Z.
Proof. repeat split; vm_compute; reflexivity. Qed.

Import CsFacts.

(** C5.  In [CsSamples.commentedHeader] the header of the class is followed
    by a line comment that holds a brace.  The code looks for the brace by
    plain text search, finds the one inside the comment at offset 13,
    although the next brace outside comments and strings stands at offset
    17, and scans from there: it returns the header up to the end of the
    comment, where the described choice of terminator gives the whole class.
    And the text returned for [CsSamples.indentedRecord], which has no doc
    comment, keeps the indentation of the declaration. *)
Lemma brace_in_comment_ends_header :
  extractCsSymbol_in CsSamples.indentedRecord (str "P")
  = Some CsSamples.indentedRecord /\
  exists m,
    exec (declPattern (str "Foo")) CsSamples.commentedHeader = Some m /\
    indexOf CsSamples.commentedHeader (str "{") (afterMatch_of m) = 13%Z /\
    nth_error (lex Plain CsSamples.commentedHeader) 13 = Some true /\
    unguarded_index CsSamples.commentedHeader LBRACE (afterMatch_of m) = 17%Z /\
    extractCsSymbol_in CsSamples.commentedHeader (str "Foo")
    = Some (str "class Foo // {x}") /\
    described_extractCsSymbol_in CsSamples.commentedHeader (str "Foo")
    = Some CsSamples.commentedHeader.
Proof.
  split; [vm_compute; reflexivity|].
  eexists. split; [vm_compute; reflexivity|].
  repeat split; vm_compute; reflexivity.
Qed.

(** C1.  Rewriting [Samples.closeTagInCode] and then rewriting the result
    gives two different texts: the declaration holds the text of a close
    tag, which the second scan takes for the end of the directive, and the
    rest of the first block is left behind the second one.  Both runs return
    and neither reports an error. *)
Theorem rewrite_twice_differs :
  exists once twice,
    applyEmbeds Samples.env Samples.closeTagInCode Samples.md = Normal once /\
    applyEmbeds Samples.env (output once) Samples.md = Normal twice /\
    errors once = [] /\ errors twice = [] /\
    Js.length (output once) = 163%Z /\ Js.length (output twice) = 191%Z /\
    output twice
    = firstn 162 (output once) ++ str " */ }
```
<!-- /cs-embed -->
" /\
    output twice <> output once.
Proof.
  set (once := plain_run Samples.env Samples.closeTagInCode Samples.md).
  set (twice := plain_run Samples.env (output once) Samples.md).
  exists once, twice.
  assert (L1 : Js.length (output once) = 163%Z) by (vm_compute; reflexivity).
  assert (L2 : Js.length (output twice) = 191%Z) by (vm_compute; reflexivity).
  split; [vm_compute; reflexivity|]. split; [vm_compute; reflexivity|].
  split; [vm_compute; reflexivity|]. split; [vm_compute; reflexivity|].
  split; [exact L1|]. split; [exact L2|].
  split; [vm_compute; reflexivity|].
  intros E. apply (f_equal Js.length) in E. rewrite L1, L2 in E. discriminate E.
Qed.

(** C4.  For a doc comment on the line above [function bar() {}] the code
    keeps the whole gap, with the newline that ends it, and adds a newline
    of its own: the comment and the function are separated by an empty
    line, where the described text has one newline between them. *)
Theorem doc_comment_gap_is_kept_whole :
  extractTsSymbol_in TsSamples.documentedFile (str "bar")
  = Some (extractNodeText TsSamples.documentedSource TsSamples.barNode) /\
  extractNodeText TsSamples.documentedSource TsSamples.barNode
  = str "/** doc */

function bar() {}" /\
  described_node_text TsSamples.documentedSource TsSamples.barNode
  = str "/** doc */
function bar() {}".
Proof. repeat split; vm_compute; reflexivity. Qed.

(** C10.  The header pattern for [Foo] matches [class FooBar ] at the start
    of a text that declares only [FooBar], and the extractor returns the
    declaration of [FooBar]. *)
Theorem prefix_of_name_is_matched :
  startsWith (str "FooBar") (str "Foo") = true /\
  (exists m, exec (declPattern (str "Foo")) CsSamples.prefixNamed = Some m /\
             index m = 0 /\ matched m = str "class FooBar ") /\
  extractCsSymbol_in CsSamples.prefixNamed (str "Foo")
  = Some CsSamples.prefixNamed.
Proof.
  split; [reflexivity|]. split.
  - eexists. split; [vm_compute; reflexivity|]. split; reflexivity.
  - vm_compute. reflexivity.
Qed.

(** * Further properties of the scanner *)

Module ScanMore.
Import JsFacts RegexFacts ScanFacts RewriteFacts ItemFacts CsFacts.

Lemma split_lines_nonempty (s : jsstring) : split_lines s <> [].
Proof.
  induction s as [|c s IH]; cbn [split_lines]; [discriminate|].
  destruct (N.eqb c LF); [discriminate|].
  destruct (split_lines s); discriminate.
Qed.

Lemma split_lines_length (s : jsstring) :
  List.length (split_lines s) = S (count_char LF s).
Proof.
  unfold count_char. induction s as [|c s IH]; [reflexivity|].
  cbn [split_lines filter]. rewrite (N.eqb_sym LF c).
  destruct (N.eqb c LF).
  - cbn [List.length]. f_equal. exact IH.
  - destruct (split_lines s) as [|l ls] eqn:E.
    + now apply split_lines_nonempty in E.
    + cbn [List.length] in *. exact IH.
Qed.

Lemma substring_from_zero (s : jsstring) (b : Z) :
  substring s 0 b = firstn (Z.to_nat b) s.
Proof.
  unfold substring, clamp. cbn [Z.to_nat]. rewrite Nat.min_0_l.
  rewrite Nat.min_0_l, Nat.max_0_l, Nat.sub_0_r. cbn [skipn].
  destruct (Nat.le_ge_cases (Z.to_nat b) (List.length s)) as [H|H].
  - now rewrite Nat.min_l.
  - rewrite Nat.min_r by exact H. now rewrite !firstn_all2 by lia.
Qed.

Lemma indexOf_range (s p : jsstring) (from : Z) :
  indexOf s p from = (-1)%Z \/ (0 <= indexOf s p from)%Z.
Proof. unfold indexOf. destruct (find_from _ _ _); lia. Qed.

Lemma second_pass_bounds (content : jsstring) (from : Z) (ms : list OpenMarker) :
  marker_chain (Js.length content) from ms ->
  Forall (fun d => endIndex d = (-1)%Z \/ (startIndex d < endIndex d)%Z)
         (second_pass content ms).
Proof.
  induction 1 as [from|from m ms H1 H2 H3 H4 IH]; cbn [second_pass];
    constructor; auto.
  unfold directive_of. cbn [endIndex startIndex].
  destruct (indexOf _ _ 0 =? -1)%Z eqn:E; cbn [negb]; [now left|].
  right. apply Z.eqb_neq in E.
  destruct (indexOf_range
              (substring content (searchStart m)
                 match hd_error ms with
                 | Some m' => om_index m'
                 | None => Js.length content
                 end) (closeTag (om_kind m)) 0) as [Hn|Hp]; [contradiction|].
  pose proof (length_nonneg (closeTag (om_kind m))). unfold searchStart in *. lia.
Qed.

(** A match of a pattern that begins with a literal text begins with that
    text. *)
Lemma search_lit_occurs (l : jsstring) (rs : list regex) (s : jsstring) (i : nat)
    (m : RegExpMatch) :
  search (Seqs (Lit l :: rs)) i s = Some m -> occurs_in l s.
Proof.
  intros H. apply search_found in H as (pre & s' & f & -> & Hm & _).
  unfold match_here in Hm. rewrite rmatch_Seqs_cons, rmatch_Lit in Hm.
  cbn [rest] in Hm. destruct (startsWith s' l) eqn:E; [|discriminate].
  apply startsWith_app in E as [t ->]. now exists pre, t.
Qed.

Lemma indexOf_none (s t : jsstring) :
  indexOf s t 0 = (-1)%Z -> ~ occurs_in t s.
Proof.
  unfold indexOf, clamp. cbn [Z.to_nat Nat.min skipn].
  destruct (find_from t s 0) as [k|] eqn:E; [lia|]. intros _ (P & Q & ->).
  pose proof (find_from_none _ _ _ E (List.length P)) as H.
  rewrite skipn_app, skipn_all, Nat.sub_diag in H. cbn [skipn app] in H.
  assert (startsWith (t ++ Q) t = true) by (apply startsWith_app; now exists Q).
  congruence.
Qed.

End ScanMore.

(** X1.  The directives come in document order: their start offsets
    increase strictly and lie inside the text, and a close offset other than
    [-1] lies after the start of its directive and inside the text. *)
Theorem directives_in_document_order (content : jsstring) :
  StronglySorted (fun a b => (startIndex a < startIndex b)%Z)
                 (findDirectives content) /\
  Forall (fun d => (0 <= startIndex d < Js.length content)%Z /\
                   (endIndex d = (-1)%Z \/
                    (startIndex d < endIndex d <= Js.length content)%Z))
         (findDirectives content).
Proof.
  pose proof (RewriteFacts.findDirectives_chain content) as Hc.
  split; [eapply RewriteFacts.dchain_sorted; exact Hc|].
  pose proof (ScanMore.second_pass_bounds content 0 (openMarkers content)
                (ScanFacts.openMarkers_chain content)) as Hb.
  fold (findDirectives content) in Hb.
  assert (Hg : forall from ds,
             (0 <= from)%Z ->
             directive_chain (Js.length content) from ds ->
             Forall (fun d => (0 <= startIndex d < Js.length content)%Z /\
                              (endIndex d <= Js.length content)%Z) ds).
  { intros from ds Hf H. induction H as [|from d ds H1 H2 H3 H4 H5 IH];
      constructor; [lia | apply IH; lia]. }
  specialize (Hg 0%Z _ ltac:(lia) Hc).
  rewrite Forall_forall in *. intros d Hd.
  destruct (Hg d Hd) as [H1 H2]. split; [exact H1|].
  destruct (Hb d Hd) as [E|E]; [now left | right; lia].
Qed.

(** X2.  The line number of a directive is one more than the number of line
    feeds in the text before its marker. *)
Theorem line_number_counts_line_feeds (content : jsstring) :
  Forall (fun d => lineNumber d
                   = Z.of_nat (S (count_char LF
                                    (firstn (Z.to_nat (startIndex d)) content))))
         (findDirectives content).
Proof.
  unfold findDirectives. induction (openMarkers content) as [|m ms IH];
    cbn [second_pass]; constructor; [|exact IH].
  unfold directive_of. cbn [lineNumber startIndex].
  now rewrite ScanMore.substring_from_zero, ScanMore.split_lines_length.
Qed.

(** X3.  A text in which [<!--] does not occur has no directive, and
    [applyEmbeds] returns it as it is, with no error, whatever the files
    are. *)
Theorem no_comment_opener_no_directive (env : Env) (content md : jsstring) :
  indexOf content (str "<!--") 0 = (-1)%Z ->
  findDirectives content = [] /\
  applyEmbeds env content md = Normal (content, []).
Proof.
  intros H. apply ScanMore.indexOf_none in H.
  assert (E : findDirectives content = []).
  { unfold findDirectives, openMarkers. cbn [scan_markers].
    destruct (exec_from markerRe content 0) as [m|] eqn:Em; [|reflexivity].
    exfalso. apply H. unfold exec_from in Em. cbn [Nat.leb skipn] in Em.
    exact (ScanMore.search_lit_occurs _ _ _ _ _ Em). }
  split; [exact E|]. unfold applyEmbeds. now rewrite E.
Qed.

Lemma no_comment_opener_no_directive_witness :
  applyEmbeds DirSamples.env (str "# Title
plain text") Samples.md = Normal (str "# Title
plain text", []).
Proof.
  apply (no_comment_opener_no_directive DirSamples.env (str "# Title
plain text") Samples.md).
  vm_compute. reflexivity.
Defined.

(** * Further properties of the rewrite engine *)

Module RewriteMore.
Import JsFacts RegexFacts ScanFacts RewriteFacts ItemFacts.

Lemma all_failed_rounds (env : Env) (md : jsstring) (ds : list EmbedDirective) :
  (forall d, In d ds -> failed env md d = true) ->
  forall acc, fst (fold_left (plain_round env md) ds acc) = fst acc.
Proof.
  induction ds as [|d ds IH]; intros Hall acc; [reflexivity|].
  cbn [fold_left]. rewrite IH by (intros; apply Hall; now right).
  rewrite failed_round by (apply Hall; now left). reflexivity.
Qed.

Lemma filter_all_true {A : Type} (f : A -> bool) (l : list A) :
  (forall x, In x l -> f x = true) -> filter f l = l.
Proof.
  induction l as [|x l IH]; intros H; [reflexivity|]. cbn [filter].
  rewrite (H x) by now left. f_equal. apply IH. intros; apply H; now right.
Qed.

Lemma sorted_is_rev (content : jsstring) :
  sorted_directives (findDirectives content) = rev (findDirectives content).
Proof. eapply sorted_directives_rev. apply findDirectives_chain. Qed.

Lemma applyEmbeds_fold (env : Env) (content md : jsstring) :
  plain_run env content md
  = fold_left (plain_round env md) (rev (findDirectives content)) (content, []).
Proof.
  unfold plain_run. rewrite sorted_is_rev.
  destruct (findDirectives content); reflexivity.
Qed.

Lemma codeBlock_lines (k : Kind) (c : jsstring) :
  codeBlock k c
  = FENCE ++ lang_of k ++ [LF] ++ generatedLine ++ [LF] ++ c ++ [LF]
    ++ FENCE ++ [LF] ++ closeTag k.
Proof.
  unfold codeBlock. cbn [join_lines]. rewrite <- !app_assoc.
  destruct k; reflexivity.
Qed.

(** [applyEmbeds] returns exactly when [resolveEmbed] returns for every
    directive of the document, and then returns the plain run. *)
Lemma all_return (env : Env) (md content : jsstring) :
  forallb (returns env md) (sorted_directives (findDirectives content)) = true
  <-> forall d, In d (findDirectives content) ->
                exists x, resolveEmbed env d md = Normal x.
Proof.
  rewrite sorted_is_rev, forallb_forall. split.
  - intros H d Hd. exists (resolved env d md). apply PlainFacts.returns_normal.
    apply H. now apply in_rev in Hd.
  - intros H d Hd. apply in_rev in Hd. destruct (H d Hd) as [x Hx].
    unfold returns. now rewrite Hx.
Qed.

Lemma run_returns (env : Env) (content md : jsstring) :
  (forall d, In d (findDirectives content) ->
             exists x, resolveEmbed env d md = Normal x) ->
  applyEmbeds env content md = Normal (plain_run env content md).
Proof. intros H. apply PlainFacts.applyEmbeds_returns. now apply all_return. Qed.

Lemma run_normal (env : Env) (content md : jsstring)
    (r : jsstring * list ErrorReport) :
  applyEmbeds env content md = Normal r ->
  (forall d, In d (findDirectives content) ->
             exists x, resolveEmbed env d md = Normal x) /\
  r = plain_run env content md.
Proof.
  intros H. apply PlainFacts.applyEmbeds_normal in H as [H ->].
  split; [now apply all_return | reflexivity].
Qed.

Lemma failed_iff (env : Env) (md : jsstring) (d : EmbedDirective) :
  failed env md d = true
  <-> exists r, resolveEmbed env d md = Normal r /\ has_error r = true.
Proof.
  unfold failed, resolved. destruct (resolveEmbed env d md) as [r|p]; split.
  - intros H. now exists r.
  - intros (x & [= <-] & H). exact H.
  - discriminate.
  - intros (x & H & _). discriminate.
Qed.

End RewriteMore.

(** X4.  [resolveEmbed] throws exactly when the resolved path exists but
    cannot be read, and the exception is that of the read.  When it returns,
    the record holds either a code or an error, never both and never
    neither, and the error test of the rewrite loop, which takes an empty
    message for no error, is true exactly when there is no code; a path that
    does not exist is reported as a missing file, whatever the kind, and a
    file that is read but does not hold the symbol as a missing symbol. *)
Theorem resolveEmbed_code_or_error (env : Env) (d : EmbedDirective)
    (md : jsstring) :
  let absSource := path_resolve env (path_dirname env md) (sourcePath d) in
  (forall p, resolveEmbed env d md = Throw p
             <-> p = absSource /\ files env absSource = None /\
                 unreadable env absSource = true) /\
  ((exists r, resolveEmbed env d md = Normal r)
   <-> (existsSync env absSource = true -> files env absSource <> None)) /\
  forall r, resolveEmbed env d md = Normal r ->
    directive r = d /\
    (has_error r = true <-> code r = None) /\
    (code r = None <-> error r <> None) /\
    (existsSync env absSource = false ->
     error r = Some (str "File not found: " ++ absSource)) /\
    (existsSync env absSource = true -> code r = None ->
     error r = Some (str "Symbol '" ++ symbolName d ++ str "' not found in "
                       ++ absSource)).
Proof.
  cbv zeta.
  set (abs := path_resolve env (path_dirname env md) (sourcePath d)).
  destruct (PlainFacts.resolveEmbed_cases env d md)
    as [[X E]|[(s & X & E)|(X & Y & E)]]; fold abs in X, E; rewrite E.
  - split; [|split].
    + intros p. split; [discriminate|]. intros (_ & F & U).
      unfold existsSync in X. rewrite F, U in X. discriminate.
    + split; [intros _; congruence | intros _; eexists; reflexivity].
    + intros r [= <-]. unfold has_error. cbn [directive code error app str].
      repeat split; try discriminate; try congruence; intros; congruence.
  - split; [|split].
    + intros p. split; [discriminate|]. intros (_ & F & _). congruence.
    + split; [intros _ _; congruence | intros _; eexists; reflexivity].
    + intros r [= <-]. unfold existsSync. rewrite X.
      destruct (match kind d with
                | ts => extractTsSymbol_in _ _
                | cs => extractCsSymbol_in _ _
                end) as [c|]; unfold has_error; cbn [directive code error];
        repeat split; try discriminate; try congruence; intros; congruence.
  - split; [|split].
    + intros p. split; [intros [= <-]; now repeat split | intros (-> & _); reflexivity].
    + split; [intros [r Hr]; discriminate|].
      intros H. exfalso. apply H; [|exact X]. unfold existsSync. now rewrite X.
    + discriminate.
Qed.

(** In [DirSamples.env] the path [/docs/src] is a directory: the call
    throws for a directive that names it. *)
Lemma resolveEmbed_code_or_error_witness :
  resolveEmbed DirSamples.env DirSamples.dirSecond Samples.md
  = Throw (str "/docs/src").
Proof.
  apply (resolveEmbed_code_or_error DirSamples.env DirSamples.dirSecond Samples.md).
  repeat split; vm_compute; reflexivity.
Defined.

(** X5.  [applyEmbeds] returns exactly when [resolveEmbed] returns for
    every directive of the document.  The error list that it returns holds
    one report for each directive that fails to resolve, and nothing else;
    the reports come in the order of processing, that is from the last
    directive of the document to the first. *)
Theorem errors_in_reverse_document_order (env : Env) (content md : jsstring) :
  ((exists r, applyEmbeds env content md = Normal r)
   <-> forall d, In d (findDirectives content) ->
                 exists x, resolveEmbed env d md = Normal x) /\
  forall r, applyEmbeds env content md = Normal r ->
    errors r
    = map (report_for env md)
          (filter (failed env md) (rev (findDirectives content))) /\
    List.length (errors r) <= List.length (findDirectives content).
Proof.
  split.
  { split.
    - intros [r Hr]. now apply RewriteMore.run_normal in Hr.
    - intros H. eexists. now apply RewriteMore.run_returns. }
  intros r Hr. apply RewriteMore.run_normal in Hr as [_ ->].
  assert (E : errors (plain_run env content md)
              = map (report_for env md)
                  (filter (failed env md) (rev (findDirectives content)))).
  { rewrite RewriteMore.applyEmbeds_fold. unfold errors.
    now rewrite RewriteFacts.fold_rounds_errors. }
  split; [exact E|].
  rewrite E, length_map, <- (length_rev (findDirectives content)).
  apply filter_length_le.
Qed.

(** X6.  When [resolveEmbed] returns an error for every directive of a
    document, [applyEmbeds] returns the text as it was, and every directive
    is reported. *)
Theorem all_failed_document_unchanged (env : Env) (content md : jsstring) :
  (forall d, In d (findDirectives content) ->
             exists r, resolveEmbed env d md = Normal r /\ has_error r = true) ->
  applyEmbeds env content md
  = Normal (content, map (report_for env md) (rev (findDirectives content))).
Proof.
  intros Hall.
  assert (Hrev : forall d, In d (rev (findDirectives content)) ->
                           failed env md d = true).
  { intros d Hd. apply RewriteMore.failed_iff, Hall. now apply in_rev. }
  rewrite RewriteMore.run_returns.
  2:{ intros d Hd. destruct (Hall d Hd) as (r & Hr & _). now exists r. }
  f_equal. rewrite RewriteMore.applyEmbeds_fold.
  rewrite (surjective_pairing (fold_left _ _ _)).
  rewrite RewriteMore.all_failed_rounds by exact Hrev.
  rewrite RewriteFacts.fold_rounds_errors.
  now rewrite RewriteMore.filter_all_true by exact Hrev.
Qed.

Lemma all_failed_document_unchanged_witness :
  applyEmbeds Samples.env (str "<!-- cs-embed: foo.cs#Missing -->
<!-- ts-embed: none.ts#Foo -->
") Samples.md
  = Normal (str "<!-- cs-embed: foo.cs#Missing -->
<!-- ts-embed: none.ts#Foo -->
",
     map (report_for Samples.env Samples.md)
       (rev (findDirectives (str "<!-- cs-embed: foo.cs#Missing -->
<!-- ts-embed: none.ts#Foo -->
")))).
Proof.
  apply all_failed_document_unchanged.
  intros d Hd. vm_compute in Hd.
  destruct Hd as [<-|[<-|[]]]; eexists; split; vm_compute; reflexivity.
Defined.

(** X7.  The text before the marker of the first directive is never
    changed: it stands at the start of whatever [applyEmbeds] returns. *)
Theorem text_before_first_marker_kept (env : Env) (content md : jsstring)
    (d : EmbedDirective) (ds : list EmbedDirective)
    (r : jsstring * list ErrorReport) :
  findDirectives content = d :: ds ->
  applyEmbeds env content md = Normal r ->
  firstn (Z.to_nat (startIndex d)) (output r)
  = firstn (Z.to_nat (startIndex d)) content.
Proof.
  intros E Hr. apply RewriteMore.run_normal in Hr as [_ ->].
  rewrite RewriteMore.applyEmbeds_fold. unfold output.
  pose proof (RewriteFacts.findDirectives_chain content) as Hc.
  rewrite E in *.
  inversion Hc as [|? ? ? H1 H2 H3 H4 H5]; subst.
  apply RewriteFacts.dchain_all_ge in H5.
  rewrite RewriteFacts.fold_rounds_prefix; [reflexivity | lia |].
  apply Forall_rev. constructor; [lia|].
  eapply Forall_impl; [|exact H5]. cbn beta. intros; lia.
Qed.

Lemma text_before_first_marker_kept_witness :
  exists r,
    applyEmbeds Samples.env Samples.twoDirectives Samples.md = Normal r /\
    firstn 8 (output r) = str "# Guide
".
Proof.
  assert (E : findDirectives Samples.twoDirectives
              = Samples.fooDirective :: [Samples.missingDirective])
    by (vm_compute; reflexivity).
  assert (R : applyEmbeds Samples.env Samples.twoDirectives Samples.md
              = Normal (plain_run Samples.env Samples.twoDirectives Samples.md))
    by (vm_compute; reflexivity).
  eexists. split; [exact R|].
  exact (text_before_first_marker_kept Samples.env Samples.twoDirectives
           Samples.md _ _ _ E R).
Defined.

(** The rewriting of a directive in place, in the run in which every call
    returns. *)
Lemma plain_block_in_place (env : Env) (content md : jsstring)
    (done : list EmbedDirective) (d : EmbedDirective) (todo : list EmbedDirective) :
  sorted_directives (findDirectives content) = done ++ d :: todo ->
  returns env md d = true ->
  failed env md d = false ->
  own_marker_matched content (window_limit content done) d = true ->
  siblings_located env md content (startIndex d) todo = true ->
  let cur := text_after env md content done in
  exists P m c,
    exec (openMarkerRe d) (substring_from content (startIndex d)) = Some m /\
    code (resolved env d md) = Some c /\
    matched m
    = substring content (startIndex d) (startIndex d + Js.length (matched m)) /\
    output (plain_run env content md)
    = P ++ matched m ++ [LF] ++ codeBlock (kind d) c
        ++ substring_from cur
             (if (endIndex d =? -1)%Z
              then (startIndex d + Js.length (matched m))%Z
              else endIndex d) /\
    codeBlock (kind d) c
    = FENCE ++ lang_of (kind d) ++ [LF] ++ generatedLine ++ [LF] ++ c ++ [LF]
      ++ FENCE ++ [LF] ++ closeTag (kind d).
Proof.
  intros Hs Hret Hf Hown Hloc cur.
  set (w := window_limit content done) in *.
  destruct (RewriteFacts.offsets_at_round_start env md content done d todo Hs)
    as (H1 & H2 & H3 & Hall & Hpre).
  fold w in H1, H2, H3, Hall, Hpre. fold cur in Hpre.
  pose proof (RewriteFacts.findDirectives_chain content) as Hc.
  assert (Hds : findDirectives content = rev todo ++ d :: rev done).
  { rewrite <- (rev_involutive (findDirectives content)).
    rewrite <- RewriteMore.sorted_is_rev, Hs, rev_app_distr. cbn [rev].
    now rewrite <- app_assoc. }
  assert (Htrim : Forall (fun d' => exists x, sourcePath d' = trim x)
                         (findDirectives content))
    by apply ItemFacts.findDirectives_trimmed.
  rewrite Hds in Htrim. apply Forall_app in Htrim as [Htodo Hd].
  inversion Hd as [|? ? [x Hx] _]; subst.
  pose proof (ItemFacts.rematch_stable d content cur w x Hx ltac:(lia) H3 Hpre Hown)
    as Hst.
  unfold own_marker_matched in Hown.
  destruct (exec (openMarkerRe d) (substring_from content (startIndex d)))
    as [m|] eqn:E0; [|discriminate].
  apply andb_true_iff in Hown as [Hi Hl].
  apply Nat.eqb_eq in Hi. apply Z.leb_le in Hl.
  destruct (PlainFacts.returned_has_code env d md Hret Hf) as [c Hcode].
  assert (Hcur : (w <= Js.length cur)%Z).
  { apply (f_equal (@List.length _)) in Hpre. rewrite !length_firstn in Hpre.
    unfold Js.length in *. lia. }
  (* the matched text stands at the start of the directive *)
  assert (Hat : forall t, (startIndex d <= Js.length t)%Z ->
                exec (openMarkerRe d) (substring_from t (startIndex d)) = Some m ->
                exists r, skipn (Z.to_nat (startIndex d)) t = matched m ++ r).
  { intros t Ht Ex. apply RegexFacts.exec_inside in Ex as (pre & post & Hsp & Hidx).
    rewrite Hi in Hidx. destruct pre; [|discriminate].
    rewrite JsFacts.substring_from_in_range in Hsp by lia. now exists post. }
  destruct (Hat content ltac:(lia) E0) as [r0 Hr0].
  destruct (Hat cur ltac:(lia) Hst) as [r1 Hr1].
  assert (Hlen : List.length (matched m) = Z.to_nat (Js.length (matched m)))
    by (unfold Js.length; lia).
  (* the round for d *)
  set (after := substring_from cur
           (if (endIndex d =? -1)%Z
            then (startIndex d + Js.length (matched m))%Z else endIndex d)).
  set (T := matched m ++ [LF] ++ codeBlock (kind d) c ++ after).
  assert (Hround : forall errs,
             plain_round env md (cur, errs) d
             = (firstn (Z.to_nat (startIndex d)) cur ++ T, errs)).
  { intros errs. unfold plain_round. unfold failed in Hf. rewrite Hf, Hst.
    f_equal. unfold splice, code_text. rewrite Hcode, Hi.
    cbn [Z.of_nat]. rewrite Z.add_0_r.
    rewrite JsFacts.substring_prefix by (unfold Js.length in *; lia).
    rewrite <- (firstn_skipn (Z.to_nat (startIndex d)) cur) at 1.
    rewrite Hr1.
    rewrite firstn_app, length_firstn.
    replace (Nat.min (Z.to_nat (startIndex d)) (List.length cur))
      with (Z.to_nat (startIndex d)) by (unfold Js.length in *; lia).
    rewrite firstn_firstn.
    replace (Nat.min (Z.to_nat (startIndex d + Js.length (matched m)))
               (Z.to_nat (startIndex d)))
      with (Z.to_nat (startIndex d)) by (unfold Js.length; lia).
    replace (Z.to_nat (startIndex d + Js.length (matched m)) - Z.to_nat (startIndex d))
      with (List.length (matched m)) by (unfold Js.length; lia).
    rewrite firstn_app, firstn_all, Nat.sub_diag, firstn_O, app_nil_r.
    unfold T, after. rewrite <- !app_assoc. cbn [app].
    destruct (endIndex d =? -1)%Z; reflexivity. }
  rewrite Hds in Hc. apply RewriteFacts.chain_descending in Hc; [|lia].
  assert (Happ : output (plain_run env content md)
                 = fst (fold_left (plain_round env md) todo
                          (firstn (Z.to_nat (startIndex d)) cur ++ T, []))).
  { rewrite RewriteMore.applyEmbeds_fold, <- RewriteMore.sorted_is_rev, Hs.
    unfold output. rewrite fold_left_app. cbn [fold_left].
    rewrite (surjective_pairing (fold_left (plain_round env md) done (content, []))).
    fold (text_after env md content done). fold cur.
    rewrite Hround. apply RewriteFacts.fold_rounds_text. }
  assert (Hpre' : firstn (Z.to_nat (startIndex d)) cur
                  = firstn (Z.to_nat (startIndex d)) content).
  { apply (f_equal (firstn (Z.to_nat (startIndex d)))) in Hpre.
    rewrite !firstn_firstn in Hpre.
    replace (Nat.min (Z.to_nat (startIndex d)) (Z.to_nat w))
      with (Z.to_nat (startIndex d)) in Hpre by lia.
    exact Hpre. }
  assert (HPlen : List.length (firstn (Z.to_nat (startIndex d)) cur)
                  = Z.to_nat (startIndex d)).
  { rewrite length_firstn. unfold Js.length in *. lia. }
  assert (Hin : rounds_within env md
                  (firstn (Z.to_nat (startIndex d)) cur ++ T, [])
                  (startIndex d) todo = true).
  { apply ItemFacts.located_rounds_within with (content := content); auto.
    - lia.
    - cbn [fst]. rewrite firstn_app, HPlen, Nat.sub_diag, firstn_O, app_nil_r.
      rewrite firstn_firstn, Nat.min_id. exact Hpre'.
    - apply Forall_rev in Htodo. now rewrite rev_involutive in Htodo. }
  destruct (RewriteFacts.rounds_keep_tail env md todo
              (firstn (Z.to_nat (startIndex d)) cur ++ T, []) (startIndex d)
              (firstn (Z.to_nat (startIndex d)) cur) T) as [P HP]; auto.
  { unfold Js.length. lia. }
  exists P, m, c.
  split; [reflexivity|]. split; [exact Hcode|]. split.
  { rewrite JsFacts.substring_in_range by (unfold Js.length in *; lia).
    rewrite Hr0.
    replace (Z.to_nat (startIndex d + Js.length (matched m)) - Z.to_nat (startIndex d))
      with (List.length (matched m)) by (unfold Js.length; lia).
    now rewrite firstn_app, firstn_all, Nat.sub_diag, firstn_O, app_nil_r. }
  split; [|apply RewriteMore.codeBlock_lines].
  rewrite Happ, HP. reflexivity.
Qed.

(** X8.  When [applyEmbeds] returns, a directive that resolved and whose
    marker its own pattern matches, while every directive before it in the
    document fails or has such a marker too, has been rewritten in place: in
    the output its marker is followed by a line feed and the generated
    block, and then by the text that followed its close tag (or its marker,
    when it had no close tag) when its round began.  The block is the fence
    with the language, the generated-by line, the code, the closing fence
    and the close tag of the directive's kind. *)
Theorem resolved_block_follows_marker (env : Env) (content md : jsstring)
    (done : list EmbedDirective) (d : EmbedDirective) (todo : list EmbedDirective)
    (r : jsstring * list ErrorReport) :
  sorted_directives (findDirectives content) = done ++ d :: todo ->
  applyEmbeds env content md = Normal r ->
  failed env md d = false ->
  own_marker_matched content (window_limit content done) d = true ->
  siblings_located env md content (startIndex d) todo = true ->
  exists P m c before,
    embed_rounds env md done (content, []) = Normal before /\
    exec (openMarkerRe d) (substring_from content (startIndex d)) = Some m /\
    resolveEmbed env d md
    = Normal {| directive := d; code := Some c; error := None |} /\
    matched m
    = substring content (startIndex d) (startIndex d + Js.length (matched m)) /\
    output r
    = P ++ matched m ++ [LF] ++ codeBlock (kind d) c
        ++ substring_from (fst before)
             (if (endIndex d =? -1)%Z
              then (startIndex d + Js.length (matched m))%Z
              else endIndex d) /\
    codeBlock (kind d) c
    = FENCE ++ lang_of (kind d) ++ [LF] ++ generatedLine ++ [LF] ++ c ++ [LF]
      ++ FENCE ++ [LF] ++ closeTag (kind d).
Proof.
  intros Hs Hr Hf Hown Hloc.
  pose proof Hr as Hr'. apply PlainFacts.applyEmbeds_normal in Hr' as [Hall ->].
  rewrite Hs, forallb_app in Hall. apply andb_true_iff in Hall as [Hdone Hrest].
  cbn [forallb] in Hrest. apply andb_true_iff in Hrest as [Hd _].
  destruct (plain_block_in_place env content md done d todo Hs Hd Hf Hown Hloc)
    as (P & m & c & Hm & Hc & Hmt & Hout & Hblock).
  exists P, m, c, (fold_left (plain_round env md) done (content, [])).
  split; [now apply PlainFacts.embed_rounds_returns|].
  split; [exact Hm|]. split.
  { apply PlainFacts.returns_normal in Hd. rewrite Hd. f_equal.
    revert Hc. unfold resolved.
    destruct (PlainFacts.resolveEmbed_cases env d md)
      as [[_ E]|[(s & _ & E)|(_ & _ & E)]]; rewrite E; try discriminate.
    destruct (match kind d with
              | ts => extractTsSymbol_in _ _
              | cs => extractCsSymbol_in _ _
              end); [now intros [= ->] | discriminate]. }
  split; [exact Hmt|]. split; [exact Hout | exact Hblock].
Qed.

(** In [Samples.twoResolved] the first directive is rewritten in place: its
    marker is followed by the block for [Foo], and the old body and close
    tag, which ended at offset 52, are gone. *)
Lemma resolved_block_follows_marker_witness :
  sorted_directives (findDirectives Samples.twoResolved)
  = [Samples.secondResolved] ++ Samples.firstResolved :: [] /\
  exists r P before,
    applyEmbeds Samples.env Samples.twoResolved Samples.md = Normal r /\
    embed_rounds Samples.env Samples.md [Samples.secondResolved]
      (Samples.twoResolved, []) = Normal before /\
    output r
    = P ++ str "<!-- cs-embed: foo.cs#Foo -->" ++ [LF]
        ++ codeBlock cs Samples.fooSource
        ++ substring_from (fst before) 52.
Proof.
  assert (H1 : sorted_directives (findDirectives Samples.twoResolved)
               = [Samples.secondResolved] ++ Samples.firstResolved :: [])
    by (vm_compute; reflexivity).
  split; [exact H1|].
  assert (R : applyEmbeds Samples.env Samples.twoResolved Samples.md
              = Normal (plain_run Samples.env Samples.twoResolved Samples.md))
    by (vm_compute; reflexivity).
  assert (H2 : failed Samples.env Samples.md Samples.firstResolved = false)
    by (vm_compute; reflexivity).
  assert (H3 : own_marker_matched Samples.twoResolved
                 (window_limit Samples.twoResolved [Samples.secondResolved])
                 Samples.firstResolved = true) by (vm_compute; reflexivity).
  assert (H4 : siblings_located Samples.env Samples.md Samples.twoResolved
                 (startIndex Samples.firstResolved) [] = true) by reflexivity.
  destruct (resolved_block_follows_marker Samples.env Samples.twoResolved
              Samples.md [Samples.secondResolved] Samples.firstResolved [] _
              H1 R H2 H3 H4) as (P & m & c & before & Hb & Hm & Hc & _ & Hout & _).
  vm_compute in Hm. injection Hm as <-.
  vm_compute in Hc. injection Hc as <-.
  exists (plain_run Samples.env Samples.twoResolved Samples.md), P, before.
  split; [exact R|]. split; [exact Hb | exact Hout].
Defined.

(** * Further properties of the extractors *)

Module ExtractMore.
Import JsFacts RegexFacts CsFacts TsFacts.

Lemma methodPattern_groups (symbolName : jsstring) :
  exists A B, methodPattern symbolName = Seq (Group 1 A) (Group 2 B)
              /\ groups_of A = [] /\ groups_of B = [].
Proof.
  eexists _, _. split; [reflexivity|]. split; [reflexivity|].
  cbn [Seqs groups_of Plus app]. rewrite groups_of_Lit. reflexivity.
Qed.

Lemma exec_methodPattern_shape (source symbolName : jsstring) (m : RegExpMatch) :
  exec (methodPattern symbolName) source = Some m ->
  exists pre p1 p2 post,
    source = pre ++ p1 ++ p2 ++ post /\ index m = List.length pre /\
    matched m = p1 ++ p2 /\ group m 1 = p1.
Proof.
  unfold exec. intros H.
  apply search_found in H as (pre & s' & f & -> & Hm & ->).
  destruct (methodPattern_groups symbolName) as (A & B & HAB & GA & GB).
  rewrite HAB in Hm.
  apply two_groups_captured in Hm as (p1 & p2 & Hs & Hc); auto.
  exists pre, p1, p2, (rest f). unfold found, group. cbn [index matched groups].
  rewrite Hc. cbn [lookup Nat.eqb]. rewrite Hs.
  repeat split.
  rewrite app_assoc. apply firstn_consumed.
Qed.

Lemma startsWith_has_dot (s ns : jsstring) :
  startsWith s (ns ++ str ".") = true -> dot_free s -> False.
Proof.
  intros H Hd. apply startsWith_app in H as [t ->].
  unfold dot_free in Hd. rewrite !mem_app in Hd.
  cbn in Hd. rewrite orb_true_r in Hd. discriminate.
Qed.

Lemma walk_top_level (source symbolName : jsstring) (stmts : list Node) :
  dot_free symbolName ->
  walk_statements source symbolName stmts = find_declared source symbolName stmts.
Proof.
  intros Hd. induction stmts as [|s stmts IH]; [reflexivity|].
  cbn [walk_statements find_declared].
  destruct (name_is (getNodeDeclaredName s) symbolName); [reflexivity|].
  destruct (namespace_block s) as [[ns inner]|]; [|exact IH].
  destruct (startsWith symbolName (ns ++ str ".")) eqn:E; [|exact IH].
  exfalso. exact (startsWith_has_dot _ _ E Hd).
Qed.

End ExtractMore.

(** X9.  The text that [escapeRegex] returns is pattern text that
    [new RegExp] reads, and the pattern it is read as matches the text that
    was escaped and nothing else: at any position it succeeds exactly when
    the input starts with that text, and it consumes exactly that text. *)
Theorem escaped_text_matches_itself (s t : jsstring) :
  exists r,
    literal_pattern (escapeRegex s) = Some r /\
    match_here r t
    = (if startsWith t s
       then Some {| rest := skipn (List.length s) t; caps := [] |}
       else None).
Proof.
  exists (Lit s). split; [apply RegexFacts.literal_pattern_escapeRegex|].
  unfold match_here. now rewrite ItemFacts.rmatch_Lit.
Qed.

(** X10.  The offset that [findMatchingBrace] returns is [-1] or lies
    strictly after the offset it starts from and inside the text, where it
    holds a closing brace: the scan never answers with its own start. *)
Theorem matching_brace_lies_after_start (source : jsstring) (openPos : nat) :
  let r := findMatchingBrace source (Z.of_nat openPos) in
  r = (-1)%Z \/
  ((Z.of_nat openPos < r < Js.length source)%Z /\
   nth_error source (Z.to_nat r) = Some RBRACE).
Proof.
  intros r.
  destruct (BraceFacts.findMatchingBrace_closes source openPos)
    as [[Hr _]|(j & Hr & Hcl & Hrb & Hg & _)]; [now left|].
  right. fold r in Hr. rewrite Hr, Nat2Z.id. split; [|exact Hrb].
  assert (Hj : j < List.length source) by (apply nth_error_Some; congruence).
  destruct Hcl as [Hle (Hc & Hgd & Hd)].
  unfold Js.length. split; [|lia].
  destruct (Nat.eq_dec j openPos) as [->|Hne]; [|lia].
  exfalso. rewrite Nat.sub_diag in *.
  destruct (skipn openPos source) as [|c cs]; [discriminate|].
  cbn [nth_error] in Hc. injection Hc as ->.
  destruct (lex Plain (RBRACE :: cs)) as [|g gs]; [discriminate|].
  cbn [nth_error] in Hgd. injection Hgd as ->.
  cbn in Hd. lia.
Qed.

(** X11.  After a match of the method pattern the declaration runs to the
    closing brace that matches the next opening brace of the raw text, and
    a semicolon is looked for only when there is no opening brace at all
    after the match: a semicolon that comes before the brace does not end
    the declaration.  There is no result when the scan finds no closing
    brace, or when there is neither brace nor semicolon. *)
Theorem method_runs_to_next_brace (source symbolName : jsstring)
    (m : RegExpMatch) :
  exec (methodPattern symbolName) source = Some m ->
  let declStart := declStart_of m in
  let afterMatch := afterMatch_of m in
  let braceStart := indexOf source (str "{") afterMatch in
  let semi := indexOf source (str ";") afterMatch in
  let endIdx := findMatchingBrace source braceStart in
  (Z.of_nat (index m) <= declStart <= afterMatch)%Z /\
  first_at source LBRACE afterMatch braceStart /\
  first_at source SEMICOLON afterMatch semi /\
  (braceStart = (-1)%Z -> semi = (-1)%Z ->
     extractCsMethod source symbolName = None) /\
  (braceStart = (-1)%Z -> semi <> (-1)%Z ->
     extractCsMethod source symbolName
     = Some (substring source declStart semi ++ [SEMICOLON])) /\
  (braceStart <> (-1)%Z -> endIdx = (-1)%Z ->
     extractCsMethod source symbolName = None) /\
  (braceStart <> (-1)%Z -> endIdx <> (-1)%Z ->
     extractCsMethod source symbolName
     = Some (substring source declStart endIdx ++ [RBRACE]) /\
     closes_at source (Z.to_nat braceStart) (Z.to_nat endIdx)).
Proof.
  intros Hm declStart afterMatch braceStart semi endIdx.
  destruct (ExtractMore.exec_methodPattern_shape _ _ _ Hm)
    as (pre & p1 & p2 & post & Hs & Hi & Hmt & Hg).
  assert (Hbounds : (Z.of_nat (index m) <= declStart <= afterMatch)%Z).
  { unfold declStart, afterMatch, declStart_of, afterMatch_of.
    rewrite Hg, Hmt, Hi. pose proof (CsFacts.trimStart_length p1).
    unfold Js.length. rewrite length_app. lia. }
  pose proof (CsFacts.indexOf_char source LBRACE afterMatch) as Hb.
  pose proof (CsFacts.indexOf_char source SEMICOLON afterMatch) as Hsemi.
  change [LBRACE] with (str "{") in Hb. change [SEMICOLON] with (str ";") in Hsemi.
  fold braceStart in Hb. fold semi in Hsemi.
  split; [exact Hbounds|]. split; [exact Hb|]. split; [exact Hsemi|].
  assert (Hcode : extractCsMethod source symbolName
    = if (braceStart =? -1)%Z then
        if (semi =? -1)%Z then None
        else Some (trimEnd (substring source declStart (semi + 1)))
      else if (endIdx =? -1)%Z then None
      else Some (trimEnd (substring source declStart (endIdx + 1)))).
  { unfold extractCsMethod. now rewrite Hm. }
  split; [|split; [|split]].
  - intros Hb1 Hs1. rewrite Hcode.
    apply Z.eqb_eq in Hb1, Hs1. now rewrite Hb1, Hs1.
  - intros Hb1 Hs1. rewrite Hcode. apply Z.eqb_eq in Hb1. rewrite Hb1.
    destruct Hsemi as [[? _]|(H0 & Hfrom & Hat & _)]; [contradiction|].
    apply Z.eqb_neq in Hs1. rewrite Hs1.
    rewrite <- (Z2Nat.id semi) at 1 2 by lia.
    rewrite CsFacts.substring_last with (c := SEMICOLON); [|lia | exact Hat].
    rewrite CsFacts.trimEnd_last by reflexivity. now rewrite Z2Nat.id by lia.
  - intros Hb1 He. rewrite Hcode.
    apply Z.eqb_neq in Hb1. rewrite Hb1. apply Z.eqb_eq in He. now rewrite He.
  - intros Hb1 He. rewrite Hcode.
    destruct Hb as [[? _]|(H0 & Hfrom & Hat & _)]; [contradiction|].
    apply Z.eqb_neq in Hb1. rewrite Hb1.
    pose proof (BraceFacts.findMatchingBrace_closes source (Z.to_nat braceStart))
      as Hscan.
    cbv zeta in Hscan. rewrite Z2Nat.id in Hscan by lia. fold endIdx in Hscan.
    destruct Hscan as [[? _]|(j & Hj & Hcl & Hrb & _)]; [contradiction|].
    apply Z.eqb_neq in He. rewrite He.
    assert (Hle : Z.to_nat braceStart <= j) by apply Hcl.
    rewrite Hj. rewrite Nat2Z.id.
    rewrite CsFacts.substring_last with (c := RBRACE); [|lia | exact Hrb].
    rewrite CsFacts.trimEnd_last by reflexivity. split; [reflexivity | exact Hcl].
Qed.

(** In [MoreSamples.shape] the abstract method [Area] ends with a
    semicolon, but the text returned for it runs on to the closing brace of
    the method that follows. *)
Lemma method_runs_to_next_brace_witness :
  exec (methodPattern (str "Area")) MoreSamples.shape = Some MoreSamples.areaMatch /\
  indexOf MoreSamples.shape (str ";") (afterMatch_of MoreSamples.areaMatch) = 56%Z /\
  indexOf MoreSamples.shape (str "{") (afterMatch_of MoreSamples.areaMatch) = 84%Z /\
  extractCsMethod MoreSamples.shape (str "Area")
  = Some (str "
    public abstract double Area();
    public double Twice() { return 2 * Area(); }").
Proof.
  assert (Hm : exec (methodPattern (str "Area")) MoreSamples.shape
               = Some MoreSamples.areaMatch) by (vm_compute; reflexivity).
  split; [exact Hm|].
  split; [vm_compute; reflexivity|]. split; [vm_compute; reflexivity|].
  pose proof (method_runs_to_next_brace MoreSamples.shape (str "Area")
                MoreSamples.areaMatch Hm) as (_ & _ & _ & _ & _ & _ & Hbrace).
  destruct Hbrace as [Hres _]; [vm_compute; discriminate
                               | vm_compute; discriminate |].
  rewrite Hres. vm_compute. reflexivity.
Defined.

(** X12.  A symbol without a dot is looked for among the top-level
    statements only, and the first statement that declares it is the one
    extracted; a declaration inside a namespace is not found by its bare
    name. *)
Theorem top_level_first_declaration_wins (sf : SourceFile)
    (symbolName : jsstring) :
  dot_free symbolName ->
  extractTsSymbol_in sf symbolName
  = find_declared (getFullText sf) symbolName (statements sf) /\
  (forall pre s post,
     statements sf = pre ++ s :: post ->
     Forall (fun n => name_is (getNodeDeclaredName n) symbolName = false) pre ->
     name_is (getNodeDeclaredName s) symbolName = true ->
     extractTsSymbol_in sf symbolName
     = Some (extractNodeText (getFullText sf) s)) /\
  (Forall (fun n => name_is (getNodeDeclaredName n) symbolName = false)
          (statements sf) ->
   extractTsSymbol_in sf symbolName = None).
Proof.
  intros Hd.
  assert (E : extractTsSymbol_in sf symbolName
              = find_declared (getFullText sf) symbolName (statements sf))
    by (apply ExtractMore.walk_top_level; exact Hd).
  split; [exact E|]. rewrite E. clear E. split.
  - intros pre s post -> Hpre Hs.
    induction Hpre as [|n pre Hn _ IH]; cbn [app find_declared].
    + now rewrite Hs.
    + rewrite Hn. exact IH.
  - intros Hall. induction Hall as [|n l Hn _ IH]; [reflexivity|].
    cbn [find_declared]. rewrite Hn. exact IH.
Qed.

(** In [TsSamples.namespaceFile] the interface [Circle] is declared inside
    the namespace [Shapes]: it is not found under the name [Circle]. *)
Lemma top_level_first_declaration_wins_witness :
  dot_free (str "Circle") /\
  extractTsSymbol_in TsSamples.namespaceFile (str "Circle") = None.
Proof.
  assert (Hd : dot_free (str "Circle")) by reflexivity.
  split; [exact Hd|].
  destruct (top_level_first_declaration_wins TsSamples.namespaceFile
              (str "Circle") Hd) as (_ & _ & Hnone).
  apply Hnone. repeat constructor.
Defined.

(** * What the scanner accepts *)

Module ParseFacts.
Import JsFacts RegexFacts ScanFacts ItemFacts CsFacts.

Lemma same_pos_false (st' st : mstate) (w : jsstring) :
  rest st = w ++ rest st' -> same_pos st' st = false -> w <> [].
Proof.
  intros H Hs ->. cbn [app] in H. unfold same_pos in Hs. rewrite H in Hs.
  now rewrite Nat.eqb_refl in Hs.
Qed.

Lemma star_loop_sound (g : bool) (r : regex) :
  sound r (rmatch r) ->
  forall fuel k st f,
    star_loop g (rmatch r) (clear r) k fuel st = Some f ->
    exists w st', rest st = w ++ rest st' /\
                  parses (Star g r) w (caps st) (caps st') /\ k st' = Some f.
Proof.
  intros Hr. induction fuel as [|fuel IH]; intros k st f H; [discriminate|].
  cbn [star_loop] in H.
  assert (Hk : k st = Some f ->
               exists w st', rest st = w ++ rest st' /\
                 parses (Star g r) w (caps st) (caps st') /\ k st' = Some f).
  { intros E. exists [], st. split; [reflexivity|]. split; [constructor | exact E]. }
  assert (Ha : rmatch r (fun st' => if same_pos st' st then None
                                    else star_loop g (rmatch r) (clear r) k fuel st')
                      (clear r st) = Some f ->
               exists w st', rest st = w ++ rest st' /\
                 parses (Star g r) w (caps st) (caps st') /\ k st' = Some f).
  { intros E. apply Hr in E as (w1 & st1 & H1 & P1 & E).
    destruct (same_pos st1 st) eqn:Sp; [discriminate|].
    apply IH in E as (w2 & st2 & H2 & P2 & E).
    cbn [clear rest caps] in H1, P1.
    exists (w1 ++ w2), st2. split; [now rewrite H1, H2, app_assoc|].
    split; [|exact E].
    econstructor; [eapply same_pos_false; eauto | exact P1 | exact P2]. }
  destruct g.
  - destruct (rmatch r _ (clear r st)) as [x|] eqn:E.
    + injection H as ->. now apply Ha.
    + now apply Hk.
  - destruct (k st) as [x|] eqn:E.
    + injection H as ->. now apply Hk.
    + now apply Ha.
Qed.

Lemma rmatch_sound (r : regex) : sound r (rmatch r).
Proof.
  induction r as [|p|r1 IH1 r2 IH2|r1 IH1 r2 IH2|g r IH|r IH|n r IH];
    intros k st f H; cbn [rmatch] in H.
  - exists [], st. split; [reflexivity|]. split; [constructor | exact H].
  - destruct (rest st) as [|c t] eqn:E; [discriminate|].
    destruct (p c) eqn:Pc; [|discriminate].
    exists [c], {| rest := t; caps := caps st |}. cbn [rest caps].
    split; [reflexivity|]. split; [now constructor | exact H].
  - apply IH1 in H as (w1 & st1 & H1 & P1 & H).
    apply IH2 in H as (w2 & st2 & H2 & P2 & H).
    exists (w1 ++ w2), st2. split; [now rewrite H1, H2, app_assoc|].
    split; [econstructor; eauto | exact H].
  - destruct (rmatch r1 k st) as [x|] eqn:E.
    + injection H as ->. apply IH1 in E as (w & st' & H1 & P & E).
      exists w, st'. split; [exact H1|]. split; [now apply parses_alt_l | exact E].
    + apply IH2 in H as (w & st' & H1 & P & E').
      exists w, st'. split; [exact H1|]. split; [now apply parses_alt_r | exact E'].
  - eapply star_loop_sound; eauto.
  - destruct (rmatch r _ (clear r st)) as [x|] eqn:E.
    + injection H as ->. apply IH in E as (w & st' & H1 & P & E).
      destruct (same_pos st' st) eqn:Sp; [discriminate|].
      cbn [clear rest caps] in H1, P.
      exists w, st'. split; [exact H1|]. split; [|exact E].
      apply parses_opt_some; [eapply same_pos_false; eauto | exact P].
    + exists [], st. split; [reflexivity|]. split; [constructor | exact H].
  - apply IH in H as (w & st' & H1 & P & H).
    eexists w, _. split; [|split; [|exact H]].
    + cbn [rest]. exact H1.
    + cbn [caps]. rewrite H1, firstn_consumed. now constructor.
Qed.

Lemma match_here_parses (r : regex) (s : jsstring) (f : mstate) :
  match_here r s = Some f ->
  exists w, s = w ++ rest f /\ parses r w [] (caps f).
Proof.
  unfold match_here. intros H.
  apply rmatch_sound in H as (w & st' & H1 & P & [= <-]).
  now exists w.
Qed.

(** Inversions. *)

Lemma parses_Lit (l w : jsstring) (c c' : list (nat * jsstring)) :
  parses (Lit l) w c c' -> w = l /\ c' = c.
Proof.
  revert w c c'; induction l as [|x l IH]; intros w c c' H; cbn [Lit] in H.
  - inversion H; subst. auto.
  - inversion H as [| |? ? w1 w2 ? c1 ? P1 P2| | | | | | |]; subst.
    inversion P1; subst. apply IH in P2 as [-> ->].
    match goal with E : N.eqb _ _ = true |- _ => apply N.eqb_eq in E; subst end.
    auto.
Qed.

Lemma clear_caps_groupfree (r : regex) (c : list (nat * jsstring)) :
  groups_of r = [] -> clear_caps r c = c.
Proof.
  intros H. unfold clear_caps. now rewrite clear_groupfree.
Qed.

Lemma parses_star_chr (g : bool) (p : char -> bool) (w : jsstring)
    (c c' : list (nat * jsstring)) :
  parses (Star g (Chr p)) w c c' -> forallb p w = true /\ c' = c.
Proof.
  intros H. remember (Star g (Chr p)) as r eqn:E.
  induction H as [| | | | | |g' r' w1 w2 c0 c1 c2 Hne P1 _ P2 IH| | |];
    try discriminate.
  - auto.
  - injection E as -> ->. specialize (IH eq_refl) as [Hw ->].
    rewrite clear_caps_groupfree in P1 by reflexivity.
    inversion P1; subst. cbn [app forallb].
    match goal with E : p _ = true |- _ => rewrite E end. auto.
Qed.

Lemma parses_plus_chr (g : bool) (p : char -> bool) (w : jsstring)
    (c c' : list (nat * jsstring)) :
  parses (Plus g (Chr p)) w c c' -> w <> [] /\ forallb p w = true /\ c' = c.
Proof.
  unfold Plus. intros H.
  inversion H as [| |? ? w1 w2 ? c1 ? P1 P2| | | | | | |]; subst.
  inversion P1; subst. apply parses_star_chr in P2 as [Hw ->].
  cbn [app forallb]. split; [discriminate|].
  match goal with E : p _ = true |- _ => rewrite E end. auto.
Qed.

Lemma parses_Seq (r1 r2 : regex) (w : jsstring) (c c' : list (nat * jsstring)) :
  parses (Seq r1 r2) w c c' ->
  exists w1 w2 c1, w = w1 ++ w2 /\ parses r1 w1 c c1 /\ parses r2 w2 c1 c'.
Proof. intros H. inversion H; subst. eauto 6. Qed.

Lemma parses_Alt (r1 r2 : regex) (w : jsstring) (c c' : list (nat * jsstring)) :
  parses (Alt r1 r2) w c c' -> parses r1 w c c' \/ parses r2 w c c'.
Proof. intros H. inversion H; subst; auto. Qed.

Lemma parses_Group (n : nat) (r : regex) (w : jsstring)
    (c c' : list (nat * jsstring)) :
  parses (Group n r) w c c' -> exists c1, parses r w c c1 /\ c' = (n, w) :: c1.
Proof. intros H. inversion H; subst. eauto. Qed.

Lemma trimStart_blanks (ws : jsstring) (x : char) (t : jsstring) :
  blank ws -> is_space x = false -> trimStart (ws ++ x :: t) = x :: t.
Proof.
  unfold blank. induction ws as [|c ws IH]; intros Hws Hx.
  - cbn [app trimStart]. now rewrite Hx.
  - cbn [forallb] in Hws. apply andb_true_iff in Hws as [Hc Hws].
    cbn [app trimStart]. rewrite Hc. now apply IH.
Qed.

Lemma trimStart_nonspace (s : jsstring) :
  forallb cls_S s = true -> trimStart s = s.
Proof.
  destruct s as [|c s]; [reflexivity|]. cbn [forallb trimStart]. unfold cls_S.
  intros H. apply andb_true_iff in H as [Hc _]. apply negb_true_iff in Hc.
  now rewrite Hc.
Qed.

Lemma forallb_rev {A : Type} (f : A -> bool) (l : list A) :
  forallb f (rev l) = forallb f l.
Proof.
  induction l as [|x l IH]; [reflexivity|]. cbn [rev forallb].
  rewrite forallb_app, IH. cbn [forallb]. rewrite andb_true_r. apply andb_comm.
Qed.

Lemma trim_nonspace (s : jsstring) : forallb cls_S s = true -> trim s = s.
Proof.
  intros H. unfold trim, trimEnd. rewrite (trimStart_nonspace s H).
  rewrite trimStart_nonspace by (now rewrite forallb_rev).
  apply rev_involutive.
Qed.

(** The shape of a match of [markerRe]. *)
Lemma markerRe_shape (s : jsstring) (f : mstate) :
  match_here markerRe s = Some f ->
  exists ws1 k ws2 ws3 p sy ws4,
    s = marker_text ws1 k ws2 ws3 p sy ws4 ++ rest f /\
    caps f = [(3, sy); (2, p); (1, tag_of k)] /\
    blank ws1 /\ blank ws2 /\ blank ws3 /\ blank ws4 /\
    p <> [] /\ mem (chr "#") p = false /\
    sy <> [] /\ forallb cls_S sy = true.
Proof.
  intros H. apply match_here_parses in H as (w & Hs & P).
  unfold markerRe in P. cbn [Seqs] in P.
  apply parses_Seq in P as (a1 & w1 & c1 & -> & P1 & P).
  apply parses_Lit in P1 as [-> ->].
  apply parses_Seq in P as (a2 & w2 & c2 & -> & P2 & P).
  apply parses_star_chr in P2 as [B1 ->].
  apply parses_Seq in P as (a3 & w3 & c3 & -> & P3 & P).
  apply parses_Group in P3 as (c3' & P3 & ->).
  apply parses_Seq in P as (a4 & w4 & c4 & -> & P4 & P).
  apply parses_star_chr in P4 as [B2 ->].
  apply parses_Seq in P as (a5 & w5 & c5 & -> & P5 & P).
  apply parses_Lit in P5 as [-> ->].
  apply parses_Seq in P as (a6 & w6 & c6 & -> & P6 & P).
  apply parses_star_chr in P6 as [B3 ->].
  apply parses_Seq in P as (a7 & w7 & c7 & -> & P7 & P).
  apply parses_Group in P7 as (c7' & P7 & ->).
  apply parses_plus_chr in P7 as (N7 & F7 & ->).
  apply parses_Seq in P as (a8 & w8 & c8 & -> & P8 & P).
  apply parses_Lit in P8 as [-> ->].
  apply parses_Seq in P as (a9 & w9 & c9 & -> & P9 & P).
  apply parses_Group in P9 as (c9' & P9 & ->).
  apply parses_plus_chr in P9 as (N9 & F9 & ->).
  apply parses_Seq in P as (a10 & w10 & c10 & -> & P10 & P).
  apply parses_star_chr in P10 as [B4 ->].
  apply parses_Lit in P as [-> Hc].
  assert (Hk : exists k, a3 = tag_of k /\ c3' = []).
  { apply parses_Alt in P3 as [Pl|Pr].
    - apply parses_Lit in Pl as [-> ->]. now exists ts.
    - apply parses_Lit in Pr as [-> ->]. now exists cs. }
  destruct Hk as (k & -> & ->).
  exists a2, k, a4, a6, a7, a9, a10.
  split; [|split; [exact Hc|]].
  - rewrite Hs. unfold marker_text. now rewrite <- !app_assoc.
  - repeat split; auto.
    clear - F7. unfold mem. induction a7 as [|x a IH]; [reflexivity|].
    cbn [forallb existsb] in *. apply andb_true_iff in F7 as [Hx Ha].
    rewrite (IH Ha), orb_false_r.
    unfold none_of, mem in Hx. change (str "#") with [chr "#"] in Hx.
    cbn [existsb] in Hx. rewrite orb_false_r in Hx.
    apply negb_true_iff in Hx. now rewrite N.eqb_sym.
Qed.

Lemma exec_from_marker (content : jsstring) (from : nat) (m : RegExpMatch) :
  exec_from markerRe content from = Some m ->
  from_marker content (marker_of m).
Proof.
  unfold exec_from. destruct (Nat.leb from (List.length content)) eqn:L;
    [|discriminate].
  apply Nat.leb_le in L. intros H.
  apply search_found in H as (pre & s' & f & Hsk & Hm & ->).
  apply markerRe_shape in Hm
    as (ws1 & k & ws2 & ws3 & p & sy & ws4 & Hs & Hc & B1 & B2 & B3 & B4
        & Np & Fp & Ns & Fs).
  assert (Hmatched : matched (found (from + List.length pre) s' f)
                     = marker_text ws1 k ws2 ws3 p sy ws4).
  { unfold found. cbn [matched]. rewrite Hs. apply firstn_consumed. }
  assert (Hkind : om_kind (marker_of (found (from + List.length pre) s' f)) = k).
  { unfold marker_of, found, group. cbn [om_kind groups]. rewrite Hc.
    cbn [lookup Nat.eqb]. destruct k; reflexivity. }
  assert (Hsym : om_symbolName (marker_of (found (from + List.length pre) s' f))
                 = sy).
  { unfold marker_of, found, group. cbn [om_symbolName groups]. rewrite Hc.
    cbn [lookup Nat.eqb]. now apply trim_nonspace. }
  exists (firstn from content ++ pre), ws1, ws2, ws3, p, ws4, (rest f).
  rewrite Hkind, Hsym.
  split; [|split; [|split; [|split]]].
  - rewrite <- (firstn_skipn from content) at 1. rewrite Hsk, Hs.
    now rewrite <- !app_assoc.
  - unfold marker_of, found. cbn [om_index index].
    rewrite length_app, length_firstn. lia.
  - unfold marker_of. cbn [om_length]. now rewrite Hmatched.
  - unfold marker_of, found, group. cbn [om_sourcePath groups]. rewrite Hc.
    reflexivity.
  - repeat split; auto.
Qed.

Lemma scan_markers_from_marker (content : jsstring) (fuel from : nat)
    (ms : list OpenMarker) :
  scan_markers fuel content from = Some ms -> Forall (from_marker content) ms.
Proof.
  revert from ms; induction fuel as [|fuel IH]; intros from ms; cbn [scan_markers];
    [discriminate|].
  destruct (exec_from markerRe content from) as [m|] eqn:E;
    [|intros [= <-]; constructor].
  destruct (scan_markers fuel content (index m + List.length (matched m)))
    as [ms'|] eqn:E'; [|discriminate].
  intros [= <-]. constructor; [eapply exec_from_marker; eauto | eapply IH; eauto].
Qed.

End ParseFacts.

(** X13.  Every directive comes from a marker of the text: at its start
    offset stand the comment opener, the tag of its kind, a colon, a path, a
    hash sign, its symbol and the comment closer, with optional blanks
    around the tag, the colon, the path and before the closer.  The path as
    written is not empty and has no hash sign, and the stored path is the
    written one without the blanks around it; the symbol is not empty and
    has no blank in it. *)
Theorem directive_comes_from_marker (content : jsstring) :
  Forall (fun d =>
            exists before ws1 ws2 ws3 p ws4 after,
              content
              = before ++ marker_text ws1 (kind d) ws2 ws3 p (symbolName d) ws4
                  ++ after /\
              Z.of_nat (List.length before) = startIndex d /\
              sourcePath d = trim p /\
              blank ws1 /\ blank ws2 /\ blank ws3 /\ blank ws4 /\
              p <> [] /\ mem (chr "#") p = false /\
              symbolName d <> [] /\ forallb cls_S (symbolName d) = true)
         (findDirectives content).
Proof.
  unfold findDirectives.
  pose proof (ParseFacts.scan_markers_from_marker content _ _ _
                (ScanFacts.openMarkers_scan content)) as H.
  induction H as [|m ms Hm _ IH]; cbn [second_pass]; constructor; [|exact IH].
  destruct Hm as (before & ws1 & ws2 & ws3 & p & ws4 & after & Hc & Hi & _ & Hp
                  & B1 & B2 & B3 & B4 & Np & Fp & Ns & Fs).
  exists before, ws1, ws2, ws3, p, ws4, after.
  unfold directive_of. cbn [kind symbolName startIndex sourcePath].
  repeat split; auto.
Qed.

Module MarkerFacts.
Import JsFacts RegexFacts ItemFacts ParseFacts.

Lemma run_items_text (l : jsstring) (more : list Item) (t : jsstring) :
  run_items (Text l :: more) (l ++ t) = run_items more t.
Proof.
  cbn [run_items].
  assert (H : startsWith (l ++ t) l = true) by (apply startsWith_app; now exists t).
  rewrite H, skipn_app, skipn_all, Nat.sub_diag. reflexivity.
Qed.

Lemma run_items_blanks (ws : jsstring) (more : list Item) (x : char)
    (t : jsstring) :
  blank ws -> is_space x = false ->
  run_items (Blanks :: more) (ws ++ x :: t) = run_items more (x :: t).
Proof. intros Hw Hx. cbn [run_items]. now rewrite trimStart_blanks. Qed.

Lemma run_items_blanks_text (ws l : jsstring) (more : list Item) (t : jsstring) :
  blank ws -> needs_nonspace [Text l] = true ->
  run_items (Blanks :: Text l :: more) (ws ++ l ++ t) = run_items more t.
Proof.
  intros Hw Hl. destruct l as [|c l]; [discriminate|].
  cbn [needs_nonspace] in Hl. apply negb_true_iff in Hl.
  rewrite <- app_comm_cons, run_items_blanks by assumption.
  rewrite app_comm_cons. apply run_items_text.
Qed.

Lemma run_items_blanks_texts (ws p l : jsstring) (more : list Item)
    (t : jsstring) :
  blank ws -> needs_nonspace [Text p; Text l] = true ->
  run_items (Blanks :: Text p :: Text l :: more) (ws ++ p ++ l ++ t)
  = run_items more t.
Proof.
  intros Hw Hl. destruct p as [|c p].
  - cbn [app needs_nonspace] in *. destruct l as [|c l]; [discriminate|].
    apply negb_true_iff in Hl.
    rewrite <- app_comm_cons, run_items_blanks by assumption.
    etransitivity; [exact (run_items_text [] _ _)|].
    rewrite app_comm_cons. apply run_items_text.
  - rewrite run_items_blanks_text by (assumption || exact Hl).
    apply run_items_text.
Qed.

(** The pattern of a directive reads a marker whose path is written as it
    is stored. *)
Lemma run_items_marker (d : EmbedDirective) (x ws1 ws2 ws3 ws4 after : jsstring) :
  sourcePath d = trim x ->
  blank ws1 -> blank ws2 -> blank ws3 -> blank ws4 ->
  run_items (openMarkerItems d)
    (marker_text ws1 (kind d) ws2 ws3 (sourcePath d) (symbolName d) ws4 ++ after)
  = Some after.
Proof.
  intros Hx B1 B2 B3 B4. unfold openMarkerItems, marker_text.
  rewrite <- !app_assoc. rewrite run_items_text.
  rewrite run_items_blanks_text by (assumption || (destruct (kind d); reflexivity)).
  rewrite run_items_blanks_text by (assumption || reflexivity).
  rewrite run_items_blanks_texts.
  - rewrite run_items_text.
    rewrite run_items_blanks_text by (assumption || reflexivity). reflexivity.
  - assumption.
  - cbn [needs_nonspace]. destruct (sourcePath d) as [|c p]; [reflexivity|].
    symmetry in Hx. apply trim_head in Hx. now rewrite Hx.
Qed.

End MarkerFacts.

(** X14.  A directive whose marker holds its path as it is stored, that
    is with no blank between the path and the hash sign, is matched by its
    own pattern where it stands, over its marker and no further. *)
Theorem plain_marker_is_rematched (content : jsstring) (d : EmbedDirective)
    (before ws1 ws2 ws3 ws4 after : jsstring) :
  In d (findDirectives content) ->
  content
  = before ++ marker_text ws1 (kind d) ws2 ws3 (sourcePath d) (symbolName d) ws4
      ++ after ->
  Z.of_nat (List.length before) = startIndex d ->
  blank ws1 -> blank ws2 -> blank ws3 -> blank ws4 ->
  exec (openMarkerRe d) (substring_from content (startIndex d))
  = Some {| index := 0;
            matched := marker_text ws1 (kind d) ws2 ws3 (sourcePath d)
                         (symbolName d) ws4;
            groups := [] |} /\
  own_marker_matched content
    (startIndex d
     + Js.length (marker_text ws1 (kind d) ws2 ws3 (sourcePath d)
                    (symbolName d) ws4)) d = true.
Proof.
  intros Hin Hc Hi B1 B2 B3 B4.
  pose proof (ItemFacts.findDirectives_trimmed content) as Ht.
  rewrite Forall_forall in Ht. destruct (Ht d Hin) as [x Hx].
  set (M := marker_text ws1 (kind d) ws2 ws3 (sourcePath d) (symbolName d) ws4)
    in *.
  assert (Hsub : substring_from content (startIndex d) = M ++ after).
  { rewrite JsFacts.substring_from_in_range.
    - rewrite <- Hi, Nat2Z.id, Hc, skipn_app, skipn_all, Nat.sub_diag.
      reflexivity.
    - rewrite <- Hi, Hc. unfold Js.length. rewrite length_app. lia. }
  assert (Hex : exec (openMarkerRe d) (substring_from content (startIndex d))
                = Some {| index := 0; matched := M; groups := [] |}).
  { rewrite Hsub, ItemFacts.openMarkerRe_items. unfold exec.
    assert (Hm : match_here (Seqs (map item_regex (openMarkerItems d))) (M ++ after)
                 = Some {| rest := after; caps := [] |}).
    { unfold match_here.
      rewrite ItemFacts.rmatch_items
        by (eapply ItemFacts.openMarkerItems_delimited; exact Hx).
      cbn [rest caps]. unfold M.
      now rewrite (MarkerFacts.run_items_marker d x) by assumption. }
    destruct (M ++ after) as [|c t] eqn:E; cbn [search]; rewrite Hm;
      unfold found; cbn [rest]; f_equal; f_equal;
      rewrite <- E, length_app, Nat.add_sub;
      now rewrite firstn_app, firstn_all, Nat.sub_diag, firstn_O, app_nil_r. }
  split; [exact Hex|].
  unfold own_marker_matched. rewrite Hex. cbn [index matched Nat.eqb andb].
  apply Z.leb_le. lia.
Qed.

(** The marker of the first directive of [Samples.twoResolved] is written
    with one blank after the opener, after the colon and before the
    closer. *)
Lemma plain_marker_is_rematched_witness :
  own_marker_matched Samples.twoResolved 29 Samples.firstResolved = true.
Proof.
  assert (Hin : In Samples.firstResolved (findDirectives Samples.twoResolved))
    by (vm_compute; left; reflexivity).
  refine (proj2 (plain_marker_is_rematched Samples.twoResolved
                   Samples.firstResolved [] (str " ") [] (str " ") (str " ")
                   (skipn 29 Samples.twoResolved) Hin _ _ _ _ _ _));
    vm_compute; reflexivity.
Defined.
(** C3.  For the marker [m] of a document, with the markers [post] that
    come after it: [m] is an opening marker that stands in the text at
    offset [om_index m] and is [om_length m] long, and the directive built
    for it is the one [findDirectives] returns at that position.  Its closing
    tag, [<!-- /ts-embed -->] or [<!-- /cs-embed -->] by its kind, is looked
    for from the end of the marker to the start of the next marker (the end
    of the text for the last marker): [endIndex] is [-1] exactly when the
    tag does not occur wholly inside that window, and otherwise is the end
    of the first occurrence in the window, which ends no later than the next
    marker starts. *)
Theorem close_tag_within_window (content : jsstring) (pre : list OpenMarker)
    (m : OpenMarker) (post : list OpenMarker) :
  openMarkers content = pre ++ m :: post ->
  let tag := match om_kind m with
             | ts => str "<!-- /ts-embed -->"
             | cs => str "<!-- /cs-embed -->"
             end in
  let lo := (om_index m + om_length m)%Z in
  let hi := match post with
            | m' :: _ => om_index m'
            | [] => Js.length content
            end in
  let d := directive_of content m (hd_error post) in
  from_marker content m /\
  nth_error (findDirectives content) (List.length pre) = Some d /\
  startIndex d = om_index m /\
  kind d = om_kind m /\
  (0 <= om_index m)%Z /\ (om_index m < lo <= hi)%Z /\
  (hi <= Js.length content)%Z /\
  ((endIndex d = (-1)%Z /\
    forall p, (lo <= p)%Z -> (p + Js.length tag <= hi)%Z ->
              ~ occurs_at content tag p)
   \/
   (exists p, (lo <= p)%Z /\
              endIndex d = (p + Js.length tag)%Z /\
              (endIndex d <= hi)%Z /\
              occurs_at content tag p /\
              forall p', (lo <= p' < p)%Z -> ~ occurs_at content tag p')).
Proof.
  intros Hms tag lo hi d.
  pose proof (openMarkers_chain content) as Hc. rewrite Hms in Hc.
  apply chain_window in Hc as (Hi & Hl & Hw & _); [|lia].
  assert (Ht : closeTag (om_kind m) = tag)
    by (subst tag; destruct (om_kind m); reflexivity).
  change (windowEnd content post) with hi in Hw.
  change (searchStart m) with lo in Hw.
  split.
  { pose proof (ParseFacts.scan_markers_from_marker content _ _ _
                  (openMarkers_scan content)) as Hall.
    rewrite Hms in Hall. apply Forall_app in Hall as [_ Hall].
    now inversion Hall. }
  split. { unfold findDirectives. rewrite Hms. apply second_pass_nth. }
  split; [reflexivity|]. split; [reflexivity|].
  split; [exact Hi|]. split; [subst lo; lia|]. split; [lia|].
  pose proof (directive_window content m post) as Hd.
  cbv zeta in Hd. rewrite Ht in Hd.
  change (windowEnd content post) with hi in Hd.
  change (searchStart m) with lo in Hd.
  apply Hd; lia.
Qed.

(** On [WindowSamples.lateClose] the first marker has no closing tag before
    the second marker starts, so its directive has [endIndex = -1], although
    the tag of its kind stands later in the text, at offset 70, in the
    window of the second marker, whose directive ends at 88. *)
Lemma close_tag_within_window_witness :
  openMarkers WindowSamples.lateClose
  = [] ++ WindowSamples.first :: [WindowSamples.second] /\
  findDirectives WindowSamples.lateClose
  = [WindowSamples.firstDirective; WindowSamples.secondDirective] /\
  occurs_at WindowSamples.lateClose (str "<!-- /cs-embed -->") 70 /\
  (forall p, (29 <= p)%Z -> (p + 18 <= 30)%Z ->
             ~ occurs_at WindowSamples.lateClose (str "<!-- /cs-embed -->") p) /\
  (exists p, (65 <= p)%Z /\ (88 = p + 18)%Z /\
             occurs_at WindowSamples.lateClose (str "<!-- /cs-embed -->") p).
Proof.
  assert (H : openMarkers WindowSamples.lateClose
              = [] ++ WindowSamples.first :: [WindowSamples.second])
    by (vm_compute; reflexivity).
  assert (H' : openMarkers WindowSamples.lateClose
               = [WindowSamples.first] ++ WindowSamples.second :: [])
    by (vm_compute; reflexivity).
  split; [exact H|]. split; [vm_compute; reflexivity|].
  split; [split; [lia | vm_compute; reflexivity]|].
  pose proof (close_tag_within_window _ _ _ _ H) as A.
  pose proof (close_tag_within_window _ _ _ _ H') as B.
  cbv zeta in A, B.
  cbv beta iota delta [om_kind om_index om_length WindowSamples.first
                       WindowSamples.second] in A, B.
  assert (L : Js.length (str "<!-- /cs-embed -->") = 18%Z) by reflexivity.
  rewrite L in A, B.
  destruct A as (_ & _ & _ & _ & _ & _ & _ & A).
  destruct B as (_ & _ & _ & _ & _ & _ & _ & B).
  split.
  - destruct A as [[_ A]|(p & Hp & E & _)].
    + intros p Hp1 Hp2. apply A; lia.
    + exfalso.
      match type of E with
      | endIndex ?d = _ =>
          assert (E1 : endIndex d = (-1)%Z) by (vm_compute; reflexivity)
      end.
      rewrite E1 in E. lia.
  - destruct B as [[E _]|(p & Hp & E & _ & Ho & _)].
    + exfalso. vm_compute in E. discriminate E.
    + exists p. split; [lia|]. split; [|exact Ho].
      match type of E with
      | endIndex ?d = _ =>
          assert (E1 : endIndex d = 88%Z) by (vm_compute; reflexivity)
      end.
      rewrite E1 in E. exact E.
Defined.
(** * The caches and the command line program *)

Module CacheFacts.
Import JsFacts.

Lemma eqs_refl (a : jsstring) : eqs a a = true.
Proof. induction a as [|x a IH]; [reflexivity|]. cbn [eqs]. now rewrite N.eqb_refl. Qed.

Lemma env_at_same (base : Env) (w w' : World) :
  fs w' = fs w -> env_at base w' = env_at base w.
Proof. intros H. unfold env_at. now rewrite H. Qed.

(** The cached readers never change the files. *)
Lemma getTsSourceFile_fs (base : Env) (w : World) (p : jsstring) :
  fs (snd (Cached.getTsSourceFile base w p)) = fs w.
Proof.
  unfold Cached.getTsSourceFile. destruct (map_get _ _); [reflexivity|].
  destruct (negb _); [reflexivity|].
  destruct (Cached.readFileSync w p); reflexivity.
Qed.

Lemma getCsSource_fs (base : Env) (w : World) (p : jsstring) :
  fs (snd (Cached.getCsSource base w p)) = fs w.
Proof.
  unfold Cached.getCsSource. destruct (map_get _ _); [reflexivity|].
  destruct (negb _); [reflexivity|].
  destruct (Cached.readFileSync w p); reflexivity.
Qed.

Lemma resolveEmbed_fs (base : Env) (w : World) (d : EmbedDirective)
    (md : jsstring) :
  fs (snd (Cached.resolveEmbed base w d md)) = fs w.
Proof.
  unfold Cached.resolveEmbed. destruct (negb _); [reflexivity|].
  destruct (kind d).
  - unfold Cached.extractTsSymbol.
    pose proof (getTsSourceFile_fs base w
                  (path_resolve base (path_dirname base md) (sourcePath d))) as H.
    destruct (Cached.getTsSourceFile base w _) as [[[sf|]|q] w']; cbn [snd] in *.
    + destruct (extractTsSymbol_in sf (symbolName d)); exact H.
    + exact H.
    + exact H.
  - unfold Cached.extractCsSymbol.
    pose proof (getCsSource_fs base w
                  (path_resolve base (path_dirname base md) (sourcePath d))) as H.
    destruct (Cached.getCsSource base w _) as [[[s|]|q] w']; cbn [snd] in *.
    + destruct (extractCsSymbol_in s (symbolName d)); exact H.
    + exact H.
    + exact H.
Qed.

Lemma embed_round_fs (base : Env) (md : jsstring)
    (acc : jsstring * list ErrorReport) (w : World) (d : EmbedDirective) :
  fs (snd (Cached.embed_round base md acc w d)) = fs w.
Proof.
  destruct acc as [result errs]. unfold Cached.embed_round.
  pose proof (resolveEmbed_fs base w d md) as H.
  destruct (Cached.resolveEmbed base w d md) as [[r|q] w']; cbn [snd] in *;
    [|exact H].
  destruct (has_error r); [exact H|].
  destruct (exec _ _); exact H.
Qed.

Lemma embed_rounds_fs (base : Env) (md : jsstring) (ds : list EmbedDirective) :
  forall acc w, fs (snd (Cached.embed_rounds base md ds acc w)) = fs w.
Proof.
  induction ds as [|d ds IH]; intros acc w; [reflexivity|].
  cbn [Cached.embed_rounds].
  pose proof (embed_round_fs base md acc w d) as H.
  destruct (Cached.embed_round base md acc w d) as [[acc'|q] w']; cbn [snd] in *.
  - now rewrite IH.
  - exact H.
Qed.

Lemma applyEmbeds_fs (base : Env) (w : World) (content md : jsstring) :
  fs (snd (Cached.applyEmbeds base w content md)) = fs w.
Proof.
  unfold Cached.applyEmbeds. destruct (Nat.eqb _ 0); [reflexivity|].
  apply embed_rounds_fs.
Qed.

(** With coherent caches the cached readers end as the plain ones end, and
    leave the caches coherent. *)
Lemma getTsSourceFile_coherent (base : Env) (w : World) (p : jsstring) :
  coherent base w ->
  fst (Cached.getTsSourceFile base w p) = getTsSourceFile (env_at base w) p /\
  coherent base (snd (Cached.getTsSourceFile base w p)).
Proof.
  intros [Ht Hc].
  unfold Cached.getTsSourceFile, getTsSourceFile, Cached.existsSync, existsSync,
    Cached.readFileSync, readFileSync.
  cbn [files unreadable env_at createSourceFile].
  destruct (map_get p (tsFileCache w)) as [sf|] eqn:E.
  - destruct (Ht p sf E) as (source & Hs & ->). rewrite Hs. cbn [fst snd negb].
    split; [reflexivity | now split].
  - destruct (fs w p) as [source|] eqn:F; cbn [negb].
    + cbn [fst snd]. split; [reflexivity|].
      split; cbn [fs tsFileCache csFileCache]; [|exact Hc].
      intros q sf. cbn [map_get]. destruct (eqs q p) eqn:Q.
      * apply eqs_eq in Q. subst q. intros [= <-]. now exists source.
      * apply Ht.
    + destruct (unreadable base p); cbn [negb fst snd];
        (split; [reflexivity | now split]).
Qed.

Lemma getCsSource_coherent (base : Env) (w : World) (p : jsstring) :
  coherent base w ->
  fst (Cached.getCsSource base w p) = getCsSource (env_at base w) p /\
  coherent base (snd (Cached.getCsSource base w p)).
Proof.
  intros [Ht Hc].
  unfold Cached.getCsSource, getCsSource, Cached.existsSync, existsSync,
    Cached.readFileSync, readFileSync.
  cbn [files unreadable env_at].
  destruct (map_get p (csFileCache w)) as [s|] eqn:E.
  - rewrite (Hc p s E). cbn [fst snd negb]. split; [reflexivity | now split].
  - destruct (fs w p) as [source|] eqn:F; cbn [negb].
    + cbn [fst snd]. split; [reflexivity|].
      split; cbn [fs tsFileCache csFileCache]; [exact Ht|].
      intros q s. cbn [map_get]. destruct (eqs q p) eqn:Q.
      * apply eqs_eq in Q. subst q. now intros [= <-].
      * apply Hc.
    + destruct (unreadable base p); cbn [negb fst snd];
        (split; [reflexivity | now split]).
Qed.

Lemma resolveEmbed_coherent (base : Env) (w : World) (d : EmbedDirective)
    (md : jsstring) :
  coherent base w ->
  fst (Cached.resolveEmbed base w d md) = resolveEmbed (env_at base w) d md /\
  coherent base (snd (Cached.resolveEmbed base w d md)).
Proof.
  intros Hw. unfold Cached.resolveEmbed, resolveEmbed.
  change (existsSync (env_at base w)) with (Cached.existsSync base w).
  cbn [env_at path_dirname path_resolve].
  set (abs := path_resolve base (path_dirname base md) (sourcePath d)).
  destruct (negb (Cached.existsSync base w abs)); [now split|].
  destruct (kind d).
  - unfold Cached.extractTsSymbol, extractTsSymbol.
    destruct (getTsSourceFile_coherent base w abs Hw) as [H1 H2].
    destruct (Cached.getTsSourceFile base w abs) as [[[sf|]|q] w'];
      cbn [fst snd] in *; rewrite <- H1.
    + destruct (extractTsSymbol_in sf (symbolName d)); now split.
    + now split.
    + now split.
  - unfold Cached.extractCsSymbol, extractCsSymbol.
    destruct (getCsSource_coherent base w abs Hw) as [H1 H2].
    destruct (Cached.getCsSource base w abs) as [[[s|]|q] w'];
      cbn [fst snd] in *; rewrite <- H1.
    + destruct (extractCsSymbol_in s (symbolName d)); now split.
    + now split.
    + now split.
Qed.

Lemma embed_round_coherent (base : Env) (md : jsstring)
    (acc : jsstring * list ErrorReport) (w : World) (d : EmbedDirective) :
  coherent base w ->
  fst (Cached.embed_round base md acc w d)
  = embed_round (env_at base w) md acc d /\
  coherent base (snd (Cached.embed_round base md acc w d)).
Proof.
  intros Hw. destruct acc as [result errs].
  unfold Cached.embed_round, embed_round.
  destruct (resolveEmbed_coherent base w d md Hw) as [H1 H2].
  destruct (Cached.resolveEmbed base w d md) as [[r|q] w']; cbn [fst snd] in *;
    rewrite <- H1; [|now split].
  destruct (has_error r); [now split|].
  destruct (exec _ _); now split.
Qed.

Lemma embed_rounds_coherent (base : Env) (md : jsstring)
    (ds : list EmbedDirective) :
  forall (acc : jsstring * list ErrorReport) (w : World),
    coherent base w ->
    fst (Cached.embed_rounds base md ds acc w)
    = embed_rounds (env_at base w) md ds acc /\
    coherent base (snd (Cached.embed_rounds base md ds acc w)).
Proof.
  induction ds as [|d ds IH]; intros acc w Hw; [now split|].
  cbn [Cached.embed_rounds embed_rounds].
  destruct (embed_round_coherent base md acc w d Hw) as [H1 H2].
  pose proof (embed_round_fs base md acc w d) as Hfs.
  destruct (Cached.embed_round base md acc w d) as [[acc'|q] w'];
    cbn [fst snd] in *; rewrite <- H1; [|now split].
  destruct (IH acc' w' H2) as [H3 H4].
  rewrite (env_at_same base w w' Hfs) in H3. now split.
Qed.

Lemma applyEmbeds_coherent (base : Env) (w : World) (content md : jsstring) :
  coherent base w ->
  fst (Cached.applyEmbeds base w content md)
  = applyEmbeds (env_at base w) content md /\
  coherent base (snd (Cached.applyEmbeds base w content md)).
Proof.
  intros Hw. unfold Cached.applyEmbeds, applyEmbeds.
  destruct (Nat.eqb _ 0); [now split|].
  now apply embed_rounds_coherent.
Qed.

End CacheFacts.

(** X15.  As long as every cached entry is what reading its file would
    give (as when nothing is cached yet), [applyEmbeds] with the caches ends
    as it ends without them, returning the same text and errors or throwing
    the same exception; it leaves the caches in that state and changes no
    file. *)
Theorem cache_is_transparent (base : Env) (w : World) (content md : jsstring) :
  coherent base w ->
  fst (Cached.applyEmbeds base w content md)
  = applyEmbeds (env_at base w) content md /\
  coherent base (snd (Cached.applyEmbeds base w content md)) /\
  fs (snd (Cached.applyEmbeds base w content md)) = fs w.
Proof.
  intros Hw. destruct (CacheFacts.applyEmbeds_coherent base w content md Hw)
    as [H1 H2].
  split; [exact H1|]. split; [exact H2 | apply CacheFacts.applyEmbeds_fs].
Qed.

Lemma cache_is_transparent_witness :
  fst (Cached.applyEmbeds Samples.env CliSamples.w0 Samples.twoDirectives Samples.md)
  = applyEmbeds (env_at Samples.env CliSamples.w0) Samples.twoDirectives Samples.md.
Proof.
  apply cache_is_transparent. split; intros p x H; discriminate H.
Defined.

(** X16.  A C# source that is cached is not read again: the declaration
    is extracted from the cached text whatever the file holds now, and no
    read can throw.  That the path exists is checked on the file system each
    time, so a cached file that is gone is reported as not found. *)
Theorem cached_source_is_not_read_again (base : Env) (w : World)
    (d : EmbedDirective) (md source : jsstring) :
  kind d = cs ->
  map_get (path_resolve base (path_dirname base md) (sourcePath d))
          (csFileCache w) = Some source ->
  let absSource := path_resolve base (path_dirname base md) (sourcePath d) in
  (Cached.existsSync base w absSource = false ->
   fst (Cached.resolveEmbed base w d md)
   = Normal {| directive := d; code := None;
               error := Some (str "File not found: " ++ absSource) |}) /\
  (Cached.existsSync base w absSource = true ->
   exists r, fst (Cached.resolveEmbed base w d md) = Normal r /\
             code r = extractCsSymbol_in source (symbolName d)) /\
  snd (Cached.resolveEmbed base w d md) = w.
Proof.
  intros Hk Hc absSource. unfold Cached.resolveEmbed.
  fold absSource. rewrite Hk. unfold Cached.extractCsSymbol, Cached.getCsSource.
  fold absSource in Hc. rewrite Hc.
  destruct (Cached.existsSync base w absSource); cbn [negb].
  - split; [discriminate|]. split.
    + intros _. destruct (extractCsSymbol_in source (symbolName d));
        eexists; split; reflexivity.
    + destruct (extractCsSymbol_in source (symbolName d)); reflexivity.
  - split; [reflexivity|]. split; [discriminate | reflexivity].
Qed.

(** In [CacheSamples.changed] the file holds [int b] but the cache still
    holds [int a], and that is what is extracted. *)
Lemma cached_source_is_not_read_again_witness :
  fs CacheSamples.changed (str "/docs/foo.cs") = Some (str "class Foo { int b; }") /\
  exists r,
    fst (Cached.resolveEmbed Samples.env CacheSamples.changed
           Samples.fooDirective Samples.md) = Normal r /\
    code r = Some (str "class Foo { int a; }").
Proof.
  split; [reflexivity|].
  destruct (cached_source_is_not_read_again Samples.env CacheSamples.changed
              Samples.fooDirective Samples.md Samples.fooSource
              eq_refl eq_refl) as (_ & H & _).
  destruct (H eq_refl) as (r & Hr & Hc). exists r. split; [exact Hr|].
  rewrite Hc. vm_compute. reflexivity.
Defined.

Module CliFacts.
Import JsFacts CacheFacts.

Lemma eqs_false (a b : jsstring) : eqs a b = false <-> a <> b.
Proof.
  split.
  - intros H E. apply eqs_eq in E. congruence.
  - intros H. destruct (eqs a b) eqn:E; [|reflexivity].
    apply eqs_eq in E. contradiction.
Qed.

Lemma existsb_eqs (f : jsstring) (s : list jsstring) :
  existsb (eqs f) s = true <-> In f s.
Proof.
  rewrite existsb_exists. split.
  - intros (x & Hx & E). apply eqs_eq in E. now subst.
  - intros H. exists f. split; [exact H | apply eqs_refl].
Qed.

Lemma set_add_In (f : jsstring) (s : list jsstring) (x : jsstring) :
  In x (Cli.set_add f s) <-> x = f \/ In x s.
Proof.
  unfold Cli.set_add. destruct (existsb (eqs f) s) eqn:E.
  - apply existsb_eqs in E. split; [auto|]. intros [->|H]; auto.
  - rewrite in_app_iff. cbn [In]. split; [intros [H|[H|[]]]; auto|].
    intros [->|H]; auto.
Qed.

Lemma NoDup_snoc (s : list jsstring) (f : jsstring) :
  NoDup s -> ~ In f s -> NoDup (s ++ [f]).
Proof.
  induction 1 as [|x s Hx Hs IH]; intros Hf; cbn [app].
  - constructor; [intros []|constructor].
  - constructor.
    + rewrite in_app_iff. cbn [In]. intros [H|[H|[]]]; [contradiction|].
      subst. apply Hf. now left.
    + apply IH. intros H. apply Hf. now right.
Qed.

Lemma set_add_NoDup (f : jsstring) (s : list jsstring) :
  NoDup s -> NoDup (Cli.set_add f s).
Proof.
  intros H. unfold Cli.set_add. destruct (existsb (eqs f) s) eqn:E; [exact H|].
  apply NoDup_snoc; [exact H|]. intros Hin. apply existsb_eqs in Hin. congruence.
Qed.

Lemma add_all (fs0 : list jsstring) :
  forall s, NoDup s ->
    NoDup (fold_left (fun s' f => Cli.set_add f s') fs0 s) /\
    forall x, In x (fold_left (fun s' f => Cli.set_add f s') fs0 s)
              <-> In x s \/ In x fs0.
Proof.
  induction fs0 as [|f fs0 IH]; intros s Hs; cbn [fold_left].
  - split; [exact Hs|]. intros x. cbn [In]. tauto.
  - destruct (IH (Cli.set_add f s) (set_add_NoDup f s Hs)) as [H1 H2].
    split; [exact H1|]. intros x. rewrite H2, set_add_In. cbn [In].
    split; [intros [[->|H]|H] | intros [H|[->|H]]]; auto.
Qed.

Lemma collect_spec (host : Host) (globs : list jsstring) :
  NoDup (Cli.collect host globs) /\
  forall x, In x (Cli.collect host globs)
            <-> exists g, In g globs /\ In x (glob host g).
Proof.
  unfold Cli.collect.
  assert (G : forall s, NoDup s ->
             NoDup (fold_left
                      (fun s0 g => fold_left (fun s' f => Cli.set_add f s')
                                     (glob host g) s0) globs s) /\
             forall x, In x (fold_left
                               (fun s0 g => fold_left (fun s' f => Cli.set_add f s')
                                              (glob host g) s0) globs s)
                       <-> In x s \/ exists g, In g globs /\ In x (glob host g)).
  { induction globs as [|g globs IH]; intros s Hs; cbn [fold_left].
    - split; [exact Hs|]. intros x. split; [auto|].
      intros [H|(g & [] & _)]; exact H.
    - destruct (add_all (glob host g) s Hs) as [H1 H2].
      destruct (IH _ H1) as [H3 H4]. split; [exact H3|].
      intros x. rewrite H4, H2. split.
      + intros [[H|H]|(g' & Hg & Hx)]; auto.
        * right. exists g. split; [now left | exact H].
        * right. exists g'. split; [now right | exact Hx].
      + intros [H|(g' & [<-|Hg] & Hx)]; auto.
        right. now exists g'. }
  destruct (G [] (NoDup_nil _)) as [H1 H2]. split; [exact H1|].
  intros x. rewrite H2. cbn [In]. tauto.
Qed.

(** What one round of the loop over the files does, however it ends. *)
Lemma file_round_step (base : Env) (host : Host) (st : Run) (p : jsstring) :
  let st' := loop_state (Cli.file_round base host st p) in
  (forall q, q <> p -> fs (world st') q = fs (world st) q) /\
  (forall q, fs (world st') q = None <-> fs (world st) q = None) /\
  exists new, trace st' = trace st ++ new /\ Forall (loop_event [p]) new.
Proof.
  cbv zeta. unfold Cli.file_round, Cached.readFileSync.
  assert (Triv : (forall q, q <> p -> fs (world st) q = fs (world st) q) /\
                 (forall q, fs (world st) q = None <-> fs (world st) q = None) /\
                 exists new, trace st = trace st ++ new /\
                             Forall (loop_event [p]) new).
  { split; [reflexivity|]. split; [reflexivity|]. exists [].
    now rewrite app_nil_r. }
  destruct (fs (world st) p) as [content|] eqn:F; [|exact Triv].
  destruct (Nat.eqb _ 0); [exact Triv|].
  pose proof (applyEmbeds_fs base (world st) content p) as Hfs.
  destruct (Cached.applyEmbeds base (world st) content p) as [[[out errs]|q] w];
    cbn [snd] in Hfs.
  - destruct (negb (eqs out content)); cbn [loop_state world trace].
    + split; [|split].
      * intros q Hq. unfold writeFileSync. cbn [fs].
        apply eqs_false in Hq. rewrite Hq. now rewrite Hfs.
      * intros q. unfold writeFileSync. cbn [fs].
        destruct (eqs q p) eqn:Q.
        -- apply eqs_eq in Q. subst q. rewrite F. split; discriminate.
        -- now rewrite Hfs.
      * eexists. rewrite <- app_assoc. split; [reflexivity|].
        repeat constructor.
    + split; [now rewrite Hfs|]. split; [now rewrite Hfs|].
      destruct (Nat.eqb (List.length errs) 0).
      * eexists. rewrite <- app_assoc. split; [reflexivity|]. repeat constructor.
      * eexists. split; [reflexivity|]. repeat constructor.
  - cbn [loop_state world trace]. split; [now rewrite Hfs|].
    split; [now rewrite Hfs|]. eexists. split; [reflexivity|].
    repeat constructor.
Qed.

Lemma loop_event_weaken (ps qs : list jsstring) (es : list Event) :
  (forall p, In p ps -> In p qs) ->
  Forall (loop_event ps) es -> Forall (loop_event qs) es.
Proof.
  intros H. apply Forall_impl. intros [l|l|l|p t|p]; cbn; auto.
Qed.

Lemma file_loop_inv (base : Env) (host : Host) (files : list jsstring) :
  forall st,
    let st' := loop_state (Cli.file_loop base host files st) in
    (forall q, ~ In q files -> fs (world st') q = fs (world st) q) /\
    (forall q, fs (world st') q = None <-> fs (world st) q = None) /\
    exists new, trace st' = trace st ++ new /\ Forall (loop_event files) new.
Proof.
  induction files as [|p files IH]; intros st; cbn [Cli.file_loop].
  - cbn [loop_state]. split; [reflexivity|]. split; [reflexivity|].
    exists []. now rewrite app_nil_r.
  - destruct (file_round_step base host st p) as (H1 & H2 & new1 & T1 & E1).
    cbv zeta in *.
    destruct (Cli.file_round base host st p) as [st1|st1 q] eqn:R;
      cbn [loop_state] in *.
    + destruct (IH st1) as (I1 & I2 & new2 & T2 & E2).
      cbv zeta in *. split; [|split].
      * intros q Hq. rewrite I1 by (intros H; apply Hq; now right).
        apply H1. intros ->. apply Hq. now left.
      * intros q. now rewrite I2.
      * exists (new1 ++ new2). rewrite T2, T1, app_assoc. split; [reflexivity|].
        apply Forall_app. split.
        -- eapply loop_event_weaken; [|exact E1]. intros x [<-|[]]. now left.
        -- eapply loop_event_weaken; [|exact E2]. intros x Hx. now right.
    + split; [|split].
      * intros x Hx. apply H1. intros ->. apply Hx. now left.
      * exact H2.
      * exists new1. split; [exact T1|].
        eapply loop_event_weaken; [|exact E1]. intros x [<-|[]]. now left.
Qed.



End CliFacts.

(** X17.  A file that several patterns match, or that one pattern yields
    twice, is gone through once: the files to process are the files that
    some pattern of the argument matches, each listed once. *)
Theorem files_are_collected_once (host : Host) :
  NoDup (matched_files host) /\
  forall p,
    In p (matched_files host)
    <-> exists patterns g,
          argv2 host = Some patterns /\ patterns <> [] /\
          In g (map trim (split_on (chr ",") patterns)) /\
          In p (glob host g).
Proof.
  unfold matched_files. destruct (argv2 host) as [[|c l]|].
  - split; [constructor|]. intros p. split; [intros []|].
    intros (ps & g & [= <-] & Hne & _). now apply Hne.
  - destruct (CliFacts.collect_spec host (map trim (split_on (chr ",") (c :: l))))
      as [H1 H2].
    split; [exact H1|]. intros p. rewrite H2. split.
    + intros (g & Hg & Hp). exists (c :: l), g. repeat split; auto. discriminate.
    + intros (ps & g & [= <-] & _ & Hg & Hp). now exists g.
  - split; [constructor|]. intros p. split; [intros []|].
    intros (ps & g & E & _). discriminate.
Qed.

(** X19.  The program changes no file other than those that its patterns
    match, creates no file and removes none, and writes only to matched
    files. *)
Theorem main_touches_matched_files_only (base : Env) (host : Host) (w : World) :
  let o := Cli.main base host w in
  (forall p, ~ In p (matched_files host) -> fs (final o) p = fs w p) /\
  (forall p, fs (final o) p = None <-> fs w p = None) /\
  (forall p text, In (WriteFile p text) (events o) -> In p (matched_files host)).
Proof.
  cbv zeta. unfold Cli.main, matched_files.
  destruct (argv2 host) as [[|c l]|].
  1,3: cbn [final events]; repeat split; auto; intros p t [H|[]]; discriminate.
  set (allFiles := Cli.collect host _).
  destruct (Nat.eqb (List.length allFiles) 0).
  { cbn [final events]. repeat split; auto. intros p t [H|[]]. discriminate. }
  destruct (CliFacts.file_loop_inv base host allFiles (run0 w))
    as (H1 & H2 & new & Hnew & Hev).
  cbv zeta in *. change (trace (run0 w)) with (@nil Event) in Hnew.
  change (world (run0 w)) with w in *.
  cbn [app] in Hnew. fold (run0 w).
  assert (Hw : forall p t, In (WriteFile p t) new -> In p allFiles).
  { intros p t Hin. rewrite Forall_forall in Hev. exact (Hev _ Hin). }
  destruct (Cli.file_loop base host allFiles (run0 w)) as [st|st q];
    cbn [loop_state] in *; cbn [final events]; rewrite Hnew;
    (split; [exact H1|]); (split; [exact H2|]); intros p t Hin;
    rewrite !in_app_iff in Hin.
  - destruct Hin as [Hin|[Hin|Hin]]; [now apply (Hw p t)| |].
    + exfalso. destruct (Nat.ltb 0 _); [|exact Hin].
      rewrite in_app_iff in Hin. destruct Hin as [Hin|Hin].
      * cbn in Hin. repeat destruct Hin as [Hin|Hin]; discriminate || contradiction.
      * apply in_concat in Hin as (es & Hes & Hin).
        apply in_map_iff in Hes as (e & <- & _).
        cbn in Hin. repeat destruct Hin as [Hin|Hin]; discriminate || contradiction.
    + exfalso. cbn in Hin. repeat destruct Hin as [Hin|Hin];
        discriminate || contradiction.
  - destruct Hin as [Hin|[Hin|[]]]; [now apply (Hw p t) | discriminate].
Qed.



(** * What the scanner finds *)

Module FindFacts.
Import JsFacts RegexFacts ScanFacts ItemFacts CsFacts ParseFacts.

(** Completeness of the matcher: when the pattern accepts a prefix of the
    input and the continuation succeeds after it, the matcher succeeds. *)
Lemma rmatch_complete (r : regex) (w : jsstring) (c c' : list (nat * jsstring)) :
  parses r w c c' ->
  forall (k : cont) (t : jsstring),
    k {| rest := t; caps := c' |} <> None ->
    rmatch r k {| rest := w ++ t; caps := c |} <> None.
Proof.
  induction 1 as [c|p x c Hp|r1 r2 w1 w2 c0 c1 c2 P1 IH1 P2 IH2
                 |r1 r2 w c0 c1 P IH|r1 r2 w c0 c1 P IH
                 |g r c|g r w1 w2 c0 c1 c2 Hne P1 IH1 P2 IH2
                 |r c|r w c0 c1 Hne P IH|n r w c0 c1 P IH];
    intros k t Hk.
  - exact Hk.
  - cbn [rmatch rest app caps]. now rewrite Hp.
  - cbn [rmatch]. rewrite <- app_assoc. apply IH1. now apply IH2.
  - cbn [rmatch]. specialize (IH k t Hk).
    destruct (rmatch r1 k _); [discriminate | contradiction].
  - cbn [rmatch]. specialize (IH k t Hk).
    destruct (rmatch r1 k _); [discriminate | exact IH].
  - cbn [rmatch star_loop rest app].
    destruct g.
    + destruct (rmatch r _ _); [discriminate | exact Hk].
    + destruct (k _); [discriminate | contradiction].
  - cbn [rmatch rest]. cbn [star_loop].
    set (st := {| rest := (w1 ++ w2) ++ t; caps := c0 |}).
    assert (Ha : rmatch r
                   (fun st' => if same_pos st' st then None
                               else star_loop g (rmatch r) (clear r) k
                                      (List.length ((w1 ++ w2) ++ t)) st')
                   (clear r st) <> None).
    { unfold clear, st. cbn [rest caps]. rewrite <- app_assoc.
      apply (IH1 _ (w2 ++ t)).
      unfold same_pos. cbn [rest].
      replace (Nat.eqb (List.length (w2 ++ t)) (List.length (w1 ++ w2 ++ t)))
        with false.
      - rewrite <- star_fuel_irrelevant; [now apply IH2|]. cbn [rest].
        rewrite !length_app. destruct w1; [contradiction|]. cbn [List.length]. lia.
      - symmetry. apply Nat.eqb_neq. rewrite !length_app.
        destruct w1; [contradiction|]. cbn [List.length]. lia. }
    destruct g.
    + destruct (rmatch r _ (clear r st)); [discriminate | contradiction].
    + destruct (k st); [discriminate | exact Ha].
  - cbn [rmatch rest app].
    destruct (rmatch r _ _); [discriminate | exact Hk].
  - cbn [rmatch].
    set (st := {| rest := w ++ t; caps := c0 |}).
    assert (Ha : rmatch r (fun st' => if same_pos st' st then None else k st')
                        (clear r st) <> None).
    { unfold clear, st. cbn [rest caps]. apply (IH _ t).
      unfold same_pos. cbn [rest].
      replace (Nat.eqb (List.length t) (List.length (w ++ t))) with false;
        [exact Hk|].
      symmetry. apply Nat.eqb_neq. rewrite length_app.
      destruct w; [contradiction|]. cbn [List.length]. lia. }
    destruct (rmatch r _ (clear r st)); [discriminate | contradiction].
  - cbn [rmatch]. apply IH. cbn [rest caps]. now rewrite firstn_consumed.
Qed.

Lemma lit_parses (l : jsstring) (c : list (nat * jsstring)) : parses (Lit l) l c c.
Proof.
  induction l as [|x l IH]; cbn [Lit]; [constructor|].
  change (x :: l) with ([x] ++ l). econstructor; [|exact IH].
  constructor. apply N.eqb_refl.
Qed.

Lemma parses_star_class (g : bool) (p : char -> bool) (w : jsstring)
    (c : list (nat * jsstring)) :
  forallb p w = true -> parses (Star g (Chr p)) w c c.
Proof.
  induction w as [|x w IH]; intros H; [constructor|].
  cbn [forallb] in H. apply andb_true_iff in H as [Hx Hw].
  change (x :: w) with ([x] ++ w).
  apply parses_star_cons with (c1 := c); [discriminate | | now apply IH].
  rewrite clear_caps_groupfree by reflexivity. now constructor.
Qed.

Lemma parses_plus_class (g : bool) (p : char -> bool) (w : jsstring)
    (c : list (nat * jsstring)) :
  w <> [] -> forallb p w = true -> parses (Plus g (Chr p)) w c c.
Proof.
  intros Hne H. destruct w as [|x w]; [contradiction|].
  cbn [forallb] in H. apply andb_true_iff in H as [Hx Hw].
  unfold Plus. change (x :: w) with ([x] ++ w).
  econstructor; [now constructor | now apply parses_star_class].
Qed.

Lemma no_hash (p : jsstring) :
  mem (chr "#") p = false -> forallb (none_of (str "#")) p = true.
Proof.
  unfold mem. induction p as [|x p IH]; [reflexivity|].
  cbn [existsb forallb]. intros H. apply orb_false_iff in H as [Hx Hp].
  rewrite (IH Hp), andb_true_r. unfold none_of, mem.
  change (str "#") with [chr "#"]. cbn [existsb]. rewrite orb_false_r.
  apply negb_true_iff. now rewrite N.eqb_sym.
Qed.

(** The pattern of the scanner accepts every marker. *)
Lemma marker_text_parses (ws1 : jsstring) (k : Kind)
    (ws2 ws3 p sy ws4 : jsstring) :
  blank ws1 -> blank ws2 -> blank ws3 -> blank ws4 ->
  p <> [] -> mem (chr "#") p = false ->
  sy <> [] -> forallb cls_S sy = true ->
  parses markerRe (marker_text ws1 k ws2 ws3 p sy ws4) []
         [(3, sy); (2, p); (1, tag_of k)].
Proof.
  intros B1 B2 B3 B4 Np Fp Ns Fs. unfold markerRe, marker_text. cbn [Seqs].
  repeat (apply parses_seq with (c1 := []);
          [first [apply lit_parses | now apply parses_star_class]|]).
  apply parses_seq with (c1 := [(1, tag_of k)]).
  { constructor. destruct k; [apply parses_alt_l | apply parses_alt_r];
      apply lit_parses. }
  repeat (apply parses_seq with (c1 := [(1, tag_of k)]);
          [first [apply lit_parses | now apply parses_star_class]|]).
  apply parses_seq with (c1 := [(2, p); (1, tag_of k)]).
  { constructor. apply parses_plus_class; [exact Np | now apply no_hash]. }
  apply parses_seq with (c1 := [(2, p); (1, tag_of k)]); [apply lit_parses|].
  apply parses_seq with (c1 := [(3, sy); (2, p); (1, tag_of k)]).
  { constructor. now apply parses_plus_class. }
  apply parses_seq with (c1 := [(3, sy); (2, p); (1, tag_of k)]);
    [now apply parses_star_class | apply lit_parses].
Qed.

Lemma marker_matches_here (ws1 : jsstring) (k : Kind)
    (ws2 ws3 p sy ws4 after : jsstring) :
  blank ws1 -> blank ws2 -> blank ws3 -> blank ws4 ->
  p <> [] -> mem (chr "#") p = false ->
  sy <> [] -> forallb cls_S sy = true ->
  match_here markerRe (marker_text ws1 k ws2 ws3 p sy ws4 ++ after) <> None.
Proof.
  intros. unfold match_here.
  eapply rmatch_complete; [now apply marker_text_parses | discriminate].
Qed.

(** [search] returns the leftmost match. *)
Lemma search_leftmost (r : regex) (pre s : jsstring) (i : nat) :
  match_here r s <> None ->
  exists m, search r i (pre ++ s) = Some m /\ index m <= i + List.length pre.
Proof.
  intros H. revert i. induction pre as [|x pre IH]; intros i.
  - cbn [app]. destruct s as [|y s]; cbn [search];
      destruct (match_here r _) as [st|]; try contradiction;
      eexists; (split; [reflexivity|]); cbn; lia.
  - cbn [app search]. destruct (match_here r (x :: pre ++ s)) as [st|].
    + eexists. split; [reflexivity|]. cbn. lia.
    + destruct (IH (S i)) as (m & Hm & Hi). exists m. split; [exact Hm|].
      cbn [List.length]. lia.
Qed.

Lemma exec_from_finds (content : jsstring) (from i : nat) :
  from <= i -> marker_at content i ->
  exists m, exec_from markerRe content from = Some m /\ from <= index m <= i.
Proof.
  intros Hle (before & ws1 & k & ws2 & ws3 & p & sy & ws4 & after & Hc & Hi
              & B1 & B2 & B3 & B4 & Np & Fp & Ns & Fs).
  unfold exec_from.
  assert (Hlen : from <= List.length content).
  { rewrite Hc, length_app. lia. }
  apply Nat.leb_le in Hlen. rewrite Hlen.
  assert (Hsk : skipn from content
                = skipn from before
                  ++ marker_text ws1 k ws2 ws3 p sy ws4 ++ after).
  { rewrite Hc, skipn_app. replace (from - List.length before) with 0 by lia.
    reflexivity. }
  rewrite Hsk.
  destruct (search_leftmost markerRe (skipn from before)
              (marker_text ws1 k ws2 ws3 p sy ws4 ++ after) from)
    as (m & Hm & Hidx); [now apply marker_matches_here|].
  exists m. split; [exact Hm|].
  apply search_inside in Hm as (pre' & post & _ & Him).
  rewrite length_skipn in Hidx. lia.
Qed.

Lemma scan_markers_covers (content : jsstring) (fuel : nat) :
  forall from ms i,
    scan_markers fuel content from = Some ms ->
    from <= i -> marker_at content i ->
    exists m, In m ms /\
              (om_index m <= Z.of_nat i < om_index m + om_length m)%Z.
Proof.
  induction fuel as [|fuel IH]; intros from ms i; cbn [scan_markers];
    [discriminate|].
  intros H Hle Hat.
  destruct (exec_from_finds content from i Hle Hat) as (m & Hm & Hlo & Hhi).
  rewrite Hm in H.
  destruct (scan_markers fuel content (index m + List.length (matched m)))
    as [ms'|] eqn:E; [|discriminate].
  injection H as <-.
  destruct (Nat.lt_ge_cases i (index m + List.length (matched m))) as [Hin|Hout].
  - exists (marker_of m). split; [now left|].
    unfold marker_of, Js.length. cbn [om_index om_length]. lia.
  - destruct (IH _ _ i E Hout Hat) as (m' & Hm' & Hr).
    exists m'. split; [now right | exact Hr].
Qed.

Lemma second_pass_starts (content : jsstring) (ms : list OpenMarker)
    (m : OpenMarker) :
  In m ms ->
  exists d, In d (second_pass content ms) /\ startIndex d = om_index m /\
            kind d = om_kind m /\ sourcePath d = om_sourcePath m /\
            symbolName d = om_symbolName m.
Proof.
  induction ms as [|x ms IH]; [intros []|]. cbn [second_pass].
  intros [<-|H].
  - eexists. split; [now left|]. repeat split.
  - destruct (IH H) as (d & Hd & Hs). exists d. split; [now right | exact Hs].
Qed.

End FindFacts.

(** X21.  No marker is missed: wherever a marker stands in the text, a
    directive starts there, unless the place lies inside the marker of a
    directive that starts earlier. *)
Theorem no_marker_is_missed (content : jsstring) (i : nat) :
  marker_at content i ->
  exists m d,
    In m (openMarkers content) /\
    (om_index m <= Z.of_nat i < om_index m + om_length m)%Z /\
    In d (findDirectives content) /\ startIndex d = om_index m.
Proof.
  intros Hat.
  destruct (FindFacts.scan_markers_covers content _ 0 _ i
              (ScanFacts.openMarkers_scan content) ltac:(lia) Hat)
    as (m & Hm & Hr).
  destruct (FindFacts.second_pass_starts content _ m Hm) as (d & Hd & Hs & _).
  exists m, d. repeat split; auto; lia.
Qed.

(** The second marker of [Samples.twoResolved] stands at offset 53, and a
    directive starts there. *)
Lemma no_marker_is_missed_witness :
  exists d, In d (findDirectives Samples.twoResolved) /\ startIndex d = 53%Z.
Proof.
  assert (Hat : marker_at Samples.twoResolved 53).
  { exists (firstn 53 Samples.twoResolved), (str " "), cs, [], (str " "),
      (str "marker.cs"), (str "Marker"), (str " "), [LF].
    repeat split; try discriminate; vm_compute; reflexivity. }
  destruct (no_marker_is_missed Samples.twoResolved 53 Hat)
    as (m & d & Hm & Hr & Hd & Hs).
  exists d. split; [exact Hd|].
  vm_compute in Hm. destruct Hm as [<-|[<-|[]]]; cbn in Hr, Hs; [lia | exact Hs].
Defined.

(** * Symbols that are not there *)

Module AbsentFacts.
Import JsFacts RegexFacts CsFacts ParseFacts.

Lemma occurs_in_app_r (t a b : jsstring) : occurs_in t b -> occurs_in t (a ++ b).
Proof.
  intros (P & Q & ->). exists (a ++ P), Q. now rewrite <- app_assoc.
Qed.

Lemma occurs_in_app_l (t a b : jsstring) : occurs_in t a -> occurs_in t (a ++ b).
Proof.
  intros (P & Q & ->). exists P, (Q ++ b). now rewrite <- !app_assoc.
Qed.

Lemma occurs_in_head (t b : jsstring) : occurs_in t (t ++ b).
Proof. now exists [], b. Qed.

(** What the header pattern accepts holds the symbol name. *)
Lemma declPattern_holds_name (symbolName w : jsstring)
    (c c' : list (nat * jsstring)) :
  parses (declPattern symbolName) w c c' -> occurs_in symbolName w.
Proof.
  unfold declPattern. intros P.
  apply parses_Seq in P as (w1 & w2 & c1 & -> & _ & P).
  apply parses_Group in P as (c2 & P & _). cbn [Seqs] in P.
  apply parses_Seq in P as (a1 & b1 & ? & -> & _ & P).
  apply parses_Seq in P as (a2 & b2 & ? & -> & _ & P).
  apply parses_Seq in P as (a3 & b3 & ? & -> & _ & P).
  apply parses_Seq in P as (a4 & b4 & ? & -> & _ & P).
  apply parses_Seq in P as (a5 & b5 & ? & -> & P & _).
  apply parses_Lit in P as [-> _].
  do 5 apply occurs_in_app_r. apply occurs_in_head.
Qed.

Lemma methodPattern_holds_name (symbolName w : jsstring)
    (c c' : list (nat * jsstring)) :
  parses (methodPattern symbolName) w c c' -> occurs_in symbolName w.
Proof.
  unfold methodPattern. intros P.
  apply parses_Seq in P as (w1 & w2 & c1 & -> & _ & P).
  apply parses_Group in P as (c2 & P & _). cbn [Seqs] in P.
  apply parses_Seq in P as (a1 & b1 & ? & -> & _ & P).
  apply parses_Seq in P as (a2 & b2 & ? & -> & _ & P).
  apply parses_Seq in P as (a3 & b3 & ? & -> & _ & P).
  apply parses_Seq in P as (a4 & b4 & ? & -> & _ & P).
  apply parses_Seq in P as (a5 & b5 & ? & -> & P & _).
  apply parses_Lit in P as [-> _].
  do 5 apply occurs_in_app_r. apply occurs_in_head.
Qed.

Lemma exec_occurs (r : regex) (t source : jsstring) (m : RegExpMatch) :
  (forall w c c', parses r w c c' -> occurs_in t w) ->
  exec r source = Some m -> occurs_in t source.
Proof.
  intros Hr H. unfold exec in H.
  apply search_found in H as (pre & s' & f & -> & Hm & _).
  apply match_here_parses in Hm as (w & -> & P).
  apply occurs_in_app_r, occurs_in_app_l. eapply Hr; exact P.
Qed.

End AbsentFacts.

(** X22.  A symbol whose name does not occur in a C# source is not found
    in it, neither as a type nor as a method; with the file in place, the
    directive is reported with the missing-symbol message. *)
Theorem absent_symbol_is_not_found (source name : jsstring) :
  ~ occurs_in name source ->
  extractCsSymbol_in source name = None /\
  forall env d md,
    kind d = cs -> symbolName d = name ->
    files env (path_resolve env (path_dirname env md) (sourcePath d))
    = Some source ->
    resolveEmbed env d md
    = Normal
        {| directive := d;
           code := None;
           error :=
             Some (str "Symbol '" ++ name ++ str "' not found in "
                     ++ path_resolve env (path_dirname env md) (sourcePath d)) |}.
Proof.
  intros Hno.
  assert (E : extractCsSymbol_in source name = None).
  { unfold extractCsSymbol_in, extractCsMethod.
    destruct (exec (declPattern name) source) as [m|] eqn:E1.
    { exfalso. apply Hno.
      exact (AbsentFacts.exec_occurs _ _ _ _
               (AbsentFacts.declPattern_holds_name name) E1). }
    destruct (exec (methodPattern name) source) as [m|] eqn:E2;
      [|reflexivity].
    exfalso. apply Hno.
    exact (AbsentFacts.exec_occurs _ _ _ _
             (AbsentFacts.methodPattern_holds_name name) E2). }
  split; [exact E|].
  intros env d md Hk Hs Hf.
  unfold resolveEmbed, extractCsSymbol, getCsSource, readFileSync, existsSync.
  rewrite Hf. cbn [negb]. rewrite Hk, Hs, E. reflexivity.
Qed.

(** [Missing] does not occur in [Samples.fooSource]. *)
Lemma absent_symbol_is_not_found_witness :
  extractCsSymbol_in Samples.fooSource (str "Missing") = None.
Proof.
  apply (absent_symbol_is_not_found Samples.fooSource (str "Missing")).
  apply ScanMore.indexOf_none. vm_compute. reflexivity.
Defined.

(** * Documents that are up to date *)

Module FixFacts.
Import JsFacts RewriteFacts.

Lemma three_parts (s : jsstring) (a e : Z) :
  (0 <= a <= e)%Z -> (e <= Js.length s)%Z ->
  substring s 0 a ++ substring s a e ++ substring_from s e = s.
Proof.
  intros Ha He.
  rewrite !substring_in_range by lia.
  rewrite substring_from_in_range by lia.
  cbn [Z.to_nat skipn]. rewrite Nat.sub_0_r.
  rewrite <- (firstn_skipn (Z.to_nat a) s) at 4. f_equal.
  rewrite <- (firstn_skipn (Z.to_nat e - Z.to_nat a) (skipn (Z.to_nat a) s)) at 2.
  f_equal. rewrite skipn_skipn. f_equal. lia.
Qed.

Lemma up_to_date_round (env : Env) (md content : jsstring)
    (errs : list ErrorReport) (d : EmbedDirective) :
  (0 <= startIndex d)%Z -> (endIndex d <= Js.length content)%Z ->
  up_to_date env md content d ->
  plain_round env md (content, errs) d = (content, errs).
Proof.
  intros H0 He (c & m & Hc & Hm & Hi & Hle & Hb).
  apply PlainFacts.code_normal in Hc.
  unfold plain_round. rewrite (PlainFacts.resolved_code_no_error env d md c Hc), Hm.
  f_equal. unfold splice, code_text. rewrite Hc, Hi.
  cbn [Z.of_nat]. rewrite Z.add_0_r.
  assert (Hne : (endIndex d =? -1)%Z = false).
  { apply Z.eqb_neq. unfold Js.length in *. lia. }
  rewrite Hne. cbn [negb]. rewrite <- Hb.
  apply three_parts; [unfold Js.length in *; lia | exact He].
Qed.

Lemma directives_bounds (content : jsstring) (d : EmbedDirective) :
  In d (findDirectives content) ->
  (0 <= startIndex d)%Z /\ (endIndex d <= Js.length content)%Z.
Proof.
  intros Hd. pose proof (findDirectives_chain content) as Hc.
  assert (Hg : forall from ds,
             (0 <= from)%Z ->
             directive_chain (Js.length content) from ds ->
             Forall (fun d => (0 <= startIndex d)%Z /\
                              (endIndex d <= Js.length content)%Z) ds).
  { intros from ds Hf H. induction H as [|from x ds H1 H2 H3 H4 H5 IH];
      constructor; [lia | apply IH; lia]. }
  specialize (Hg 0%Z _ ltac:(lia) Hc). rewrite Forall_forall in Hg. now apply Hg.
Qed.

(** A document whose directives are all up to date: the plain run leaves
    it as it is, and every call of [resolveEmbed] returns. *)
Lemma up_to_date_plain (env : Env) (content md : jsstring) :
  (forall d, In d (findDirectives content) -> up_to_date env md content d) ->
  plain_run env content md = (content, []).
Proof.
  intros Hall. rewrite RewriteMore.applyEmbeds_fold.
  pose proof (directives_bounds content) as Hb.
  assert (G : forall ds,
             (forall d, In d ds -> In d (findDirectives content)) ->
             fold_left (plain_round env md) ds (content, []) = (content, [])).
  { induction ds as [|d ds IH]; intros Hin; [reflexivity|].
    cbn [fold_left]. rewrite up_to_date_round.
    - apply IH. intros x Hx. apply Hin. now right.
    - apply (Hb d). apply Hin. now left.
    - apply (Hb d). apply Hin. now left.
    - apply Hall, Hin. now left. }
  apply G. intros d Hd. now apply in_rev.
Qed.

Lemma up_to_date_run (env : Env) (content md : jsstring) :
  (forall d, In d (findDirectives content) -> up_to_date env md content d) ->
  applyEmbeds env content md = Normal (content, []).
Proof.
  intros Hall. rewrite RewriteMore.run_returns.
  - now rewrite up_to_date_plain.
  - intros d Hd. destruct (Hall d Hd) as (c & m & Hc & _). eexists. exact Hc.
Qed.

End FixFacts.

(** X23.  A document in which every directive is up to date, that is
    resolves, has a marker that its own pattern matches, and is followed, up
    to the end of its close tag, by the very block that would be generated
    now, is returned by [applyEmbeds] as it is, with no error. *)
Theorem up_to_date_document_unchanged (env : Env) (content md : jsstring) :
  (forall d, In d (findDirectives content) -> up_to_date env md content d) ->
  applyEmbeds env content md = Normal (content, []).
Proof. apply FixFacts.up_to_date_run. Qed.

(** [MoreSamples.synced] holds one directive, followed by the block for
    [Foo] as it is now: it comes back unchanged. *)
Lemma up_to_date_document_unchanged_witness :
  findDirectives MoreSamples.synced = [MoreSamples.syncedDirective] /\
  applyEmbeds Samples.env MoreSamples.synced Samples.md
  = Normal (MoreSamples.synced, []).
Proof.
  assert (H : findDirectives MoreSamples.synced = [MoreSamples.syncedDirective])
    by (vm_compute; reflexivity).
  split; [exact H|].
  apply up_to_date_document_unchanged. intros d Hd. rewrite H in Hd.
  destruct Hd as [<-|[]].
  exists Samples.fooSource,
    {| index := 0; matched := str "<!-- cs-embed: foo.cs#Foo -->"; groups := [] |}.
  repeat split; vm_compute; try reflexivity; discriminate.
Defined.

(** * The text of markers and of generated blocks *)

Module TextFacts.
Import JsFacts RegexFacts ItemFacts ParseFacts FindFacts.

Lemma blank_split (ws ws' : jsstring) (a a' : char) (u u' : jsstring) :
  blank ws -> blank ws' -> is_space a = false -> is_space a' = false ->
  ws ++ a :: u = ws' ++ a' :: u' -> ws = ws' /\ a :: u = a' :: u'.
Proof.
  unfold blank. revert ws'. induction ws as [|x ws IH]; intros [|y ws'] B B' Ha Ha' E;
    cbn [app forallb] in *.
  - now split.
  - injection E as -> _. apply andb_true_iff in B' as [Hy _]. congruence.
  - injection E as <- _. apply andb_true_iff in B as [Hx _]. congruence.
  - injection E as -> E. apply andb_true_iff in B as [_ B].
    apply andb_true_iff in B' as [_ B'].
    destruct (IH ws' B B' Ha Ha' E) as [-> H]. now split.
Qed.

Lemma nonspace_blank_split (a a' b b' : jsstring) :
  forallb cls_S a = true -> forallb cls_S a' = true -> blank b -> blank b' ->
  a ++ b = a' ++ b' -> a = a' /\ b = b'.
Proof.
  unfold blank, cls_S. revert a'. induction a as [|x a IH]; intros [|y a'] A A' B B' E;
    cbn [app forallb] in *.
  - now split.
  - subst b. cbn [forallb] in B. apply andb_true_iff in B as [Hy _].
    apply andb_true_iff in A' as [Hy' _]. rewrite Hy in Hy'. discriminate.
  - subst b'. cbn [forallb] in B'. apply andb_true_iff in B' as [Hx _].
    apply andb_true_iff in A as [Hx' _]. rewrite Hx in Hx'. discriminate.
  - injection E as -> E. apply andb_true_iff in A as [_ A].
    apply andb_true_iff in A' as [_ A'].
    destruct (IH a' A A' B B' E) as [-> ->]. now split.
Qed.

Lemma first_split (c : char) (u u' x x' : jsstring) :
  mem c u = false -> mem c u' = false ->
  u ++ c :: x = u' ++ c :: x' -> u = u' /\ x = x'.
Proof.
  unfold mem. revert u'. induction u as [|a u IH]; intros [|b u'] H H' E;
    cbn [app existsb] in *.
  - injection E as ->. now split.
  - injection E as <- _. rewrite N.eqb_refl in H'. discriminate.
  - injection E as -> _. rewrite N.eqb_refl in H. discriminate.
  - injection E as -> E. apply orb_false_iff in H as [_ H].
    apply orb_false_iff in H' as [_ H'].
    destruct (IH u' H H' E) as [-> ->]. now split.
Qed.

Lemma mem_concat (c : char) (a b : jsstring) :
  mem c (a ++ b) = mem c a || mem c b.
Proof. unfold mem. apply existsb_app. Qed.

Lemma blank_no_char (c : char) (ws : jsstring) :
  is_space c = false -> blank ws -> mem c ws = false.
Proof.
  unfold blank, mem. intros Hc. induction ws as [|x ws IH]; [reflexivity|].
  cbn [forallb existsb]. intros H. apply andb_true_iff in H as [Hx Hw].
  rewrite (IH Hw), orb_false_r. apply N.eqb_neq. intros ->. congruence.
Qed.

Lemma tag_split (k k' : Kind) (r r' : jsstring) :
  tag_of k ++ r = tag_of k' ++ r' -> k = k' /\ r = r'.
Proof.
  destruct k, k'; cbn; intros E; try discriminate;
    (split; [reflexivity|]); now injection E.
Qed.

Lemma tag_head (k : Kind) :
  exists c t, tag_of k = c :: t /\ is_space c = false.
Proof. destruct k; eexists _, _; split; reflexivity. Qed.

Lemma marker_text_split (ws1 : jsstring) (k : Kind) (ws2 ws3 p sy ws4 : jsstring) :
  marker_text ws1 k ws2 ws3 p sy ws4
  = marker_head ws1 k ws2 ws3 p ++ chr "#" :: sy ++ ws4 ++ str "-->".
Proof. unfold marker_text, marker_head. now rewrite <- !app_assoc. Qed.

Lemma marker_head_no_hash (ws1 : jsstring) (k : Kind) (ws2 ws3 p : jsstring) :
  blank ws1 -> blank ws2 -> blank ws3 -> mem (chr "#") p = false ->
  mem (chr "#") (marker_head ws1 k ws2 ws3 p) = false.
Proof.
  intros B1 B2 B3 Hp. unfold marker_head. rewrite !mem_concat, Hp.
  rewrite (blank_no_char (chr "#") ws1), (blank_no_char (chr "#") ws2),
    (blank_no_char (chr "#") ws3) by (assumption || reflexivity).
  destruct k; reflexivity.
Qed.

(** Two markers that begin the same text have the same tag, the same blanks
    before the path and the same text up to the hash sign. *)
Lemma marker_head_same (ws1 : jsstring) (k : Kind) (ws2 ws3 p : jsstring)
    (b1 : jsstring) (k' : Kind) (b2 b3 p' x x' : jsstring) :
  blank ws1 -> blank ws2 -> blank ws3 -> mem (chr "#") p = false ->
  blank b1 -> blank b2 -> blank b3 -> mem (chr "#") p' = false ->
  marker_head ws1 k ws2 ws3 p ++ chr "#" :: x
  = marker_head b1 k' b2 b3 p' ++ chr "#" :: x' ->
  k = k' /\ ws3 ++ p = b3 ++ p' /\ x = x' /\
  marker_head ws1 k ws2 ws3 p = marker_head b1 k' b2 b3 p'.
Proof.
  intros B1 B2 B3 Hp C1 C2 C3 Hp' E.
  destruct (first_split (chr "#") _ _ _ _
              (marker_head_no_hash ws1 k ws2 ws3 p B1 B2 B3 Hp)
              (marker_head_no_hash b1 k' b2 b3 p' C1 C2 C3 Hp') E) as [Eh Ex].
  split; [|split; [|split; [exact Ex | exact Eh]]].
  - unfold marker_head in Eh. apply app_inv_head in Eh.
    destruct (tag_head k) as (c & t & Et & Hc).
    destruct (tag_head k') as (c' & t' & Et' & Hc').
    rewrite Et, Et' in Eh. rewrite <- !app_comm_cons in Eh.
    apply blank_split in Eh as [_ Eh]; auto.
    rewrite !app_comm_cons, <- Et, <- Et' in Eh.
    now apply tag_split in Eh.
  - unfold marker_head in Eh. apply app_inv_head in Eh.
    destruct (tag_head k) as (c & t & Et & Hc).
    destruct (tag_head k') as (c' & t' & Et' & Hc').
    rewrite Et, Et' in Eh. rewrite <- !app_comm_cons in Eh.
    apply blank_split in Eh as [_ Eh]; auto.
    rewrite !app_comm_cons, <- Et, <- Et' in Eh.
    apply tag_split in Eh as [_ Eh].
    change (str ":") with [chr ":"] in Eh. cbn [app] in Eh.
    apply blank_split in Eh as [_ Eh]; auto. now injection Eh.
Qed.

Lemma trimStart_blank_prefix (ws p : jsstring) :
  blank ws -> trimStart (ws ++ p) = trimStart p.
Proof.
  unfold blank. induction ws as [|x ws IH]; [reflexivity|].
  cbn [forallb app trimStart]. intros H. apply andb_true_iff in H as [Hx Hw].
  rewrite Hx. now apply IH.
Qed.

Lemma trim_blank_prefix (ws p : jsstring) :
  blank ws -> trim (ws ++ p) = trim p.
Proof. intros H. unfold trim. now rewrite trimStart_blank_prefix. Qed.

Lemma mem_split_first (c : char) (X : jsstring) :
  mem c X = true -> exists X1 X2, X = X1 ++ c :: X2 /\ mem c X1 = false.
Proof.
  unfold mem. induction X as [|a X IH]; [discriminate|]. cbn [existsb].
  destruct (N.eqb c a) eqn:E.
  - apply N.eqb_eq in E as <-. intros _. now exists [], X.
  - cbn [orb]. intros H. destruct (IH H) as (X1 & X2 & -> & H1).
    exists (a :: X1), X2. split; [reflexivity|]. cbn [existsb]. now rewrite E.
Qed.

Lemma marker_text_has_hash (ws1 : jsstring) (k : Kind) (ws2 ws3 p sy ws4 : jsstring) :
  mem (chr "#") (marker_text ws1 k ws2 ws3 p sy ws4) = true.
Proof.
  rewrite marker_text_split, mem_concat. apply orb_true_iff. right.
  unfold mem. cbn [existsb]. now rewrite N.eqb_refl.
Qed.

Lemma marker_text_end (ws1 : jsstring) (k : Kind) (ws2 ws3 p sy ws4 : jsstring) :
  exists pre, marker_text ws1 k ws2 ws3 p sy ws4 = pre ++ str "-->".
Proof.
  exists (str "<!--" ++ ws1 ++ tag_of k ++ ws2 ++ str ":" ++ ws3 ++ p ++ str "#"
            ++ sy ++ ws4).
  unfold marker_text. now rewrite <- !app_assoc.
Qed.

(** When a line feed stands among the closing blanks of a marker, what
    follows it within the marker is blanks and the comment closer. *)
Lemma tail_after_lf (ws4 l2 l' : jsstring) :
  blank ws4 -> ws4 ++ str "-->" = l2 ++ LF :: l' ->
  exists l3, blank l3 /\ l' = l3 ++ str "-->".
Proof.
  intros B E. apply app_eq_app in E as [l3 [[E1 E2]|[E1 E2]]].
  - destruct l3 as [|a l3].
    + cbn in E2. discriminate.
    + cbn [app] in E2. injection E2 as <- E2. exists l3. split; [|exact E2].
      subst ws4. unfold blank in *. rewrite forallb_app in B.
      apply andb_true_iff in B as [_ B]. cbn [forallb] in B.
      now apply andb_true_iff in B as [_ B].
  - exfalso. assert (H : In LF (str "-->")).
    { rewrite E2. apply in_elt. }
    cbn in H. repeat destruct H as [H|H]; try discriminate; exact H.
Qed.

(** A marker that begins a text in which a line feed and then a character
    that is neither a blank nor a dash follow some text with a hash sign ends
    before that line feed. *)
Lemma marker_stops_before (ws1 : jsstring) (k : Kind) (ws2 ws3 p sy ws4 : jsstring)
    (x X : jsstring) (c2 : char) (Z : jsstring) :
  blank ws1 -> blank ws2 -> blank ws3 -> blank ws4 ->
  mem (chr "#") p = false -> forallb cls_S sy = true ->
  mem (chr "#") X = true -> is_space c2 = false -> c2 <> chr "-" ->
  marker_text ws1 k ws2 ws3 p sy ws4 ++ x = X ++ LF :: c2 :: Z ->
  exists Q, X = marker_text ws1 k ws2 ws3 p sy ws4 ++ Q.
Proof.
  intros B1 B2 B3 B4 Hp Hsy HX Hc Hd E.
  apply app_eq_app in E as [l [[E1 E2]|[E1 E2]]]; [|now exists l].
  destruct l as [|a l]; [exists []; now rewrite app_nil_r in *|].
  exfalso. cbn [app] in E2. injection E2 as <- E2.
  rewrite marker_text_split in E1.
  destruct (mem_split_first _ _ HX) as (X1 & X2 & -> & HX1).
  rewrite <- app_assoc in E1. cbn [app] in E1.
  apply first_split in E1 as [_ E1];
    [| now apply marker_head_no_hash | exact HX1].
  assert (T : exists l2, ws4 ++ str "-->" = l2 ++ LF :: l).
  { apply app_eq_app in E1 as [l2 [[E3 E4]|[E3 E4]]].
    - destruct l2 as [|b l2]; [exists []; now rewrite E4|].
      cbn [app] in E4. injection E4 as <- E4.
      subst sy. rewrite forallb_app in Hsy.
      apply andb_true_iff in Hsy as [_ Hsy]. cbn in Hsy. discriminate.
    - exists l2. exact E4. }
  destruct T as [l2 T]. apply tail_after_lf in T as (l3 & B & ->); [|exact B4].
  destruct l3 as [|b l3]; cbn [app] in E2.
  - injection E2 as E2 _. now apply Hd.
  - injection E2 as E2 _. unfold blank in B. cbn [forallb] in B.
    apply andb_true_iff in B as [B _]. congruence.
Qed.

(** In a text that begins with a plain marker whose comment closer stands
    only at its end, followed by a line feed and a fence, the marker pattern
    matches that marker and nothing more. *)
Lemma marker_exact (ws1 : jsstring) (k : Kind) (ws2 ws3 p sy ws4 : jsstring)
    (c2 : char) (Z : jsstring) (f : mstate) :
  blank ws1 -> blank ws2 -> blank ws3 -> blank ws4 ->
  mem (chr "#") p = false -> forallb cls_S sy = true ->
  closer_at_end (marker_text ws1 k ws2 ws3 p sy ws4) ->
  is_space c2 = false -> c2 <> chr "-" ->
  match_here markerRe (marker_text ws1 k ws2 ws3 p sy ws4 ++ LF :: c2 :: Z)
  = Some f ->
  rest f = LF :: c2 :: Z /\
  exists p', caps f = [(3, sy); (2, p'); (1, tag_of k)] /\ trim p' = trim p.
Proof.
  intros B1 B2 B3 B4 Hp Hsy Hend Hc Hd H.
  apply markerRe_shape in H
    as (b1 & k' & b2 & b3 & p' & sy' & b4 & E & Hcaps & C1 & C2 & C3 & C4
        & Hne & Hp' & Hne' & Hsy').
  symmetry in E.
  destruct (marker_stops_before b1 k' b2 b3 p' sy' b4 (rest f) _ c2 Z
              C1 C2 C3 C4 Hp' Hsy' (marker_text_has_hash _ _ _ _ _ _ _) Hc Hd E)
    as [Q HQ].
  destruct (marker_text_end b1 k' b2 b3 p' sy' b4) as [pre Hpre].
  assert (Q = []).
  { apply (Hend pre). rewrite HQ, Hpre. now rewrite <- app_assoc. }
  subst Q. rewrite app_nil_r in HQ.
  rewrite HQ in E. apply app_inv_head in E. split; [exact E|].
  rewrite !marker_text_split in HQ.
  apply marker_head_same in HQ as (-> & Ep & Ex & _); auto.
  rewrite !app_assoc in Ex. apply app_inv_tail in Ex.
  apply nonspace_blank_split in Ex as [-> _]; auto.
  exists p'. split; [exact Hcaps|].
  rewrite <- (trim_blank_prefix b3 p') by exact C3.
  rewrite <- Ep. now apply trim_blank_prefix.
Qed.

(** A match of the marker pattern in a text in which a line feed and a fence
    follow a marker is a match in every text that holds what stands before
    that line feed. *)
Lemma match_before_fence (X : jsstring) (c2 : char) (Z Y : jsstring) :
  mem (chr "#") X = true -> is_space c2 = false -> c2 <> chr "-" ->
  match_here markerRe (X ++ LF :: c2 :: Z) <> None ->
  match_here markerRe (X ++ Y) <> None.
Proof.
  intros HX Hc Hd H.
  destruct (match_here markerRe (X ++ LF :: c2 :: Z)) as [f|] eqn:E;
    [clear H | congruence].
  apply markerRe_shape in E
    as (b1 & k' & b2 & b3 & p' & sy' & b4 & E & _ & C1 & C2 & C3 & C4
        & Hne & Hp' & Hne' & Hsy').
  symmetry in E.
  destruct (marker_stops_before b1 k' b2 b3 p' sy' b4 (rest f) X c2 Z
              C1 C2 C3 C4 Hp' Hsy' HX Hc Hd E) as [Q ->].
  rewrite <- app_assoc. now apply marker_matches_here.
Qed.

Lemma trimStart_blank_split (s : jsstring) :
  exists ws, blank ws /\ s = ws ++ trimStart s.
Proof.
  induction s as [|c s (ws & B & E)]; [now exists []|].
  cbn [trimStart]. destruct (is_space c) eqn:Hc.
  - exists (c :: ws). split.
    + unfold blank in *. cbn [forallb]. now rewrite Hc, B.
    + cbn [app]. now rewrite <- E.
  - now exists [].
Qed.

Lemma run_text_step (l : jsstring) (more : list Item) (s r : jsstring) :
  run_items (Text l :: more) s = Some r ->
  exists t, s = l ++ t /\ run_items more t = Some r.
Proof.
  cbn [run_items]. destruct (startsWith s l) eqn:E; [|discriminate].
  apply startsWith_app in E as [t ->]. intros H. exists t. split; [reflexivity|].
  now rewrite skipn_app, skipn_all, Nat.sub_diag in H.
Qed.

Lemma run_blanks_step (more : list Item) (s r : jsstring) :
  run_items (Blanks :: more) s = Some r ->
  exists ws t, blank ws /\ s = ws ++ t /\ run_items more t = Some r.
Proof.
  cbn [run_items]. intros H. destruct (trimStart_blank_split s) as (ws & B & E).
  now exists ws, (trimStart s).
Qed.

(** What the pattern of a directive reads is a plain marker. *)
Lemma run_items_shape (d : EmbedDirective) (s r : jsstring) :
  run_items (openMarkerItems d) s = Some r ->
  exists b1 b2 b3 b4,
    blank b1 /\ blank b2 /\ blank b3 /\ blank b4 /\
    s = marker_text b1 (kind d) b2 b3 (sourcePath d) (symbolName d) b4 ++ r.
Proof.
  unfold openMarkerItems. intros H.
  apply run_text_step in H as (t1 & -> & H).
  apply run_blanks_step in H as (b1 & t2 & B1 & -> & H).
  apply run_text_step in H as (t3 & -> & H).
  apply run_blanks_step in H as (b2 & t4 & B2 & -> & H).
  apply run_text_step in H as (t5 & -> & H).
  apply run_blanks_step in H as (b3 & t6 & B3 & -> & H).
  apply run_text_step in H as (t7 & -> & H).
  apply run_text_step in H as (t8 & -> & H).
  apply run_text_step in H as (t9 & -> & H).
  apply run_blanks_step in H as (b4 & t10 & B4 & -> & H).
  apply run_text_step in H as (t11 & -> & H).
  cbn [run_items] in H. injection H as ->.
  exists b1, b2, b3, b4. repeat (split; [assumption|]).
  unfold marker_text. now rewrite <- !app_assoc.
Qed.

(** A match of the pattern of a directive at the start of a text is a plain
    marker with the fields of the directive. *)
Lemma own_match_shape (d : EmbedDirective) (x s : jsstring) (m : RegExpMatch) :
  sourcePath d = trim x ->
  exec (openMarkerRe d) s = Some m -> index m = 0 ->
  exists b1 b2 b3 b4 r,
    blank b1 /\ blank b2 /\ blank b3 /\ blank b4 /\
    matched m = marker_text b1 (kind d) b2 b3 (sourcePath d) (symbolName d) b4 /\
    s = matched m ++ r.
Proof.
  intros Hx H Hi. rewrite openMarkerRe_items in H. unfold exec in H.
  assert (Hm : exists st, match_here (Seqs (map item_regex (openMarkerItems d))) s
                          = Some st /\ m = found 0 s st).
  { destruct (match_here (Seqs (map item_regex (openMarkerItems d))) s)
      as [st|] eqn:E.
    - exists st. split; [reflexivity|].
      destruct s; cbn [search] in H; rewrite E in H; now injection H.
    - destruct s as [|c t]; cbn [search] in H; rewrite E in H; [discriminate|].
      apply search_inside in H as (pre & post & _ & Hidx). lia. }
  destruct Hm as (st & Hm & ->). unfold match_here in Hm.
  rewrite rmatch_items in Hm by (eapply openMarkerItems_delimited; exact Hx).
  cbn [rest caps] in Hm.
  destruct (run_items (openMarkerItems d) s) as [r|] eqn:E; [|discriminate].
  injection Hm as <-.
  apply run_items_shape in E as (b1 & b2 & b3 & b4 & B1 & B2 & B3 & B4 & ->).
  exists b1, b2, b3, b4, r. repeat (split; [assumption|]).
  unfold found. cbn [matched rest]. rewrite firstn_consumed. now split.
Qed.

End TextFacts.

(** * Generated blocks *)

Module BlockFacts.
Import JsFacts RegexFacts ItemFacts ParseFacts FindFacts TextFacts.

Lemma block_split (k : Kind) (c : jsstring) :
  LF :: codeBlock k c = block_head k c ++ closeTag k.
Proof.
  rewrite RewriteMore.codeBlock_lines. unfold block_head.
  repeat (rewrite <- app_assoc || rewrite <- app_comm_cons). reflexivity.
Qed.

(** An occurrence of a text without the separator, in a text with a
    separator, lies on one side of it. *)
Lemma occurrence_sides (sep : char) (t P Q u v : jsstring) :
  mem sep t = false -> P ++ t ++ Q = u ++ sep :: v ->
  (exists Q', u = P ++ t ++ Q') \/
  (exists P', P = u ++ sep :: P' /\ v = P' ++ t ++ Q).
Proof.
  intros Ht E. apply app_eq_app in E as [l [[E1 E2]|[E1 E2]]].
  - destruct l as [|a l].
    + cbn [app] in E2. destruct t as [|b t].
      * left. exists []. subst P. now rewrite !app_nil_r.
      * cbn [app] in E2. injection E2 as <- _. unfold mem in Ht.
        cbn [existsb] in Ht. now rewrite N.eqb_refl in Ht.
    + cbn [app] in E2. injection E2 as <- E2. right. now exists l.
  - apply app_eq_app in E2 as [l2 [[E3 E4]|[E3 E4]]].
    + destruct l2 as [|a l2].
      * left. exists []. subst. now rewrite !app_nil_r.
      * cbn [app] in E4. injection E4 as <- _. subst t.
        rewrite mem_concat in Ht. apply orb_false_iff in Ht as [_ Ht].
        unfold mem in Ht. cbn [existsb] in Ht. now rewrite N.eqb_refl in Ht.
    + left. exists l2. subst. reflexivity.
Qed.

Lemma no_char_no_occurrence (a : char) (t' u P Q : jsstring) :
  mem a u = false -> u = P ++ (a :: t') ++ Q -> False.
Proof.
  intros H ->. rewrite mem_concat in H. apply orb_false_iff in H as [_ H].
  unfold mem in H. cbn [app existsb] in H. now rewrite N.eqb_refl in H.
Qed.

Lemma closeTag_opener (k : Kind) (P g Z : jsstring) :
  closeTag k ++ g = P ++ str "<!--" ++ Z ->
  List.length P < List.length (closeTag k) -> P = [].
Proof.
  intros E Hlt. destruct P as [|a P]; [reflexivity|]. exfalso.
  assert (Hct : exists ct', closeTag k = chr "<" :: ct' /\ mem (chr "<") ct' = false)
    by (destruct k; eexists; split; reflexivity).
  destruct Hct as (ct' & Hct & Hno). rewrite Hct in E, Hlt.
  cbn [app] in E. injection E as _ E. cbn [List.length] in Hlt.
  apply app_eq_app in E as [l [[E1 E2]|[E1 E2]]].
  - destruct l as [|b l].
    + subst ct'. rewrite app_nil_r in Hlt. lia.
    + cbn [app] in E2. injection E2 as <- _.
      eapply (no_char_no_occurrence (chr "<") [] ct' P l); [exact Hno|].
      exact E1.
  - subst P. rewrite length_app in Hlt. lia.
Qed.

(** In a generated block whose code holds no comment opener, and in the text
    that follows the block, the only comment opener that begins within the
    block is the one of its close tag. *)
Lemma opener_in_block (k : Kind) (c g P Z : jsstring) :
  ~ occurs_in (str "<!--") c ->
  (LF :: codeBlock k c) ++ g = P ++ str "<!--" ++ Z ->
  List.length P < List.length (LF :: codeBlock k c) ->
  P = block_head k c.
Proof.
  intros Hc E Hlt.
  assert (EB : (LF :: codeBlock k c) ++ g
               = [] ++ LF :: (FENCE ++ lang_of k) ++ LF :: generatedLine
                   ++ LF :: c ++ LF :: FENCE ++ LF :: closeTag k ++ g).
  { rewrite RewriteMore.codeBlock_lines.
    repeat (rewrite <- app_assoc || rewrite <- app_comm_cons). reflexivity. }
  rewrite EB in E. clear EB.
  set (t := str "<!--") in *.
  assert (Hsep : mem LF t = false) by reflexivity.
  symmetry in E.
  apply occurrence_sides in E as [[Q' E]|(P1 & -> & E)]; [| | exact Hsep].
  { exfalso. destruct P; discriminate. }
  symmetry in E.
  apply occurrence_sides in E as [[Q' E]|(P2 & -> & E)]; [| | exact Hsep].
  { exfalso. eapply (no_char_no_occurrence (chr "<")); [|exact E].
    destruct k; reflexivity. }
  symmetry in E.
  apply occurrence_sides in E as [[Q' E]|(P3 & -> & E)]; [| | exact Hsep].
  { exfalso. eapply (no_char_no_occurrence (chr "<")); [|exact E]. reflexivity. }
  symmetry in E.
  apply occurrence_sides in E as [[Q' E]|(P4 & -> & E)]; [| | exact Hsep].
  { exfalso. apply Hc. now exists P3, Q'. }
  symmetry in E.
  apply occurrence_sides in E as [[Q' E]|(P5 & -> & E)]; [| | exact Hsep].
  { exfalso. eapply (no_char_no_occurrence (chr "<")); [|exact E]. reflexivity. }
  assert (EP : [] ++ LF :: (FENCE ++ lang_of k) ++ LF :: generatedLine
                 ++ LF :: c ++ LF :: FENCE ++ LF :: P5
               = block_head k c ++ P5).
  { unfold block_head.
    repeat (rewrite <- app_assoc || rewrite <- app_comm_cons). reflexivity. }
  rewrite EP in *. rewrite block_split, !length_app in Hlt.
  rewrite (closeTag_opener k P5 g Z E) by lia. now rewrite app_nil_r.
Qed.

(** A generated block begins with a line feed and a fence. *)
Lemma block_starts (k : Kind) (c : jsstring) :
  exists Z, LF :: codeBlock k c = LF :: BACKTICK :: Z.
Proof. rewrite RewriteMore.codeBlock_lines. eexists. reflexivity. Qed.

Lemma backtick_plain : is_space BACKTICK = false /\ BACKTICK <> chr "-".
Proof. split; [reflexivity | discriminate]. Qed.

(** The marker pattern matches at no offset within a generated block whose
    code holds no comment opener. *)
Lemma block_is_quiet (k : Kind) (c g : jsstring) (q : nat) :
  ~ occurs_in (str "<!--") c ->
  q < List.length (LF :: codeBlock k c) ->
  match_here markerRe (skipn q ((LF :: codeBlock k c) ++ g)) = None.
Proof.
  intros Hc Hq.
  destruct (match_here markerRe _) as [f|] eqn:E; [exfalso | reflexivity].
  apply markerRe_shape in E
    as (b1 & k' & b2 & b3 & p' & sy' & b4 & E & _ & C1 & _).
  set (B := LF :: codeBlock k c) in *.
  assert (EP : B ++ g = firstn q (B ++ g) ++ str "<!--"
                          ++ (b1 ++ tag_of k' ++ b2 ++ str ":" ++ b3 ++ p'
                                ++ str "#" ++ sy' ++ b4 ++ str "-->") ++ rest f).
  { rewrite <- (firstn_skipn q (B ++ g)) at 1. f_equal. rewrite E.
    unfold marker_text. now rewrite <- !app_assoc. }
  assert (Hlen : List.length (firstn q (B ++ g)) = q).
  { rewrite length_firstn, length_app. lia. }
  pose proof (opener_in_block k c g _ _ Hc EP ltac:(fold B; lia)) as HP.
  rewrite HP in EP. unfold B in EP at 1. rewrite block_split in EP.
  rewrite <- app_assoc in EP. apply app_inv_head in EP.
  destruct (tag_head k') as (a & t & Et & Ha). rewrite Et in EP.
  assert (Hct : exists u, closeTag k = str "<!--" ++ [32%N] ++ chr "/" :: u)
    by (destruct k; eexists; reflexivity).
  destruct Hct as [u Hct]. rewrite Hct in EP.
  rewrite <- !app_assoc in EP. apply app_inv_head in EP.
  apply (blank_split [32%N] b1 (chr "/") a (u ++ g)) in EP
    as [_ EP]; try reflexivity; try assumption.
  injection EP as <- _. destruct k'; discriminate.
Qed.

(** The first close tag after the start of a generated block whose code
    holds no comment opener is the one that ends the block. *)
Lemma block_close_tag (k : Kind) (c g : jsstring) :
  ~ occurs_in (str "<!--") c ->
  indexOf ((LF :: codeBlock k c) ++ g) (closeTag k) 0
  = Js.length (block_head k c).
Proof.
  intros Hc. unfold indexOf, clamp. cbn [Z.to_nat Nat.min skipn].
  set (B := LF :: codeBlock k c).
  destruct (find_from (closeTag k) (B ++ g) 0) as [j|] eqn:E.
  - apply find_from_some in E as (j' & -> & Hj & Hs & Hmin). cbn [Nat.add].
    unfold Js.length. f_equal.
    assert (Hat : startsWith (skipn (List.length (block_head k c)) (B ++ g))
                    (closeTag k) = true).
    { unfold B. rewrite block_split, <- app_assoc, skipn_app, skipn_all,
        Nat.sub_diag. cbn [skipn app]. apply startsWith_app. now eexists. }
    destruct (Nat.lt_trichotomy j' (List.length (block_head k c)))
      as [Hlt|[Heq|Hgt]]; [exfalso | exact Heq | exfalso].
    + apply startsWith_app in Hs as [Z HZ].
      assert (EP : B ++ g = firstn j' (B ++ g) ++ str "<!--"
                              ++ skipn 4 (closeTag k) ++ Z).
      { rewrite <- (firstn_skipn j' (B ++ g)) at 1. f_equal. rewrite HZ.
        destruct k; reflexivity. }
      assert (Hlen : List.length (firstn j' (B ++ g)) = j').
      { rewrite length_firstn. lia. }
      assert (HB : List.length B
                   = List.length (block_head k c) + List.length (closeTag k)).
      { unfold B. now rewrite block_split, length_app. }
      pose proof (opener_in_block k c g _ _ Hc EP ltac:(fold B; lia)) as HP.
      rewrite <- HP in Hlt. lia.
    + rewrite (Hmin _ Hgt) in Hat. discriminate.
  - pose proof (find_from_none _ _ _ E (List.length (block_head k c))) as Hn.
    unfold B in Hn. rewrite block_split, <- app_assoc, skipn_app, skipn_all,
      Nat.sub_diag in Hn. cbn [skipn app] in Hn.
    assert (Hs : startsWith (closeTag k ++ g) (closeTag k) = true)
      by (apply startsWith_app; now eexists).
    congruence.
Qed.

End BlockFacts.

(** * Scanning a document laid out as markers with their blocks *)

Module LayoutFacts.
Import JsFacts RegexFacts ScanFacts ItemFacts ParseFacts FindFacts TextFacts
  BlockFacts.

Lemma search_skip (r : regex) (n : nat) :
  forall (s : jsstring) (i : nat),
    (forall q, q < n -> match_here r (skipn q s) = None) ->
    n <= List.length s ->
    search r i s = search r (i + n) (skipn n s).
Proof.
  induction n as [|n IH]; intros s i Hq Hn.
  - now rewrite Nat.add_0_r.
  - destruct s as [|c t]; [cbn in Hn; lia|].
    pose proof (Hq 0 ltac:(lia)) as H0. cbn [skipn] in H0.
    cbn [search skipn]. rewrite H0.
    rewrite (IH t (S i)).
    + f_equal. lia.
    + intros q Hlt. apply (Hq (S q)). lia.
    + cbn in Hn. lia.
Qed.

Lemma search_none (r : regex) (s : jsstring) (i : nat) :
  (forall q, match_here r (skipn q s) = None) -> search r i s = None.
Proof.
  revert i. induction s as [|c t IH]; intros i Hq; cbn [search];
    pose proof (Hq 0) as H0; cbn [skipn] in H0; rewrite H0; [reflexivity|].
  apply IH. intros q. apply (Hq (S q)).
Qed.

Lemma search_none_all (r : regex) (s : jsstring) (i : nat) :
  search r i s = None -> forall q, match_here r (skipn q s) = None.
Proof.
  revert i. induction s as [|c t IH]; intros i H q; cbn [search] in H.
  - rewrite skipn_nil. destruct (match_here r []); [discriminate | reflexivity].
  - destruct (match_here r (c :: t)) eqn:E; [discriminate|].
    destruct q as [|q]; [exact E|]. cbn [skipn]. eapply IH, H.
Qed.

Lemma search_first (r : regex) (s : jsstring) (i : nat) (m : RegExpMatch) :
  search r i s = Some m ->
  forall q, i + q < index m -> match_here r (skipn q s) = None.
Proof.
  revert i. induction s as [|c t IH]; intros i H q Hq; cbn [search] in H.
  - destruct (match_here r []) eqn:E; [|discriminate].
    injection H as <-. cbn [index found] in Hq. lia.
  - destruct (match_here r (c :: t)) eqn:E.
    + injection H as <-. cbn [index found] in Hq. lia.
    + destruct q as [|q]; [exact E|]. cbn [skipn].
      apply (IH (S i) H). lia.
Qed.

Lemma search_hit (r : regex) (s : jsstring) (i : nat) (f : mstate) :
  match_here r s = Some f -> search r i s = Some (found i s f).
Proof. intros H. destruct s; cbn [search]; now rewrite H. Qed.

Lemma exec_from_at (r : regex) (pre s : jsstring) :
  exec_from r (pre ++ s) (List.length pre) = search r (List.length pre) s.
Proof.
  unfold exec_from. rewrite length_app.
  replace (Nat.leb _ _) with true by (symmetry; apply Nat.leb_le; lia).
  now rewrite skipn_app, skipn_all, Nat.sub_diag.
Qed.

(** The first loop passes over text in which the pattern does not match. *)
Lemma scan_skip (pre s : jsstring) (n fuel : nat) :
  quiet s n -> n <= List.length s ->
  scan_markers fuel (pre ++ s) (List.length pre)
  = scan_markers fuel (pre ++ s) (List.length pre + n).
Proof.
  intros Hq Hn. destruct fuel as [|fuel]; [reflexivity|]. cbn [scan_markers].
  replace (exec_from markerRe (pre ++ s) (List.length pre + n))
    with (exec_from markerRe (pre ++ s) (List.length pre)); [reflexivity|].
  rewrite exec_from_at, (search_skip markerRe n s _ Hq Hn).
  rewrite <- (firstn_skipn n s) at 2. rewrite app_assoc.
  replace (List.length pre + n) with (List.length (pre ++ firstn n s))
    by (rewrite length_app, length_firstn; lia).
  now rewrite exec_from_at.
Qed.

Lemma substring_from_app (A R : jsstring) :
  substring_from (A ++ R) (Z.of_nat (List.length A)) = R.
Proof.
  rewrite substring_from_in_range.
  - now rewrite Nat2Z.id, skipn_app, skipn_all, Nat.sub_diag.
  - unfold Js.length. rewrite length_app. lia.
Qed.

Lemma substring_app_mid (A X R : jsstring) :
  substring (A ++ X ++ R) (Z.of_nat (List.length A))
    (Z.of_nat (List.length A + List.length X)) = X.
Proof.
  rewrite substring_in_range.
  - rewrite !Nat2Z.id, skipn_app, skipn_all, Nat.sub_diag. cbn [skipn app].
    replace (List.length A + List.length X - List.length A)
      with (List.length X) by lia.
    now rewrite firstn_app, firstn_all, Nat.sub_diag, firstn_O, app_nil_r.
  - lia.
  - unfold Js.length. rewrite !length_app. lia.
Qed.

Lemma pieces_count (ps : list Piece) (tail : jsstring) :
  List.length ps <= List.length (pieces_text ps tail).
Proof.
  induction ps as [|p ps IH]; cbn [pieces_text List.length]; [lia|].
  unfold piece_text. rewrite !length_app. cbn [List.length]. lia.
Qed.

Lemma openMarkerRe_fields (d d' : EmbedDirective) :
  kind d = kind d' -> sourcePath d = sourcePath d' ->
  symbolName d = symbolName d' -> openMarkerRe d = openMarkerRe d'.
Proof. intros Hk Hp Hs. unfold openMarkerRe. now rewrite Hk, Hp, Hs. Qed.

(** What [markerRe] finds at the marker of a good piece. *)
Lemma marker_of_piece (env : Env) (md : jsstring) (p : Piece) (rest0 : jsstring)
    (i : nat) :
  good_piece env md p ->
  exists m,
    search markerRe i
      (mark p ++ (LF :: codeBlock (p_kind p) (p_code p)) ++ rest0) = Some m /\
    index m = i /\ matched m = mark p /\
    marker_of m
    = {| om_index := Z.of_nat i;
         om_length := Js.length (mark p);
         om_kind := p_kind p;
         om_sourcePath := p_path p;
         om_symbolName := p_symbol p |}.
Proof.
  intros ((ws1 & ws2 & ws3 & x & ws4 & EM & B1 & B2 & B3 & B4 & Hx & Hh & Hp
           & Hs & Hns) & Hend & _).
  destruct (block_starts (p_kind p) (p_code p)) as [Z HZ].
  destruct backtick_plain as [Hb1 Hb2].
  set (s := mark p ++ (LF :: codeBlock (p_kind p) (p_code p)) ++ rest0).
  assert (Es : s = marker_text ws1 (p_kind p) ws2 ws3 x (p_symbol p) ws4
                     ++ LF :: BACKTICK :: (Z ++ rest0)).
  { unfold s. rewrite EM, HZ. reflexivity. }
  destruct (match_here markerRe s) as [f|] eqn:E.
  2:{ exfalso. rewrite Es in E. revert E. now apply marker_matches_here. }
  pose proof E as E'. rewrite Es in E'.
  apply marker_exact in E' as (Hrest & p' & Hcaps & Htrim); auto;
    [| now rewrite <- EM].
  exists (found i s f). split; [now apply search_hit|].
  split; [reflexivity|].
  assert (Hm : matched (found i s f) = mark p).
  { unfold found. cbn [matched]. rewrite Hrest.
    replace (LF :: BACKTICK :: Z ++ rest0)
      with ((LF :: codeBlock (p_kind p) (p_code p)) ++ rest0)
      by (now rewrite HZ).
    unfold s. apply firstn_consumed. }
  split; [exact Hm|].
  unfold marker_of, group. rewrite Hm. cbn [index groups found].
  rewrite Hcaps. cbn [lookup Nat.eqb]. f_equal.
  - destruct (p_kind p); reflexivity.
  - now rewrite Htrim, Hp.
  - now apply trim_nonspace.
Qed.

(** The markers that the first loop of [findDirectives] finds in a
    laid out document are those of its pieces. *)
Lemma scan_laid_out (env : Env) (md : jsstring) (ps : list Piece)
    (tail : jsstring) :
  laid_out env md ps tail ->
  forall (pre : jsstring) (fuel : nat),
    List.length ps < fuel ->
    scan_markers fuel (pre ++ pieces_text ps tail) (List.length pre)
    = Some (piece_markers (List.length pre) ps).
Proof.
  induction ps as [|p ps IH]; intros Hl pre fuel Hf;
    cbn [laid_out pieces_text piece_markers] in *.
  - destruct fuel as [|fuel]; [cbn in Hf; lia|]. cbn [scan_markers].
    now rewrite exec_from_at, search_none.
  - destruct Hl as (Hq & Hg & Hl).
    destruct fuel as [|fuel]; [cbn in Hf; lia|].
    set (B := LF :: codeBlock (p_kind p) (p_code p)).
    set (R := pieces_text ps tail) in *.
    assert (Hp : piece_text p ++ R = gap p ++ mark p ++ B ++ R).
    { unfold piece_text. now rewrite <- !app_assoc. }
    rewrite (scan_skip pre _ (List.length (gap p)) _ Hq)
      by (rewrite Hp, length_app; lia).
    rewrite Hp. rewrite (app_assoc pre (gap p)).
    replace (List.length pre + List.length (gap p))
      with (List.length (pre ++ gap p)) by (now rewrite length_app).
    cbn [scan_markers]. rewrite exec_from_at.
    destruct (marker_of_piece env md p R (List.length (pre ++ gap p)) Hg)
      as (m & Hm & Hi & Hma & Hmk).
    fold B in Hm. rewrite Hm, Hi, Hma.
    replace (marker_of m) with (piece_marker (List.length pre) p)
      by (rewrite Hmk; unfold piece_marker; now rewrite length_app).
    replace ((pre ++ gap p) ++ mark p ++ B ++ R)
      with (((pre ++ gap p) ++ mark p) ++ B ++ R)
      by (now rewrite <- !app_assoc).
    replace (List.length (pre ++ gap p) + List.length (mark p))
      with (List.length ((pre ++ gap p) ++ mark p))
      by (now rewrite !length_app).
    rewrite (scan_skip _ (B ++ R) (List.length B)).
    + replace (((pre ++ gap p) ++ mark p) ++ B ++ R)
        with ((pre ++ piece_text p) ++ R)
        by (unfold piece_text; fold B; now rewrite <- !app_assoc).
      replace (List.length ((pre ++ gap p) ++ mark p) + List.length B)
        with (List.length (pre ++ piece_text p))
        by (unfold piece_text; fold B; rewrite !length_app; lia).
      rewrite (IH Hl) by (cbn in Hf; lia).
      now rewrite length_app.
    + intros q Hlt. apply block_is_quiet; [apply Hg | exact Hlt].
    + rewrite length_app. lia.
Qed.

(** The directive of a good piece is up to date. *)
Lemma directive_of_piece (env : Env) (md : jsstring) (p : Piece)
    (A g R : jsstring) (next : option OpenMarker) (m : OpenMarker) :
  good_piece env md p ->
  match next with
  | Some m' => om_index m'
  | None => Js.length (A ++ mark p ++ (LF :: codeBlock (p_kind p) (p_code p))
                         ++ g ++ R)
  end
  = Z.of_nat (List.length (A ++ mark p)
              + List.length ((LF :: codeBlock (p_kind p) (p_code p)) ++ g)) ->
  om_index m = Z.of_nat (List.length A) ->
  om_length m = Js.length (mark p) ->
  om_kind m = p_kind p -> om_sourcePath m = p_path p ->
  om_symbolName m = p_symbol p ->
  up_to_date env md
    (A ++ mark p ++ (LF :: codeBlock (p_kind p) (p_code p)) ++ g ++ R)
    (directive_of
       (A ++ mark p ++ (LF :: codeBlock (p_kind p) (p_code p)) ++ g ++ R)
       m next).
Proof.
  intros (_ & _ & (m0 & Hi0 & Hm0 & Hex) & Hcode & Hno) Hnext Hidx Hlen Hk Hpa Hsy.
  set (B := LF :: codeBlock (p_kind p) (p_code p)) in *.
  set (O := A ++ mark p ++ B ++ g ++ R) in *.
  set (d := directive_of O m next).
  assert (HO : O = (A ++ mark p) ++ (B ++ g) ++ R).
  { unfold O. now rewrite <- !app_assoc. }
  assert (Hss : searchStart m = Z.of_nat (List.length (A ++ mark p))).
  { unfold searchStart. rewrite Hidx, Hlen, length_app. unfold Js.length. lia. }
  assert (HB : List.length B
               = List.length (block_head (p_kind p) (p_code p))
                 + List.length (closeTag (p_kind p))).
  { unfold B. now rewrite block_split, length_app. }
  assert (Hend : endIndex d
                 = Z.of_nat (List.length (A ++ mark p) + List.length B)).
  { assert (Hreg : substring O (Z.of_nat (List.length (A ++ mark p)))
                     (Z.of_nat (List.length (A ++ mark p)
                                + List.length (B ++ g))) = B ++ g)
      by (rewrite HO; apply substring_app_mid).
    unfold d, directive_of. cbn [endIndex]. rewrite Hnext, Hss, Hk, Hreg.
    unfold B. rewrite (block_close_tag (p_kind p) (p_code p) g Hno).
    replace (_ =? -1)%Z with false
      by (symmetry; apply Z.eqb_neq; unfold Js.length; lia).
    cbn [negb]. unfold Js.length. fold B. rewrite HB. lia. }
  exists (p_code p), m0.
  split.
  { apply PlainFacts.code_normal. rewrite <- Hcode.
    apply PlainFacts.resolved_same_fields; [exact Hk | exact Hpa | exact Hsy]. }
  split.
  { replace (openMarkerRe d) with (openMarkerRe (piece_directive p))
      by (apply openMarkerRe_fields; symmetry; [exact Hk | exact Hpa | exact Hsy]).
    change (startIndex d) with (om_index m). rewrite Hidx.
    unfold O. rewrite substring_from_app. apply Hex. }
  split; [exact Hi0|].
  change (startIndex d) with (om_index m). change (kind d) with (om_kind m).
  rewrite Hend, Hidx, Hm0, Hk.
  split; [unfold Js.length; rewrite length_app; lia|].
  replace (Z.of_nat (List.length A) + Js.length (mark p))%Z
    with (Z.of_nat (List.length (A ++ mark p)))
    by (unfold Js.length; rewrite length_app; lia).
  replace O with ((A ++ mark p) ++ B ++ g ++ R)
    by (unfold O; now rewrite <- !app_assoc).
  apply substring_app_mid.
Qed.

Lemma hd_piece_markers (off : nat) (ps : list Piece) :
  hd_error (piece_markers off ps)
  = match ps with
    | [] => None
    | p :: _ => Some (piece_marker off p)
    end.
Proof. now destruct ps. Qed.

(** Every directive of a laid out document is up to date. *)
Lemma laid_out_up_to_date (env : Env) (md : jsstring) (ps : list Piece)
    (tail : jsstring) :
  laid_out env md ps tail ->
  forall (pre : jsstring) (d : EmbedDirective),
    In d (second_pass (pre ++ pieces_text ps tail)
            (piece_markers (List.length pre) ps)) ->
    up_to_date env md (pre ++ pieces_text ps tail) d.
Proof.
  induction ps as [|p ps IH]; intros Hl pre d Hd;
    cbn [laid_out pieces_text piece_markers second_pass] in *; [destruct Hd|].
  destruct Hl as (_ & Hg & Hl).
  set (B := LF :: codeBlock (p_kind p) (p_code p)).
  destruct Hd as [<-|Hd].
  - rewrite hd_piece_markers.
    destruct ps as [|p' ps'].
    + cbn [pieces_text].
      replace (pre ++ piece_text p ++ tail)
        with ((pre ++ gap p) ++ mark p ++ B ++ tail ++ [])
        by (unfold piece_text; rewrite <- !app_assoc, app_nil_r; reflexivity).
      apply directive_of_piece; try reflexivity; [exact Hg | |].
      * unfold Js.length. fold B. rewrite !length_app. cbn [List.length]. lia.
      * cbn [om_index piece_marker]. now rewrite length_app.
    + cbn [pieces_text].
      replace (pre ++ piece_text p ++ piece_text p' ++ pieces_text ps' tail)
        with ((pre ++ gap p) ++ mark p ++ B ++ gap p'
                ++ (mark p' ++ (LF :: codeBlock (p_kind p') (p_code p'))
                      ++ pieces_text ps' tail))
        by (unfold piece_text; rewrite <- !app_assoc; reflexivity).
      apply directive_of_piece; try reflexivity; [exact Hg | |].
      * cbn [om_index piece_marker]. unfold piece_text. fold B.
        rewrite !length_app. f_equal. lia.
      * cbn [om_index piece_marker]. now rewrite length_app.
  - rewrite app_assoc. apply IH; [exact Hl|].
    rewrite length_app, <- app_assoc. exact Hd.
Qed.

(** The directives of a laid out document are those of its pieces. *)
Lemma laid_out_directives (env : Env) (md : jsstring) (ps : list Piece)
    (tail : jsstring) :
  laid_out env md ps tail ->
  findDirectives (pieces_text ps tail)
  = second_pass (pieces_text ps tail) (piece_markers 0 ps).
Proof.
  intros Hl. unfold findDirectives, openMarkers.
  pose proof (scan_laid_out env md ps tail Hl []
                (S (List.length (pieces_text ps tail)))) as H.
  cbn [app List.length] in H. rewrite H; [reflexivity|].
  pose proof (pieces_count ps tail). lia.
Qed.

End LayoutFacts.

(** * The text that a run of [plain_run] builds *)

Module RebuildFacts.
Import JsFacts RegexFacts ScanFacts RewriteFacts ItemFacts ParseFacts FindFacts
  TextFacts BlockFacts LayoutFacts.

Lemma sub_cat (s : jsstring) (a b c : Z) :
  (0 <= a <= b)%Z -> (b <= c)%Z -> (c <= Js.length s)%Z ->
  substring s a b ++ substring s b c = substring s a c.
Proof.
  intros Ha Hb Hc. rewrite !substring_in_range by lia.
  unfold Js.length in Hc.
  set (t := skipn (Z.to_nat a) s).
  replace (skipn (Z.to_nat b) s) with (skipn (Z.to_nat b - Z.to_nat a) t)
    by (unfold t; rewrite skipn_skipn; f_equal; lia).
  assert (Hl : List.length (firstn (Z.to_nat b - Z.to_nat a) t)
               = Z.to_nat b - Z.to_nat a).
  { rewrite length_firstn. unfold t. rewrite length_skipn. lia. }
  rewrite <- (firstn_skipn (Z.to_nat b - Z.to_nat a) t) at 3.
  replace (Z.to_nat c - Z.to_nat a)
    with (List.length (firstn (Z.to_nat b - Z.to_nat a) t)
          + (Z.to_nat c - Z.to_nat b)) by lia.
  now rewrite firstn_app_2.
Qed.

Lemma sub_from (s : jsstring) (a : Z) :
  (0 <= a <= Js.length s)%Z -> substring_from s a = substring s a (Js.length s).
Proof.
  intros Ha. rewrite substring_from_in_range, substring_in_range by lia.
  symmetry. apply firstn_all2. rewrite length_skipn. unfold Js.length. lia.
Qed.

Lemma sub_from_cat (s : jsstring) (a b : Z) :
  (0 <= a <= b)%Z -> (b <= Js.length s)%Z ->
  substring s a b ++ substring_from s b = substring_from s a.
Proof.
  intros Ha Hb. rewrite !sub_from by lia. apply sub_cat; lia.
Qed.

Lemma sub_nil (s : jsstring) (a : Z) :
  (0 <= a <= Js.length s)%Z -> substring s a a = [].
Proof.
  intros Ha. rewrite substring_in_range by lia. now rewrite Nat.sub_diag.
Qed.

Lemma sub_length (s : jsstring) (a b : Z) :
  (0 <= a <= b)%Z -> (b <= Js.length s)%Z ->
  Js.length (substring s a b) = (b - a)%Z.
Proof.
  intros Ha Hb. rewrite substring_in_range by lia. unfold Js.length in *.
  rewrite length_firstn, length_skipn. lia.
Qed.

Lemma sub_whole (s : jsstring) : substring s 0 (Js.length s) = s.
Proof.
  rewrite substring_in_range by (pose proof (length_nonneg s); lia).
  cbn [Z.to_nat skipn]. unfold Js.length. rewrite Nat2Z.id, Nat.sub_0_r.
  apply firstn_all.
Qed.

(** The text [substring s 0 nx ++ R] agrees with [s] before [nx]. *)
Lemma kept_prefix (s R : jsstring) (nx : Z) :
  (0 <= nx <= Js.length s)%Z ->
  firstn (Z.to_nat nx) (substring s 0 nx ++ R) = firstn (Z.to_nat nx) s.
Proof.
  intros Hn. rewrite substring_in_range by lia.
  cbn [Z.to_nat skipn]. rewrite Nat.sub_0_r.
  rewrite firstn_app, firstn_firstn, Nat.min_id, length_firstn.
  unfold Js.length in Hn.
  replace (Z.to_nat nx - Nat.min (Z.to_nat nx) (List.length s)) with 0 by lia.
  now rewrite firstn_O, app_nil_r.
Qed.

Lemma kept_from (s R : jsstring) (e nx : Z) :
  (0 <= e <= nx)%Z -> (nx <= Js.length s)%Z ->
  substring_from (substring s 0 nx ++ R) e = substring s e nx ++ R.
Proof.
  intros He Hn.
  assert (Hl : List.length (substring s 0 nx) = Z.to_nat nx).
  { pose proof (sub_length s 0 nx ltac:(lia) Hn) as H. unfold Js.length in H. lia. }
  rewrite substring_from_in_range
    by (unfold Js.length in *; rewrite length_app; lia).
  rewrite skipn_app, Hl.
  replace (Z.to_nat e - Z.to_nat nx) with 0 by lia. cbn [skipn]. f_equal.
  rewrite !substring_in_range by lia. cbn [Z.to_nat skipn].
  rewrite Nat.sub_0_r. apply skipn_firstn_comm.
Qed.

Lemma mem_trim (c : char) (p : jsstring) :
  mem c p = false -> mem c (trim p) = false.
Proof.
  intros H. destruct (trimStart_suffix p) as [ws E].
  destruct (trimEnd_prefix (trimStart p)) as [ws' E'].
  fold (trim p) in E'. rewrite E, E', !mem_concat in H.
  apply orb_false_iff in H as [_ H]. now apply orb_false_iff in H as [H _].
Qed.

(** The text that the pattern of a directive matches at its marker is the
    text that [markerRe] has matched there. *)
Lemma content_marker_same (content : jsstring) (m : OpenMarker)
    (d : EmbedDirective) (m0 : RegExpMatch) :
  from_marker content m ->
  kind d = om_kind m -> sourcePath d = om_sourcePath m ->
  symbolName d = om_symbolName m ->
  exec (openMarkerRe d) (substring_from content (om_index m)) = Some m0 ->
  index m0 = 0 ->
  matched m0 = substring content (om_index m) (searchStart m).
Proof.
  intros (before & ws1 & ws2 & ws3 & p & ws4 & after & Ec & Hb & Hlen & Hp
          & B1 & B2 & B3 & B4 & Hne & Hh & Hsn & Hss) Hk Hpa Hsy Hex Hi.
  set (T := marker_text ws1 (om_kind m) ws2 ws3 p (om_symbolName m) ws4) in *.
  assert (Hsub : substring_from content (om_index m) = T ++ after).
  { rewrite <- Hb, Ec. apply substring_from_app. }
  assert (HT : substring content (om_index m) (searchStart m) = T).
  { unfold searchStart. rewrite <- Hb, Hlen, Ec. unfold Js.length.
    rewrite <- Nat2Z.inj_add. apply substring_app_mid. }
  rewrite HT. rewrite Hsub in Hex.
  destruct (own_match_shape d p _ m0 ltac:(congruence) Hex Hi)
    as (b1 & b2 & b3 & b4 & r & C1 & C2 & C3 & C4 & Em & Er).
  rewrite Em in Er |- *. rewrite Hk, Hpa, Hsy in *. unfold T in Er |- *.
  rewrite !marker_text_split in Er |- *.
  rewrite <- !app_assoc in Er. cbn [app] in Er.
  apply marker_head_same in Er as (_ & _ & Ex & Eh); auto;
    [| rewrite Hp; now apply mem_trim].
  rewrite <- Eh. f_equal. f_equal.
  rewrite <- !app_assoc in Ex. apply app_inv_head in Ex.
  apply (blank_split ws4 b4 (chr "-") (chr "-") (str "->" ++ after)
           (str "->" ++ r)) in Ex as [-> _]; auto.
Qed.

Lemma replace_end_bounds (content : jsstring) (m : OpenMarker)
    (more : list OpenMarker) :
  (0 <= searchStart m <= windowEnd content more)%Z ->
  (windowEnd content more <= Js.length content)%Z ->
  (searchStart m <= replace_end (directive_of content m (hd_error more)) m
   <= windowEnd content more)%Z.
Proof.
  intros H1 H2. unfold replace_end.
  destruct (directive_window content m more H1 H2) as [[E _]|(p & Hp & E & Hle & _)].
  - rewrite E. cbn. lia.
  - pose proof (length_nonneg (closeTag (om_kind m))) as Hn.
    replace (_ =? -1)%Z with false by (symmetry; apply Z.eqb_neq; lia).
    cbn [negb]. lia.
Qed.

Lemma pieces_shift (env : Env) (md content : jsstring) (ms : list OpenMarker)
    (pos : Z) :
  (0 <= pos <= windowEnd content ms)%Z ->
  (windowEnd content ms <= Js.length content)%Z ->
  pieces_text (pieces_of env md content pos ms)
    (substring_from content (tail_pos content pos ms))
  = substring content pos (windowEnd content ms)
      ++ pieces_text (pieces_of env md content (windowEnd content ms) ms)
           (substring_from content (tail_pos content (windowEnd content ms) ms)).
Proof.
  intros H1 H2. destruct ms as [|m more];
    cbn [windowEnd pieces_of pieces_text tail_pos] in *.
  - rewrite (sub_from content (Js.length content)) by lia.
    rewrite sub_nil, app_nil_r by lia. apply sub_from. lia.
  - unfold piece_text. cbn [gap mark p_kind p_code].
    rewrite (sub_nil content (om_index m)) by lia.
    now rewrite <- !app_assoc.
Qed.

(** The rounds for the directives of the markers [post], in descending
    order, leave the text before the first of them and lay out the rest as
    the pieces of [post]. *)
Lemma rounds_rebuild (env : Env) (md content : jsstring) (post : list OpenMarker) :
  forall from,
    (0 <= from)%Z ->
    marker_chain (Js.length content) from post ->
    Forall (from_marker content) post ->
    (forall d, In d (second_pass content post) -> rewritable env md content d) ->
    fold_left (plain_round env md) (rev (second_pass content post)) (content, [])
    = (substring content 0 (windowEnd content post)
         ++ pieces_text (pieces_of env md content (windowEnd content post) post)
              (substring_from content
                 (tail_pos content (windowEnd content post) post)),
       []).
Proof.
  induction post as [|m more IH]; intros from Hfrom Hch Hfm Hrw.
  - cbn [second_pass rev fold_left windowEnd pieces_of pieces_text tail_pos].
    rewrite sub_whole.
    rewrite (sub_from content (Js.length content))
      by (pose proof (length_nonneg content); lia).
    rewrite sub_nil by (pose proof (length_nonneg content); lia).
    now rewrite app_nil_r.
  - inversion Hch as [|? ? ? H1 H2 H3 H4]; subst.
    inversion Hfm as [|? ? Hm Hfm']; subst.
    cbn [second_pass rev]. rewrite fold_left_app.
    rewrite (IH (om_index m + om_length m)%Z); try assumption; try lia;
      [| intros x Hx; apply Hrw; now right].
    cbn [fold_left windowEnd].
    set (d := directive_of content m (hd_error more)) in *.
    set (nx := windowEnd content more).
    set (R := pieces_text (pieces_of env md content nx more)
                (substring_from content (tail_pos content nx more))).
    destruct (Hrw d (or_introl eq_refl)) as (c & m0 & Hc & Hex & Hi & Hend & Hno).
    apply PlainFacts.code_normal in Hc.
    change (startIndex d) with (om_index m) in Hex.
    assert (Hw : (om_index m + om_length m <= nx <= Js.length content)%Z).
    { apply chain_window_end; [lia | exact H4]. }
    pose proof (content_marker_same content m d m0 Hm eq_refl eq_refl eq_refl
                  Hex Hi) as Hsame.
    assert (Hlen : Js.length (matched m0) = om_length m).
    { rewrite Hsame, sub_length; unfold searchStart; lia. }
    pose proof (replace_end_bounds content m more
                  ltac:(unfold searchStart; fold nx; lia) ltac:(fold nx; lia))
      as Hre.
    fold d in Hre. fold nx in Hre. unfold searchStart in Hre.
    destruct Hm as (_ & _ & _ & _ & x & _ & _ & _ & _ & _ & Hx & _).
    unfold plain_round. rewrite (PlainFacts.resolved_code_no_error env d md c Hc).
    assert (Hown : own_marker_matched content nx d = true).
    { unfold own_marker_matched. change (startIndex d) with (om_index m).
      rewrite Hex, Hi. cbn [Nat.eqb andb]. apply Z.leb_le. lia. }
    rewrite (rematch_stable d content (substring content 0 nx ++ R) nx x Hx
               ltac:(change (startIndex d) with (om_index m); lia)
               ltac:(lia) (kept_prefix content R nx ltac:(lia)) Hown).
    change (startIndex d) with (om_index m). rewrite Hex. f_equal.
    unfold splice, code_text. rewrite Hc, Hi.
    change (startIndex d) with (om_index m). change (kind d) with (om_kind m).
    replace (om_index m + Z.of_nat 0 + Js.length (matched m0))%Z
      with (searchStart m) by (unfold searchStart; lia).
    change (if negb (endIndex d =? -1)%Z then endIndex d else searchStart m)
      with (replace_end d m).
    rewrite (substring_agree content _ nx) by
      (try apply kept_prefix; unfold searchStart; lia).
    rewrite kept_from by lia.
    cbn [pieces_of pieces_text tail_pos]. fold d.
    rewrite (pieces_shift env md content more (replace_end d m))
      by (fold nx; lia).
    fold nx. fold R. unfold piece_text. cbn [gap mark p_kind p_code].
    rewrite (sub_nil content (om_index m)) by lia.
    unfold code_text. rewrite Hc.
    rewrite <- (sub_cat content 0 (om_index m) (searchStart m))
      by (unfold searchStart; lia).
    cbn [app]. now rewrite <- !app_assoc.
Qed.

Lemma from_marker_mark (content : jsstring) (m : OpenMarker) :
  from_marker content m ->
  exists ws1 ws2 ws3 x ws4,
    substring content (om_index m) (searchStart m)
    = marker_text ws1 (om_kind m) ws2 ws3 x (om_symbolName m) ws4 /\
    blank ws1 /\ blank ws2 /\ blank ws3 /\ blank ws4 /\
    x <> [] /\ mem (chr "#") x = false /\ om_sourcePath m = trim x /\
    om_symbolName m <> [] /\ forallb cls_S (om_symbolName m) = true.
Proof.
  intros (before & ws1 & ws2 & ws3 & p & ws4 & after & Ec & Hb & Hlen & Hp
          & B1 & B2 & B3 & B4 & Hne & Hh & Hsn & Hss).
  exists ws1, ws2, ws3, p, ws4. split; [|repeat split; assumption].
  unfold searchStart. rewrite <- Hb, Hlen. rewrite Ec at 1. unfold Js.length.
  rewrite <- Nat2Z.inj_add. apply substring_app_mid.
Qed.

(** The pieces of a document whose directives can all be rewritten in place
    are laid out. *)
Lemma content_laid_out (env : Env) (md content : jsstring)
    (post : list OpenMarker) :
  forall (fuel from : nat) (pos : Z),
    scan_markers fuel content from = Some post ->
    from <= List.length content ->
    (Z.of_nat from <= pos <= windowEnd content post)%Z ->
    (forall d, In d (second_pass content post) -> rewritable env md content d) ->
    laid_out env md (pieces_of env md content pos post)
      (substring_from content (tail_pos content pos post)).
Proof.
  induction post as [|m0 more IH]; intros fuel from pos Hscan Hfrom Hpos Hrw.
  - destruct fuel as [|fuel]; [discriminate|]. cbn [scan_markers] in Hscan.
    destruct (exec_from markerRe content from) as [mm|] eqn:E.
    { destruct (scan_markers fuel content _); discriminate. }
    unfold exec_from in E.
    replace (Nat.leb from (List.length content)) with true in E
      by (symmetry; now apply Nat.leb_le).
    cbn [pieces_of tail_pos laid_out windowEnd] in *. intros q.
    rewrite substring_from_in_range by lia. rewrite skipn_skipn.
    replace (q + Z.to_nat pos) with ((q + Z.to_nat pos - from) + from) by lia.
    rewrite <- skipn_skipn. eapply search_none_all, E.
  - pose proof (scan_markers_chain _ _ _ _ Hscan) as Hch.
    pose proof (scan_markers_from_marker _ _ _ _ Hscan) as Hfm.
    inversion Hch as [|? ? ? H1 H2 H3 H4]; subst.
    inversion Hfm as [|? ? Hm Hfm']; subst.
    destruct fuel as [|fuel]; [discriminate|]. cbn [scan_markers] in Hscan.
    destruct (exec_from markerRe content from) as [mm|] eqn:E; [|discriminate].
    destruct (scan_markers fuel content _) as [ms'|] eqn:E'; [|discriminate].
    injection Hscan as Hmm Hms. subst ms'.
    cbn [windowEnd] in Hpos.
    assert (Hidx : om_index m0 = Z.of_nat (index mm)) by (now rewrite <- Hmm).
    assert (Hml : om_length m0 = Js.length (matched mm)) by (now rewrite <- Hmm).
    unfold exec_from in E.
    replace (Nat.leb from (List.length content)) with true in E
      by (symmetry; now apply Nat.leb_le).
    pose proof (search_first _ _ _ _ E) as Hfirst.
    cbn [pieces_of tail_pos laid_out].
    set (d := directive_of content m0 (hd_error more)) in *.
    destruct (Hrw d (or_introl eq_refl)) as (c & m1 & Hc & Hex & Hi & Hend & Hno).
    apply PlainFacts.code_normal in Hc.
    change (startIndex d) with (om_index m0) in Hex.
    pose proof (content_marker_same content m0 d m1 Hm eq_refl eq_refl eq_refl
                  Hex Hi) as Hsame.
    assert (Hw : (om_index m0 + om_length m0 <= windowEnd content more
                  <= Js.length content)%Z).
    { apply chain_window_end; [lia | exact H4]. }
    pose proof (replace_end_bounds content m0 more
                  ltac:(unfold searchStart; lia) ltac:(lia)) as Hre.
    fold d in Hre. unfold searchStart in Hre.
    destruct (from_marker_mark content m0 Hm)
      as (ws1 & ws2 & ws3 & x & ws4 & EM & B1 & B2 & B3 & B4 & Hx & Hh & Hp
          & Hs & Hns).
    set (R := pieces_text (pieces_of env md content (replace_end d m0) more)
                (substring_from content (tail_pos content (replace_end d m0) more))).
    split; [|split].
    + intros q Hq. cbn [gap] in Hq. unfold piece_text.
      cbn [gap mark p_kind p_code].
      set (G := substring content pos (om_index m0)) in *.
      set (M := substring content (om_index m0) (searchStart m0)) in *.
      assert (HG : List.length G = Z.to_nat (om_index m0) - Z.to_nat pos).
      { pose proof (sub_length content pos (om_index m0) ltac:(lia) ltac:(lia)) as H.
        fold G in H. unfold Js.length in H. lia. }
      destruct (match_here markerRe _) as [f|] eqn:Ef; [exfalso | reflexivity].
      destruct (block_starts (om_kind m0) (code_text (resolved env d md)))
        as [Z HZ].
      destruct backtick_plain as [Hb1 Hb2].
      assert (Hsk : skipn q ((G ++ M ++ LF :: codeBlock (om_kind m0)
                                (code_text (resolved env d md))) ++ R)
                    = (skipn q G ++ M) ++ LF :: BACKTICK :: (Z ++ R)).
      { rewrite <- !app_assoc. rewrite skipn_app.
        replace (q - List.length G) with 0 by lia. cbn [skipn].
        rewrite <- ?app_assoc. do 2 f_equal. now rewrite HZ. }
      rewrite Hsk in Ef.
      assert (Hhash : mem (chr "#") (skipn q G ++ M) = true).
      { rewrite mem_concat. apply orb_true_iff. right. rewrite EM.
        apply marker_text_has_hash. }
      apply (match_before_fence (skipn q G ++ M) BACKTICK (Z ++ R)
               (substring_from content (searchStart m0))
               Hhash Hb1 Hb2 ltac:(rewrite Ef; discriminate)).
      replace ((skipn q G ++ M) ++ substring_from content (searchStart m0))
        with (skipn (Z.to_nat pos + q - from) (skipn from content)).
      * apply Hfirst. lia.
      * rewrite skipn_skipn.
        replace (Z.to_nat pos + q - from + from) with (q + Z.to_nat pos) by lia.
        rewrite <- skipn_skipn, <- substring_from_in_range by lia.
        rewrite <- (sub_from_cat content pos (om_index m0)) by lia.
        fold G. rewrite skipn_app.
        replace (q - List.length G) with 0 by lia. cbn [skipn].
        rewrite <- app_assoc. f_equal. unfold M. symmetry.
        apply sub_from_cat; unfold searchStart; lia.
    + unfold good_piece. cbn [mark p_kind p_path p_symbol p_code].
      split; [now exists ws1, ws2, ws3, x, ws4|].
      split; [now rewrite <- Hsame|].
      split.
      * exists m1. split; [exact Hi|]. split; [exact Hsame|]. intros r.
        rewrite <- Hsame.
        replace (openMarkerRe (piece_directive _)) with (openMarkerRe d)
          by (now apply openMarkerRe_fields).
        rewrite openMarkerRe_items in *.
        eapply exec_items_stable;
          [eapply openMarkerItems_delimited; exact Hp | exact Hex | exact Hi].
      * split.
        -- rewrite (PlainFacts.resolved_same_fields env _ d) by reflexivity.
           unfold code_text. now rewrite Hc.
        -- unfold code_text. now rewrite Hc.
    + apply (IH fuel (index mm + List.length (matched mm))).
      * exact E'.
      * unfold Js.length in *. lia.
      * unfold Js.length in *. lia.
      * intros y Hy. apply Hrw. now right.
Qed.

(** [applyEmbeds] returns a laid out document as it is. *)
Lemma laid_out_fixed (env : Env) (md : jsstring) (ps : list Piece)
    (tail : jsstring) :
  laid_out env md ps tail ->
  applyEmbeds env (pieces_text ps tail) md = Normal (pieces_text ps tail, []).
Proof.
  intros Hl. apply FixFacts.up_to_date_run. intros d Hd.
  rewrite (laid_out_directives env md) in Hd by exact Hl.
  apply (laid_out_up_to_date env md ps tail Hl [] d Hd).
Qed.

(** A way to check that the comment closer stands only at the end. *)
Lemma closer_check (M : jsstring) :
  find_from (str "-->") M 0 = Some (List.length M - 3) -> closer_at_end M.
Proof.
  intros H P Q E. apply find_from_some in H as (k & Hk & _ & _ & Hmin).
  cbn [Nat.add] in Hk. subst k.
  assert (Hs : startsWith (skipn (List.length P) M) (str "-->") = true).
  { rewrite E, skipn_app, skipn_all, Nat.sub_diag. cbn [skipn app].
    apply startsWith_app. now exists Q. }
  assert (Hge : ~ List.length P < List.length M - 3).
  { intros Hlt. rewrite (Hmin _ Hlt) in Hs. discriminate. }
  apply (f_equal (@List.length _)) in E. rewrite !length_app in E.
  cbn [List.length str] in E. destruct Q; [reflexivity|].
  cbn [List.length] in E. lia.
Qed.

End RebuildFacts.

(** X24.  When every directive of a document can be rewritten in place,
    that is resolves to a code that holds no comment opener and has a marker
    that its own pattern matches where it stands, with the comment closer
    only at the end of the match, [applyEmbeds] returns with no error, and a
    second run on its output returns that output as it is, with no error. *)
Theorem second_run_changes_nothing (env : Env) (content md : jsstring) :
  (forall d, In d (findDirectives content) -> rewritable env md content d) ->
  exists once,
    applyEmbeds env content md = Normal once /\
    errors once = [] /\
    applyEmbeds env (output once) md = Normal (output once, []).
Proof.
  intros Hrw. exists (plain_run env content md).
  split.
  { apply RewriteMore.run_returns. intros d Hd.
    destruct (Hrw d Hd) as (c & m & Hc & _). eexists. exact Hc. }
  rewrite RewriteMore.applyEmbeds_fold. unfold findDirectives in *.
  pose proof (ScanFacts.openMarkers_chain content) as Hch.
  pose proof (ScanFacts.openMarkers_scan content) as Hscan.
  pose proof (ParseFacts.scan_markers_from_marker _ _ _ _ Hscan) as Hfm.
  pose proof (ScanFacts.chain_window_end content 0 (openMarkers content)
                (JsFacts.length_nonneg content) Hch) as Hw.
  rewrite (RebuildFacts.rounds_rebuild env md content (openMarkers content) 0
             ltac:(lia) Hch Hfm Hrw).
  unfold errors, output. cbn [fst snd]. split; [reflexivity|].
  rewrite <- (RebuildFacts.pieces_shift env md content (openMarkers content) 0)
    by lia.
  apply RebuildFacts.laid_out_fixed.
  apply (RebuildFacts.content_laid_out env md content (openMarkers content)
           (S (List.length content)) 0 0 Hscan); [lia | cbn; lia | exact Hrw].
Qed.

(** Both directives of [RerunSamples.stale] resolve to the class [Foo]; the
    second marker holds more than one blank around its fields. *)
Lemma second_run_changes_nothing_witness :
  exists once,
    applyEmbeds Samples.env RerunSamples.stale Samples.md = Normal once /\
    errors once = [] /\
    applyEmbeds Samples.env (output once) Samples.md = Normal (output once, []).
Proof.
  apply second_run_changes_nothing. intros d Hd.
  assert (H : findDirectives RerunSamples.stale
              = [ {| kind := cs; sourcePath := str "foo.cs";
                     symbolName := str "Foo"; lineNumber := 2;
                     startIndex := 8; endIndex := 60 |};
                  {| kind := cs; sourcePath := str "foo.cs";
                     symbolName := str "Foo"; lineNumber := 6;
                     startIndex := 69; endIndex := -1 |} ])
    by (vm_compute; reflexivity).
  rewrite H in Hd. destruct Hd as [<-|[<-|[]]].
  - exists Samples.fooSource,
      {| index := 0; matched := str "<!-- cs-embed: foo.cs#Foo -->";
         groups := [] |}.
    split; [vm_compute; reflexivity|]. split; [vm_compute; reflexivity|].
    split; [reflexivity|]. split.
    + apply RebuildFacts.closer_check. vm_compute. reflexivity.
    + apply ScanMore.indexOf_none. vm_compute. reflexivity.
  - exists Samples.fooSource,
      {| index := 0; matched := str "<!-- cs-embed:  foo.cs#Foo   -->";
         groups := [] |}.
    split; [vm_compute; reflexivity|]. split; [vm_compute; reflexivity|].
    split; [reflexivity|]. split.
    + apply RebuildFacts.closer_check. vm_compute. reflexivity.
    + apply ScanMore.indexOf_none. vm_compute. reflexivity.
Defined.

Import PlainFacts RewriteMore.

(** X25.  The directives are processed from the last of the document to
    the first.  When the round of a directive [d] begins, whatever the
    earlier rounds inserted, the text still agrees with the original text up
    to the start of the directive that follows [d] in the document (the end
    of the text for the last directive), and the stored offsets of [d] lie in
    that part: they denote in the current text what they denoted in the
    original. *)
Theorem stored_offsets_stay_valid (env : Env) (content md : jsstring)
    (done : list EmbedDirective) (d : EmbedDirective) (todo : list EmbedDirective)
    (before : jsstring * list ErrorReport) :
  sorted_directives (findDirectives content) = done ++ d :: todo ->
  embed_rounds env md done (content, []) = Normal before ->
  let next := match rev done with
              | d' :: _ => startIndex d'
              | [] => Js.length content
              end in
  sorted_directives (findDirectives content) = rev (findDirectives content) /\
  (0 <= startIndex d < next)%Z /\ (-1 <= endIndex d <= next)%Z /\
  (next <= Js.length content)%Z /\
  Forall (fun d' => (next <= startIndex d')%Z) done /\
  firstn (Z.to_nat next) (fst before) = firstn (Z.to_nat next) content /\
  (forall a b, (0 <= a <= b)%Z -> (b <= next)%Z ->
               substring (fst before) a b = substring content a b).
Proof.
  intros Hsplit Hb next.
  apply embed_rounds_normal in Hb as [_ ->].
  destruct (offsets_at_round_start env md content done d todo Hsplit)
    as (H1 & H2 & H3 & Hall & Hpre).
  change (window_limit content done) with next in H1, H2, H3, Hall, Hpre.
  unfold text_after in Hpre.
  split; [apply sorted_is_rev|].
  repeat (split; [assumption|]).
  intros a b Hab Hle. apply substring_agree with (w := next); auto.
Qed.

(** In [Samples.twoResolved] the second directive is rewritten first; the
    text of the first directive is then still where its offsets say. *)
Lemma stored_offsets_stay_valid_witness :
  sorted_directives (findDirectives Samples.twoResolved)
  = [Samples.secondResolved] ++ Samples.firstResolved :: [] /\
  exists before,
    embed_rounds Samples.env Samples.md [Samples.secondResolved]
      (Samples.twoResolved, []) = Normal before /\
    fst before <> Samples.twoResolved /\
    substring (fst before) 0 52 = substring Samples.twoResolved 0 52.
Proof.
  assert (H : sorted_directives (findDirectives Samples.twoResolved)
              = [Samples.secondResolved] ++ Samples.firstResolved :: [])
    by (vm_compute; reflexivity).
  split; [exact H|].
  exists (plain_round Samples.env Samples.md (Samples.twoResolved, [])
            Samples.secondResolved).
  assert (Hb : embed_rounds Samples.env Samples.md [Samples.secondResolved]
                 (Samples.twoResolved, [])
               = Normal (plain_round Samples.env Samples.md
                           (Samples.twoResolved, []) Samples.secondResolved))
    by (vm_compute; reflexivity).
  split; [exact Hb|]. split.
  - intros E. apply (f_equal (@List.length _)) in E. vm_compute in E.
    discriminate E.
  - pose proof (stored_offsets_stay_valid Samples.env Samples.twoResolved
                  Samples.md [Samples.secondResolved] Samples.firstResolved []
                  _ H Hb) as (_ & _ & _ & _ & _ & _ & Hsub).
    apply Hsub; [lia|]. vm_compute. discriminate.
Defined.

(** X26.  The round of a directive for which [resolveEmbed] returns an
    error leaves the text as it is and appends exactly one report, made of
    the document path, the line number, the reason and the source reference.
    The text that [applyEmbeds] returns is the one that the other directives
    give without it, and the error list is theirs with that one report in
    its place. *)
Theorem failed_round_only_reports (env : Env) (content md : jsstring)
    (done : list EmbedDirective) (d : EmbedDirective) (todo : list EmbedDirective)
    (before : jsstring * list ErrorReport) (r : EmbedResult)
    (out : jsstring * list ErrorReport) :
  sorted_directives (findDirectives content) = done ++ d :: todo ->
  embed_rounds env md done (content, []) = Normal before ->
  resolveEmbed env d md = Normal r ->
  has_error r = true ->
  applyEmbeds env content md = Normal out ->
  let report :=
    {| mdFile := path_resolve1 env md;
       er_lineNumber := lineNumber d;
       reason := error_text r;
       er_sourcePath := sourcePath d;
       er_symbolName := symbolName d |} in
  embed_round env md before d = Normal (fst before, snd before ++ [report]) /\
  exists out' later,
    embed_rounds env md (done ++ todo) (content, []) = Normal out' /\
    output out = output out' /\
    errors out' = errors before ++ later /\
    errors out = errors before ++ [report] ++ later.
Proof.
  intros Hs Hb Hr He Ho report.
  assert (Hround : embed_round env md before d
                   = Normal (fst before, snd before ++ [report])).
  { unfold embed_round. destruct before as [t e]. now rewrite Hr, He. }
  split; [exact Hround|].
  pose proof Hb as Hb'. apply embed_rounds_normal in Hb' as [Hdone Eb].
  apply applyEmbeds_normal in Ho as [Hall ->].
  rewrite Hs, forallb_app in Hall. apply andb_true_iff in Hall as [_ Hall].
  cbn [forallb] in Hall. apply andb_true_iff in Hall as [Hd Htodo].
  assert (Hp : plain_round env md before d = (fst before, snd before ++ [report])).
  { pose proof (embed_round_returns env md before d Hd) as E.
    rewrite Hround in E. now injection E as <-. }
  exists (fold_left (plain_round env md) (done ++ todo) (content, [])),
    (map (report_for env md) (filter (failed env md) todo)).
  split.
  { apply embed_rounds_returns. rewrite forallb_app. now rewrite Hdone, Htodo. }
  rewrite plain_run_rounds, Hs, !fold_left_app. cbn [fold_left].
  rewrite <- Eb, Hp. unfold output, errors. destruct before as [t e].
  cbn [fst snd].
  split; [apply fold_rounds_text|]. split.
  - apply fold_rounds_errors.
  - rewrite fold_rounds_errors. now rewrite <- app_assoc.
Qed.

(** In [Samples.twoDirectives] the second directive names a symbol that
    does not exist: it is reported once, and the first directive is
    rewritten as it is without it. *)
Lemma failed_round_only_reports_witness :
  sorted_directives (findDirectives Samples.twoDirectives)
  = [] ++ Samples.missingDirective :: [Samples.fooDirective] /\
  exists r out out',
    resolveEmbed Samples.env Samples.missingDirective Samples.md = Normal r /\
    has_error r = true /\
    applyEmbeds Samples.env Samples.twoDirectives Samples.md = Normal out /\
    embed_rounds Samples.env Samples.md [Samples.fooDirective]
      (Samples.twoDirectives, []) = Normal out' /\
    output out = output out' /\
    output out <> Samples.twoDirectives /\
    List.length (errors out) = 1.
Proof.
  assert (H1 : sorted_directives (findDirectives Samples.twoDirectives)
               = [] ++ Samples.missingDirective :: [Samples.fooDirective])
    by (vm_compute; reflexivity).
  split; [exact H1|].
  assert (Hr : resolveEmbed Samples.env Samples.missingDirective Samples.md
               = Normal (resolved Samples.env Samples.missingDirective Samples.md))
    by (vm_compute; reflexivity).
  assert (He : has_error (resolved Samples.env Samples.missingDirective Samples.md)
               = true) by (vm_compute; reflexivity).
  assert (Ho : applyEmbeds Samples.env Samples.twoDirectives Samples.md
               = Normal (plain_run Samples.env Samples.twoDirectives Samples.md))
    by (vm_compute; reflexivity).
  destruct (failed_round_only_reports Samples.env Samples.twoDirectives Samples.md
              [] Samples.missingDirective [Samples.fooDirective]
              (Samples.twoDirectives, []) _ _ H1 eq_refl Hr He Ho)
    as (_ & out' & later & Hout' & Heq & _ & _).
  eexists _, _, out'. split; [exact Hr|]. split; [exact He|].
  split; [exact Ho|]. split; [exact Hout'|]. split; [exact Heq|]. split.
  - intros E. apply (f_equal (@List.length _)) in E. vm_compute in E.
    discriminate E.
  - vm_compute. reflexivity.
Defined.

Import CsFacts.

Module ExtentFacts.

Lemma trimStart_first_nonspace (s : jsstring) (c : char) (t : jsstring) :
  trimStart s = c :: t -> is_space c = false.
Proof.
  induction s as [|x s IH]; cbn [trimStart]; [discriminate|].
  destruct (is_space x) eqn:E; [exact IH|]. intros [= <- _]. exact E.
Qed.

Lemma trimStart_split (s : jsstring) :
  s = firstn (List.length s - List.length (trimStart s)) s ++ trimStart s.
Proof.
  induction s as [|x s IH]; [reflexivity|]. cbn [trimStart].
  destruct (is_space x).
  - pose proof (trimStart_length s).
    replace (List.length (x :: s) - List.length (trimStart s))
      with (S (List.length s - List.length (trimStart s)))
      by (cbn [List.length]; lia).
    cbn [firstn app]. now rewrite <- IH.
  - now rewrite Nat.sub_diag.
Qed.

(** Where the declaration starts inside the preamble [p1] that stands in
    the source after [pre]. *)
Lemma declStart_in_preamble (pre p1 rest : jsstring) :
  let k := List.length p1 - List.length (trimStart p1) in
  firstn k (skipn (List.length pre) (pre ++ p1 ++ rest)) = firstn k p1 /\
  forallb is_space (firstn k p1) = true /\
  (k < List.length p1 ->
   exists c, nth_error (pre ++ p1 ++ rest) (List.length pre + k) = Some c /\
             is_space c = false).
Proof.
  intros k. pose proof (trimStart_length p1) as Hl.
  split.
  { rewrite skipn_app, skipn_all, Nat.sub_diag. cbn [skipn app].
    rewrite firstn_app. replace (k - List.length p1) with 0 by lia.
    cbn [firstn]. now rewrite app_nil_r. }
  split; [apply leading_space|].
  intros Hk. destruct (trimStart p1) as [|c t] eqn:E.
  { cbn [List.length] in *. subst k. lia. }
  exists c. split; [|eapply trimStart_first_nonspace; exact E].
  rewrite nth_error_app2 by lia.
  replace (List.length pre + k - List.length pre) with k by lia.
  rewrite nth_error_app1 by lia.
  rewrite (trimStart_split p1) at 1. rewrite E. fold k.
  rewrite nth_error_app2 by (rewrite length_firstn; lia).
  rewrite length_firstn.
  replace (k - Nat.min k (List.length p1)) with 0 by lia. reflexivity.
Qed.

End ExtentFacts.

(** X27.  After a match of the type-level header pattern, the captured
    preamble of doc comments and attributes stands in the source where the
    match starts, and the declaration starts at the first character of the
    preamble that is not white space, or at its end when there is none, so
    that the indentation of a declaration without preamble is kept.  The
    terminator is chosen between the next opening brace and the next
    semicolon of the raw text from the end of the match on.  When the
    semicolon comes first, or there is no brace, the result is the text from
    the declaration start through that semicolon.  Otherwise, when there is a
    brace, the result is the text from the declaration start through the
    closing brace that the balanced scan from that brace returns, and none
    when the scan finds no closing brace; when there is neither brace nor
    semicolon there is no result. *)
Theorem type_declaration_extent (source symbolName : jsstring)
    (m : RegExpMatch) :
  exec (declPattern symbolName) source = Some m ->
  let preamble := group m 1 in
  let start := Z.of_nat (index m) in
  let declStart := declStart_of m in
  let afterMatch := (start + Js.length (matched m))%Z in
  let braceStart := indexOf source (str "{") afterMatch in
  let semiStart := indexOf source (str ";") afterMatch in
  let endIdx := findMatchingBrace source braceStart in
  let semicolon_first :=
    semiStart <> (-1)%Z /\ (braceStart = (-1)%Z \/ (semiStart < braceStart)%Z) in
  substring source start (start + Js.length preamble) = preamble /\
  (start <= declStart <= start + Js.length preamble)%Z /\
  (start + Js.length preamble <= afterMatch)%Z /\
  forallb is_space (substring source start declStart) = true /\
  ((declStart < start + Js.length preamble)%Z ->
   exists c, nth_error source (Z.to_nat declStart) = Some c /\
             is_space c = false) /\
  first_at source LBRACE afterMatch braceStart /\
  first_at source SEMICOLON afterMatch semiStart /\
  (semicolon_first ->
     extractCsSymbol_in source symbolName
     = Some (substring source declStart semiStart ++ [SEMICOLON])) /\
  (~ semicolon_first -> braceStart = (-1)%Z ->
     extractCsSymbol_in source symbolName = None) /\
  (~ semicolon_first -> braceStart <> (-1)%Z -> endIdx = (-1)%Z ->
     extractCsSymbol_in source symbolName = None) /\
  (~ semicolon_first -> braceStart <> (-1)%Z -> endIdx <> (-1)%Z ->
     extractCsSymbol_in source symbolName
     = Some (substring source declStart endIdx ++ [RBRACE]) /\
     closes_at source (Z.to_nat braceStart) (Z.to_nat endIdx)).
Proof.
  intros Hm preamble start declStart afterMatch braceStart semiStart endIdx
    semicolon_first.
  destruct (exec_declPattern_shape _ _ _ Hm)
    as (pre & p1 & p2 & post & Hs & Hi & Hmt & Hg).
  pose proof (trimStart_length p1) as Hp1.
  destruct (ExtentFacts.declStart_in_preamble pre p1 (p2 ++ post))
    as (Hfirst & Hblank & Hnon).
  cbv zeta in Hfirst, Hnon.
  assert (Hd : Z.to_nat declStart
               = List.length pre + (List.length p1 - List.length (trimStart p1))).
  { unfold declStart, declStart_of. rewrite Hg, Hi. unfold Js.length. lia. }
  assert (Hstart : Z.to_nat start = List.length pre) by (unfold start; lia).
  assert (Hlen : Js.length source
                 = Z.of_nat (List.length pre + List.length p1 + List.length p2
                             + List.length post)).
  { rewrite Hs. unfold Js.length. rewrite !length_app. lia. }
  assert (Hafter : afterMatch
                   = Z.of_nat (List.length pre + List.length p1 + List.length p2)).
  { unfold afterMatch, start. rewrite Hmt, Hi. unfold Js.length.
    rewrite length_app. lia. }
  assert (Hpl : Js.length preamble = Z.of_nat (List.length p1)).
  { unfold preamble. now rewrite Hg. }
  assert (Hdz : declStart
                = Z.of_nat (List.length pre
                            + (List.length p1 - List.length (trimStart p1)))).
  { unfold declStart, declStart_of. rewrite Hg, Hi. unfold Js.length. lia. }
  split.
  { rewrite substring_in_range by (unfold start in *; lia).
    rewrite Hstart, Hpl. unfold preamble. rewrite Hg, Hs.
    rewrite skipn_app, skipn_all, Nat.sub_diag. cbn [skipn app].
    replace (Z.to_nat (start + Z.of_nat (List.length p1)) - List.length pre)
      with (List.length p1) by (unfold start; lia).
    rewrite firstn_app, Nat.sub_diag, firstn_all. cbn [firstn].
    now rewrite app_nil_r. }
  split; [unfold start in *; lia|]. split; [unfold start in *; lia|].
  split.
  { rewrite substring_in_range by (unfold start in *; lia).
    rewrite Hstart, Hd, Hs.
    replace (List.length pre + (List.length p1 - List.length (trimStart p1))
             - List.length pre)
      with (List.length p1 - List.length (trimStart p1)) by lia.
    rewrite Hfirst. exact Hblank. }
  split.
  { intros Hlt. rewrite Hd, Hs. apply Hnon. unfold start in *. lia. }
  pose proof (indexOf_char source LBRACE afterMatch) as Hb.
  pose proof (indexOf_char source SEMICOLON afterMatch) as Hsemi.
  change [LBRACE] with (str "{") in Hb. change [SEMICOLON] with (str ";") in Hsemi.
  fold braceStart in Hb. fold semiStart in Hsemi.
  split; [exact Hb|]. split; [exact Hsemi|].
  assert (Hbounds : (0 <= declStart <= afterMatch)%Z) by lia.
  assert (Hcode : extractCsSymbol_in source symbolName
    = if negb (semiStart =? -1)%Z
         && ((braceStart =? -1)%Z || (semiStart <? braceStart)%Z)
      then Some (trimEnd (substring source declStart (semiStart + 1)))
      else if (braceStart =? -1)%Z then None
      else if (endIdx =? -1)%Z then None
      else Some (trimEnd (substring source declStart (endIdx + 1)))).
  { unfold extractCsSymbol_in. now rewrite Hm. }
  assert (Hcond : negb (semiStart =? -1)%Z
                  && ((braceStart =? -1)%Z || (semiStart <? braceStart)%Z) = true
                  <-> semicolon_first).
  { unfold semicolon_first.
    rewrite andb_true_iff, negb_true_iff, orb_true_iff, Z.eqb_neq, Z.eqb_eq,
      Z.ltb_lt. reflexivity. }
  split; [|split; [|split]].
  - intros Hsf. rewrite Hcode. rewrite (proj2 Hcond Hsf).
    destruct Hsf as [Hne _].
    destruct Hsemi as [[? _]|(H0 & Hfrom & Hat & _)]; [contradiction|].
    rewrite <- (Z2Nat.id semiStart) at 1 2 by lia.
    rewrite substring_last with (c := SEMICOLON); [|lia | exact Hat].
    rewrite trimEnd_last by reflexivity. now rewrite Z2Nat.id by lia.
  - intros Hnsf Hb1. rewrite Hcode.
    destruct (negb _ && _) eqn:E; [exfalso; apply Hnsf, Hcond; reflexivity|].
    apply Z.eqb_eq in Hb1. now rewrite Hb1.
  - intros Hnsf Hb1 He. rewrite Hcode.
    destruct (negb _ && _) eqn:E; [exfalso; apply Hnsf, Hcond; reflexivity|].
    apply Z.eqb_neq in Hb1. rewrite Hb1. apply Z.eqb_eq in He. now rewrite He.
  - intros Hnsf Hb1 He. rewrite Hcode.
    destruct (negb _ && _) eqn:E; [exfalso; apply Hnsf, Hcond; reflexivity|].
    destruct Hb as [[? _]|(H0 & Hfrom & Hat & _)]; [contradiction|].
    apply Z.eqb_neq in Hb1. rewrite Hb1.
    pose proof (BraceFacts.findMatchingBrace_closes source (Z.to_nat braceStart))
      as Hscan.
    cbv zeta in Hscan. rewrite Z2Nat.id in Hscan by lia. fold endIdx in Hscan.
    destruct Hscan as [[? _]|(j & Hj & Hcl & Hrb & _)]; [contradiction|].
    apply Z.eqb_neq in He. rewrite He.
    assert (Hle : Z.to_nat braceStart <= j) by apply Hcl.
    rewrite Hj. rewrite Nat2Z.id.
    rewrite substring_last with (c := RBRACE); [|lia | exact Hrb].
    rewrite trimEnd_last by reflexivity. split; [reflexivity | exact Hcl].
Qed.

(** A record declaration ends at its semicolon, which comes before the
    brace of the class that follows, and starts at its doc comment, after
    the two blanks in front of it. *)
Lemma type_declaration_extent_witness :
  exec (declPattern (str "Point")) CsSamples.recordDecl
  = Some CsSamples.recordMatch /\
  declStart_of CsSamples.recordMatch = 2%Z /\
  extractCsSymbol_in CsSamples.recordDecl (str "Point")
  = Some (str "/// A point.
  public record Point(int X, int Y);").
Proof.
  assert (H : exec (declPattern (str "Point")) CsSamples.recordDecl
              = Some CsSamples.recordMatch) by (vm_compute; reflexivity).
  split; [exact H|]. split; [reflexivity|].
  pose proof (type_declaration_extent CsSamples.recordDecl
                (str "Point") CsSamples.recordMatch H)
    as (_ & _ & _ & _ & _ & _ & _ & Hsemi & _).
  rewrite Hsemi.
  - vm_compute. reflexivity.
  - split; [vm_compute; discriminate | right; vm_compute; reflexivity].
Defined.
